(** * viona: the virtqueue data plane of the VirtIO network accelerator

    A shallow embedding of the ring handling of
    [usr/src/uts/i86pc/io/viona/viona.c]: the descriptor parser
    [vq_popchain], the used-ring pushes [vq_pushchain] and
    [vq_pushchain_mrgrx], the receive copy paths [viona_recv_plain] and
    [viona_recv_merged], the transmit path [viona_tx] with its checksum
    programming [viona_tx_csum], and the notification entry points.

    Conventions.  C integers are [Z] with the wrap-around of their width
    written out ([u16], [u32], [u64]).  Arrays that live in memory (the
    descriptor table, the available and used rings, the desb table) are
    functions from the index to the element; guest buffers are bytes in a
    flat memory [gmem] addressed by host-virtual address.  Every ring
    carries a ghost log [vr_log] of the externally visible actions taken on
    its behalf, in program order. *)

From Stdlib Require Import ZArith List Bool Lia.
Import ListNotations.
Local Open Scope Z_scope.

(** ** Machine integers *)

Definition u8 (x : Z) : Z := x mod 2 ^ 8.
Definition u16 (x : Z) : Z := x mod 2 ^ 16.
Definition u32 (x : Z) : Z := x mod 2 ^ 32.
Definition u64 (x : Z) : Z := x mod 2 ^ 64.

(** Number of elements of a list as a C integer. *)
Definition zlen {A : Type} (l : list A) : Z := Z.of_nat (length l).

(** ** Constants defined in viona.c *)

Definition MIN_BUF_SIZE : Z := 60.
Definition VTNET_MAXSEGS : Z := 32.
Definition VRING_MAX_LEN : Z := 32768.

Definition VRING_DESC_F_NEXT : Z := 1.
Definition VRING_DESC_F_WRITE : Z := 2.
Definition VRING_DESC_F_INDIRECT : Z := 4.

Definition VIRTIO_NET_HDR_F_NEEDS_CSUM : Z := 1.
Definition VIRTIO_NET_HDR_F_DATA_VALID : Z := 2.
Definition VIRTIO_NET_HDR_GSO_NONE : Z := 0.
Definition VIRTIO_NET_HDR_GSO_TCPV4 : Z := 1.

Definition VRING_AVAIL_F_NO_INTERRUPT : Z := 1.
Definition VRING_USED_F_NO_NOTIFY : Z := 1.

Definition VIRTIO_NET_F_CSUM : Z := Z.shiftl 1 0.
Definition VIRTIO_NET_F_GUEST_CSUM : Z := Z.shiftl 1 1.
Definition VIRTIO_NET_F_MAC : Z := Z.shiftl 1 5.
Definition VIRTIO_NET_F_GUEST_TSO4 : Z := Z.shiftl 1 7.
Definition VIRTIO_NET_F_HOST_TSO4 : Z := Z.shiftl 1 11.
Definition VIRTIO_NET_F_MRG_RXBUF : Z := Z.shiftl 1 15.
Definition VIRTIO_NET_F_STATUS : Z := Z.shiftl 1 16.
Definition VIRTIO_F_RING_NOTIFY_ON_EMPTY : Z := Z.shiftl 1 24.
Definition VIRTIO_F_RING_INDIRECT_DESC : Z := Z.shiftl 1 28.

Definition VIONA_S_HOSTCAPS : Z :=
  Z.lor VIRTIO_NET_F_GUEST_CSUM
    (Z.lor VIRTIO_NET_F_MAC
      (Z.lor VIRTIO_NET_F_GUEST_TSO4
        (Z.lor VIRTIO_NET_F_MRG_RXBUF
          (Z.lor VIRTIO_NET_F_STATUS
            (Z.lor VIRTIO_F_RING_NOTIFY_ON_EMPTY
                   VIRTIO_F_RING_INDIRECT_DESC))))).

(** [sizeof (struct virtio_net_hdr)] and [sizeof (struct
    virtio_net_mrgrxhdr)]: both structures are packed. *)
Definition sizeof_virtio_net_hdr : Z := 10.
Definition sizeof_virtio_net_mrgrxhdr : Z := 12.
(** [sizeof (struct virtio_desc)], packed. *)
Definition sizeof_virtio_desc : Z := 16.

(** ** Ring state and state flags *)

Inductive viona_ring_state := VRS_RESET | VRS_SETUP | VRS_INIT | VRS_RUN.

Definition VRSF_REQ_START : Z := 1.
Definition VRSF_REQ_STOP : Z := 2.
Definition VRSF_RENEW : Z := 4.

(** Error numbers returned by the routines modelled here. *)
Inductive errno := EOK | EINVAL | EBUSY | ENOSPC | ENOMEM | EMSGSIZE | EOVERFLOW.

(** ** Structures shared with the guest *)

Record virtio_desc := {
  vd_addr : Z;    (* uint64_t *)
  vd_len : Z;     (* uint32_t *)
  vd_flags : Z;   (* uint16_t *)
  vd_next : Z     (* uint16_t *)
}.

Record virtio_used := {
  vu_idx : Z;     (* uint32_t *)
  vu_tlen : Z     (* uint32_t *)
}.

Record iovec := { iov_base : Z; iov_len : Z }.

Record used_elem := { id : Z (* uint16_t *); len : Z (* uint32_t *) }.

(** ** Per-ring statistics

    [VIONA_RING_STAT_INCR (r, name)] increments the 64-bit counter
    [rs_name]; the counters are indexed here by their name. *)

Inductive ring_stat :=
| rs_ndesc_too_high | rs_bad_idx | rs_indir_bad_len | rs_indir_bad_nest
| rs_indir_bad_next | rs_no_space | rs_too_many_desc | rs_desc_bad_len
| rs_bad_ring_addr
| rs_fail_hcksum | rs_fail_hcksum6 | rs_fail_hcksum_proto
| rs_bad_rx_frame | rs_rx_merge_overrun | rs_rx_merge_underrun
| rs_rx_pad_short | rs_rx_mcast_check | rs_too_short | rs_tx_absent
| rs_rx_hookdrop | rs_tx_hookdrop.

Scheme Equality for ring_stat.

Definition viona_ring_stats := ring_stat -> Z.

(** ** Guest memory and observable actions *)

(** Bytes of guest memory by host-virtual address. *)
Definition gmem := Z -> Z.

(** One block of a host frame: an [mblk_t] with the bytes between
    [b_rptr] and [b_wptr].  [blk_desb] tells whether its free routine is
    [viona_desb_release] (the block came from [desballoc] with the ring's
    [d_frtn]). *)
Record mblk := { blk_desb : bool; blk_data : list Z }.

(** The 16-bit stores [viona_tx_csum] makes into the first block. *)
Inductive hdr_store :=
| StPseudoCksum    (* *(cksump) = ..., the TCP pseudo-header checksum for LSO *)
| StIpHdrCksum     (* ipha->ipha_hdr_checksum = 0 *)
| StCsumField.     (* *csump = 0 at csum_stuff, the offset the guest gave *)

Inductive event :=
| EvUsedWrite (slot idx tlen : Z)  (* vu->vu_idx = idx; vu->vu_tlen = tlen *)
| EvMembarProducer                 (* membar_producer () *)
| EvUsedIdx (v : Z)                (* *ring->vr_used_idx = v *)
| EvMsi (addr msg : Z)             (* vmm_drv_msi (lease, addr, msg) *)
| EvPollwakeup                     (* pollwakeup (&l_pollhead, POLLRDBAND) *)
| EvCvBroadcast                    (* cv_broadcast (&ring->vr_cv) *)
| EvMacTx (frame : list mblk)      (* mac_tx (l_mch, frame, ...) *)
| EvStore16 (what : hdr_store) (off : Z)
                                   (* a 16-bit store at b_rptr + off of the
                                      first block of the frame being built *)
| EvHcksum (start stuff end_ : Z) (full : bool).
                                   (* mac_hcksum_set (mp, start, stuff, end_,
                                      0, flags); full: HCK_FULLCKSUM rather
                                      than HCK_PARTIALCKSUM *)

(** ** Reclamation descriptors *)

Record viona_desb := {
  d_ref : Z;       (* uint_t *)
  d_len : Z;       (* uint32_t *)
  d_cookie : Z;    (* uint16_t *)
  d_headers : Z -> Z  (* uchar_t *d_headers: VIONA_MAX_HDRS_LEN bytes, by offset *)
}.

(** ** The ring

    [viona_ring_map] points [vr_descr], [vr_avail_*] and [vr_used_*] into
    the leased guest memory, the memory that also holds the guest's
    buffers.  What the driver sees through these pointers is kept here as
    fields of the ring, apart from [gmem], and a store through one of them
    is an update of the field.  This describes the program for a guest
    whose buffers share no byte with the three regions of the ring: a
    [bcopy] into a buffer laid over a ring would change the views, which no
    update of [gmem] does here.  The statements on what a receive leaves in
    the buffers and in the used ring are made for such buffers; they say so
    by [off_rings]. *)

Record viona_vring := {
  vr_state : viona_ring_state;
  vr_state_flags : Z;
  vr_xfer_outstanding : Z;
  (* the lease: translation of (gpa, len) to a host address, NULL = None *)
  vr_lease : Z -> Z -> option Z;
  (* ring-sized resources for TX activity; None = NULL *)
  vr_txdesb : option (Z -> viona_desb);
  vr_intr_enabled : Z;
  vr_msi_addr : Z;
  vr_msi_msg : Z;
  vr_size : Z;
  vr_mask : Z;
  vr_cur_aidx : Z;
  (* host-context views of the queue *)
  vr_descr : Z -> virtio_desc;
  vr_avail_flags : Z;
  vr_avail_idx : Z;
  vr_avail_ring : Z -> Z;
  vr_used_flags : Z;
  vr_used_idx : Z;
  vr_used_ring : Z -> virtio_used;
  vr_stats : viona_ring_stats;
  (* ghost: observable actions in program order *)
  vr_log : list event
}.

Definition set_cur_aidx (v : Z) (r : viona_vring) : viona_vring :=
  {| vr_state := vr_state r; vr_state_flags := vr_state_flags r;
     vr_xfer_outstanding := vr_xfer_outstanding r; vr_lease := vr_lease r;
     vr_txdesb := vr_txdesb r; vr_intr_enabled := vr_intr_enabled r;
     vr_msi_addr := vr_msi_addr r; vr_msi_msg := vr_msi_msg r;
     vr_size := vr_size r; vr_mask := vr_mask r; vr_cur_aidx := v;
     vr_descr := vr_descr r; vr_avail_flags := vr_avail_flags r;
     vr_avail_idx := vr_avail_idx r; vr_avail_ring := vr_avail_ring r;
     vr_used_flags := vr_used_flags r; vr_used_idx := vr_used_idx r;
     vr_used_ring := vr_used_ring r; vr_stats := vr_stats r;
     vr_log := vr_log r |}.

Definition set_stats (v : viona_ring_stats) (r : viona_vring) : viona_vring :=
  {| vr_state := vr_state r; vr_state_flags := vr_state_flags r;
     vr_xfer_outstanding := vr_xfer_outstanding r; vr_lease := vr_lease r;
     vr_txdesb := vr_txdesb r; vr_intr_enabled := vr_intr_enabled r;
     vr_msi_addr := vr_msi_addr r; vr_msi_msg := vr_msi_msg r;
     vr_size := vr_size r; vr_mask := vr_mask r; vr_cur_aidx := vr_cur_aidx r;
     vr_descr := vr_descr r; vr_avail_flags := vr_avail_flags r;
     vr_avail_idx := vr_avail_idx r; vr_avail_ring := vr_avail_ring r;
     vr_used_flags := vr_used_flags r; vr_used_idx := vr_used_idx r;
     vr_used_ring := vr_used_ring r; vr_stats := v;
     vr_log := vr_log r |}.

Definition set_used (uidx : Z) (ur : Z -> virtio_used) (r : viona_vring)
  : viona_vring :=
  {| vr_state := vr_state r; vr_state_flags := vr_state_flags r;
     vr_xfer_outstanding := vr_xfer_outstanding r; vr_lease := vr_lease r;
     vr_txdesb := vr_txdesb r; vr_intr_enabled := vr_intr_enabled r;
     vr_msi_addr := vr_msi_addr r; vr_msi_msg := vr_msi_msg r;
     vr_size := vr_size r; vr_mask := vr_mask r; vr_cur_aidx := vr_cur_aidx r;
     vr_descr := vr_descr r; vr_avail_flags := vr_avail_flags r;
     vr_avail_idx := vr_avail_idx r; vr_avail_ring := vr_avail_ring r;
     vr_used_flags := vr_used_flags r; vr_used_idx := uidx;
     vr_used_ring := ur; vr_stats := vr_stats r;
     vr_log := vr_log r |}.

Definition set_log (v : list event) (r : viona_vring) : viona_vring :=
  {| vr_state := vr_state r; vr_state_flags := vr_state_flags r;
     vr_xfer_outstanding := vr_xfer_outstanding r; vr_lease := vr_lease r;
     vr_txdesb := vr_txdesb r; vr_intr_enabled := vr_intr_enabled r;
     vr_msi_addr := vr_msi_addr r; vr_msi_msg := vr_msi_msg r;
     vr_size := vr_size r; vr_mask := vr_mask r; vr_cur_aidx := vr_cur_aidx r;
     vr_descr := vr_descr r; vr_avail_flags := vr_avail_flags r;
     vr_avail_idx := vr_avail_idx r; vr_avail_ring := vr_avail_ring r;
     vr_used_flags := vr_used_flags r; vr_used_idx := vr_used_idx r;
     vr_used_ring := vr_used_ring r; vr_stats := vr_stats r;
     vr_log := v |}.

Definition set_intr_enabled (v : Z) (r : viona_vring) : viona_vring :=
  {| vr_state := vr_state r; vr_state_flags := vr_state_flags r;
     vr_xfer_outstanding := vr_xfer_outstanding r; vr_lease := vr_lease r;
     vr_txdesb := vr_txdesb r; vr_intr_enabled := v;
     vr_msi_addr := vr_msi_addr r; vr_msi_msg := vr_msi_msg r;
     vr_size := vr_size r; vr_mask := vr_mask r; vr_cur_aidx := vr_cur_aidx r;
     vr_descr := vr_descr r; vr_avail_flags := vr_avail_flags r;
     vr_avail_idx := vr_avail_idx r; vr_avail_ring := vr_avail_ring r;
     vr_used_flags := vr_used_flags r; vr_used_idx := vr_used_idx r;
     vr_used_ring := vr_used_ring r; vr_stats := vr_stats r;
     vr_log := vr_log r |}.

Definition set_state_flags (v : Z) (r : viona_vring) : viona_vring :=
  {| vr_state := vr_state r; vr_state_flags := v;
     vr_xfer_outstanding := vr_xfer_outstanding r; vr_lease := vr_lease r;
     vr_txdesb := vr_txdesb r; vr_intr_enabled := vr_intr_enabled r;
     vr_msi_addr := vr_msi_addr r; vr_msi_msg := vr_msi_msg r;
     vr_size := vr_size r; vr_mask := vr_mask r; vr_cur_aidx := vr_cur_aidx r;
     vr_descr := vr_descr r; vr_avail_flags := vr_avail_flags r;
     vr_avail_idx := vr_avail_idx r; vr_avail_ring := vr_avail_ring r;
     vr_used_flags := vr_used_flags r; vr_used_idx := vr_used_idx r;
     vr_used_ring := vr_used_ring r; vr_stats := vr_stats r;
     vr_log := vr_log r |}.

Definition set_xfer_outstanding (v : Z) (r : viona_vring) : viona_vring :=
  {| vr_state := vr_state r; vr_state_flags := vr_state_flags r;
     vr_xfer_outstanding := v; vr_lease := vr_lease r;
     vr_txdesb := vr_txdesb r; vr_intr_enabled := vr_intr_enabled r;
     vr_msi_addr := vr_msi_addr r; vr_msi_msg := vr_msi_msg r;
     vr_size := vr_size r; vr_mask := vr_mask r; vr_cur_aidx := vr_cur_aidx r;
     vr_descr := vr_descr r; vr_avail_flags := vr_avail_flags r;
     vr_avail_idx := vr_avail_idx r; vr_avail_ring := vr_avail_ring r;
     vr_used_flags := vr_used_flags r; vr_used_idx := vr_used_idx r;
     vr_used_ring := vr_used_ring r; vr_stats := vr_stats r;
     vr_log := vr_log r |}.

Definition set_txdesb (v : option (Z -> viona_desb)) (r : viona_vring)
  : viona_vring :=
  {| vr_state := vr_state r; vr_state_flags := vr_state_flags r;
     vr_xfer_outstanding := vr_xfer_outstanding r; vr_lease := vr_lease r;
     vr_txdesb := v; vr_intr_enabled := vr_intr_enabled r;
     vr_msi_addr := vr_msi_addr r; vr_msi_msg := vr_msi_msg r;
     vr_size := vr_size r; vr_mask := vr_mask r; vr_cur_aidx := vr_cur_aidx r;
     vr_descr := vr_descr r; vr_avail_flags := vr_avail_flags r;
     vr_avail_idx := vr_avail_idx r; vr_avail_ring := vr_avail_ring r;
     vr_used_flags := vr_used_flags r; vr_used_idx := vr_used_idx r;
     vr_used_ring := vr_used_ring r; vr_stats := vr_stats r;
     vr_log := vr_log r |}.

(** [VIONA_RING_STAT_INCR (ring, name)] *)
Definition VIONA_RING_STAT_INCR (r : viona_vring) (name : ring_stat)
  : viona_vring :=
  set_stats (fun s => if ring_stat_beq name s then u64 (vr_stats r s + 1)
                      else vr_stats r s) r.

(** Append one action to the ring's log. *)
Definition emit (e : event) (r : viona_vring) : viona_vring :=
  set_log (vr_log r ++ [e]) r.

(** ** Loads from memory shared with the guest *)

Definition byte_at (m : gmem) (a : Z) : Z := u8 (m a).

(** Little-endian load of [n] bytes at [a]. *)
Fixpoint load_le (m : gmem) (a : Z) (n : nat) : Z :=
  match n with
  | O => 0
  | S n' => byte_at m a + 256 * load_le m (a + 1) n'
  end.

(** A [struct virtio_desc] read from guest memory at host address [a]. *)
Definition load_desc (m : gmem) (a : Z) : virtio_desc :=
  {| vd_addr := load_le m a 8;
     vd_len := load_le m (a + 8) 4;
     vd_flags := load_le m (a + 12) 2;
     vd_next := load_le m (a + 14) 2 |}.

(** [ring->vr_descr[i]], a copy of the guest's descriptor. *)
Definition load_descr (r : viona_vring) (i : Z) : virtio_desc :=
  {| vd_addr := u64 (vd_addr (vr_descr r i));
     vd_len := u32 (vd_len (vr_descr r i));
     vd_flags := u16 (vd_flags (vr_descr r i));
     vd_next := u16 (vd_next (vr_descr r i)) |}.

(** [*ring->vr_avail_idx], [ring->vr_avail_ring[i]], [*ring->vr_avail_flags] *)
Definition load_avail_idx (r : viona_vring) : Z := u16 (vr_avail_idx r).
Definition load_avail_ring (r : viona_vring) (i : Z) : Z := u16 (vr_avail_ring r i).
Definition load_avail_flags (r : viona_vring) : Z := u16 (vr_avail_flags r).

(** ** Address translation *)

Definition viona_gpa2kva (r : viona_vring) (gpa len : Z) : option Z :=
  vr_lease r gpa len.

(** ** The descriptor parser *)

(** Outcome of walking a chain. *)
Inductive walk :=
| WalkDone (iov : list iovec)   (* the chain ended on an entry without NEXT *)
| WalkLoopy                     (* goto loopy *)
| WalkBail (s : ring_stat)      (* VIONA_RING_STAT_INCR (ring, s); goto bail *)
| WalkFuel.                     (* the model's recursion budget ran out *)

Definition has_flag (flags bit : Z) : bool := negb (Z.land flags bit =? 0).

(** The [for (;;)] loop over an indirect table of [nindir] entries at host
    address [vindir]; [iov] holds the [i] segments collected so far. *)
Fixpoint popchain_indir (fuel : nat) (ring : viona_vring) (m : gmem)
    (vindir nindir niov next : Z) (iov : list iovec) : walk :=
  match fuel with
  | O => WalkFuel
  | S fuel' =>
    let vp := load_desc m (vindir + sizeof_virtio_desc * next) in
    if has_flag (vd_flags vp) VRING_DESC_F_INDIRECT then
      WalkBail rs_indir_bad_nest
    else if vd_len vp =? 0 then
      WalkBail rs_desc_bad_len
    else
      match viona_gpa2kva ring (vd_addr vp) (vd_len vp) with
      | None => WalkBail rs_bad_ring_addr
      | Some buf =>
        let iov' := iov ++ [{| iov_base := buf; iov_len := vd_len vp |}] in
        if negb (has_flag (vd_flags vp) VRING_DESC_F_NEXT) then WalkDone iov'
        else if zlen iov' >=? niov then WalkLoopy
        else
          let next' := vd_next vp in
          if next' >=? nindir then WalkBail rs_indir_bad_next
          else popchain_indir fuel' ring m vindir nindir niov next' iov'
      end
  end.

(** The [else] branch of the outer loop body: [vdir] has INDIRECT set. *)
Definition popchain_indirect (ring : viona_vring) (m : gmem) (niov : Z)
    (vdir : virtio_desc) (iov : list iovec) : walk :=
  let nindir := vd_len vdir / 16 in
  if negb (Z.land (vd_len vdir) 15 =? 0) || (nindir =? 0) then
    WalkBail rs_indir_bad_len
  else
    match viona_gpa2kva ring (vd_addr vdir) (vd_len vdir) with
    | None => WalkBail rs_bad_ring_addr
    | Some vindir =>
      popchain_indir (Z.to_nat niov) ring m vindir nindir niov 0 iov
    end.

(** The outer [for (i = 0; i < niov; next = vdir.vd_next)] loop. *)
Fixpoint popchain_walk (fuel : nat) (ring : viona_vring) (m : gmem)
    (niov next : Z) (iov : list iovec) : walk :=
  match fuel with
  | O => WalkFuel
  | S fuel' =>
    if zlen iov <? niov then
      if next >=? vr_size ring then WalkBail rs_bad_idx
      else
        let vdir := load_descr ring next in
        let body :=
          if negb (has_flag (vd_flags vdir) VRING_DESC_F_INDIRECT) then
            if vd_len vdir =? 0 then WalkBail rs_desc_bad_len
            else
              match viona_gpa2kva ring (vd_addr vdir) (vd_len vdir) with
              | None => WalkBail rs_bad_ring_addr
              | Some buf =>
                WalkDone (iov ++ [{| iov_base := buf; iov_len := vd_len vdir |}])
              end
          else popchain_indirect ring m niov vdir iov in
        match body with
        | WalkDone iov' =>
          if negb (has_flag (vd_flags vdir) VRING_DESC_F_NEXT)
          then WalkDone iov'
          else popchain_walk fuel' ring m niov (vd_next vdir) iov'
        | w => w
        end
    else WalkLoopy
  end.

(** What [vq_popchain] hands back: its return value together with the
    [iov] entries and the cookie it wrote. *)
Inductive pop_result :=
| PopEmpty                                   (* return (0) *)
| PopChain (iov : list iovec) (cookie : Z)   (* return (i), i >= 1 *)
| PopFail.                                   (* return (-1) *)

Definition pop_retval (res : pop_result) : Z :=
  match res with
  | PopEmpty => 0
  | PopChain iov _ => zlen iov
  | PopFail => -1
  end.

(** [vq_popchain (ring, iov, niov, &cookie)].  The walk is given [niov + 1]
    rounds, which [popchain_walk_total] shows is always enough, so the
    [WalkFuel] branch is never taken. *)
Definition vq_popchain (ring : viona_vring) (m : gmem) (niov : Z)
  : viona_vring * pop_result :=
  let idx := vr_cur_aidx ring in
  let ndesc := u16 (u32 (load_avail_idx ring - idx)) in
  if ndesc =? 0 then (ring, PopEmpty)
  else
    let ring1 := if ndesc >? vr_size ring
                 then VIONA_RING_STAT_INCR ring rs_ndesc_too_high else ring in
    let head := load_avail_ring ring1 (Z.land idx (vr_mask ring1)) in
    match popchain_walk (S (Z.to_nat niov)) ring1 m niov head [] with
    | WalkDone iov =>
      (set_cur_aidx (u16 (vr_cur_aidx ring1 + 1)) ring1, PopChain iov head)
    | WalkLoopy => (VIONA_RING_STAT_INCR ring1 rs_too_many_desc, PopFail)
    | WalkBail s => (VIONA_RING_STAT_INCR ring1 s, PopFail)
    | WalkFuel => (ring1, PopFail)
    end.

(** ** Used-ring pushes *)

(** [*ring->vr_used_idx] *)
Definition load_used_idx (r : viona_vring) : Z := u16 (vr_used_idx r).

(** [vu = &ring->vr_used_ring[slot]; vu->vu_idx = idx; vu->vu_tlen = tlen] *)
Definition used_store (slot idx tlen : Z) (r : viona_vring) : viona_vring :=
  emit (EvUsedWrite slot idx tlen)
    (set_used (vr_used_idx r)
       (fun i => if i =? slot then {| vu_idx := idx; vu_tlen := tlen |}
                 else vr_used_ring r i) r).

Definition membar_producer (r : viona_vring) : viona_vring :=
  emit EvMembarProducer r.

(** [*ring->vr_used_idx = uidx]: a 16-bit store of a [uint_t]. *)
Definition used_idx_store (uidx : Z) (r : viona_vring) : viona_vring :=
  emit (EvUsedIdx (u16 uidx)) (set_used (u16 uidx) (vr_used_ring r) r).

(** [vq_pushchain (ring, len, cookie)] *)
Definition vq_pushchain (ring : viona_vring) (len cookie : Z) : viona_vring :=
  let uidx := load_used_idx ring in
  let ring := used_store (Z.land uidx (vr_mask ring)) cookie len ring in
  let uidx := u32 (uidx + 1) in
  let ring := membar_producer ring in
  used_idx_store uidx ring.

(** The default read for an index past the end of a C array handed to the
    model as a list; the callers never read there. *)
Definition used_elem0 : used_elem := {| id := 0; len := 0 |}.

(** The [for (i = 0; i < num_bufs; i++)] loop of [vq_pushchain_mrgrx],
    with [n] rounds left. *)
Fixpoint mrgrx_loop (n : nat) (i uidx : Z) (elem : list used_elem)
    (ring : viona_vring) : viona_vring :=
  match n with
  | O => ring
  | S n' =>
    let e := nth (Z.to_nat i) elem used_elem0 in
    let ring := used_store (Z.land (u32 (uidx + i)) (vr_mask ring))
                  (id e) (len e) ring in
    mrgrx_loop n' (i + 1) uidx elem ring
  end.

(** [vq_pushchain_mrgrx (ring, num_bufs, elem)].  The loop compares the
    [uint_t] counter with the [int] [num_bufs], that is with
    [u32 num_bufs]. *)
Definition vq_pushchain_mrgrx (ring : viona_vring) (num_bufs : Z)
    (elem : list used_elem) : viona_vring :=
  let uidx := load_used_idx ring in
  if num_bufs =? 1 then
    let e := nth 0 elem used_elem0 in
    let ring := used_store (Z.land uidx (vr_mask ring)) (id e) (len e) ring in
    let uidx := u32 (uidx + 1) in
    let ring := membar_producer ring in
    used_idx_store uidx ring
  else
    let ring := mrgrx_loop (Z.to_nat (u32 num_bufs)) 0 uidx elem ring in
    let uidx := u32 (uidx + num_bufs) in
    let ring := membar_producer ring in
    used_idx_store uidx ring.

(** ** Interrupts *)

(** [viona_intr_ring (ring)]: an MSI when one is configured, otherwise the
    0 -> 1 edge of [vr_intr_enabled] wakes the poller. *)
Definition viona_intr_ring (ring : viona_vring) : viona_vring :=
  if negb (vr_msi_addr ring =? 0) then
    emit (EvMsi (vr_msi_addr ring) (vr_msi_msg ring)) ring
  else if vr_intr_enabled ring =? 0 then
    emit EvPollwakeup (set_intr_enabled 1 ring)
  else ring.

(** [viona_tx_done (ring, len, cookie)] *)
Definition viona_tx_done (ring : viona_vring) (len cookie : Z) : viona_vring :=
  let ring := vq_pushchain ring len cookie in
  if Z.land (load_avail_flags ring) VRING_AVAIL_F_NO_INTERRUPT =? 0
  then viona_intr_ring ring else ring.

(** ** The link and the kick *)

(** Modelled from the spec: [VIONA_VQ_MAX] comes from [sys/viona_io.h],
    which is not part of the sources at hand; a link aggregates two rings,
    RX and TX, indexed by direction. *)
Definition VIONA_VQ_MAX : Z := 2.
Definition VIONA_VQ_RX : Z := 0.
Definition VIONA_VQ_TX : Z := 1.

Record viona_link := {
  l_vrings : Z -> viona_vring;
  l_features : Z;
  l_cap_csum : Z;
  l_notify_ioport : Z;
  (* VNETHOOK_INTERESTED_IN / VNETHOOK_INTERESTED_OUT of l_neti *)
  l_hook_in : bool;
  l_hook_out : bool
}.

Definition set_vring (idx : Z) (r : viona_vring) (l : viona_link) : viona_link :=
  {| l_vrings := fun i => if i =? idx then r else l_vrings l i;
     l_features := l_features l; l_cap_csum := l_cap_csum l;
     l_notify_ioport := l_notify_ioport l;
     l_hook_in := l_hook_in l; l_hook_out := l_hook_out l |}.

(** [viona_ioc_ring_kick (link, idx)] *)
Definition viona_ioc_ring_kick (link : viona_link) (idx : Z)
  : viona_link * errno :=
  if idx >=? VIONA_VQ_MAX then (link, EINVAL)
  else
    let ring := l_vrings link idx in
    match vr_state ring with
    | VRS_SETUP | VRS_INIT =>
      let ring := set_state_flags
                    (Z.lor (vr_state_flags ring) VRSF_REQ_START) ring in
      (set_vring idx (emit EvCvBroadcast ring) link, EOK)
    | VRS_RUN => (set_vring idx (emit EvCvBroadcast ring) link, EOK)
    | VRS_RESET => (link, EBUSY)
    end.

(** [viona_notify_wcb (link, ioport, sz, val)] *)
Definition viona_notify_wcb (link : viona_link) (ioport sz val : Z)
  : viona_link * errno :=
  let vq := u16 val in
  if negb (ioport =? l_notify_ioport link) || negb (sz =? 2) then (link, EINVAL)
  else viona_ioc_ring_kick link vq.

(** [viona_vr_num_avail (ring)] *)
Definition viona_vr_num_avail (ring : viona_vring) : Z :=
  u16 (u32 (load_avail_idx ring - vr_cur_aidx ring)).

(** ** Stores to guest memory *)

(** [bcopy (src, dst, |src|)] *)
Definition bcopy (src : list Z) (dst : Z) (m : gmem) : gmem :=
  fun a => if (dst <=? a) && (a <? dst + zlen src)
           then nth (Z.to_nat (a - dst)) src 0 else m a.

(** [bzero (dst, n)] *)
Definition bzero (dst n : Z) (m : gmem) : gmem :=
  fun a => if (dst <=? a) && (a <? dst + n) then 0 else m a.

Definition store8 (a v : Z) (m : gmem) : gmem :=
  fun x => if x =? a then u8 v else m x.

(** A little-endian 16-bit store. *)
Definition store16 (a v : Z) (m : gmem) : gmem :=
  store8 (a + 1) (u16 v / 256) (store8 a (u16 v) m).

Definition load16 (m : gmem) (a : Z) : Z := load_le m a 2.

(** Offsets of the fields of [struct virtio_net_hdr] and [struct
    virtio_net_mrgrxhdr] (packed). *)
Definition off_vrh_flags : Z := 0.
Definition off_vrh_gso_type : Z := 1.
Definition off_vrh_hdr_len : Z := 2.
Definition off_vrh_gso_size : Z := 4.
Definition off_vrh_csum_start : Z := 6.
Definition off_vrh_csum_offset : Z := 8.
Definition off_vrh_bufs : Z := 10.

(** ** Host frames *)

Definition MBLKL (b : mblk) : Z := zlen (blk_data b).

(** A message handed over by MAC: the [b_cont] chain of its blocks and the
    attributes of its data block that the receive path tests.  The flag
    values [HW_LSO], [HW_LOCAL_MAC] and [HCK_FULLCKSUM_OK] live in headers
    outside these sources, so the outcome of each test is an attribute. *)
Record msg := {
  m_blocks : list mblk;
  m_hw_lso : bool;          (* (DB_CKSUMFLAGS (mp) & HW_LSO) != 0 *)
  m_lsomss : Z;             (* DB_LSOMSS (mp) *)
  m_fullcksum_ok : bool;    (* mac_hcksum_get flags & HCK_FULLCKSUM_OK *)
  m_local_mac : bool        (* (DB_CKSUMFLAGS (mp) & HW_LOCAL_MAC) != 0 *)
}.

(** [msgsize (mp)] *)
Definition msgsize (blocks : list mblk) : Z :=
  fold_right (fun b acc => MBLKL b + acc) 0 blocks.

(** The bytes of a message in order. *)
Definition msgdata (blocks : list mblk) : list Z :=
  flat_map blk_data blocks.

(** ** The frame copy helper *)

(** The first loop of [viona_copy_mblk]: seek past already-consumed data.
    Returns the block to continue with and the offset into it. *)
Fixpoint copy_seek (mp : list mblk) (seek : Z) : list mblk * Z :=
  match mp with
  | [] => ([], 0)
  | b :: rest =>
    if seek >? 0 then
      let chunk := MBLKL b in
      if chunk >? seek then (mp, seek)
      else copy_seek rest (seek - chunk)
    else (mp, 0)
  end.

(** The second loop of [viona_copy_mblk]: copy until the buffer is full or
    the message ends.  Returns memory, the bytes copied and [*end]. *)
Fixpoint copy_loop (mp : list mblk) (off buf len copied : Z) (m : gmem)
  : gmem * Z * bool :=
  match mp with
  | [] => (m, copied, true)
  | b :: rest =>
    let chunk := MBLKL b - off in
    let to_copy := Z.min chunk len in
    let m := bcopy (firstn (Z.to_nat to_copy) (skipn (Z.to_nat off) (blk_data b)))
                   buf m in
    let copied := copied + to_copy in
    let buf := buf + to_copy in
    let len := len - to_copy in
    if chunk =? to_copy then
      (* mp = mp->b_cont; off = 0 *)
      if len =? 0 then (m, copied, match rest with [] => true | _ => false end)
      else copy_loop rest 0 buf len copied m
    else
      (* only a full buffer stops short of the block's end: len is 0 here *)
      (m, copied, false)
  end.

(** [viona_copy_mblk (mp, seek, buf, len, &end)] *)
Definition viona_copy_mblk (mp : list mblk) (seek buf len : Z) (m : gmem)
  : gmem * Z * bool :=
  let (mp', off) := copy_seek mp seek in
  copy_loop mp' off buf len 0 m.

(** ** Receive: the plain layout *)

Definition iovec0 : iovec := {| iov_base := 0; iov_len := 0 |}.

(** The checksum bits both receive paths add to the header at [hdr]. *)
Definition rx_hdr_csum (features : Z) (mp : msg) (hdr : Z) (m : gmem) : gmem :=
  if negb (Z.land features VIRTIO_NET_F_GUEST_CSUM =? 0) then
    let m :=
      if negb (Z.land features VIRTIO_NET_F_GUEST_TSO4 =? 0) && m_hw_lso mp then
        let m := store8 (hdr + off_vrh_gso_type)
                   (Z.lor (byte_at m (hdr + off_vrh_gso_type))
                          VIRTIO_NET_HDR_GSO_TCPV4) m in
        store16 (hdr + off_vrh_gso_size) (m_lsomss mp) m
      else m in
    if m_fullcksum_ok mp then
      store8 (hdr + off_vrh_flags)
        (Z.lor (byte_at m (hdr + off_vrh_flags)) VIRTIO_NET_HDR_F_DATA_VALID) m
    else m
  else m.

(** The loop [for (i = 1; i < n && !end; i++)] of [viona_recv_plain] over
    the segments after the first. *)
Fixpoint plain_copy_rest (iov : list iovec) (mp : list mblk) (m : gmem)
    (copied : Z) (end_ : bool) : gmem * Z * bool :=
  match iov with
  | [] => (m, copied, end_)
  | v :: rest =>
    if end_ then (m, copied, end_)
    else
      let '(m, c, e) := viona_copy_mblk mp copied (iov_base v) (iov_len v) m in
      plain_copy_rest rest mp m (copied + c) e
  end.

(** The payload copy of [viona_recv_plain] into a popped chain whose first
    segment holds at least the header: memory afterwards, bytes copied and
    whether the message ended. *)
Definition plain_copy (iov : list iovec) (mp : list mblk) (m : gmem)
  : gmem * Z * bool :=
  let hdr_sz := sizeof_virtio_net_hdr in
  let iov0 := hd iovec0 iov in
  let '(m, copied, end_) :=
    if iov_len iov0 >? hdr_sz then
      viona_copy_mblk mp 0 (iov_base iov0 + hdr_sz) (iov_len iov0 - hdr_sz) m
    else (m, 0, false) in
  plain_copy_rest (tl iov) mp m copied end_.

(** The number of payload bytes [viona_recv_plain] has copied when it
    decides about the frame: none when the first segment cannot even hold
    the header. *)
Definition plain_copied (iov : list iovec) (mp : list mblk) (m : gmem) : Z :=
  if iov_len (hd iovec0 iov) <? sizeof_virtio_net_hdr then 0
  else snd (fst (plain_copy iov mp m)).

(** The [bad_frame] exit of [viona_recv_plain]. *)
Definition plain_bad_frame (ring : viona_vring) (copied cookie : Z)
  : viona_vring :=
  let ring := VIONA_RING_STAT_INCR ring rs_bad_rx_frame in
  vq_pushchain ring
    (u32 (Z.max copied (MIN_BUF_SIZE + sizeof_virtio_net_hdr))) cookie.

(** [viona_recv_plain (ring, mp, msz)] with [features] the link's
    [l_features]. *)
Definition viona_recv_plain (features : Z) (ring : viona_vring) (m : gmem)
    (mp : msg) (msz : Z) : viona_vring * gmem * errno :=
  let hdr_sz := sizeof_virtio_net_hdr in
  match vq_popchain ring m VTNET_MAXSEGS with
  | (ring, PopChain iov cookie) =>
    let iov0 := hd iovec0 iov in
    if iov_len iov0 <? hdr_sz then
      let m := bzero (iov_base iov0) (iov_len iov0) m in
      (plain_bad_frame ring 0 cookie, m, EINVAL)
    else
      let hdr := iov_base iov0 in
      let '(m, copied, _) := plain_copy iov (m_blocks mp) m in
      if negb (copied =? msz) then
        let ring := VIONA_RING_STAT_INCR ring rs_too_short in
        (plain_bad_frame ring copied cookie, m, EINVAL)
      else
        let m := bzero hdr hdr_sz m in
        let copied := copied + hdr_sz in
        let m := rx_hdr_csum features mp hdr m in
        (vq_pushchain ring (u32 copied) cookie, m, EOK)
  | (ring, _) => (ring, m, ENOSPC)
  end.

(** ** Receive: the mergeable layout *)

(** [uelem[i] = e] on the model's list. *)
Fixpoint list_set {A : Type} (i : nat) (x : A) (l : list A) : list A :=
  match l, i with
  | [], _ => []
  | _ :: t, O => x :: t
  | h :: t, S i' => h :: list_set i' x t
  end.

(** The loop [while (i < n && !end)] of [viona_recv_merged]; it keeps the
    source's accounting, [chunk += ...; copied += chunk]. *)
Fixpoint merged_copy_chain (iov : list iovec) (mp : list mblk) (m : gmem)
    (chunk copied : Z) (end_ : bool) : gmem * Z * Z * bool :=
  match iov with
  | [] => (m, chunk, copied, end_)
  | v :: rest =>
    if end_ then (m, chunk, copied, end_)
    else
      let '(m, c, e) := viona_copy_mblk mp copied (iov_base v) (iov_len v) m in
      let chunk := chunk + c in
      let copied := copied + chunk in
      merged_copy_chain rest mp m chunk copied e
  end.

Record merge_out := {
  mo_ring : viona_vring;
  mo_mem : gmem;
  mo_uelem : list used_elem;
  mo_buf_idx : Z;
  mo_copied : Z;
  mo_cookie : Z;
  mo_err : errno
}.

(** The [do ... while (!end && copied < msz)] loop of [viona_recv_merged].
    [room] is [VTNET_MAXSEGS - 1 - buf_idx], so [room = 0] is the test
    [buf_idx == VTNET_MAXSEGS - 1]; [iov] are the segments of the current
    chain from index [i] on. *)
Fixpoint merged_loop (room : nat) (ring : viona_vring) (m : gmem)
    (mp : list mblk) (msz hdr : Z) (iov : list iovec) (cookie : Z)
    (chunk copied : Z) (end_ : bool) (buf_idx : Z) (uelem : list used_elem)
  : merge_out :=
  let '(m, chunk, copied, end_) := merged_copy_chain iov mp m chunk copied end_ in
  let uelem := list_set (Z.to_nat buf_idx)
                 {| id := cookie; len := u32 chunk |} uelem in
  if negb end_ then
    match room with
    | O =>
      {| mo_ring := ring; mo_mem := m; mo_uelem := uelem; mo_buf_idx := buf_idx;
         mo_copied := copied; mo_cookie := cookie; mo_err := EOVERFLOW |}
    | S room' =>
      match vq_popchain ring m VTNET_MAXSEGS with
      | (ring, PopChain iov' cookie') =>
        let buf_idx := buf_idx + 1 in
        let m := store16 (hdr + off_vrh_bufs)
                   (load16 m (hdr + off_vrh_bufs) + 1) m in
        if copied <? msz then
          merged_loop room' ring m mp msz hdr iov' cookie' 0 copied false
            buf_idx uelem
        else
          {| mo_ring := ring; mo_mem := m; mo_uelem := uelem;
             mo_buf_idx := buf_idx; mo_copied := copied; mo_cookie := cookie';
             mo_err := EOK |}
      | (ring, _) =>
        {| mo_ring := ring; mo_mem := m; mo_uelem := uelem;
           mo_buf_idx := buf_idx; mo_copied := copied; mo_cookie := cookie;
           mo_err := EMSGSIZE |}
      end
    end
  else
    {| mo_ring := ring; mo_mem := m; mo_uelem := uelem; mo_buf_idx := buf_idx;
       mo_copied := copied; mo_cookie := cookie; mo_err := EOK |}.

(** The [done:] label of [viona_recv_merged]: count the error and publish
    the [buf_idx + 1] elements. *)
Definition merged_done (ring : viona_vring) (err : errno) (buf_idx : Z)
    (uelem : list used_elem) : viona_vring :=
  let ring :=
    match err with
    | EOK => ring
    | EMSGSIZE => VIONA_RING_STAT_INCR ring rs_rx_merge_underrun
    | EOVERFLOW => VIONA_RING_STAT_INCR ring rs_rx_merge_overrun
    | _ => VIONA_RING_STAT_INCR ring rs_bad_rx_frame
    end in
  vq_pushchain_mrgrx ring (buf_idx + 1) uelem.

(** [viona_recv_merged (ring, mp, msz)]; [uelem0] is what the stack array
    [uelem] happens to hold on entry. *)
Definition viona_recv_merged (features : Z) (ring : viona_vring) (m : gmem)
    (mp : msg) (msz : Z) (uelem0 : list used_elem)
  : viona_vring * gmem * errno :=
  let hdr_sz := sizeof_virtio_net_mrgrxhdr in
  match vq_popchain ring m VTNET_MAXSEGS with
  | (ring, PopChain iov cookie) =>
    let iov0 := hd iovec0 iov in
    if iov_len iov0 <? hdr_sz then
      let m := bzero (iov_base iov0) (iov_len iov0) m in
      let uelem := list_set 0 {| id := cookie; len := u32 (iov_len iov0) |}
                     uelem0 in
      (merged_done ring EINVAL 0 uelem, m, EINVAL)
    else
      let hdr := iov_base iov0 in
      let m := bzero hdr hdr_sz m in
      let m := store16 (hdr + off_vrh_bufs) 1 m in
      let '(m, chunk, copied, end_) :=
        if iov_len iov0 >? hdr_sz then
          let '(m, c, e) := viona_copy_mblk (m_blocks mp) 0 (hdr + hdr_sz)
                              (iov_len iov0 - hdr_sz) m in
          (m, c, c, e)
        else (m, 0, 0, false) in
      let o := merged_loop (Z.to_nat (VTNET_MAXSEGS - 1)) ring m (m_blocks mp)
                 msz hdr (tl iov) cookie chunk copied end_ 0 uelem0 in
      let ring := mo_ring o in
      let m := mo_mem o in
      let e0 := nth 0 (mo_uelem o) used_elem0 in
      let uelem := list_set 0 {| id := id e0; len := u32 (len e0 + hdr_sz) |}
                     (mo_uelem o) in
      let '(ring, err) :=
        match mo_err o with
        | EOK =>
          if negb (mo_copied o =? msz)
          then (VIONA_RING_STAT_INCR ring rs_too_short, EINVAL)
          else (ring, EOK)
        | e => (ring, e)
        end in
      let m := rx_hdr_csum features mp hdr m in
      (merged_done ring err (mo_buf_idx o) uelem, m, err)
  | (ring, _) => (VIONA_RING_STAT_INCR ring rs_no_space, m, ENOSPC)
  end.

(** ** Feature negotiation *)

(** The [VNA_IOC_SET_FEATURES] case of [viona_ioctl]: the value stored in
    [l_features] for a request [val] on a link whose hardware features are
    [features_hw]. *)
Definition viona_set_features (features_hw val : Z) : Z :=
  let val := Z.land val (Z.lor VIONA_S_HOSTCAPS features_hw) in
  let val := if Z.land val VIRTIO_NET_F_CSUM =? 0
             then Z.land val (Z.lnot VIRTIO_NET_F_HOST_TSO4) else val in
  let val := if Z.land val VIRTIO_NET_F_GUEST_CSUM =? 0
             then Z.land val (Z.lnot VIRTIO_NET_F_GUEST_TSO4) else val in
  val.

(** ** Receive: the common path *)

(** Modelled from the spec: [VLAN_TAGSZ] comes from [sys/vlan.h], which is
    not part of the sources at hand; the tag a frame can be short by is the
    four-byte 802.1Q tag, and the minimum delivered length is 60. *)
Definition VLAN_TAGSZ : Z := 4.
Definition NEED_VLAN_PAD_SIZE : Z := MIN_BUF_SIZE - VLAN_TAGSZ.

Inductive mac_emul := MAC_LSO_EMUL | MAC_IPCKSUM_EMUL | MAC_HWCKSUM_EMUL.

(** What a packet hook did with a message: [hook_run] returned 0, leaving
    the (possibly altered) message, or it returned an error [ret <> 0],
    leaving [*mpp] either in place or NULL. *)
Inductive hook_verdict :=
| HookAccept (mp : msg)
| HookReject (remains : option msg).

(** The collaborators of the receive path that live outside viona.c. *)
Record rx_env := {
  (* mac_hw_emul (&mp, NULL, NULL, MAC_LSO_EMUL) on the whole chain *)
  rx_lso_emul : list msg -> list msg;
  (* mac_hw_emul of one frame for checksum emulation; None: mp is NULL *)
  rx_cksum_emul : mac_emul -> msg -> option msg;
  (* hook_run for the inbound event *)
  rx_hook_run : msg -> hook_verdict;
  (* whether allocb (pad_size, BPRI_MED) succeeds for this frame *)
  rx_allocb : msg -> bool;
  (* what the stack array uelem of viona_recv_merged holds on entry *)
  rx_stack_uelem : list used_elem
}.

Definition msg_append (mp : msg) (b : mblk) : msg :=
  {| m_blocks := m_blocks mp ++ [b]; m_hw_lso := m_hw_lso mp;
     m_lsomss := m_lsomss mp; m_fullcksum_ok := m_fullcksum_ok mp;
     m_local_mac := m_local_mac mp |}.

(** [viona_vlan_pad_mp], four zero bytes allocated at attach. *)
Definition viona_vlan_pad_mp : mblk :=
  {| blk_desb := false; blk_data := repeat 0 (Z.to_nat VLAN_TAGSZ) |}.

Record rx_out := {
  ro_ring : viona_vring;
  ro_mem : gmem;
  ro_nrx : Z;
  ro_ndrop : Z
}.

(** Checksum emulation for a frame that carries [HW_LOCAL_MAC]. *)
Definition rx_emulate (env : rx_env) (link : viona_link) (mp : msg)
  : option msg :=
  let guest_csum := negb (Z.land (l_features link) VIRTIO_NET_F_GUEST_CSUM =? 0) in
  if m_local_mac mp then
    rx_cksum_emul env
      (if guest_csum then MAC_IPCKSUM_EMUL else MAC_HWCKSUM_EMUL) mp
  else Some mp.

(** [VNETHOOK_INTERESTED_IN (link->l_neti) && viona_hook (..., B_FALSE)] *)
Definition rx_hook (env : rx_env) (link : viona_link) (mp : msg)
  : hook_verdict :=
  if l_hook_in link then rx_hook_run env mp else HookAccept mp.

(** Padding to the minimum Ethernet length; [None] when the allocation of
    the pad fails ([err = ENOMEM]). *)
Definition rx_pad (env : rx_env) (ring : viona_vring) (mp : msg) (size : Z)
  : option (viona_vring * msg * Z) :=
  if size =? NEED_VLAN_PAD_SIZE then
    Some (ring, msg_append mp viona_vlan_pad_mp, size + VLAN_TAGSZ)
  else if size <? MIN_BUF_SIZE then
    let pad_size := MIN_BUF_SIZE - size in
    if rx_allocb env mp then
      Some (VIONA_RING_STAT_INCR ring rs_rx_pad_short,
            msg_append mp {| blk_desb := false;
                             blk_data := repeat 0 (Z.to_nat pad_size) |},
            size + pad_size)
    else None
  else Some (ring, mp, size).

(** The [while (mp != NULL)] loop of [viona_rx_common] over the frames of
    the chain.  [ndrop] counts the frames on the drop chain together with
    those a hook freed.  The size is taken before the hook runs, as in the
    source. *)
Fixpoint rx_loop (env : rx_env) (link : viona_link) (frames : list msg)
    (ring : viona_vring) (m : gmem) (nrx ndrop : Z) : rx_out :=
  match frames with
  | [] => {| ro_ring := ring; ro_mem := m; ro_nrx := nrx; ro_ndrop := ndrop |}
  | mp :: next =>
    let do_merge := negb (Z.land (l_features link) VIRTIO_NET_F_MRG_RXBUF =? 0) in
    match rx_emulate env link mp with
    | None => rx_loop env link next ring m nrx ndrop
    | Some mp =>
      let size := msgsize (m_blocks mp) in
      match rx_hook env link mp with
      | HookReject _ =>
        let ring := VIONA_RING_STAT_INCR ring rs_rx_hookdrop in
        rx_loop env link next ring m nrx (ndrop + 1)
      | HookAccept mp =>
        match rx_pad env ring mp size with
        | None =>
          (* err = ENOMEM; goto pad_drop *)
          rx_loop env link next ring m nrx (ndrop + 1)
        | Some (ring, mp, size) =>
          let '(ring, m, err) :=
            if do_merge
            then viona_recv_merged (l_features link) ring m mp size
                   (rx_stack_uelem env)
            else viona_recv_plain (l_features link) ring m mp size in
          match err with
          | EOK => rx_loop env link next ring m (nrx + 1) ndrop
          | ENOSPC =>
            (* the rest of the chain is dropped as well *)
            {| ro_ring := ring; ro_mem := m; ro_nrx := nrx;
               ro_ndrop := ndrop + 1 + zlen next |}
          | _ => rx_loop env link next ring m nrx (ndrop + 1)
          end
        end
      end
    end
  end.

(** The chain as the loop sees it: software LSO is applied first when the
    guest did not negotiate [GUEST_TSO4]. *)
Definition rx_frames (env : rx_env) (link : viona_link) (frames : list msg)
  : list msg :=
  let guest_tso4 := negb (Z.land (l_features link) VIRTIO_NET_F_GUEST_TSO4 =? 0) in
  if guest_tso4 then frames else rx_lso_emul env frames.

(** The interrupt decision that ends a receive batch and a transmit
    completion: [viona_intr_ring] unless the guest set NO_INTERRUPT. *)
Definition intr_unless_masked (ring : viona_vring) : viona_vring :=
  if Z.land (load_avail_flags ring) VRING_AVAIL_F_NO_INTERRUPT =? 0
  then viona_intr_ring ring else ring.

(** [viona_rx_common (ring, mp, is_loopback)] on the chain [frames]. *)
Definition viona_rx_common (env : rx_env) (link : viona_link)
    (ring : viona_vring) (m : gmem) (frames : list msg) : rx_out :=
  let o := rx_loop env link (rx_frames env link frames) ring m 0 0 in
  {| ro_ring := intr_unless_masked (ro_ring o); ro_mem := ro_mem o;
     ro_nrx := ro_nrx o; ro_ndrop := ro_ndrop o |}.

(** The actions [viona_intr_ring] adds to the log of [ring]. *)
Definition intr_events (ring : viona_vring) : list event :=
  if Z.land (load_avail_flags ring) VRING_AVAIL_F_NO_INTERRUPT =? 0 then
    if negb (vr_msi_addr ring =? 0)
    then [EvMsi (vr_msi_addr ring) (vr_msi_msg ring)]
    else if vr_intr_enabled ring =? 0 then [EvPollwakeup] else []
  else [].

(** ** What the parser guarantees about a segment *)

(** The statistics counted on the failure paths of [vq_popchain]. *)
Definition popchain_errors : list ring_stat :=
  [rs_bad_idx; rs_desc_bad_len; rs_bad_ring_addr; rs_indir_bad_len;
   rs_indir_bad_nest; rs_indir_bad_next; rs_too_many_desc].

(** [d] is an entry of the ring's descriptor table. *)
Definition in_table (ring : viona_vring) (d : virtio_desc) : Prop :=
  exists i, 0 <= i < vr_size ring /\ d = load_descr ring i.

(** [d] is entry [k] of an indirect table named by an INDIRECT entry [t] of
    the ring's table: [t]'s length is a positive multiple of 16, the lease
    translated the table, and [k] is below its entry count. *)
Definition in_indirect (ring : viona_vring) (m : gmem) (d : virtio_desc) : Prop :=
  exists t vindir k,
    in_table ring t /\
    has_flag (vd_flags t) VRING_DESC_F_INDIRECT = true /\
    Z.land (vd_len t) 15 = 0 /\ 0 < vd_len t / 16 /\
    viona_gpa2kva ring (vd_addr t) (vd_len t) = Some vindir /\
    0 <= k < vd_len t / 16 /\
    d = load_desc m (vindir + sizeof_virtio_desc * k).

(** The segment [v] is the lease's translation of a descriptor of non-zero
    length that the parser was entitled to read. *)
Definition seg_translated (ring : viona_vring) (m : gmem) (v : iovec) : Prop :=
  exists d,
    (in_table ring d \/ in_indirect ring m d) /\
    has_flag (vd_flags d) VRING_DESC_F_INDIRECT = false /\
    0 < vd_len d /\
    viona_gpa2kva ring (vd_addr d) (vd_len d) = Some (iov_base v) /\
    iov_len v = vd_len d.

(** ** Transmit: reclamation descriptors *)

(** Modelled from the spec: [VIONA_MAX_HDRS_LEN] is the sum of
    [sizeof (struct ether_vlan_header)], [IP_MAX_HDR_LENGTH] and
    [TCP_MAX_HDR_LENGTH], which come from headers that are not part of the
    sources at hand; the copied headers take up to 138 bytes
    (Ethernet + VLAN + IPv4-max + TCP-max). *)
Definition VIONA_MAX_HDRS_LEN : Z := 138.

Definition desb0 : viona_desb :=
  {| d_ref := 0; d_len := 0; d_cookie := 0; d_headers := fun _ => 0 |}.

(** [ring->vr_txdesb[c]] *)
Definition desb_at (ring : viona_vring) (c : Z) : viona_desb :=
  match vr_txdesb ring with
  | Some t => t c
  | None => desb0
  end.

Definition desb_set (c : Z) (d : viona_desb) (ring : viona_vring)
  : viona_vring :=
  set_txdesb
    (match vr_txdesb ring with
     | Some t => Some (fun i => if i =? c then d else t i)
     | None => None
     end) ring.

Definition with_ref (v : Z) (d : viona_desb) : viona_desb :=
  {| d_ref := v; d_len := d_len d; d_cookie := d_cookie d;
     d_headers := d_headers d |}.

Definition with_len (v : Z) (d : viona_desb) : viona_desb :=
  {| d_ref := d_ref d; d_len := v; d_cookie := d_cookie d;
     d_headers := d_headers d |}.

Definition with_cookie (v : Z) (d : viona_desb) : viona_desb :=
  {| d_ref := d_ref d; d_len := d_len d; d_cookie := v;
     d_headers := d_headers d |}.

(** [dp->d_ref++] and [dp->d_ref--] on the [uint_t] counter. *)
Definition desb_ref_add (c k : Z) (ring : viona_vring) : viona_vring :=
  desb_set c (with_ref (u32 (d_ref (desb_at ring c) + k)) (desb_at ring c)) ring.

(** [dp->d_len = 0; dp->d_cookie = 0; dp->d_ref = 0] *)
Definition desb_reset (c : Z) (ring : viona_vring) : viona_vring :=
  desb_set c (with_ref 0 (with_cookie 0 (with_len 0 (desb_at ring c)))) ring.

(** [viona_desb_release (dp)] for [dp = &ring->vr_txdesb[c]] *)
Definition viona_desb_release (ring : viona_vring) (c : Z) : viona_vring :=
  let dp := desb_at ring c in
  let ref := u32 (d_ref dp - 1) in
  if ref >? 1 then desb_set c (with_ref ref dp) ring
  else
    let tlen := d_len dp in
    let cookie := d_cookie dp in
    let ring := desb_reset c ring in
    let ring := viona_tx_done ring tlen cookie in
    let out := u32 (vr_xfer_outstanding ring - 1) in
    let ring := set_xfer_outstanding out ring in
    if out =? 0 then emit EvCvBroadcast ring else ring.

(** [freemsgchain] of a frame built for the chain with cookie [c]: the
    blocks that came from [desballoc] run their free routine. *)
Fixpoint freemsgchain (ring : viona_vring) (c : Z) (frame : list mblk)
  : viona_vring :=
  match frame with
  | [] => ring
  | b :: rest =>
    freemsgchain (if blk_desb b then viona_desb_release ring c else ring) c rest
  end.

(** ** Transmit: checksum offload *)

(** Values and layouts that [viona_tx_csum] takes from system headers
    ([sys/ethernet.h], [inet/ip.h], [netinet/in.h], [sys/dlpi.h]) that are
    not part of the sources at hand.  They are parameters of the model; the
    readers take the bytes of the first block by their offset from
    [b_rptr]. *)
Record sys_headers := {
  sizeof_ether_header : Z;
  sizeof_ether_vlan_header : Z;
  ETHERTYPE_VLAN : Z;
  ETHERTYPE_IP : Z;
  ETHERTYPE_IPV6 : Z;
  IPPROTO_NONE : Z;
  IPPROTO_TCP : Z;
  IPPROTO_UDP : Z;
  HCKSUM_INET_PARTIAL : Z;
  HCKSUM_INET_FULL_V4 : Z;
  HCKSUM_INET_FULL_V6 : Z;
  (* ntohs (eth->ether_type) and ntohs (veth->ether_type) *)
  eth_type : (Z -> Z) -> Z;
  veth_type : (Z -> Z) -> Z;
  (* ipha->ipha_protocol and ip6h->ip6_nxt for the header at eth_len *)
  ipha_protocol : (Z -> Z) -> Z -> Z;
  ip6_nxt : (Z -> Z) -> Z -> Z;
  (* the offsets from b_rptr of IPH_TCPH_CHECKSUMP (ipha, IPH_HDR_LENGTH
     (ipha)) and of ipha->ipha_hdr_checksum for the header at eth_len *)
  off_tcph_checksum : (Z -> Z) -> Z -> Z;
  off_ipha_hdr_checksum : Z -> Z;
  (* the pseudo-header checksum computed from ipha_src and ipha_dst *)
  pseudo_cksum : (Z -> Z) -> Z -> Z
}.

(** The fields of the [struct virtio_net_hdr] that the guest placed at host
    address [hdr]. *)
Definition vrh_flags (m : gmem) (hdr : Z) : Z := byte_at m (hdr + off_vrh_flags).
Definition vrh_gso_type (m : gmem) (hdr : Z) : Z := byte_at m (hdr + off_vrh_gso_type).
Definition vrh_gso_size (m : gmem) (hdr : Z) : Z := load16 m (hdr + off_vrh_gso_size).
Definition vrh_csum_start (m : gmem) (hdr : Z) : Z := load16 m (hdr + off_vrh_csum_start).
Definition vrh_csum_offset (m : gmem) (hdr : Z) : Z := load16 m (hdr + off_vrh_csum_offset).

(** What the first test of [viona_tx_csum] rejects: the offsets the guest
    gave do not fit the packet of [len] bytes and the first block of [mblkl]
    bytes. *)
Definition csum_out_of_bounds (K : sys_headers)
    (csum_start csum_stuff len mblkl : Z) : bool :=
  (csum_start >=? len) || (csum_start <? sizeof_ether_header K) ||
  (csum_stuff >=? len) || (csum_stuff + 2 >? mblkl).

(** [viona_tx_csum (ring, hdr, mp, len)]: [hbuf] holds the bytes of the
    first block by their offset from [b_rptr] and [mblkl] is its [MBLKL].
    Returns the ring, the bytes and the verdict. *)
Definition viona_tx_csum (K : sys_headers) (link : viona_link)
    (ring : viona_vring) (m : gmem) (hdr : Z) (hbuf : Z -> Z) (mblkl len : Z)
  : viona_vring * (Z -> Z) * bool :=
  let eth_len := sizeof_ether_header K in
  let csum_start := vrh_csum_start m hdr in
  let csum_stuff := u32 (vrh_csum_offset m hdr + csum_start) in
  if csum_out_of_bounds K csum_start csum_stuff len mblkl then
    (VIONA_RING_STAT_INCR ring rs_fail_hcksum, hbuf, false)
  else
    let ftype := eth_type K hbuf in
    let vlan := ftype =? ETHERTYPE_VLAN K in
    let eth_len := if vlan then sizeof_ether_vlan_header K else eth_len in
    let ftype := if vlan then veth_type K hbuf else ftype in
    let ipproto :=
      if ftype =? ETHERTYPE_IP K then ipha_protocol K hbuf eth_len
      else if ftype =? ETHERTYPE_IPV6 K then ip6_nxt K hbuf eth_len
      else IPPROTO_NONE K in
    let partial := negb (Z.land (l_cap_csum link) (HCKSUM_INET_PARTIAL K) =? 0) in
    let l4 := (ipproto =? IPPROTO_TCP K) || (ipproto =? IPPROTO_UDP K) in
    (* LSO *)
    let '(ring, hbuf) :=
      if partial &&
         negb (Z.land (vrh_gso_type m hdr) VIRTIO_NET_HDR_GSO_TCPV4 =? 0) &&
         (ftype =? ETHERTYPE_IP K) then
        let o1 := off_tcph_checksum K hbuf eth_len in
        let hbuf1 := store16 o1 (pseudo_cksum K hbuf eth_len) hbuf in
        let ring := emit (EvStore16 StPseudoCksum o1) ring in
        let o2 := off_ipha_hdr_checksum K eth_len in
        (emit (EvStore16 StIpHdrCksum o2) ring, store16 o2 0 hbuf1)
      else (ring, hbuf) in
    if partial && l4 then
      (emit (EvHcksum (u32 (csum_start - eth_len)) (u32 (csum_stuff - eth_len))
               (u32 (len - eth_len)) false) ring, hbuf, true)
    else if ftype =? ETHERTYPE_IP K then
      if negb (Z.land (l_cap_csum link) (HCKSUM_INET_FULL_V4 K) =? 0) && l4 then
        let ring := emit (EvStore16 StCsumField csum_stuff) ring in
        (emit (EvHcksum 0 0 0 true) ring, store16 csum_stuff 0 hbuf, true)
      else (VIONA_RING_STAT_INCR ring rs_fail_hcksum, hbuf, false)
    else if ftype =? ETHERTYPE_IPV6 K then
      if negb (Z.land (l_cap_csum link) (HCKSUM_INET_FULL_V6 K) =? 0) && l4 then
        let ring := emit (EvStore16 StCsumField csum_stuff) ring in
        (emit (EvHcksum 0 0 0 true) ring, store16 csum_stuff 0 hbuf, true)
      else (VIONA_RING_STAT_INCR ring rs_fail_hcksum6, hbuf, false)
    else (VIONA_RING_STAT_INCR ring rs_fail_hcksum_proto, hbuf, false).

(** ** Transmit: [viona_tx] *)

(** The first block of the frame under construction ([mp_head]): whether it
    came from [desballoc] over [d_headers], its bytes by offset from
    [b_rptr], and [b_wptr - b_rptr]. *)
Record tx_head := { hb_desb : bool; hb_buf : Z -> Z; hb_wptr : Z }.

(** [n] bytes of memory from address [base]. *)
Definition gread (m : Z -> Z) (base n : Z) : list Z :=
  map (fun i => byte_at m (base + Z.of_nat i)) (seq 0 (Z.to_nat n)).

Definition head_block (h : tx_head) : mblk :=
  {| blk_desb := hb_desb h; blk_data := gread (hb_buf h) 0 (hb_wptr h) |}.

(** The frame [mp_head] heads. *)
Definition tx_frame (h : tx_head) (tail : list mblk) : list mblk :=
  head_block h :: tail.

(** Modelled from the spec: the hook consumers run outside [viona.c],
    behind [hook_run]; section 4.8 and the comment above [viona_hook] let
    the callout alter, replace or free the frame that [*mpp] heads.  An
    accepting hook made a pull-up that released the reclamation references
    of [released] blocks, and left the blocks of the message with the bytes
    [rewritten], block by block from the first; blocks beyond the end of
    [rewritten] keep their bytes, so the empty list stands for a message
    whose bytes were left alone.  A rejected frame is freed by the hook
    itself ([freed], [*mpp] set to NULL) or left to the caller. *)
Inductive tx_hook_verdict :=
| TxHookAccept (released : nat) (rewritten : list (list Z))
| TxHookReject (freed : bool).

(** What lies outside the driver on the transmit side: whether the [k]-th
    [allocb]/[desballoc] of the call succeeds, the bytes of a buffer that
    [allocb (VIONA_MAX_HDRS_LEN)] returns, and the hook consumers. *)
Record tx_env := {
  tx_alloc : nat -> bool;
  tx_fresh : Z -> Z;
  tx_hook_run : list mblk -> tx_hook_verdict
}.

Inductive tx_result :=
| TxDone (ring : viona_vring)    (* viona_tx returned *)
| TxPanic (ring : viona_vring).  (* the VERIFY at drop_hook failed *)

Definition tx_ring (r : tx_result) : viona_vring :=
  match r with TxDone ring => ring | TxPanic ring => ring end.

(** The label [drop_hook]; [dp] tells whether [dp != NULL], in which case
    [dp = &ring->vr_txdesb[cookie]]. *)
Definition tx_drop_hook (ring : viona_vring) (dp : bool) (iov : list iovec)
    (cookie : Z) : tx_result :=
  let len := fold_left (fun a v => u32 (a + iov_len v)) iov 0 in
  if dp then
    if d_ref (desb_at ring cookie) =? 2
    then TxDone (viona_tx_done (desb_reset cookie ring) len cookie)
    else TxPanic ring
  else TxDone (viona_tx_done ring len cookie).

(** The label [drop_fail]; [frame] is the chain [mp_head] heads, empty for
    [mp_head == NULL]. *)
Definition tx_drop_fail (ring : viona_vring) (dp : bool) (frame : list mblk)
    (iov : list iovec) (cookie : Z) : tx_result :=
  let ring := if dp then desb_ref_add cookie 1 ring else ring in
  tx_drop_hook (freemsgchain ring cookie frame) dp iov cookie.

(** Getting [mp_head]. *)
Inductive tx_claim_result :=
| ClaimBusy                                   (* atomic_cas_uint failed *)
| ClaimNoMem (ring : viona_vring) (dp : bool) (* mp_head == NULL *)
| Claimed (ring : viona_vring) (dp : bool) (head : tx_head).

Definition tx_claim (env : tx_env) (ring : viona_vring) (cookie : Z)
  : tx_claim_result :=
  match vr_txdesb ring with
  | Some _ =>
    let dp := desb_at ring cookie in
    if negb (d_ref dp =? 0) then ClaimBusy
    else
      let ring := desb_set cookie (with_cookie cookie (with_ref 1 dp)) ring in
      if tx_alloc env 0 then
        Claimed (desb_ref_add cookie 1 ring) true
          {| hb_desb := true; hb_buf := d_headers dp; hb_wptr := 0 |}
      else ClaimNoMem ring true
  | None =>
    if tx_alloc env 0 then
      Claimed ring false
        {| hb_desb := false; hb_buf := tx_fresh env; hb_wptr := 0 |}
    else ClaimNoMem ring false
  end.

(** The first loop: copy up to [min_copy] bytes of the segments after the
    header into the first block.  Returns the block, [len], the segments
    left for the second loop and [base_off]. *)
Fixpoint tx_copy_hdrs (m : gmem) (iov : list iovec) (min_copy : Z)
    (head : tx_head) (len : Z) : tx_head * Z * list iovec * Z :=
  match iov with
  | [] => (head, len, [], 0)
  | v :: rest =>
    let to_copy := u32 (Z.min min_copy (iov_len v)) in
    let head :=
      {| hb_desb := hb_desb head;
         hb_buf := bcopy (gread m (iov_base v) to_copy) (hb_wptr head) (hb_buf head);
         hb_wptr := hb_wptr head + to_copy |} in
    let len := u32 (len + to_copy) in
    let min_copy := u32 (min_copy - to_copy) in
    if min_copy =? 0 then
      if iov_len v =? to_copy then (head, len, rest, 0)
      else (head, len, v :: rest, to_copy)
    else tx_copy_hdrs m rest min_copy head len
  end.

(** The second loop: one block per segment left, by reference
    ([desballoc]) or by copy ([allocb] and [bcopy]); [k] counts the
    allocations of the call. *)
Inductive tx_build :=
| BuildOk (ring : viona_vring) (tail : list mblk) (len : Z)
| BuildFail (ring : viona_vring) (tail : list mblk).   (* goto drop_fail *)

Fixpoint tx_build_tail (env : tx_env) (dp : bool) (m : gmem) (cookie : Z)
    (iov : list iovec) (base_off : Z) (k : nat) (ring : viona_vring)
    (tail : list mblk) (len : Z) : tx_build :=
  match iov with
  | [] => BuildOk ring tail len
  | v :: rest =>
    let base := iov_base v + base_off in
    let chunk := u32 (iov_len v - base_off) in
    if tx_alloc env k then
      let ring := if dp then desb_ref_add cookie 1 ring else ring in
      let mp := {| blk_desb := dp; blk_data := gread m base chunk |} in
      tx_build_tail env dp m cookie rest 0 (S k) ring (tail ++ [mp])
        (u32 (len + chunk))
    else BuildFail ring tail
  end.

Definition desb_blocks (frame : list mblk) : nat :=
  length (filter blk_desb frame).

(** [n] calls of the free routine of the blocks of the chain with cookie
    [c]. *)
Fixpoint release_n (n : nat) (ring : viona_vring) (c : Z) : viona_vring :=
  match n with
  | O => ring
  | S n' => release_n n' (viona_desb_release ring c) c
  end.

(** The frame after a pull-up that replaced its first [n] blocks from
    [desballoc] by copies. *)
Fixpoint pulled_up (n : nat) (frame : list mblk) : list mblk :=
  match n, frame with
  | S n', b :: rest =>
    if blk_desb b
    then {| blk_desb := false; blk_data := blk_data b |} :: pulled_up n' rest
    else b :: pulled_up n rest
  | _, _ => frame
  end.

(** The blocks of [frame] holding the bytes [ds], block by block; blocks
    beyond the end of [ds] keep theirs. *)
Fixpoint with_data (ds : list (list Z)) (frame : list mblk) : list mblk :=
  match ds, frame with
  | d :: ds', b :: rest =>
    {| blk_desb := blk_desb b; blk_data := d |} :: with_data ds' rest
  | _, _ => frame
  end.

(** The out-bound hook, for an interested consumer. *)
Inductive tx_hooked :=
| HookOk (ring : viona_vring) (dp : bool) (head : tx_head) (tail : list mblk)
| HookDrop (ring : viona_vring).               (* goto drop_hook *)

Definition tx_hook (env : tx_env) (link : viona_link) (ring : viona_vring)
    (dp : bool) (cookie : Z) (head : tx_head) (tail : list mblk) : tx_hooked :=
  if l_hook_out link then
    let ring := if dp then desb_ref_add cookie 1 ring else ring in
    let frame := tx_frame head tail in
    match tx_hook_run env frame with
    | TxHookReject _ =>
      (* viona_hook counts the drop; the blocks are freed by the hook or by
         freemsgchain (mp) *)
      HookDrop (freemsgchain (VIONA_RING_STAT_INCR ring rs_tx_hookdrop)
                  cookie frame)
    | TxHookAccept released rewritten =>
      let n := Nat.min released (desb_blocks frame) in
      let ring := release_n n ring cookie in
      (* what *mpp heads after the call *)
      let head :=
        {| hb_desb := hb_desb head && (n =? 0)%nat;
           hb_buf := match rewritten with
                     | [] => hb_buf head
                     | d :: _ => bcopy d 0 (hb_buf head)
                     end;
           hb_wptr := match rewritten with
                      | [] => hb_wptr head
                      | d :: _ => zlen d
                      end |} in
      let tail := tl (with_data rewritten (pulled_up n frame)) in
      if dp then
        let ring := desb_ref_add cookie (-1) ring in
        if d_ref (desb_at ring cookie) =? 1 then
          HookOk (desb_set cookie
                    (with_ref 0 (with_cookie 0 (desb_at ring cookie))) ring)
            false head tail
        else HookOk ring true head tail
      else HookOk ring false head tail
    end
  else HookOk ring dp head tail.

(** The checksum request and the hand-over to MAC. *)
Definition tx_needs_csum (link : viona_link) (m : gmem) (hdr : Z) : bool :=
  negb (Z.land (l_features link) VIRTIO_NET_F_CSUM =? 0) &&
  negb (Z.land (vrh_flags m hdr) VIRTIO_NET_HDR_F_NEEDS_CSUM =? 0).

Definition tx_send (K : sys_headers) (link : viona_link) (ring : viona_vring)
    (m : gmem) (dp : bool) (head : tx_head) (tail : list mblk) (len : Z)
    (iov : list iovec) (cookie : Z) : tx_result :=
  let hdr := iov_base (hd iovec0 iov) in
  let '(ring, hbuf, ok) :=
    if tx_needs_csum link m hdr then
      viona_tx_csum K link ring m hdr (hb_buf head) (hb_wptr head)
        (u32 (len - iov_len (hd iovec0 iov)))
    else (ring, hb_buf head, true) in
  let head :=
    {| hb_desb := hb_desb head; hb_buf := hbuf; hb_wptr := hb_wptr head |} in
  if ok then
    let ring :=
      if dp then
        set_xfer_outstanding (u32 (vr_xfer_outstanding ring + 1))
          (desb_set cookie (with_len len (desb_at ring cookie)) ring)
      else viona_tx_done ring len cookie in
    TxDone (emit (EvMacTx (tx_frame head tail)) ring)
  else tx_drop_fail ring dp (tx_frame head tail) iov cookie.

(** The part of [viona_tx] between the pop and the checksum request:
    either the frame is ready, or control went to one of the two drop
    labels. *)
Inductive tx_prepared :=
| Prepared (ring : viona_vring) (dp : bool) (head : tx_head)
    (tail : list mblk) (len : Z)
| PrepDropFail (ring : viona_vring) (dp : bool) (frame : list mblk)
| PrepDropHook (ring : viona_vring) (dp : bool).

Definition tx_prepare (env : tx_env) (link : viona_link) (ring : viona_vring)
    (m : gmem) (iov : list iovec) (cookie : Z) : tx_prepared :=
  let len := u32 (iov_len (hd iovec0 iov)) in
  if len <? sizeof_virtio_net_hdr then PrepDropFail ring false []
  else
    match tx_claim env ring cookie with
    | ClaimBusy => PrepDropFail ring false []
    | ClaimNoMem ring dp => PrepDropFail ring dp []
    | Claimed ring dp head =>
      let '(head, len, rest, base_off) :=
        tx_copy_hdrs m (tl iov) VIONA_MAX_HDRS_LEN head len in
      match tx_build_tail env dp m cookie rest base_off 1 ring [] len with
      | BuildFail ring tail => PrepDropFail ring dp (tx_frame head tail)
      | BuildOk ring tail len =>
        match tx_hook env link ring dp cookie head tail with
        | HookDrop ring => PrepDropHook ring dp
        | HookOk ring dp head tail => Prepared ring dp head tail len
        end
      end
    end.

(** [viona_tx (link, ring)] *)
Definition viona_tx (K : sys_headers) (env : tx_env) (link : viona_link)
    (ring : viona_vring) (m : gmem) : tx_result :=
  match vq_popchain ring m (vr_size ring) with
  | (ring, PopEmpty) => TxDone (VIONA_RING_STAT_INCR ring rs_tx_absent)
  | (ring, PopFail) => TxDone ring
  | (ring, PopChain iov cookie) =>
    match tx_prepare env link ring m iov cookie with
    | Prepared ring dp head tail len =>
      tx_send K link ring m dp head tail len iov cookie
    | PrepDropFail ring dp frame => tx_drop_fail ring dp frame iov cookie
    | PrepDropHook ring dp => tx_drop_hook ring dp iov cookie
    end
  end.

(** The frame MAC was handed is freed, block by block, once it has been
    sent. *)
Definition mac_free (ring : viona_vring) (cookie : Z) (frame : list mblk)
  : viona_vring :=
  freemsgchain ring cookie frame.

(** ** Notions used to state the properties *)

(** The data still to be copied once [seek] bytes were consumed. *)
Definition remaining (mp : list mblk) (seek : Z) : list Z :=
  skipn (Z.to_nat seek) (msgdata mp).

(** Two rings that differ at most in [vr_cur_aidx] and [vr_stats]. *)
Definition same_but_aidx_stats (r r' : viona_vring) : Prop :=
  vr_state r' = vr_state r /\ vr_state_flags r' = vr_state_flags r /\
  vr_xfer_outstanding r' = vr_xfer_outstanding r /\
  vr_lease r' = vr_lease r /\ vr_txdesb r' = vr_txdesb r /\
  vr_intr_enabled r' = vr_intr_enabled r /\
  vr_msi_addr r' = vr_msi_addr r /\ vr_msi_msg r' = vr_msi_msg r /\
  vr_size r' = vr_size r /\ vr_mask r' = vr_mask r /\
  vr_descr r' = vr_descr r /\ vr_avail_flags r' = vr_avail_flags r /\
  vr_avail_idx r' = vr_avail_idx r /\ vr_avail_ring r' = vr_avail_ring r /\
  vr_used_flags r' = vr_used_flags r /\ vr_used_idx r' = vr_used_idx r /\
  vr_used_ring r' = vr_used_ring r /\ vr_log r' = vr_log r.

(** Whether the receive paths have anything to add to a zeroed header. *)
Definition rx_wants_gso (features : Z) (mp : msg) : bool :=
  negb (Z.land features VIRTIO_NET_F_GUEST_CSUM =? 0) &&
  (negb (Z.land features VIRTIO_NET_F_GUEST_TSO4 =? 0) && m_hw_lso mp).

Definition rx_wants_valid (features : Z) (mp : msg) : bool :=
  negb (Z.land features VIRTIO_NET_F_GUEST_CSUM =? 0) && m_fullcksum_ok mp.

(** Two rings that differ at most in the used ring, [vr_used_idx] and the
    log. *)
Definition same_but_used (r r' : viona_vring) : Prop :=
  vr_state r' = vr_state r /\ vr_state_flags r' = vr_state_flags r /\
  vr_xfer_outstanding r' = vr_xfer_outstanding r /\
  vr_lease r' = vr_lease r /\ vr_txdesb r' = vr_txdesb r /\
  vr_intr_enabled r' = vr_intr_enabled r /\
  vr_msi_addr r' = vr_msi_addr r /\ vr_msi_msg r' = vr_msi_msg r /\
  vr_size r' = vr_size r /\ vr_mask r' = vr_mask r /\
  vr_cur_aidx r' = vr_cur_aidx r /\
  vr_descr r' = vr_descr r /\ vr_avail_flags r' = vr_avail_flags r /\
  vr_avail_idx r' = vr_avail_idx r /\ vr_avail_ring r' = vr_avail_ring r /\
  vr_used_flags r' = vr_used_flags r /\ vr_stats r' = vr_stats r.

(** The head index the guest placed in the [k]-th available entry counted
    from [vr_cur_aidx]. *)
Definition avail_head (ring : viona_vring) (k : Z) : Z :=
  load_avail_ring ring (Z.land (u16 (vr_cur_aidx ring + k)) (vr_mask ring)).

(** The [k]-th available entry is a chain of one direct descriptor of [n]
    bytes which the lease maps at [kva]. *)
Definition posted_single (ring : viona_vring) (k n kva : Z) : Prop :=
  avail_head ring k < vr_size ring /\
  exists gpa fl nx,
    load_descr ring (avail_head ring k) =
      {| vd_addr := gpa; vd_len := n; vd_flags := fl; vd_next := nx |} /\
    has_flag fl VRING_DESC_F_INDIRECT = false /\
    has_flag fl VRING_DESC_F_NEXT = false /\
    viona_gpa2kva ring gpa n = Some kva.

(** The used-ring slot of the [k]-th entry published from [vr_used_idx]. *)
Definition used_slot (ring : viona_vring) (k : Z) : Z :=
  Z.land (u32 (load_used_idx ring + k)) (vr_mask ring).

(** The mergeable header at [hdr] is zero at the flags, the GSO type and
    the GSO size, and counts [b] buffers. *)
Definition mrg_hdr_inv (hdr : Z) (m : gmem) (b : Z) : Prop :=
  m (hdr + off_vrh_flags) = 0 /\ m (hdr + off_vrh_gso_type) = 0 /\
  m (hdr + off_vrh_gso_size) = 0 /\ m (hdr + off_vrh_gso_size + 1) = 0 /\
  load16 m (hdr + off_vrh_bufs) = b.

(** The lengths of the used entries written in a log, in order. *)
Fixpoint used_lens (log : list event) : list Z :=
  match log with
  | [] => []
  | EvUsedWrite _ _ tlen :: rest => tlen :: used_lens rest
  | _ :: rest => used_lens rest
  end.

(** The frames handed to MAC in a log, in order. *)
Fixpoint mac_frames (log : list event) : list (list mblk) :=
  match log with
  | [] => []
  | EvMacTx frame :: rest => frame :: mac_frames rest
  | _ :: rest => mac_frames rest
  end.

(** The cookies of the used entries written in a log, in order. *)
Fixpoint used_cookies (log : list event) : list Z :=
  match log with
  | [] => []
  | EvUsedWrite _ idx _ :: rest => idx :: used_cookies rest
  | _ :: rest => used_cookies rest
  end.

Definition zsum (l : list Z) : Z := fold_right Z.add 0 l.

(** Entry [k] of the indirect table at host address [vindir]. *)
Definition indir_entry (m : gmem) (vindir k : Z) : virtio_desc :=
  load_desc m (vindir + sizeof_virtio_desc * k).

(** The walk of an indirect table of [nindir] entries that stands at entry
    [next] comes to an entry with INDIRECT set after [k] further entries:
    each entry before it is a direct one of non-zero length that the lease
    translates, carries NEXT and names a next index below [nindir]. *)
Inductive reaches_nested (ring : viona_vring) (m : gmem) (vindir nindir : Z)
  : Z -> nat -> Prop :=
| nested_here next :
    has_flag (vd_flags (indir_entry m vindir next)) VRING_DESC_F_INDIRECT = true ->
    reaches_nested ring m vindir nindir next O
| nested_later next k :
    has_flag (vd_flags (indir_entry m vindir next)) VRING_DESC_F_INDIRECT = false ->
    vd_len (indir_entry m vindir next) <> 0 ->
    viona_gpa2kva ring (vd_addr (indir_entry m vindir next))
      (vd_len (indir_entry m vindir next)) <> None ->
    has_flag (vd_flags (indir_entry m vindir next)) VRING_DESC_F_NEXT = true ->
    vd_next (indir_entry m vindir next) < nindir ->
    reaches_nested ring m vindir nindir (vd_next (indir_entry m vindir next)) k ->
    reaches_nested ring m vindir nindir next (S k).

(** The entries [path] that a walk of an indirect table of [nindir]
    entries went through from entry [next] to an entry without NEXT: each is
    below [nindir], and each but the last carries NEXT and names the one
    after it. *)
Inductive indir_path (m : gmem) (vindir nindir : Z) : Z -> list Z -> Prop :=
| path_last next :
    0 <= next < nindir ->
    has_flag (vd_flags (indir_entry m vindir next)) VRING_DESC_F_NEXT = false ->
    indir_path m vindir nindir next [next]
| path_next next path :
    0 <= next < nindir ->
    has_flag (vd_flags (indir_entry m vindir next)) VRING_DESC_F_NEXT = true ->
    vd_next (indir_entry m vindir next) < nindir ->
    indir_path m vindir nindir (vd_next (indir_entry m vindir next)) path ->
    indir_path m vindir nindir next (next :: path).

(** The events [r'] logged after those of [r]. *)
Definition log_since (r r' : viona_vring) : list event :=
  skipn (length (vr_log r)) (vr_log r').

(** What an action added to the log: [r'] logged [l] after the events of
    [r]. *)
Definition logged (r r' : viona_vring) (l : list event) : Prop :=
  vr_log r' = vr_log r ++ l.

(** The ring has reclamation descriptors, and the one of the chain with
    cookie [c] counts [n] references. *)
Definition desb_held (ring : viona_vring) (c n : Z) : Prop :=
  vr_txdesb ring <> None /\ d_ref (desb_at ring c) = n.

(** [r'] is [r] but for its reclamation descriptors and its count of
    outstanding transfers; the descriptor of the chain with cookie [c] kept
    its length and its cookie. *)
Definition same_but_desb (c : Z) (r r' : viona_vring) : Prop :=
  vr_log r' = vr_log r /\ vr_stats r' = vr_stats r /\
  d_len (desb_at r' c) = d_len (desb_at r c) /\
  d_cookie (desb_at r' c) = d_cookie (desb_at r c).

(** What holds of the reclamation descriptor while [viona_tx] works on the
    chain with cookie [c] and has built [frame], [ring0] being the ring
    when the chain was popped.  With [dp] set the descriptor carries the
    cookie and counts one reference for the transmit and one for each block
    of [frame] that came from [desballoc].  Without, no block of [frame]
    came from [desballoc], and a descriptor that was unused at the pop is
    unused. *)
Definition tx_refs (ring0 ring : viona_vring) (dp : bool) (c : Z)
    (frame : list mblk) : Prop :=
  if dp then
    desb_held ring c (1 + Z.of_nat (desb_blocks frame)) /\
    d_cookie (desb_at ring c) = c
  else
    desb_blocks frame = O /\
    (d_ref (desb_at ring0 c) = 0 -> d_ref (desb_at ring c) = 0).

(** The completions among the events [log]: the cookie and the length of
    every used-ring entry written. *)
Fixpoint used_pushes (log : list event) : list (Z * Z) :=
  match log with
  | [] => []
  | EvUsedWrite _ idx tlen :: rest => (idx, tlen) :: used_pushes rest
  | _ :: rest => used_pushes rest
  end.

(** The offsets of the 16-bit stores of kind [what] among the events
    [log]. *)
Fixpoint stores_of (what : hdr_store) (log : list event) : list Z :=
  match log with
  | [] => []
  | EvStore16 w off :: rest =>
    match w, what with
    | StPseudoCksum, StPseudoCksum | StIpHdrCksum, StIpHdrCksum
    | StCsumField, StCsumField => off :: stores_of what rest
    | _, _ => stores_of what rest
    end
  | _ :: rest => stores_of what rest
  end.

(** A 42-byte frame with the 18 zero bytes that [viona_rx_common] appends
    to bring it to the minimum size. *)
Definition padded_small (frame : msg) : msg :=
  msg_append frame {| blk_desb := false; blk_data := repeat 0 (Z.to_nat 18) |}.

(** ** Example configurations *)

Definition zero_mem : gmem := fun _ => 0.

(** A running ring of [size] entries with the given guest-written contents
    and nothing pushed yet. *)
Definition mk_ring (size : Z) (lease : Z -> Z -> option Z)
    (descr : Z -> virtio_desc) (avail_flags avail_idx : Z)
    (avail_ring : Z -> Z) (cur_aidx used_idx : Z) : viona_vring :=
  {| vr_state := VRS_RUN; vr_state_flags := 0; vr_xfer_outstanding := 0;
     vr_lease := lease; vr_txdesb := None;
     vr_intr_enabled := 0; vr_msi_addr := 0; vr_msi_msg := 0;
     vr_size := size; vr_mask := size - 1; vr_cur_aidx := cur_aidx;
     vr_descr := descr; vr_avail_flags := avail_flags;
     vr_avail_idx := avail_idx; vr_avail_ring := avail_ring;
     vr_used_flags := 0; vr_used_idx := used_idx;
     vr_used_ring := fun _ => {| vu_idx := 0; vu_tlen := 0 |};
     vr_stats := fun _ => 0; vr_log := [] |}.

(** A lease that maps the first 16 MiB of guest-physical memory at host
    address [0x1000]. *)
Definition flat_lease (gpa len : Z) : option Z :=
  if (0 <=? gpa) && (gpa + len <=? 16777216) then Some (gpa + 4096) else None.

(** A ring of four entries on which the guest posted one chain of two
    64-byte descriptors, 0 -> 1. *)
Definition two_desc_ring : viona_vring :=
  mk_ring 4 flat_lease
    (fun i => {| vd_addr := 256 * i; vd_len := 64;
                 vd_flags := if i =? 0 then VRING_DESC_F_NEXT else 0;
                 vd_next := i + 1 |})
    0 1 (fun _ => 0) 0 0.

(** The used-ring stores that publishing the elements [elem], the first of
    them being number [i], at used index [uidx] amounts to. *)
Fixpoint used_writes (mask uidx i : Z) (elem : list used_elem) : list event :=
  match elem with
  | [] => []
  | e :: rest =>
    EvUsedWrite (Z.land (u32 (uidx + i)) mask) (id e) (len e)
      :: used_writes mask uidx (i + 1) rest
  end.

(** A ring in RESET with nothing mapped, as [viona_ring_alloc] leaves it. *)
Definition reset_ring : viona_vring :=
  {| vr_state := VRS_RESET; vr_state_flags := 0; vr_xfer_outstanding := 0;
     vr_lease := fun _ _ => None; vr_txdesb := None;
     vr_intr_enabled := 0; vr_msi_addr := 0; vr_msi_msg := 0;
     vr_size := 0; vr_mask := 0; vr_cur_aidx := 0;
     vr_descr := fun _ => {| vd_addr := 0; vd_len := 0; vd_flags := 0; vd_next := 0 |};
     vr_avail_flags := 0; vr_avail_idx := 0; vr_avail_ring := fun _ => 0;
     vr_used_flags := 0; vr_used_idx := 0;
     vr_used_ring := fun _ => {| vu_idx := 0; vu_tlen := 0 |};
     vr_stats := fun _ => 0; vr_log := [] |}.

(** A link whose notify ioport is [0xc010], with a running RX ring and a TX
    ring still in RESET. *)
Definition kick_link : viona_link :=
  {| l_vrings := fun i => if i =? VIONA_VQ_RX then two_desc_ring else reset_ring;
     l_features := 0; l_cap_csum := 0; l_notify_ioport := 49168;
     l_hook_in := false; l_hook_out := false |}.

(** A message of [n] bytes [b] in one block, without offload attributes. *)
Definition plain_msg (n : nat) (b : Z) : msg :=
  {| m_blocks := [{| blk_desb := false; blk_data := repeat b n |}];
     m_hw_lso := false; m_lsomss := 0; m_fullcksum_ok := false;
     m_local_mac := false |}.

(** A ring of four entries on which the guest posted a single descriptor,
    number 0, of [n] bytes at guest-physical address [0x4000]. *)
Definition one_desc_ring (n : Z) : viona_vring :=
  mk_ring 4 flat_lease
    (fun i => {| vd_addr := 16384; vd_len := n;
                 vd_flags := VRING_DESC_F_WRITE; vd_next := 0 |})
    0 1 (fun _ => 0) 0 0.

(** Collaborators that pass every frame on untouched: no software LSO, no
    checksum emulation, no hook subscriber, pad allocation succeeds. *)
Definition quiet_env : rx_env :=
  {| rx_lso_emul := fun frames => frames;
     rx_cksum_emul := fun _ mp => Some mp;
     rx_hook_run := fun mp => HookAccept mp;
     rx_allocb := fun _ => true;
     rx_stack_uelem := repeat used_elem0 (Z.to_nat VTNET_MAXSEGS) |}.

(** A link with the given negotiated features and the ring [r] as RX. *)
Definition rx_link (features : Z) (r : viona_vring) : viona_link :=
  {| l_vrings := fun i => if i =? VIONA_VQ_RX then r else reset_ring;
     l_features := features; l_cap_csum := 0; l_notify_ioport := 0;
     l_hook_in := false; l_hook_out := false |}.

(** A 42-byte frame whose checksum MAC reports as verified, as for a UDP
    datagram without payload received on a NIC with checksum offload. *)
Definition udp42 : msg :=
  {| m_blocks := [{| blk_desb := false; blk_data := repeat 7 42 |}];
     m_hw_lso := false; m_lsomss := 0; m_fullcksum_ok := true;
     m_local_mac := false |}.

(** A ring of four entries on which the guest posted four separate
    single-descriptor chains of 1526 bytes each, heads 0, 1, 2 and 3, at
    guest-physical addresses 2 KiB apart from [0x4000]. *)
Definition four_desc_ring : viona_vring :=
  mk_ring 4 flat_lease
    (fun i => {| vd_addr := 16384 + 2048 * i; vd_len := 1526;
                 vd_flags := VRING_DESC_F_WRITE; vd_next := 0 |})
    0 4 (fun i => i) 0 0.

(** A 5000-byte frame in one block carrying LSO metadata with MSS 1448. *)
Definition lso5000 : msg :=
  {| m_blocks := [{| blk_desb := false; blk_data := repeat 9 5000 |}];
     m_hw_lso := true; m_lsomss := 1448; m_fullcksum_ok := false;
     m_local_mac := true |}.

(** The features a guest obtains when it asks for mergeable buffers, guest
    checksum and guest TSO4. *)
Definition mrg_tso_features : Z :=
  viona_set_features 0
    (Z.lor VIRTIO_NET_F_MRG_RXBUF
       (Z.lor VIRTIO_NET_F_GUEST_TSO4 VIRTIO_NET_F_GUEST_CSUM)).

(** The bytes of [v] in [n] bytes, little-endian. *)
Fixpoint le_bytes (n : nat) (v : Z) : list Z :=
  match n with
  | O => []
  | S n' => u8 v :: le_bytes n' (v / 256)
  end.

(** A [struct virtio_desc] as the guest lays it out in memory. *)
Definition desc_bytes (d : virtio_desc) : list Z :=
  le_bytes 8 (vd_addr d) ++ le_bytes 4 (vd_len d) ++
  le_bytes 2 (vd_flags d) ++ le_bytes 2 (vd_next d).

(** A ring of four entries on which the guest posted one chain, a single
    INDIRECT descriptor naming a table of [n] entries at guest-physical
    address [0x2000]. *)
Definition indirect_ring (n : Z) : viona_vring :=
  mk_ring 4 flat_lease
    (fun i => {| vd_addr := 8192; vd_len := 16 * n;
                 vd_flags := VRING_DESC_F_INDIRECT; vd_next := 0 |})
    0 1 (fun _ => 0) 0 0.

(** Memory whose indirect table at [0x2000] (host address [0x3000]) holds
    the given entries. *)
Definition table_mem (entries : list virtio_desc) : gmem :=
  bcopy (concat (map desc_bytes entries)) 12288 zero_mem.

(** A table whose first entry, a 10-byte header at [0x4000], leads to an
    entry with INDIRECT set. *)
Definition nested_table : list virtio_desc :=
  [ {| vd_addr := 16384; vd_len := 10; vd_flags := VRING_DESC_F_NEXT; vd_next := 1 |};
    {| vd_addr := 24576; vd_len := 16; vd_flags := VRING_DESC_F_INDIRECT; vd_next := 0 |} ].

(** A table of three entries: a 10-byte header at [0x4000] leading to 60
    bytes at [0x5000] that end the chain, and a third entry, which no entry
    names, with INDIRECT set. *)
Definition unreached_nest_table : list virtio_desc :=
  [ {| vd_addr := 16384; vd_len := 10; vd_flags := VRING_DESC_F_NEXT; vd_next := 1 |};
    {| vd_addr := 20480; vd_len := 60; vd_flags := 0; vd_next := 0 |};
    {| vd_addr := 24576; vd_len := 16; vd_flags := VRING_DESC_F_INDIRECT; vd_next := 0 |} ].

(** The headers as illumos defines them, on a little-endian host. *)
Definition illumos_headers : sys_headers :=
  {| sizeof_ether_header := 14;
     sizeof_ether_vlan_header := 18;
     ETHERTYPE_VLAN := 33024;
     ETHERTYPE_IP := 2048;
     ETHERTYPE_IPV6 := 34525;
     IPPROTO_NONE := 59;
     IPPROTO_TCP := 6;
     IPPROTO_UDP := 17;
     HCKSUM_INET_PARTIAL := 1;
     HCKSUM_INET_FULL_V4 := 2;
     HCKSUM_INET_FULL_V6 := 4;
     eth_type := fun b => 256 * u8 (b 12) + u8 (b 13);
     veth_type := fun b => 256 * u8 (b 16) + u8 (b 17);
     ipha_protocol := fun b e => u8 (b (e + 9));
     ip6_nxt := fun b e => u8 (b (e + 6));
     off_tcph_checksum := fun b e => e + Z.shiftl (Z.land (u8 (b e)) 15) 2 + 16;
     off_ipha_hdr_checksum := fun e => e + 10;
     pseudo_cksum := fun b e =>
       let src := load_le b (e + 12) 4 in
       let dst := load_le b (e + 16) 4 in
       let cksum :=
         u32 (1536 + (Z.shiftr dst 16 + Z.land dst 65535 +
                      (Z.shiftr src 16 + Z.land src 65535))) in
       let cksum := u32 (Z.land cksum 65535 + Z.shiftr cksum 16) in
       u16 (Z.land cksum 65535 + Z.shiftr cksum 16) |}.

(** Transmit collaborators that never fail: every allocation succeeds and
    the hook consumer accepts every frame as it is. *)
Definition tx_quiet_env : tx_env :=
  {| tx_alloc := fun _ => true;
     tx_fresh := fun _ => 0;
     tx_hook_run := fun _ => TxHookAccept 0 [] |}.

(** A link with the given negotiated features and checksum capabilities of
    the NIC, and no hook subscriber. *)
Definition tx_link (features cap : Z) : viona_link :=
  {| l_vrings := fun _ => reset_ring;
     l_features := features; l_cap_csum := cap; l_notify_ioport := 0;
     l_hook_in := false; l_hook_out := false |}.

(** A ring of four entries on which the guest posted one chain: a 10-byte
    virtio-net header at guest-physical address [0x4000] followed by [n]
    bytes at [0x5000]. *)
Definition hdr_payload_ring (n : Z) : viona_vring :=
  mk_ring 4 flat_lease
    (fun i => if i =? 0
              then {| vd_addr := 16384; vd_len := 10;
                      vd_flags := VRING_DESC_F_NEXT; vd_next := 1 |}
              else {| vd_addr := 20480; vd_len := n;
                      vd_flags := 0; vd_next := 0 |})
    0 1 (fun _ => 0) 0 0.

(** Memory with the virtio-net header [hdr] at host address [0x5000] and
    the bytes [frame] at [0x6000], where [flat_lease] places the two
    segments of [hdr_payload_ring]. *)
Definition tx_mem (hdr frame : list Z) : gmem :=
  bcopy hdr 20480 (bcopy frame 24576 zero_mem).

(** A header that asks for a checksum at offset 16 from byte 14 on and for
    TCP segmentation with MSS 1448. *)
Definition lso_hdr : list Z := [1; 1; 0; 0; 168; 5; 14; 0; 16; 0].

(** The first 36 bytes of an IPv4 TCP frame whose IP header claims the
    longest header there is, 60 bytes: Ethernet addresses, type [0x0800],
    version and header length [0x4f], protocol 6. *)
Definition short_tcp_frame : list Z :=
  repeat 0 12 ++ [8; 0; 79] ++ repeat 0 8 ++ [6] ++ repeat 0 12.

(** A lease that maps the first 4 GiB of guest-physical memory at host
    address [0x1000]. *)
Definition wide_lease (gpa len : Z) : option Z :=
  if (0 <=? gpa) && (gpa + len <=? 4294967296) then Some (gpa + 4096) else None.

(** A ring of four entries on which the guest posted one chain of three
    descriptors: a 10-byte header and twice the same 2 GiB of memory. *)
Definition huge_chain_ring : viona_vring :=
  mk_ring 4 wide_lease
    (fun i => if i =? 0
              then {| vd_addr := 16384; vd_len := 10;
                      vd_flags := VRING_DESC_F_NEXT; vd_next := 1 |}
              else {| vd_addr := 0; vd_len := 2147483648;
                      vd_flags := if i =? 1 then VRING_DESC_F_NEXT else 0;
                      vd_next := 2 |})
    0 1 (fun _ => 0) 0 0.

(** Transmit collaborators with no memory to give. *)
Definition tx_nomem_env : tx_env :=
  {| tx_alloc := fun _ => false;
     tx_fresh := fun _ => 0;
     tx_hook_run := fun _ => TxHookAccept 0 [] |}.

(** The length of the first block of a frame. *)
Definition first_MBLKL (frame : list mblk) : Z :=
  match frame with
  | [] => 0
  | b :: _ => MBLKL b
  end.

(** ** Interrupt control and the notify port *)

(** The outcome of the ioctl handlers below: 0 or the error number. *)
Inductive ioc_err := IOC_OK | IOC_EFAULT | IOC_EINVAL | IOC_EBUSY | IOC_ENOMEM.

Definition set_msi (addr msg : Z) (r : viona_vring) : viona_vring :=
  {| vr_state := vr_state r; vr_state_flags := vr_state_flags r;
     vr_xfer_outstanding := vr_xfer_outstanding r; vr_lease := vr_lease r;
     vr_txdesb := vr_txdesb r; vr_intr_enabled := vr_intr_enabled r;
     vr_msi_addr := addr; vr_msi_msg := msg;
     vr_size := vr_size r; vr_mask := vr_mask r; vr_cur_aidx := vr_cur_aidx r;
     vr_descr := vr_descr r; vr_avail_flags := vr_avail_flags r;
     vr_avail_idx := vr_avail_idx r; vr_avail_ring := vr_avail_ring r;
     vr_used_flags := vr_used_flags r; vr_used_idx := vr_used_idx r;
     vr_used_ring := vr_used_ring r; vr_stats := vr_stats r;
     vr_log := vr_log r |}.

(** What [ddi_copyin] delivers of a [vioc_ring_msi_t]. *)
Record vioc_ring_msi := { rm_index : Z; rm_addr : Z; rm_msg : Z }.

(** [viona_ioc_ring_set_msi (link, data, md)]; [vrm] is the structure that
    [ddi_copyin] delivered, [None] when it failed. *)
Definition viona_ioc_ring_set_msi (link : viona_link)
    (vrm : option vioc_ring_msi) : viona_link * ioc_err :=
  match vrm with
  | None => (link, IOC_EFAULT)
  | Some vrm =>
    if rm_index vrm >=? VIONA_VQ_MAX then (link, IOC_EINVAL)
    else
      let ring := l_vrings link (rm_index vrm) in
      (set_vring (rm_index vrm) (set_msi (rm_addr vrm) (rm_msg vrm) ring) link,
       IOC_OK)
  end.

(** [viona_ioc_ring_intr_clear (link, idx)] *)
Definition viona_ioc_ring_intr_clear (link : viona_link) (idx : Z)
  : viona_link * ioc_err :=
  if idx >=? VIONA_VQ_MAX then (link, IOC_EINVAL)
  else (set_vring idx (set_intr_enabled 0 (l_vrings link idx)) link, IOC_OK).

(** The loop of [viona_ioc_intr_poll] from ring [i] on, with [n] rings
    left: the status words and the count of those that are not zero. *)
Fixpoint intr_poll_loop (link : viona_link) (n : nat) (i cnt : Z)
  : list Z * Z :=
  match n with
  | O => ([], cnt)
  | S n' =>
    let val := vr_intr_enabled (l_vrings link i) in
    let '(rest, cnt') :=
      intr_poll_loop link n' (i + 1) (if negb (val =? 0) then cnt + 1 else cnt) in
    (val :: rest, cnt')
  end.

(** [viona_ioc_intr_poll (link, udata, md, rv)]: the [vip_status] array
    handed to [ddi_copyout] and, when [copyout_ok], the value left in
    [*rv]. *)
Definition viona_ioc_intr_poll (link : viona_link) (copyout_ok : bool)
  : ioc_err * list Z * option Z :=
  let '(status, cnt) := intr_poll_loop link (Z.to_nat VIONA_VQ_MAX) 0 0 in
  if copyout_ok then (IOC_OK, status, Some cnt)
  else (IOC_EFAULT, status, None).

(** The calls [viona_ioc_set_notify_ioport] makes to the hypervisor. *)
Inductive ioport_call :=
| IoportUnhook (port : Z)   (* vmm_drv_ioport_unhook of the hook at port *)
| IoportHook (port : Z).    (* vmm_drv_ioport_hook (hold, port, ...) *)

Definition set_notify_ioport (port : Z) (l : viona_link) : viona_link :=
  {| l_vrings := l_vrings l; l_features := l_features l;
     l_cap_csum := l_cap_csum l; l_notify_ioport := port;
     l_hook_in := l_hook_in l; l_hook_out := l_hook_out l |}.

(** [viona_ioc_set_notify_ioport (link, ioport)]; [hook_err] is what
    [vmm_drv_ioport_hook] returns if it is called.  Returns the link, the
    error and the calls made, in order. *)
Definition viona_ioc_set_notify_ioport (link : viona_link) (ioport hook_err : Z)
  : viona_link * Z * list ioport_call :=
  let '(link, calls) :=
    if negb (l_notify_ioport link =? 0)
    then (set_notify_ioport 0 link, [IoportUnhook (l_notify_ioport link)])
    else (link, []) in
  if negb (ioport =? 0) then
    if hook_err =? 0
    then (set_notify_ioport ioport link, 0, calls ++ [IoportHook ioport])
    else (link, hook_err, calls ++ [IoportHook ioport])
  else (link, 0, calls).

(** ** Receive: the MAC callbacks *)

(** The test that opens both callbacks: the ring is inactive or renewing
    its lease. *)
Definition rx_ring_closed (ring : viona_vring) : bool :=
  match vr_state ring with
  | VRS_RUN => negb (Z.land (vr_state_flags ring) VRSF_RENEW =? 0)
  | _ => true
  end.

(** [viona_rx_classified (ring, mrh, mp, is_loopback)] *)
Definition viona_rx_classified (env : rx_env) (link : viona_link)
    (ring : viona_vring) (m : gmem) (frames : list msg) : viona_vring * gmem :=
  if rx_ring_closed ring then (ring, m)
  else
    let o := viona_rx_common env link ring m frames in
    (ro_ring o, ro_mem o).

(** What the multicast callback asks of MAC: [mac_vlan_header_info], which
    tells whether the destination is a multicast address or fails, and
    [msgpullup (mp, sizeof (struct ether_vlan_header))]. *)
Record mcast_env := {
  mc_header_info : msg -> option bool;
  mc_pullup : msg -> option msg
}.

(** The packet-type check of one frame: the error, zero or not, left in
    [err], and whether [mhi.mhi_dsttype] is [MAC_ADDRTYPE_MULTICAST]. *)
Definition mcast_check (mc : mcast_env) (mp : msg) : option bool :=
  match mc_header_info mc mp with
  | Some t => Some t
  | None =>
    match mc_pullup mc mp with
    | None => None
    | Some pull => mc_header_info mc pull
    end
  end.

(** The [while (mp != NULL)] loop of [viona_rx_mcast]: the ring with its
    statistics and the chain [mp_mcast_only]. *)
Fixpoint mcast_loop (mc : mcast_env) (ring : viona_vring) (frames : list msg)
  : viona_vring * list msg :=
  match frames with
  | [] => (ring, [])
  | mp :: next =>
    match mcast_check mc mp with
    | None =>
      mcast_loop mc (VIONA_RING_STAT_INCR ring rs_rx_mcast_check) next
    | Some true =>
      let '(ring, kept) := mcast_loop mc ring next in (ring, mp :: kept)
    | Some false => mcast_loop mc ring next
    end
  end.

(** [viona_rx_mcast (ring, mrh, mp, is_loopback)] *)
Definition viona_rx_mcast (mc : mcast_env) (env : rx_env) (link : viona_link)
    (ring : viona_vring) (m : gmem) (frames : list msg) : viona_vring * gmem :=
  if rx_ring_closed ring then (ring, m)
  else
    let '(ring, kept) := mcast_loop mc ring frames in
    match kept with
    | [] => (ring, m)
    | _ =>
      let o := viona_rx_common env link ring m kept in
      (ro_ring o, ro_mem o)
    end.

(** ** The transmit worker's burst *)

Definition set_used_flags (v : Z) (r : viona_vring) : viona_vring :=
  {| vr_state := vr_state r; vr_state_flags := vr_state_flags r;
     vr_xfer_outstanding := vr_xfer_outstanding r; vr_lease := vr_lease r;
     vr_txdesb := vr_txdesb r; vr_intr_enabled := vr_intr_enabled r;
     vr_msi_addr := vr_msi_addr r; vr_msi_msg := vr_msi_msg r;
     vr_size := vr_size r; vr_mask := vr_mask r; vr_cur_aidx := vr_cur_aidx r;
     vr_descr := vr_descr r; vr_avail_flags := vr_avail_flags r;
     vr_avail_idx := vr_avail_idx r; vr_avail_ring := vr_avail_ring r;
     vr_used_flags := v; vr_used_idx := vr_used_idx r;
     vr_used_ring := vr_used_ring r; vr_stats := vr_stats r;
     vr_log := vr_log r |}.

(** The loop [while (viona_vr_num_avail (ring)) { viona_tx (link, ring);
    if (ntx++ >= ring->vr_size) break; }] of [viona_worker_tx], against a
    guest that posts nothing meanwhile.  [envs k] is what lies outside the
    driver during the call made with [ntx = k].  Returns the outcome of the
    last call and [ntx]; [None] when the rounds allowed by [fuel] did not
    reach the end of the loop. *)
Fixpoint tx_burst_loop (fuel : nat) (K : sys_headers) (envs : Z -> tx_env)
    (link : viona_link) (ring : viona_vring) (m : gmem) (ntx : Z)
  : option (tx_result * Z) :=
  match fuel with
  | O => None
  | S fuel =>
    if viona_vr_num_avail ring =? 0 then Some (TxDone ring, ntx)
    else
      match viona_tx K (envs ntx) link ring m with
      | TxPanic ring => Some (TxPanic ring, ntx)
      | TxDone ring =>
        if ntx >=? vr_size ring then Some (TxDone ring, u32 (ntx + 1))
        else tx_burst_loop fuel K envs link ring m (u32 (ntx + 1))
      end
  end.

(** One burst of [viona_worker_tx]: notifications are turned off in
    [vr_used_flags], the loop runs from [ntx = 0], and notifications are
    turned on again. *)
Definition tx_burst (fuel : nat) (K : sys_headers) (envs : Z -> tx_env)
    (link : viona_link) (ring : viona_vring) (m : gmem)
  : option (tx_result * Z) :=
  let ring :=
    set_used_flags (u16 (Z.lor (vr_used_flags ring) VRING_USED_F_NO_NOTIFY))
      ring in
  match tx_burst_loop fuel K envs link ring m 0 with
  | None => None
  | Some (TxPanic ring, ntx) => Some (TxPanic ring, ntx)
  | Some (TxDone ring, ntx) =>
    Some (TxDone
            (set_used_flags
               (u16 (Z.land (vr_used_flags ring)
                       (Z.lnot VRING_USED_F_NO_NOTIFY))) ring), ntx)
  end.

(** Two rings that agree on everything the transmit path only reads: the
    state, the lease, the interrupt configuration, the geometry, the
    position in the available ring and the guest's side of the queue. *)
Definition same_queue (r r' : viona_vring) : Prop :=
  vr_state r' = vr_state r /\ vr_state_flags r' = vr_state_flags r /\
  vr_lease r' = vr_lease r /\
  vr_msi_addr r' = vr_msi_addr r /\ vr_msi_msg r' = vr_msi_msg r /\
  vr_size r' = vr_size r /\ vr_mask r' = vr_mask r /\
  vr_cur_aidx r' = vr_cur_aidx r /\
  vr_descr r' = vr_descr r /\ vr_avail_flags r' = vr_avail_flags r /\
  vr_avail_idx r' = vr_avail_idx r /\ vr_avail_ring r' = vr_avail_ring r /\
  vr_used_flags r' = vr_used_flags r.

(** [r'] agrees with [r] on everything the transmit path only reads, but
    for the position in the available ring. *)
Definition same_queue_but_aidx (r r' : viona_vring) : Prop :=
  same_queue (set_cur_aidx (vr_cur_aidx r') r) r'.

(** ** Interrupts in the log *)

(** The events that interrupt the guest: an MSI or the wake-up of the
    poller. *)
Definition is_intr (e : event) : bool :=
  match e with
  | EvMsi _ _ | EvPollwakeup => true
  | _ => false
  end.

Definition interrupts (l : list event) : list event := filter is_intr l.

(** From [r] to [r'] nothing interrupted the guest, and what decides about
    the next interrupt is as it was. *)
Definition no_interrupt (r r' : viona_vring) : Prop :=
  (exists l, vr_log r' = vr_log r ++ l /\ interrupts l = []) /\
  vr_intr_enabled r' = vr_intr_enabled r /\
  vr_msi_addr r' = vr_msi_addr r /\ vr_msi_msg r' = vr_msi_msg r /\
  vr_avail_flags r' = vr_avail_flags r.

(** ** The bytes of a transmitted frame *)

(** The hook consumers of [env] leave the bytes of the frames they accept
    as they are. *)
Definition hook_keeps_bytes (env : tx_env) : Prop :=
  forall frame released rewritten,
    tx_hook_run env frame = TxHookAccept released rewritten -> rewritten = [].

(** The bytes of the segment [v] in host memory. *)
Definition seg_data (m : gmem) (v : iovec) : list Z :=
  gread m (iov_base v) (iov_len v).

(** The frame the guest posted in the chain [iov]: the bytes of the
    segments after the one that holds the virtio-net header, in order. *)
Definition tx_payload (m : gmem) (iov : list iovec) : list Z :=
  flat_map (seg_data m) (tl iov).

(** The bytes of the segments [rest] from offset [base_off] of the first
    on: what the second loop of [viona_tx] has still to cover. *)
Definition rest_data (m : gmem) (rest : list iovec) (base_off : Z) : list Z :=
  match rest with
  | [] => []
  | v :: r =>
    gread m (iov_base v + base_off) (iov_len v - base_off) ++
    flat_map (seg_data m) r
  end.

(** ** Ring set-up *)

(** [sizeof (struct virtio_used)], packed. *)
Definition sizeof_virtio_used : Z := 8.

Definition VRING_ALIGN : Z := 4096.

(** Modelled from the spec: [P2ROUNDUP] comes from [sys/sysmacros.h], which
    is not part of the sources at hand; rings are aligned to 4096 bytes, and
    the macro rounds its [uint64_t] argument up to the next multiple of the
    alignment. *)
Definition P2ROUNDUP (x align : Z) : Z :=
  u64 ((x + align - 1) / align * align).

(** Modelled from the spec: [ffs] comes from the kernel's common routines,
    which are not part of the sources at hand; ring sizes are powers of two,
    and [ffs] gives the position, counted from 1, of the lowest bit set, 0
    when there is none. *)
Fixpoint ffs_pos (p : positive) : Z :=
  match p with
  | xO p' => 1 + ffs_pos p'
  | _ => 1
  end.

Definition ffs (x : Z) : Z :=
  match x with
  | Z.pos p => ffs_pos p
  | _ => 0
  end.

(** The host addresses [viona_ring_map] stores in the ring. *)
Record ring_map := {
  map_descr : Z;
  map_avail_flags : Z;
  map_avail_idx : Z;
  map_avail_ring : Z;
  map_avail_used_event : Z;
  map_used_flags : Z;
  map_used_idx : Z;
  map_used_ring : Z;
  map_used_avail_event : Z
}.

(** The ring with what set-up and tear-down keep beside the fields of
    [viona_vring]. *)
Record vring_setup := {
  vs_ring : viona_vring;
  vs_leased : bool;          (* vr_lease != NULL *)
  vs_pa : Z;                 (* vr_pa *)
  vs_map : option ring_map;  (* vr_descr ... vr_used_avail_event; None: NULL *)
  vs_txiov : bool;           (* vr_txiov != NULL *)
  vs_worker : bool           (* vr_worker_thread was set *)
}.

Definition with_ring (r : viona_vring) (vs : vring_setup) : vring_setup :=
  {| vs_ring := r; vs_leased := vs_leased vs; vs_pa := vs_pa vs;
     vs_map := vs_map vs; vs_txiov := vs_txiov vs; vs_worker := vs_worker vs |}.

Definition with_map (mp : option ring_map) (vs : vring_setup) : vring_setup :=
  {| vs_ring := vs_ring vs; vs_leased := vs_leased vs; vs_pa := vs_pa vs;
     vs_map := mp; vs_txiov := vs_txiov vs; vs_worker := vs_worker vs |}.

Definition with_txiov (v : bool) (vs : vring_setup) : vring_setup :=
  {| vs_ring := vs_ring vs; vs_leased := vs_leased vs; vs_pa := vs_pa vs;
     vs_map := vs_map vs; vs_txiov := v; vs_worker := vs_worker vs |}.

Definition set_state (v : viona_ring_state) (r : viona_vring) : viona_vring :=
  {| vr_state := v; vr_state_flags := vr_state_flags r;
     vr_xfer_outstanding := vr_xfer_outstanding r; vr_lease := vr_lease r;
     vr_txdesb := vr_txdesb r; vr_intr_enabled := vr_intr_enabled r;
     vr_msi_addr := vr_msi_addr r; vr_msi_msg := vr_msi_msg r;
     vr_size := vr_size r; vr_mask := vr_mask r; vr_cur_aidx := vr_cur_aidx r;
     vr_descr := vr_descr r; vr_avail_flags := vr_avail_flags r;
     vr_avail_idx := vr_avail_idx r; vr_avail_ring := vr_avail_ring r;
     vr_used_flags := vr_used_flags r; vr_used_idx := vr_used_idx r;
     vr_used_ring := vr_used_ring r; vr_stats := vr_stats r;
     vr_log := vr_log r |}.

Definition set_size_mask (size mask : Z) (r : viona_vring) : viona_vring :=
  {| vr_state := vr_state r; vr_state_flags := vr_state_flags r;
     vr_xfer_outstanding := vr_xfer_outstanding r; vr_lease := vr_lease r;
     vr_txdesb := vr_txdesb r; vr_intr_enabled := vr_intr_enabled r;
     vr_msi_addr := vr_msi_addr r; vr_msi_msg := vr_msi_msg r;
     vr_size := size; vr_mask := mask; vr_cur_aidx := vr_cur_aidx r;
     vr_descr := vr_descr r; vr_avail_flags := vr_avail_flags r;
     vr_avail_idx := vr_avail_idx r; vr_avail_ring := vr_avail_ring r;
     vr_used_flags := vr_used_flags r; vr_used_idx := vr_used_idx r;
     vr_used_ring := vr_used_ring r; vr_stats := vr_stats r;
     vr_log := vr_log r |}.

(** [ring->vr_lease = lease] for a lease that translates as [lease] does;
    a NULL lease translates nothing. *)
Definition set_lease (lease : option (Z -> Z -> option Z)) (vs : vring_setup)
  : vring_setup :=
  let r := vs_ring vs in
  {| vs_ring :=
       {| vr_state := vr_state r; vr_state_flags := vr_state_flags r;
          vr_xfer_outstanding := vr_xfer_outstanding r;
          vr_lease := match lease with
                      | Some l => l
                      | None => fun _ _ => None
                      end;
          vr_txdesb := vr_txdesb r; vr_intr_enabled := vr_intr_enabled r;
          vr_msi_addr := vr_msi_addr r; vr_msi_msg := vr_msi_msg r;
          vr_size := vr_size r; vr_mask := vr_mask r;
          vr_cur_aidx := vr_cur_aidx r;
          vr_descr := vr_descr r; vr_avail_flags := vr_avail_flags r;
          vr_avail_idx := vr_avail_idx r; vr_avail_ring := vr_avail_ring r;
          vr_used_flags := vr_used_flags r; vr_used_idx := vr_used_idx r;
          vr_used_ring := vr_used_ring r; vr_stats := vr_stats r;
          vr_log := vr_log r |};
     vs_leased := match lease with Some _ => true | None => false end;
     vs_pa := vs_pa vs; vs_map := vs_map vs; vs_txiov := vs_txiov vs;
     vs_worker := vs_worker vs |}.

(** What the ring sees through the pointers of [mp] in the memory [m]. *)
Definition ring_view (m : gmem) (mp : ring_map) (r : viona_vring) : viona_vring :=
  {| vr_state := vr_state r; vr_state_flags := vr_state_flags r;
     vr_xfer_outstanding := vr_xfer_outstanding r; vr_lease := vr_lease r;
     vr_txdesb := vr_txdesb r; vr_intr_enabled := vr_intr_enabled r;
     vr_msi_addr := vr_msi_addr r; vr_msi_msg := vr_msi_msg r;
     vr_size := vr_size r; vr_mask := vr_mask r; vr_cur_aidx := vr_cur_aidx r;
     vr_descr := fun i => load_desc m (map_descr mp + sizeof_virtio_desc * i);
     vr_avail_flags := load16 m (map_avail_flags mp);
     vr_avail_idx := load16 m (map_avail_idx mp);
     vr_avail_ring := fun i => load16 m (map_avail_ring mp + 2 * i);
     vr_used_flags := load16 m (map_used_flags mp);
     vr_used_idx := load16 m (map_used_idx mp);
     vr_used_ring :=
       fun i => {| vu_idx := load_le m (map_used_ring mp + sizeof_virtio_used * i) 4;
                   vu_tlen := load_le m (map_used_ring mp + sizeof_virtio_used * i
                                         + 4) 4 |};
     vr_stats := vr_stats r; vr_log := vr_log r |}.

(** [viona_ring_unmap (ring)] *)
Definition viona_ring_unmap (vs : vring_setup) : vring_setup :=
  with_map None vs.

(** [viona_ring_map (ring)]; [m] is the memory the new pointers show. *)
Definition viona_ring_map (m : gmem) (vs : vring_setup) : vring_setup * bool :=
  let ring := vs_ring vs in
  let pos := vs_pa vs in
  let qsz := u16 (vr_size ring) in
  let desc_sz := qsz * sizeof_virtio_desc in
  match viona_gpa2kva ring pos desc_sz with
  | None => (viona_ring_unmap vs, false)
  | Some descr =>
    let pos := u64 (pos + desc_sz) in
    let avail_sz := (qsz + 3) * 2 in
    match viona_gpa2kva ring pos avail_sz with
    | None => (viona_ring_unmap vs, false)
    | Some avail_flags =>
      let pos := u64 (pos + avail_sz) in
      let used_sz := qsz * sizeof_virtio_used + 2 * 3 in
      let pos := P2ROUNDUP pos VRING_ALIGN in
      match viona_gpa2kva ring pos used_sz with
      | None => (viona_ring_unmap vs, false)
      | Some used_flags =>
        let mp :=
          {| map_descr := descr;
             map_avail_flags := avail_flags;
             map_avail_idx := avail_flags + 2 * 1;
             map_avail_ring := avail_flags + 2 * 2;
             map_avail_used_event := avail_flags + 2 * 2 + 2 * qsz;
             map_used_flags := used_flags;
             map_used_idx := used_flags + 2 * 1;
             map_used_ring := used_flags + 2 * 2;
             map_used_avail_event :=
               used_flags + 2 * 2 + sizeof_virtio_used * qsz |} in
        (with_ring (ring_view m mp ring) (with_map (Some mp) vs), true)
      end
    end
  end.

(** [viona_ring_lease_drop (ring)] *)
Definition viona_ring_lease_drop (vs : vring_setup) : vring_setup :=
  if vs_leased vs then set_lease None (viona_ring_unmap vs) else vs.

(** [viona_ring_lease_renew (ring)]; [sign] is what [vmm_drv_lease_sign]
    returns, [None] for NULL. *)
Definition viona_ring_lease_renew (sign : option (Z -> Z -> option Z))
    (m : gmem) (vs : vring_setup) : vring_setup * bool :=
  let vs := viona_ring_lease_drop vs in
  let vs := set_lease sign vs in
  if vs_leased vs then
    if negb (vs_pa vs =? 0) && negb (vr_size (vs_ring vs) =? 0) then
      match viona_ring_map m vs with
      | (vs, false) => (viona_ring_lease_drop vs, false)
      | (vs, true) => (vs, vs_leased vs)
      end
    else (vs, vs_leased vs)
  else (vs, vs_leased vs).

(** [viona_ring_misc_free (ring)] *)
Definition viona_ring_misc_free (vs : vring_setup) : vring_setup :=
  with_txiov false (with_ring (set_txdesb None (vs_ring vs)) vs).

(** What [ddi_copyin] delivers of a [vioc_ring_init_t]. *)
Record vioc_ring_init := { ri_index : Z; ri_qaddr : Z; ri_qsize : Z }.

(** What lies outside the driver when a ring is set up: the lease that
    [vmm_drv_lease_sign] grants, whether [viona_create_worker] gets its
    thread, [link->l_force_tx_copy], and guest memory. *)
Record ring_init_env := {
  ie_sign : option (Z -> Z -> option Z);
  ie_worker : bool;
  ie_force_tx_copy : bool;
  ie_mem : gmem
}.

Inductive ring_init_result :=
| RingInit (rings : Z -> vring_setup) (err : ioc_err)
| RingInitPanic.          (* VERIFY (ring->vr_state_flags == 0) failed *)

Definition set_setup (idx : Z) (vs : vring_setup) (rings : Z -> vring_setup)
  : Z -> vring_setup :=
  fun i => if i =? idx then vs else rings i.

(** The label [fail] of [viona_ioc_ring_init]. *)
Definition ring_init_fail (vs : vring_setup) : vring_setup :=
  let vs := viona_ring_lease_drop vs in
  let vs := viona_ring_misc_free vs in
  with_ring (set_size_mask 0 0 (vs_ring vs)) vs.

(** [viona_ioc_ring_init (link, udata, md)] on the rings of the link;
    [kri] is the structure that [ddi_copyin] delivered, [None] when it
    failed. *)
Definition viona_ioc_ring_init (env : ring_init_env)
    (rings : Z -> vring_setup) (kri : option vioc_ring_init)
  : ring_init_result :=
  match kri with
  | None => RingInit rings IOC_EFAULT
  | Some kri =>
    if ri_index kri >=? VIONA_VQ_MAX then RingInit rings IOC_EINVAL
    else
      let qsz := u16 (ri_qsize kri) in
      if (qsz =? 0) || (qsz >? VRING_MAX_LEN) ||
         negb (Z.shiftl 1 (ffs qsz - 1) =? qsz)
      then RingInit rings IOC_EINVAL
      else
        let idx := ri_index kri in
        let vs := rings idx in
        match vr_state (vs_ring vs) with
        | VRS_RESET =>
          if negb (vr_state_flags (vs_ring vs) =? 0) then RingInitPanic
          else
            let vs := set_lease None vs in
            let '(vs, ok) :=
              viona_ring_lease_renew (ie_sign env) (ie_mem env) vs in
            if negb ok
            then RingInit (set_setup idx (ring_init_fail vs) rings) IOC_EBUSY
            else
              let vs := with_ring (set_size_mask qsz (u16 (qsz - 1))
                                     (vs_ring vs)) vs in
              let vs :=
                {| vs_ring := vs_ring vs; vs_leased := vs_leased vs;
                   vs_pa := ri_qaddr kri; vs_map := vs_map vs;
                   vs_txiov := vs_txiov vs; vs_worker := vs_worker vs |} in
              let '(vs, ok) := viona_ring_map (ie_mem env) vs in
              if negb ok
              then RingInit (set_setup idx (ring_init_fail vs) rings) IOC_EINVAL
              else
                let vs := with_ring (set_cur_aidx 0 (vs_ring vs)) vs in
                let vs :=
                  if (idx =? VIONA_VQ_TX) && negb (ie_force_tx_copy env)
                  then with_ring (set_txdesb (Some (fun _ => desb0))
                                    (vs_ring vs)) vs
                  else vs in
                let vs := if idx =? VIONA_VQ_TX then with_txiov true vs else vs in
                let vs := with_ring (set_msi 0 0 (vs_ring vs)) vs in
                let vs := with_ring (set_stats (fun _ => 0) (vs_ring vs)) vs in
                if negb (ie_worker env)
                then RingInit (set_setup idx (ring_init_fail vs) rings) IOC_ENOMEM
                else
                  let vs :=
                    {| vs_ring := vs_ring vs; vs_leased := vs_leased vs;
                       vs_pa := vs_pa vs; vs_map := vs_map vs;
                       vs_txiov := vs_txiov vs; vs_worker := true |} in
                  let vs := with_ring (set_state VRS_SETUP (vs_ring vs)) vs in
                  let vs := with_ring (emit EvCvBroadcast (vs_ring vs)) vs in
                  RingInit (set_setup idx vs rings) IOC_OK
        | _ => RingInit rings IOC_EBUSY
        end
  end.

(** Two rings that agree on everything but the lease and the views of the
    queue. *)
Definition same_control (r r' : viona_vring) : Prop :=
  vr_state r' = vr_state r /\ vr_state_flags r' = vr_state_flags r /\
  vr_xfer_outstanding r' = vr_xfer_outstanding r /\
  vr_txdesb r' = vr_txdesb r /\ vr_intr_enabled r' = vr_intr_enabled r /\
  vr_msi_addr r' = vr_msi_addr r /\ vr_msi_msg r' = vr_msi_msg r /\
  vr_size r' = vr_size r /\ vr_mask r' = vr_mask r /\
  vr_cur_aidx r' = vr_cur_aidx r /\ vr_stats r' = vr_stats r /\
  vr_log r' = vr_log r.

(** A ring in RESET as it stands in a link before its first set-up: no
    lease, nothing mapped, at guest-physical address [pa]. *)
Definition setup_of (ring : viona_vring) (leased : bool) (pa : Z) : vring_setup :=
  {| vs_ring := ring; vs_leased := leased; vs_pa := pa; vs_map := None;
     vs_txiov := false; vs_worker := false |}.

(** The bytes a [vioc_ring_init_t] for a TX ring of 256 entries at
    guest-physical address [0x10000] delivers. *)
Definition tx_init_256 : vioc_ring_init :=
  {| ri_index := 1; ri_qaddr := 65536; ri_qsize := 256 |}.

(** Set-up with a granted lease that maps the first 16 MiB, a worker
    thread, and no forced copying. *)
Definition init_env : ring_init_env :=
  {| ie_sign := Some flat_lease; ie_worker := true; ie_force_tx_copy := false;
     ie_mem := zero_mem |}.

(** The error [viona_ioc_ring_init] returned, [None] when it did not
    return, and the rings it left. *)
Definition init_err (res : ring_init_result) : option ioc_err :=
  match res with
  | RingInit _ err => Some err
  | RingInitPanic => None
  end.

Definition init_rings (rings : Z -> vring_setup) (res : ring_init_result)
  : Z -> vring_setup :=
  match res with
  | RingInit rings' _ => rings'
  | RingInitPanic => rings
  end.

(** Set-up in which [viona_create_worker] gets no thread. *)
Definition init_env_no_worker : ring_init_env :=
  {| ie_sign := Some flat_lease; ie_worker := false; ie_force_tx_copy := false;
     ie_mem := zero_mem |}.

(** The rings of a fresh link. *)
Definition fresh_rings : Z -> vring_setup :=
  fun _ => setup_of reset_ring false 0.

(** ** Buffers in flight *)

(** The buffers the driver took from the available ring and has not yet
    returned through the used ring, counted in the 16 bits of the ring
    indices. *)
Definition in_flight (r : viona_vring) : Z :=
  u16 (vr_cur_aidx r - vr_used_idx r).

(** The transmit buffers taken from the available ring that are neither
    returned through the used ring nor counted in [vr_xfer_outstanding], in
    the 16 bits of the ring indices. *)
Definition tx_unaccounted (r : viona_vring) : Z :=
  u16 (vr_cur_aidx r - vr_used_idx r - vr_xfer_outstanding r).

(** From [r] to [r'] the count of unaccounted buffers changed by [d]. *)
Definition accounted (d : Z) (r r' : viona_vring) : Prop :=
  tx_unaccounted r' = u16 (tx_unaccounted r + d).

(** ** What the NIC can do *)

(** [VIONA_CAP_HCKSUM_INTEREST] *)
Definition VIONA_CAP_HCKSUM_INTEREST (K : sys_headers) : Z :=
  Z.lor (HCKSUM_INET_PARTIAL K)
    (Z.lor (HCKSUM_INET_FULL_V4 K) (HCKSUM_INET_FULL_V6 K)).

(** What [mac_capab_get] reports: for [MAC_CAPAB_HCKSUM] the capability
    flags, for [MAC_CAPAB_LSO] the [lso_flags] and
    [lso_basic_tcp_ipv4.lso_max]; [None] when it returns [B_FALSE]. *)
Record mac_capabs := {
  cap_hcksum : option Z;
  cap_lso : option (Z * Z)
}.

(** [viona_get_mac_capab (link)]: the values left in [l_features_hw] and
    [l_cap_csum], the latter being [cap_csum0] before.  [LSO_TX_BASIC_TCP_IPV4]
    and [IP_MAXPACKET] come from system headers that are not part of the
    sources at hand and are parameters. *)
Definition viona_get_mac_capab (K : sys_headers)
    (LSO_TX_BASIC_TCP_IPV4 IP_MAXPACKET : Z) (mac : mac_capabs) (cap_csum0 : Z)
  : Z * Z :=
  let features_hw := 0 in
  let '(features_hw, cap_csum) :=
    match cap_hcksum mac with
    | Some cap =>
      (if negb (Z.land cap (VIONA_CAP_HCKSUM_INTEREST K) =? 0)
       then Z.lor features_hw VIRTIO_NET_F_CSUM else features_hw,
       cap)
    | None => (features_hw, cap_csum0)
    end in
  let features_hw :=
    if negb (Z.land features_hw VIRTIO_NET_F_CSUM =? 0) then
      match cap_lso mac with
      | Some (lso_flags, lso_max) =>
        if negb (Z.land lso_flags LSO_TX_BASIC_TCP_IPV4 =? 0) &&
           (lso_max >=? IP_MAXPACKET)
        then Z.lor features_hw VIRTIO_NET_F_HOST_TSO4 else features_hw
      | None => features_hw
      end
    else features_hw in
  (features_hw, cap_csum).

(** ** The used ring as the guest finds it *)

(** Between [r] and [r'] the completion of the chain [cookie] with length
    [tlen] was published: the slot that the used index of [r] selects under
    the ring mask holds the pair, every other slot is as it was, and the
    used index moved on by one. *)
Definition completed (r r' : viona_vring) (cookie tlen : Z) : Prop :=
  let slot := Z.land (load_used_idx r) (vr_mask r) in
  vr_used_ring r' slot = {| vu_idx := cookie; vu_tlen := tlen |} /\
  (forall s, s <> slot -> vr_used_ring r' s = vr_used_ring r s) /\
  vr_used_idx r' = u16 (vr_used_idx r + 1).

(** Between [r] and [r'] nothing was published. *)
Definition used_untouched (r r' : viona_vring) : Prop :=
  vr_used_ring r' = vr_used_ring r /\ vr_used_idx r' = vr_used_idx r.

(** Between [r] and [r'] the entries [elems] were published in one batch,
    the [j]-th in the [j]-th slot from the used index of [r]: each is in
    its slot unless a later one of the batch took it (a batch longer than
    the ring), the slots that none took are as they were, and the used
    index moved on by the number of entries. *)
Definition completed_batch (r r' : viona_vring) (elems : list used_elem)
  : Prop :=
  (forall j, 0 <= j < zlen elems ->
     (forall j', j < j' < zlen elems -> used_slot r j' <> used_slot r j) ->
     vr_used_ring r' (used_slot r j) =
       {| vu_idx := id (nth (Z.to_nat j) elems used_elem0);
          vu_tlen := len (nth (Z.to_nat j) elems used_elem0) |}) /\
  (forall s, (forall j, 0 <= j < zlen elems -> used_slot r j <> s) ->
     vr_used_ring r' s = vr_used_ring r s) /\
  vr_used_idx r' = u16 (vr_used_idx r + zlen elems).

(** The used index and the used ring. *)
Definition used_of (r : viona_vring) : Z * (Z -> virtio_used) :=
  (vr_used_idx r, vr_used_ring r).

(** The used index and the used ring once the completion [p], a cookie and
    a length, was published under the mask [mask]. *)
Definition push_used (mask : Z) (u : Z * (Z -> virtio_used)) (p : Z * Z)
  : Z * (Z -> virtio_used) :=
  (u16 (fst u + 1),
   fun i => if i =? Z.land (u16 (fst u)) mask
            then {| vu_idx := fst p; vu_tlen := snd p |} else snd u i).

(** From [r] to [r'] the used ring followed the log: it is the used ring of
    [r] with the completions logged since, published one after the other. *)
Definition used_tracks (r r' : viona_vring) : Prop :=
  vr_mask r' = vr_mask r /\
  exists l,
    logged r r' l /\
    used_of r' = fold_left (push_used (vr_mask r)) (used_pushes l) (used_of r).

(** ** Where the rings lie *)

(** The [n] bytes at [a] and the [k] bytes at [b] share no byte. *)
Definition apart (a n b k : Z) : bool := (a + n <=? b) || (b + k <=? a).

(** The buffer of [n] bytes at host address [kva] shares no byte with the
    three regions of a ring of [qsz] entries that [viona_ring_map] placed
    at [mp]: the descriptor table, the available ring with its flags, index
    and event word, and the used ring with its. *)
Definition off_rings (mp : ring_map) (qsz kva n : Z) : bool :=
  apart kva n (map_descr mp) (qsz * sizeof_virtio_desc) &&
  apart kva n (map_avail_flags mp) ((qsz + 3) * 2) &&
  apart kva n (map_used_flags mp) (qsz * sizeof_virtio_used + 2 * 3).

(** Where [viona_ring_map] places a ring of four entries whose descriptor
    table is at guest-physical address [0x1000], under [flat_lease]. *)
Definition four_entry_map : ring_map :=
  {| map_descr := 8192;
     map_avail_flags := 8256; map_avail_idx := 8258; map_avail_ring := 8260;
     map_avail_used_event := 8268;
     map_used_flags := 12288; map_used_idx := 12290; map_used_ring := 12292;
     map_used_avail_event := 12324 |}.

(** The set-up record of the running ring [ring] so placed. *)
Definition mapped_setup (ring : viona_vring) : vring_setup :=
  {| vs_ring := ring; vs_leased := true; vs_pa := 4096;
     vs_map := Some four_entry_map; vs_txiov := false; vs_worker := true |}.

(** Whatever chain the parser hands out of a ring with the descriptor
    table, the lease and the size of [ring], wherever the driver stands in
    the available ring and whatever guest memory holds, lies off the rings
    mapped at [rmap]. *)
Definition chains_off_rings (rmap : ring_map) (ring : viona_vring) : Prop :=
  forall r m niov r' iov cookie,
    vr_descr r = vr_descr ring -> vr_lease r = vr_lease ring ->
    vr_size r = vr_size ring ->
    0 < niov ->
    vq_popchain r m niov = (r', PopChain iov cookie) ->
    Forall (fun v => off_rings rmap (vr_size ring) (iov_base v) (iov_len v)
                     = true) iov.

(** A frame of 1514 bytes whose chain of blocks ends in an empty block. *)
Definition trailing_empty_1514 : msg :=
  {| m_blocks := [{| blk_desb := false; blk_data := repeat 9 1514 |};
                  {| blk_desb := false; blk_data := [] |}];
     m_hw_lso := false; m_lsomss := 0; m_fullcksum_ok := false;
     m_local_mac := false |}.

(** * Properties *)

(** Split a right-nested conjunction into its components, equalities
    included. *)
Ltac splits :=
  match goal with
  | |- _ /\ _ => split; [|splits]
  | _ => idtac
  end.

(** ** Arithmetic of the machine integers *)

Lemma u16_range x : 0 <= u16 x < 2 ^ 16.
Proof. unfold u16. apply Z.mod_pos_bound. lia. Qed.

Lemma u32_range x : 0 <= u32 x < 2 ^ 32.
Proof. unfold u32. apply Z.mod_pos_bound. lia. Qed.

Lemma u64_range x : 0 <= u64 x < 2 ^ 64.
Proof. unfold u64. apply Z.mod_pos_bound. lia. Qed.

Lemma u8_range x : 0 <= u8 x < 2 ^ 8.
Proof. unfold u8. apply Z.mod_pos_bound. lia. Qed.

Lemma u16_u32 x : u16 (u32 x) = u16 x.
Proof.
  unfold u16, u32. apply Z.mod_mod_divide.
  exists (2 ^ 16). reflexivity.
Qed.

Lemma u16_add_l x y : u16 (u16 x + y) = u16 (x + y).
Proof. unfold u16. rewrite Zplus_mod_idemp_l. reflexivity. Qed.

Lemma u16_sub_r x y : u16 (x - u16 y) = u16 (x - y).
Proof. unfold u16. rewrite Zminus_mod_idemp_r. reflexivity. Qed.

Lemma u16_small x : 0 <= x < 2 ^ 16 -> u16 x = x.
Proof. intros. unfold u16. apply Z.mod_small. lia. Qed.

Lemma u32_small x : 0 <= x < 2 ^ 32 -> u32 x = x.
Proof. intros. unfold u32. apply Z.mod_small. lia. Qed.

Lemma u16_idem x : u16 (u16 x) = u16 x.
Proof. unfold u16. apply Z.mod_mod. lia. Qed.

(** The 16-bit distance is zero exactly when the indices agree. *)
Lemma ndesc_zero_iff a c :
  u16 (u32 (u16 a - c)) = 0 <-> u16 a = u16 c.
Proof.
  rewrite u16_u32. pose proof (u16_range a). pose proof (u16_range c).
  split; intros E.
  - rewrite <- u16_sub_r in E. unfold u16 in *.
    assert (((a mod 2 ^ 16) - (c mod 2 ^ 16)) mod 2 ^ 16 = 0) as E' by exact E.
    apply Z.mod_divide in E'; [|lia].
    destruct E' as [q Hq]. 
    assert (q = 0) by nia. subst q. lia.
  - rewrite <- u16_sub_r. rewrite <- E.
    replace (u16 a - u16 a) with 0 by lia. reflexivity.
Qed.

Lemma zlen_app {A} (l1 l2 : list A) : zlen (l1 ++ l2) = zlen l1 + zlen l2.
Proof. unfold zlen. rewrite length_app. lia. Qed.

Lemma zlen_nonneg {A} (l : list A) : 0 <= zlen l.
Proof. unfold zlen. lia. Qed.

Lemma zlen_skipn {A} (l : list A) n :
  0 <= n <= zlen l -> zlen (skipn (Z.to_nat n) l) = zlen l - n.
Proof. intros H. unfold zlen in *. rewrite length_skipn. lia. Qed.

Lemma zlen_firstn {A} (l : list A) n :
  0 <= n <= zlen l -> zlen (firstn (Z.to_nat n) l) = n.
Proof. intros H. unfold zlen in *. rewrite length_firstn. lia. Qed.

Lemma log_since_app r r' l :
  vr_log r' = vr_log r ++ l -> log_since r r' = l.
Proof.
  intros E. unfold log_since. rewrite E, skipn_app, skipn_all, Nat.sub_diag.
  reflexivity.
Qed.

Lemma load_le_nonneg m n : forall a, 0 <= load_le m a n.
Proof.
  induction n; intros a; cbn [load_le]; [lia|].
  specialize (IHn (a + 1)). pose proof (u8_range (m a)). unfold byte_at. lia.
Qed.

(** ** The descriptor parser *)

Lemma load_desc_len_nonneg m a : 0 <= vd_len (load_desc m a).
Proof. apply load_le_nonneg. Qed.

Lemma load_desc_next_nonneg m a : 0 <= vd_next (load_desc m a).
Proof. apply load_le_nonneg. Qed.

Lemma load_descr_len_nonneg r i : 0 <= vd_len (load_descr r i).
Proof. apply u32_range. Qed.

Lemma load_descr_next_nonneg r i : 0 <= vd_next (load_descr r i).
Proof. apply u16_range. Qed.

Section IndirectWalk.

Variables (ring : viona_vring) (m : gmem) (niov : Z).
Variables (t : virtio_desc) (vindir : Z).
Hypothesis Ht : in_table ring t.
Hypothesis Hflag : has_flag (vd_flags t) VRING_DESC_F_INDIRECT = true.
Hypothesis Hlen : Z.land (vd_len t) 15 = 0.
Hypothesis Hn : 0 < vd_len t / 16.
Hypothesis Hkva : viona_gpa2kva ring (vd_addr t) (vd_len t) = Some vindir.

(** The indirect loop never runs out of rounds, collects at least one and
    at most [niov] segments, and every segment it adds was translated. *)
Lemma popchain_indir_ok :
  forall fuel next iov,
    0 <= next < vd_len t / 16 ->
    zlen iov < niov ->
    niov - zlen iov <= Z.of_nat fuel ->
    Forall (seg_translated ring m) iov ->
    match popchain_indir fuel ring m vindir (vd_len t / 16) niov next iov with
    | WalkDone iov' =>
      zlen iov < zlen iov' <= niov /\ Forall (seg_translated ring m) iov'
    | WalkFuel => False
    | WalkLoopy => True
    | WalkBail s => In s popchain_errors
    end.
Proof.
  induction fuel as [|fuel IH]; intros next iov Hnext Hroom Hfuel Hsegs.
  - lia.
  - cbn [popchain_indir].
    set (vp := load_desc m (vindir + sizeof_virtio_desc * next)).
    destruct (has_flag (vd_flags vp) VRING_DESC_F_INDIRECT) eqn:Hind.
    { simpl; tauto. }
    destruct (vd_len vp =? 0) eqn:Hz.
    { simpl; tauto. }
    destruct (viona_gpa2kva ring (vd_addr vp) (vd_len vp)) as [buf|] eqn:Hbuf.
    2:{ simpl; tauto. }
    assert (Hsegs' : Forall (seg_translated ring m)
               (iov ++ [{| iov_base := buf; iov_len := vd_len vp |}])).
    { apply Forall_app. split; [assumption|].
      constructor; [|constructor].
      exists vp. repeat split.
      - right. exists t, vindir, next. repeat split; try assumption; lia.
      - assumption.
      - pose proof (load_desc_len_nonneg m (vindir + sizeof_virtio_desc * next)).
        apply Z.eqb_neq in Hz. fold vp in H. lia.
      - assumption. }
    assert (Hlen' : zlen (iov ++ [{| iov_base := buf; iov_len := vd_len vp |}])
                    = zlen iov + 1).
    { rewrite zlen_app. reflexivity. }
    destruct (has_flag (vd_flags vp) VRING_DESC_F_NEXT) eqn:Hnx; cbn [negb].
    2:{ split; [lia|assumption]. }
    rewrite Hlen'.
    destruct (zlen iov + 1 >=? niov) eqn:Hfull; [exact I|].
    destruct (vd_next vp >=? vd_len t / 16) eqn:Hbad; [simpl; tauto|].
    pose proof (load_desc_next_nonneg m (vindir + sizeof_virtio_desc * next)) as Hnn.
    fold vp in Hnn.
    specialize (IH (vd_next vp)
                   (iov ++ [{| iov_base := buf; iov_len := vd_len vp |}])).
    rewrite Hlen' in IH.
    assert (Hge : (zlen iov + 1 >=? niov) = false) by assumption.
    rewrite Z.geb_leb in Hfull, Hbad.
    apply Z.leb_gt in Hfull, Hbad.
    specialize (IH ltac:(lia) ltac:(lia) ltac:(lia) Hsegs').
    destruct (popchain_indir fuel ring m vindir (vd_len t / 16) niov
                (vd_next vp) _); try assumption.
    destruct IH as [? ?]. split; [lia|assumption].
Qed.

End IndirectWalk.

(** Processing one INDIRECT descriptor of the ring's table. *)
Lemma popchain_indirect_ok ring m niov t iov :
  in_table ring t ->
  has_flag (vd_flags t) VRING_DESC_F_INDIRECT = true ->
  zlen iov < niov ->
  Forall (seg_translated ring m) iov ->
  match popchain_indirect ring m niov t iov with
  | WalkDone iov' =>
    zlen iov < zlen iov' <= niov /\ Forall (seg_translated ring m) iov'
  | WalkFuel => False
  | WalkLoopy => True
  | WalkBail s => In s popchain_errors
  end.
Proof.
  intros Ht Hflag Hroom Hsegs. unfold popchain_indirect.
  destruct (Z.land (vd_len t) 15 =? 0) eqn:Hl; cbn [negb orb]; [|simpl; tauto].
  destruct (vd_len t / 16 =? 0) eqn:Hn; [simpl; tauto|].
  destruct (viona_gpa2kva ring (vd_addr t) (vd_len t)) as [vindir|] eqn:Hk;
    [|simpl; tauto].
  apply Z.eqb_eq in Hl. apply Z.eqb_neq in Hn.
  assert (0 <= vd_len t / 16).
  { destruct Ht as (i & _ & ->). apply Z.div_pos; [apply u32_range|lia]. }
  apply popchain_indir_ok with (t := t); try assumption; try lia.
  pose proof (zlen_nonneg iov). lia.
Qed.

(** The outer loop: [niov - i + 1] rounds are enough, a finished walk holds
    between 1 and [niov] translated segments, and a failed one names one of
    the parser's statistics. *)
Lemma popchain_walk_ok ring m niov :
  forall fuel next iov,
    0 <= next ->
    Z.max 0 (niov - zlen iov) < Z.of_nat fuel ->
    Forall (seg_translated ring m) iov ->
    match popchain_walk fuel ring m niov next iov with
    | WalkDone iov' =>
      zlen iov < zlen iov' <= niov /\ Forall (seg_translated ring m) iov'
    | WalkFuel => False
    | WalkLoopy => True
    | WalkBail s => In s popchain_errors
    end.
Proof.
  induction fuel as [|fuel IH]; intros next iov Hnext Hfuel Hsegs.
  - lia.
  - cbn [popchain_walk].
    destruct (zlen iov <? niov) eqn:Hroom; [|exact I].
    apply Z.ltb_lt in Hroom.
    destruct (next >=? vr_size ring) eqn:Hidx; [simpl; tauto|].
    rewrite Z.geb_leb in Hidx. apply Z.leb_gt in Hidx.
    set (vdir := load_descr ring next).
    assert (Htab : in_table ring vdir) by (exists next; split; [lia|reflexivity]).
    assert (Hstep : forall iov',
               zlen iov < zlen iov' <= niov ->
               Forall (seg_translated ring m) iov' ->
               match (if negb (has_flag (vd_flags vdir) VRING_DESC_F_NEXT)
                      then WalkDone iov'
                      else popchain_walk fuel ring m niov (vd_next vdir) iov') with
               | WalkDone iov'' =>
                 zlen iov < zlen iov'' <= niov /\
                 Forall (seg_translated ring m) iov''
               | WalkFuel => False
               | WalkLoopy => True
               | WalkBail s => In s popchain_errors
               end).
    { intros iov' Hl Hs.
      destruct (has_flag (vd_flags vdir) VRING_DESC_F_NEXT); cbn [negb].
      - specialize (IH (vd_next vdir) iov' (load_descr_next_nonneg ring next)
                       ltac:(lia) Hs).
        destruct (popchain_walk fuel ring m niov (vd_next vdir) iov');
          try assumption.
        destruct IH. split; [lia|assumption].
      - split; assumption. }
    destruct (has_flag (vd_flags vdir) VRING_DESC_F_INDIRECT) eqn:Hind; cbn [negb].
    + pose proof (popchain_indirect_ok ring m niov vdir iov Htab Hind Hroom Hsegs) as Hi.
      destruct (popchain_indirect ring m niov vdir iov); try assumption.
      destruct Hi. apply Hstep; assumption.
    + destruct (vd_len vdir =? 0) eqn:Hz; [simpl; tauto|].
      destruct (viona_gpa2kva ring (vd_addr vdir) (vd_len vdir)) as [buf|] eqn:Hbuf;
        [|simpl; tauto].
      apply Hstep.
      * rewrite zlen_app. change (zlen [_]) with 1. lia.
      * apply Forall_app. split; [assumption|].
        constructor; [|constructor].
        exists vdir. repeat split; try assumption.
        -- left; assumption.
        -- pose proof (load_descr_len_nonneg ring next).
           apply Z.eqb_neq in Hz. fold vdir in H. lia.
Qed.

(** The rounds [vq_popchain] grants the walk always suffice. *)
Lemma popchain_walk_total ring m niov next :
  0 <= next ->
  popchain_walk (S (Z.to_nat niov)) ring m niov next [] <> WalkFuel.
Proof.
  intros Hnext E.
  pose proof (popchain_walk_ok ring m niov (S (Z.to_nat niov)) next []
                Hnext) as H.
  rewrite E in H. apply H; [|constructor].
  change (zlen (@nil iovec)) with 0. lia.
Qed.

Lemma stat_incr_same r s : vr_stats (VIONA_RING_STAT_INCR r s) s = u64 (vr_stats r s + 1).
Proof.
  unfold VIONA_RING_STAT_INCR. cbn.
  destruct (ring_stat_beq s s) eqn:E; [reflexivity|].
  assert (ring_stat_beq s s = true) by (destruct s; reflexivity). congruence.
Qed.

Lemma stat_incr_other r s s' :
  s <> s' -> vr_stats (VIONA_RING_STAT_INCR r s) s' = vr_stats r s'.
Proof.
  intros Hne. unfold VIONA_RING_STAT_INCR. cbn.
  destruct (ring_stat_beq s s') eqn:E; [|reflexivity].
  apply internal_ring_stat_dec_bl in E. contradiction.
Qed.

Lemma popchain_errors_not_too_high s :
  In s popchain_errors -> rs_ndesc_too_high <> s.
Proof.
  intros H E. subst s. simpl in H.
  repeat (destruct H as [H|H]; [discriminate|]). exact H.
Qed.

(** A chain that [vq_popchain] hands out holds between 1 and [niov]
    segments, each the lease translation of a descriptor. *)
Lemma vq_popchain_chain ring m niov ring1 iov cookie :
  0 < niov ->
  vq_popchain ring m niov = (ring1, PopChain iov cookie) ->
  1 <= zlen iov <= niov /\ Forall (seg_translated ring m) iov.
Proof.
  intros Hniov. unfold vq_popchain.
  destruct (u16 (u32 (load_avail_idx ring - vr_cur_aidx ring)) =? 0);
    [discriminate|].
  set (r1 := if _ >? vr_size ring then _ else ring).
  set (head := load_avail_ring r1 _).
  assert (Hhead : 0 <= head) by apply u16_range.
  pose proof (popchain_walk_ok r1 m niov (S (Z.to_nat niov)) head []
                Hhead) as Hw.
  change (zlen (@nil iovec)) with 0 in Hw.
  specialize (Hw ltac:(lia) ltac:(constructor)).
  assert (Hseg : forall v, seg_translated r1 m v -> seg_translated ring m v).
  { intros v Hv. subst r1. destruct (_ >? _); exact Hv. }
  destruct (popchain_walk (S (Z.to_nat niov)) r1 m niov head []) as [iov'| |s|];
    try discriminate.
  intros E. injection E as _ E2 _. subst iov'.
  destruct Hw as [Hl Hs]. split; [lia|].
  eapply Forall_impl; [exact Hseg|exact Hs].
Qed.

(** C1.  Parser safety: for any ring and any descriptor-table contents, a
    call of [vq_popchain] with capacity [niov > 0] returns 0 exactly when
    the available index equals [cur_aidx]; or a count [n] with
    [1 <= n <= niov] whose segments are all lease translations of
    descriptors of non-zero length; or -1 with one of the parser's typed
    statistics incremented.  [cur_aidx] moves only on the success return;
    the 0 and -1 returns leave it as it was. *)
Theorem vq_popchain_safe (ring : viona_vring) (m : gmem) (niov : Z) :
  0 < niov ->
  match vq_popchain ring m niov with
  | (ring', PopEmpty) =>
    load_avail_idx ring = u16 (vr_cur_aidx ring) /\ ring' = ring
  | (ring', PopChain iov cookie) =>
    load_avail_idx ring <> u16 (vr_cur_aidx ring) /\
    1 <= pop_retval (PopChain iov cookie) <= niov /\
    Forall (seg_translated ring m) iov /\
    vr_cur_aidx ring' = u16 (vr_cur_aidx ring + 1)
  | (ring', PopFail) =>
    load_avail_idx ring <> u16 (vr_cur_aidx ring) /\
    pop_retval PopFail = -1 /\
    (exists s, In s popchain_errors /\
               vr_stats ring' s = u64 (vr_stats ring s + 1)) /\
    vr_cur_aidx ring' = vr_cur_aidx ring
  end.
Proof.
  intros Hniov. unfold vq_popchain.
  destruct (u16 (u32 (load_avail_idx ring - vr_cur_aidx ring)) =? 0) eqn:Hnd.
  - apply Z.eqb_eq in Hnd. unfold load_avail_idx in *.
    apply ndesc_zero_iff in Hnd. split; [assumption|reflexivity].
  - apply Z.eqb_neq in Hnd.
    assert (Hne : load_avail_idx ring <> u16 (vr_cur_aidx ring)).
    { intros E. apply Hnd. unfold load_avail_idx in *.
      apply ndesc_zero_iff. exact E. }
    set (ring1 := if _ >? vr_size ring then _ else ring).
    assert (Hsame : vr_size ring1 = vr_size ring /\ vr_descr ring1 = vr_descr ring /\
                    vr_lease ring1 = vr_lease ring /\
                    vr_cur_aidx ring1 = vr_cur_aidx ring /\
                    forall s, In s popchain_errors ->
                              vr_stats ring1 s = vr_stats ring s).
    { subst ring1. destruct (_ >? _); repeat split; intros; try reflexivity.
      apply stat_incr_other. apply popchain_errors_not_too_high. assumption. }
    destruct Hsame as (Hsz & Hds & Hls & Hca & Hst).
    set (head := load_avail_ring ring1 _).
    assert (Hhead : 0 <= head) by apply u16_range.
    pose proof (popchain_walk_ok ring1 m niov (S (Z.to_nat niov)) head []
                  Hhead) as Hw.
    change (zlen (@nil iovec)) with 0 in Hw.
    specialize (Hw ltac:(lia) ltac:(constructor)).
    assert (Hseg : forall v, seg_translated ring1 m v -> seg_translated ring m v).
    { intros v Hv. subst ring1. destruct (_ >? _); exact Hv. }
    destruct (popchain_walk (S (Z.to_nat niov)) ring1 m niov head []) as [iov| |s|].
    + destruct Hw as [Hl Hs]. repeat split; try assumption.
      * cbn [pop_retval]. lia.
      * cbn [pop_retval]. lia.
      * eapply Forall_impl; [exact Hseg|exact Hs].
      * cbn. rewrite Hca. reflexivity.
    + repeat split; try assumption.
      * exists rs_too_many_desc. split; [simpl; tauto|].
        rewrite stat_incr_same. rewrite Hst by (simpl; tauto). reflexivity.
    + repeat split; try assumption.
      * exists s. split; [assumption|].
        rewrite stat_incr_same. rewrite Hst by assumption. reflexivity.
    + contradiction.
Qed.

Lemma vq_popchain_safe_witness :
  0 < 4 /\
  match vq_popchain two_desc_ring zero_mem 4 with
  | (ring', PopEmpty) =>
    load_avail_idx two_desc_ring = u16 (vr_cur_aidx two_desc_ring) /\
    ring' = two_desc_ring
  | (ring', PopChain iov cookie) =>
    load_avail_idx two_desc_ring <> u16 (vr_cur_aidx two_desc_ring) /\
    1 <= pop_retval (PopChain iov cookie) <= 4 /\
    Forall (seg_translated two_desc_ring zero_mem) iov /\
    vr_cur_aidx ring' = u16 (vr_cur_aidx two_desc_ring + 1)
  | (ring', PopFail) =>
    load_avail_idx two_desc_ring <> u16 (vr_cur_aidx two_desc_ring) /\
    pop_retval PopFail = -1 /\
    (exists s, In s popchain_errors /\
               vr_stats ring' s = u64 (vr_stats two_desc_ring s + 1)) /\
    vr_cur_aidx ring' = vr_cur_aidx two_desc_ring
  end.
Proof.
  split; [lia | apply (vq_popchain_safe two_desc_ring zero_mem 4); lia].
Defined.

(** On that ring the call returns the two segments of the posted chain. *)
Example vq_popchain_two_desc :
  snd (vq_popchain two_desc_ring zero_mem 4) =
  PopChain [{| iov_base := 4096; iov_len := 64 |};
            {| iov_base := 4352; iov_len := 64 |}] 0.
Proof. vm_compute. reflexivity. Qed.

(** ** Ring indices *)

Lemma u16_push_idx x k : u16 (u32 (u16 x + k)) = u16 (x + k).
Proof. rewrite u16_u32. apply u16_add_l. Qed.

Lemma same_used_refl r : same_but_used r r.
Proof. repeat split. Qed.

Lemma same_used_store slot idx tlen r :
  same_but_used r (used_store slot idx tlen r).
Proof. repeat split. Qed.

Lemma same_used_trans r1 r2 r3 :
  same_but_used r1 r2 -> same_but_used r2 r3 -> same_but_used r1 r3.
Proof.
  unfold same_but_used. intros H1 H2.
  repeat match goal with H : _ /\ _ |- _ => destruct H end.
  repeat split; congruence.
Qed.

(** The loop of [vq_pushchain_mrgrx] over the first [n] elements from
    index [i]. *)
Lemma mrgrx_loop_log_n mask uidx elem :
  forall n i ring,
    vr_mask ring = mask ->
    0 <= i ->
    (Z.to_nat i + n <= length elem)%nat ->
    let ring' := mrgrx_loop n i uidx elem ring in
    vr_log ring' =
      vr_log ring ++
        used_writes mask uidx i (firstn n (skipn (Z.to_nat i) elem)) /\
    same_but_used ring ring'.
Proof.
  induction n as [|n IH]; intros i ring Hm Hi Hlen; cbn [mrgrx_loop firstn used_writes].
  - rewrite app_nil_r. split; [reflexivity|apply same_used_refl].
  - destruct (skipn (Z.to_nat i) elem) as [|e rest] eqn:Hs.
    { pose proof (length_skipn (Z.to_nat i) elem) as Hl. rewrite Hs in Hl.
      cbn [length] in Hl. lia. }
    assert (He : nth (Z.to_nat i) elem used_elem0 = e).
    { rewrite <- (firstn_skipn (Z.to_nat i) elem) at 1. rewrite Hs.
      assert (Hl : length (firstn (Z.to_nat i) elem) = Z.to_nat i)
        by (apply firstn_length_le; lia).
      rewrite app_nth2 by lia. rewrite Hl, Nat.sub_diag. reflexivity. }
    rewrite He. cbn [firstn used_writes].
    specialize (IH (i + 1)
      (used_store (Z.land (u32 (uidx + i)) (vr_mask ring)) (id e) (len e) ring)).
    cbn zeta in IH.
    assert (Hs' : skipn (Z.to_nat (i + 1)) elem = rest).
    { replace (Z.to_nat (i + 1)) with (S (Z.to_nat i)) by lia.
      clear - Hs. revert Hs. generalize (Z.to_nat i) as j. intros j.
      revert elem. induction j; intros elem Hs.
      - cbn in Hs. subst elem. reflexivity.
      - destruct elem; [discriminate|]. cbn in Hs |- *. apply IHj. exact Hs. }
    destruct IH as (Hlog & Hsame).
    + exact Hm.
    + lia.
    + lia.
    + rewrite Hs' in Hlog. rewrite Hlog. subst mask.
      cbn [used_store emit set_log set_used vr_log].
      rewrite <- app_assoc. split; [reflexivity|].
      eapply same_used_trans; [|exact Hsame]. apply same_used_store.
Qed.

Lemma vq_pushchain_mrgrx_log ring k elems :
  0 <= k <= zlen elems -> k <= 2147483647 ->
  let ring' := vq_pushchain_mrgrx ring k elems in
  vr_log ring' =
    vr_log ring ++
      used_writes (vr_mask ring) (load_used_idx ring) 0
        (firstn (Z.to_nat k) elems) ++
      [EvMembarProducer; EvUsedIdx (u16 (vr_used_idx ring + k))] /\
  vr_used_idx ring' = u16 (vr_used_idx ring + k) /\
  vr_cur_aidx ring' = vr_cur_aidx ring.
Proof.
  intros Hk Hmax. cbn zeta. unfold vq_pushchain_mrgrx.
  destruct (k =? 1) eqn:Hone.
  - apply Z.eqb_eq in Hone. subst k.
    destruct elems as [|e rest]; [unfold zlen in Hk; cbn in Hk; lia|].
    assert (H0 : u32 (load_used_idx ring + 0) = load_used_idx ring).
    { rewrite Z.add_0_r. apply u32_small. unfold load_used_idx.
      pose proof (u16_range (vr_used_idx ring)). lia. }
    change (Z.to_nat 1) with 1%nat. cbn [firstn used_writes nth].
    rewrite H0.
    unfold used_idx_store, membar_producer, used_store, emit.
    cbn [vr_log set_log set_used vr_used_idx vr_cur_aidx vr_mask vr_used_ring].
    unfold load_used_idx. rewrite u16_push_idx.
    rewrite <- !app_assoc. repeat split.
  - rewrite (u32_small k) by lia.
    pose proof (mrgrx_loop_log_n (vr_mask ring) (load_used_idx ring) elems
                  (Z.to_nat k) 0 ring eq_refl ltac:(lia)) as Hl.
    cbn [Z.to_nat skipn] in Hl. unfold zlen in Hk.
    specialize (Hl ltac:(cbn; lia)). cbn zeta in Hl.
    destruct Hl as (Hlog & Hsame).
    unfold same_but_used in Hsame.
    unfold used_idx_store, membar_producer, emit.
    cbn. rewrite Hlog. unfold load_used_idx. rewrite u16_push_idx.
    rewrite <- !app_assoc. splits; try reflexivity. tauto.
Qed.

(** What a push leaves in the used ring. *)
Lemma vq_pushchain_completed ring tlen cookie :
  completed ring (vq_pushchain ring tlen cookie) cookie tlen.
Proof.
  unfold completed. cbv zeta.
  unfold vq_pushchain, used_idx_store, membar_producer, used_store, emit.
  cbn [vr_used_ring vr_used_idx set_used set_log vr_log vr_mask].
  splits.
  - rewrite Z.eqb_refl. reflexivity.
  - intros s Hs. apply Z.eqb_neq in Hs. rewrite Hs. reflexivity.
  - unfold load_used_idx. apply u16_push_idx.
Qed.

(** A completion stated from a ring with the same used ring, used index
    and mask. *)
Lemma completed_ext r0 r r' c n :
  vr_used_ring r0 = vr_used_ring r -> vr_used_idx r0 = vr_used_idx r ->
  vr_mask r0 = vr_mask r ->
  completed r0 r' c n -> completed r r' c n.
Proof.
  unfold completed, load_used_idx. intros -> -> ->. tauto.
Qed.

(** A completion followed by steps that leave the used ring alone. *)
Lemma completed_then r r1 r' c n :
  vr_used_ring r' = vr_used_ring r1 -> vr_used_idx r' = vr_used_idx r1 ->
  completed r r1 c n -> completed r r' c n.
Proof.
  unfold completed. intros -> ->. tauto.
Qed.

(** What the loop of [vq_pushchain_mrgrx] leaves in the used ring: each
    element in its slot unless a later round took the slot, and the slots no
    round took as they were. *)
Lemma mrgrx_loop_used mask uidx elem :
  forall n i ring,
    vr_mask ring = mask ->
    let slot := fun j => Z.land (u32 (uidx + j)) mask in
    let ring' := mrgrx_loop n i uidx elem ring in
    (forall j, i <= j < i + Z.of_nat n ->
       (forall j', j < j' < i + Z.of_nat n -> slot j' <> slot j) ->
       vr_used_ring ring' (slot j) =
         {| vu_idx := id (nth (Z.to_nat j) elem used_elem0);
            vu_tlen := len (nth (Z.to_nat j) elem used_elem0) |}) /\
    (forall s, (forall j, i <= j < i + Z.of_nat n -> slot j <> s) ->
       vr_used_ring ring' s = vr_used_ring ring s) /\
    vr_used_idx ring' = vr_used_idx ring /\ vr_mask ring' = mask.
Proof.
  induction n as [|n IH]; intros i ring Hm slot; cbn [mrgrx_loop].
  - splits; try reflexivity; try assumption. intros j Hj. lia.
  - cbv zeta.
    set (e := nth (Z.to_nat i) elem used_elem0).
    set (r1 := used_store (Z.land (u32 (uidx + i)) (vr_mask ring)) (id e) (len e)
                 ring).
    assert (Hm1 : vr_mask r1 = mask) by exact Hm.
    destruct (IH (i + 1) r1 Hm1) as (Hin & Hout & Hidx & Hmask).
    fold slot in Hin, Hout.
    assert (Hr1 : forall s, vr_used_ring r1 s =
                    if s =? slot i then {| vu_idx := id e; vu_tlen := len e |}
                    else vr_used_ring ring s).
    { intros s. unfold r1, slot. rewrite Hm. reflexivity. }
    splits.
    + intros j Hj Hlater.
      destruct (Z.eq_dec j i) as [->|Hne].
      * rewrite Hout.
        -- rewrite Hr1, Z.eqb_refl. reflexivity.
        -- intros j' Hj'. apply Hlater. lia.
      * apply Hin; [lia|]. intros j' Hj'. apply Hlater. lia.
    + intros s Hs. rewrite Hout.
      * rewrite Hr1.
        destruct (s =? slot i) eqn:E; [|reflexivity].
        apply Z.eqb_eq in E. exfalso. apply (Hs i); [lia|]. symmetry. exact E.
      * intros j Hj. apply Hs. lia.
    + rewrite Hidx. reflexivity.
    + exact Hmask.
Qed.

Lemma used_slot_0 ring :
  used_slot ring 0 = Z.land (load_used_idx ring) (vr_mask ring).
Proof.
  unfold used_slot. rewrite Z.add_0_r, u32_small; [reflexivity|].
  unfold load_used_idx. pose proof (u16_range (vr_used_idx ring)). lia.
Qed.

(** A batch stated from a ring with the same used ring, used index and
    mask. *)
Lemma completed_batch_ext r0 r r' elems :
  vr_used_ring r0 = vr_used_ring r -> vr_used_idx r0 = vr_used_idx r ->
  vr_mask r0 = vr_mask r ->
  completed_batch r0 r' elems -> completed_batch r r' elems.
Proof.
  unfold completed_batch, used_slot, load_used_idx. intros -> -> ->. tauto.
Qed.

(** What [vq_pushchain_mrgrx] leaves in the used ring when it is given the
    first [k] elements of the array. *)
Lemma vq_pushchain_mrgrx_used ring k elems :
  0 <= k <= zlen elems -> k <= 2147483647 ->
  completed_batch ring (vq_pushchain_mrgrx ring k elems)
    (firstn (Z.to_nat k) elems).
Proof.
  intros Hk Hmax. unfold completed_batch.
  rewrite (zlen_firstn elems k Hk).
  assert (Hnth : forall j, 0 <= j < k ->
            nth (Z.to_nat j) (firstn (Z.to_nat k) elems) used_elem0 =
            nth (Z.to_nat j) elems used_elem0).
  { intros j Hj. rewrite nth_firstn.
    rewrite (proj2 (Nat.ltb_lt _ _)) by lia. reflexivity. }
  unfold vq_pushchain_mrgrx.
  destruct (k =? 1) eqn:Hone.
  - apply Z.eqb_eq in Hone. subst k.
    pose proof (vq_pushchain_completed ring
                  (len (nth 0 elems used_elem0)) (id (nth 0 elems used_elem0)))
      as (Hs & Ho & Hi).
    cbv zeta in Hs, Ho. unfold vq_pushchain in Hs, Ho, Hi.
    splits.
    + intros j Hj _. assert (j = 0) by lia. subst j.
      rewrite Hnth by lia. rewrite used_slot_0. exact Hs.
    + intros s Hs'. apply Ho. intros E. apply (Hs' 0); [lia|].
      rewrite used_slot_0. symmetry. exact E.
    + exact Hi.
  - rewrite (u32_small k) by lia.
    destruct (mrgrx_loop_used (vr_mask ring) (load_used_idx ring) elems
                (Z.to_nat k) 0 ring eq_refl) as (Hin & Hout & Hidx & _).
    rewrite Z2Nat.id, Z.add_0_l in Hin, Hout by lia.
    unfold used_idx_store, membar_producer, emit.
    cbn [vr_used_ring vr_used_idx set_used set_log].
    splits.
    + intros j Hj Hlater. rewrite Hnth by lia. apply Hin; assumption.
    + exact Hout.
    + unfold load_used_idx. apply u16_push_idx.
Qed.

(** C2.  Progress of the ring indices.  A successful [vq_popchain] moves
    [cur_aidx] on by exactly one modulo 2^16, however long the chain, and an
    empty or failed call leaves it alone.  [vq_pushchain] stores the cookie
    and the length in the used-ring slot that the used index selects and
    moves the 16-bit [used_idx] on by exactly 1; [vq_pushchain_mrgrx] given
    the first [k] elements of an array stores them in the [k] slots from
    the used index and moves [used_idx] on by exactly [k].  In both the
    index store is the last action, behind the producer barrier: the ring
    it is applied to holds the used-ring entries of the result already,
    with the index still unmoved. *)
Theorem ring_index_progress (ring : viona_vring) (m : gmem) (niov : Z)
    (tlen cookie : Z) (elems : list used_elem) (k : Z) :
  0 <= k <= zlen elems -> k <= 2147483647 ->
  match vq_popchain ring m niov with
  | (ring', PopChain _ _) => vr_cur_aidx ring' = u16 (vr_cur_aidx ring + 1)
  | (ring', _) => vr_cur_aidx ring' = vr_cur_aidx ring
  end /\
  (let ring' := vq_pushchain ring tlen cookie in
   completed ring ring' cookie tlen /\
   vr_used_idx ring' = u16 (vr_used_idx ring + 1) /\
   (exists mid,
      ring' = used_idx_store (u32 (load_used_idx ring + 1))
                (membar_producer mid) /\
      vr_used_idx mid = vr_used_idx ring /\
      vr_used_ring mid = vr_used_ring ring') /\
   vr_log ring' =
   vr_log ring ++
     [EvUsedWrite (Z.land (load_used_idx ring) (vr_mask ring)) cookie tlen;
      EvMembarProducer;
      EvUsedIdx (u16 (vr_used_idx ring + 1))]) /\
  (let ring' := vq_pushchain_mrgrx ring k elems in
   completed_batch ring ring' (firstn (Z.to_nat k) elems) /\
   vr_used_idx ring' = u16 (vr_used_idx ring + k) /\
   (exists mid,
      ring' = used_idx_store (u32 (load_used_idx ring + k))
                (membar_producer mid) /\
      vr_used_idx mid = vr_used_idx ring /\
      vr_used_ring mid = vr_used_ring ring') /\
   vr_log ring' =
   vr_log ring ++
     used_writes (vr_mask ring) (load_used_idx ring) 0
       (firstn (Z.to_nat k) elems) ++
     [EvMembarProducer;
      EvUsedIdx (u16 (vr_used_idx ring + k))]).
Proof.
  intros Hk Hmax. split; [|split].
  - unfold vq_popchain.
    destruct (_ =? 0); [reflexivity|].
    set (ring1 := if _ >? vr_size ring then _ else ring).
    assert (Hca : vr_cur_aidx ring1 = vr_cur_aidx ring)
      by (subst ring1; destruct (_ >? _); reflexivity).
    destruct (popchain_walk _ _ _ _ _ _); cbn; rewrite Hca; reflexivity.
  - cbv zeta. split; [apply vq_pushchain_completed|].
    split; [apply (vq_pushchain_completed ring tlen cookie)|]. split.
    + eexists. split; [reflexivity|]. split; reflexivity.
    + unfold vq_pushchain, used_idx_store, membar_producer, used_store, emit.
      cbn. unfold load_used_idx. rewrite u16_push_idx.
      rewrite <- !app_assoc. reflexivity.
  - cbv zeta. split; [apply vq_pushchain_mrgrx_used; assumption|].
    pose proof (vq_pushchain_mrgrx_used ring k elems Hk Hmax) as (_ & _ & Hidx).
    rewrite (zlen_firstn elems k Hk) in Hidx.
    split; [exact Hidx|]. split.
    + unfold vq_pushchain_mrgrx.
      destruct (k =? 1) eqn:Hone.
      * apply Z.eqb_eq in Hone. subst k.
        eexists. split; [reflexivity|]. split; reflexivity.
      * rewrite (u32_small k) by lia.
        eexists. split; [reflexivity|]. split; [|reflexivity].
        apply (mrgrx_loop_used (vr_mask ring) (load_used_idx ring) elems
                 (Z.to_nat k) 0 ring eq_refl).
    + unfold vq_pushchain_mrgrx.
      destruct (k =? 1) eqn:Hone.
      * apply Z.eqb_eq in Hone. subst k.
        destruct elems as [|e rest]; [unfold zlen in Hk; cbn in Hk; lia|].
        change (Z.to_nat 1) with 1%nat. cbn [firstn used_writes nth].
        unfold used_idx_store, membar_producer, used_store, emit.
        cbn. unfold load_used_idx. rewrite u16_push_idx.
        rewrite <- !app_assoc. cbn [app].
        rewrite Z.add_0_r, (u32_small (u16 _)); [reflexivity|].
        pose proof (u16_range (vr_used_idx ring)). lia.
      * rewrite (u32_small k) by lia.
        pose proof (mrgrx_loop_log_n (vr_mask ring) (load_used_idx ring) elems
                      (Z.to_nat k) 0 ring eq_refl ltac:(lia)) as Hl.
        cbn [Z.to_nat skipn] in Hl. unfold zlen in Hk.
        specialize (Hl ltac:(cbn; lia)). cbn zeta in Hl.
        destruct Hl as (Hl & _).
        unfold used_idx_store, membar_producer, emit.
        cbn. rewrite Hl. unfold load_used_idx. rewrite u16_push_idx.
        rewrite <- !app_assoc. reflexivity.
Qed.

Lemma ring_index_progress_witness :
  let elems := [{| id := 0; len := 1526 |}; {| id := 1; len := 434 |};
                {| id := 7; len := 9 |}] in
  let ring' := vq_pushchain_mrgrx two_desc_ring 2 elems in
  (0 <= 2 <= zlen elems /\ 2 <= 2147483647) /\
  vr_used_idx ring' = 2 /\
  vr_used_ring ring' 0 = {| vu_idx := 0; vu_tlen := 1526 |} /\
  vr_used_ring ring' 1 = {| vu_idx := 1; vu_tlen := 434 |} /\
  vr_used_ring ring' 2 = vr_used_ring two_desc_ring 2.
Proof.
  cbv zeta.
  assert (H1 : 0 <= 2 <= zlen [{| id := 0; len := 1526 |};
                               {| id := 1; len := 434 |};
                               {| id := 7; len := 9 |}])
    by (vm_compute; split; discriminate).
  assert (H2 : 2 <= 2147483647) by lia.
  split; [split; assumption|].
  destruct (ring_index_progress two_desc_ring zero_mem 4 0 0
              [{| id := 0; len := 1526 |}; {| id := 1; len := 434 |};
               {| id := 7; len := 9 |}] 2 H1 H2)
    as (_ & _ & (Hin & Hout & _) & Hidx & _).
  split; [exact Hidx|]. split; [|split].
  - apply (Hin 0); [vm_compute; split; [discriminate|reflexivity]|].
    intros j' Hj'. change (zlen _) with 2 in Hj'. assert (j' = 1) by lia.
    subst j'. vm_compute. discriminate.
  - apply (Hin 1); [vm_compute; split; [discriminate|reflexivity]|].
    intros j' Hj'. change (zlen _) with 2 in Hj'. lia.
  - apply Hout. intros j Hj. change (zlen _) with 2 in Hj.
    assert (Hc : j = 0 \/ j = 1) by lia.
    destruct Hc as [->| ->]; vm_compute; discriminate.
Defined.

(** C9.  Publishing a single element [{id, len}] through
    [vq_pushchain_mrgrx] leaves the ring, used ring and [used_idx] included,
    exactly as [vq_pushchain (ring, len, id)] does. *)
Theorem mrgrx_single_is_pushchain (ring : viona_vring) (cookie tlen : Z) :
  vq_pushchain_mrgrx ring 1 [{| id := cookie; len := tlen |}] =
  vq_pushchain ring tlen cookie.
Proof. reflexivity. Qed.

(** The loop branch of [vq_pushchain_mrgrx] would do the same for a single
    element: the special case is an optimisation, not a change of result. *)
Lemma mrgrx_loop_single (ring : viona_vring) (cookie tlen : Z) :
  let uidx := load_used_idx ring in
  used_idx_store (u32 (uidx + 1))
    (membar_producer
       (mrgrx_loop 1 0 uidx [{| id := cookie; len := tlen |}] ring)) =
  vq_pushchain ring tlen cookie.
Proof.
  cbn zeta. unfold vq_pushchain. cbn [mrgrx_loop nth Z.to_nat id len].
  rewrite Z.add_0_r, (u32_small (load_used_idx ring)); [reflexivity|].
  pose proof (u16_range (vr_used_idx ring)). unfold load_used_idx. lia.
Qed.

(** ** The notify ioport *)

(** C10.  A guest write at the notify hook:
    - is rejected with EINVAL and leaves the link, hence every ring, as it
      was when its size is not 2 bytes or the ioport is not the registered
      one;
    - otherwise kicks the ring selected by the low 16 bits of the value,
      where an index of 2 or more gives EINVAL, and a ring in RESET gives
      EBUSY with the link unchanged: no state flag set, no wake-up. *)
Theorem notify_wcb_rejects (link : viona_link) (ioport sz val : Z) :
  (sz <> 2 \/ ioport <> l_notify_ioport link ->
   viona_notify_wcb link ioport sz val = (link, EINVAL)) /\
  (sz = 2 -> ioport = l_notify_ioport link ->
   viona_notify_wcb link ioport sz val = viona_ioc_ring_kick link (u16 val) /\
   (2 <= u16 val -> viona_notify_wcb link ioport sz val = (link, EINVAL)) /\
   (u16 val < 2 -> vr_state (l_vrings link (u16 val)) = VRS_RESET ->
    viona_notify_wcb link ioport sz val = (link, EBUSY))).
Proof.
  unfold viona_notify_wcb. split.
  - intros [Hsz|Hport].
    + apply Z.eqb_neq in Hsz. rewrite Hsz. cbn [negb]. rewrite orb_true_r. reflexivity.
    + apply Z.eqb_neq in Hport. rewrite Hport. reflexivity.
  - intros -> ->. rewrite !Z.eqb_refl. cbn [negb orb].
    split; [reflexivity|]. unfold viona_ioc_ring_kick, VIONA_VQ_MAX. split.
    + intros Hge. rewrite (proj2 (Z.geb_le _ _)) by lia. reflexivity.
    + intros Hlt Hst.
      destruct (u16 val >=? 2) eqn:E.
      * rewrite Z.geb_leb in E. apply Z.leb_le in E. lia.
      * rewrite Hst. reflexivity.
Qed.

Lemma notify_wcb_rejects_witness :
  viona_notify_wcb kick_link 49168 4 1 = (kick_link, EINVAL) /\
  viona_notify_wcb kick_link 49169 2 1 = (kick_link, EINVAL) /\
  viona_notify_wcb kick_link 49168 2 2 = (kick_link, EINVAL) /\
  viona_notify_wcb kick_link 49168 2 65537 = (kick_link, EBUSY).
Proof.
  split; [|split; [|split]].
  - apply (proj1 (notify_wcb_rejects kick_link 49168 4 1)). left. discriminate.
  - apply (proj1 (notify_wcb_rejects kick_link 49169 2 1)). right. discriminate.
  - apply (proj2 (notify_wcb_rejects kick_link 49168 2 2) eq_refl eq_refl).
    vm_compute. discriminate.
  - apply (proj2 (notify_wcb_rejects kick_link 49168 2 65537) eq_refl eq_refl).
    + vm_compute. reflexivity.
    + reflexivity.
Defined.

(** A kick to a ring that is not in RESET does wake its worker. *)
Example notify_wcb_kicks_running :
  let (link', err) := viona_notify_wcb kick_link 49168 2 0 in
  err = EOK /\ vr_log (l_vrings link' 0) = [EvCvBroadcast].
Proof. vm_compute. split; reflexivity. Qed.

(** ** The frame copy helper *)

Lemma MBLKL_nonneg b : 0 <= MBLKL b.
Proof. apply zlen_nonneg. Qed.

Lemma msgsize_nonneg mp : 0 <= msgsize mp.
Proof.
  induction mp as [|b mp IH]; cbn [msgsize fold_right]; [lia|].
  fold (msgsize mp). pose proof (MBLKL_nonneg b). lia.
Qed.

Lemma msgsize_cons b mp : msgsize (b :: mp) = MBLKL b + msgsize mp.
Proof. reflexivity. Qed.

Lemma msgsize_app mp1 mp2 : msgsize (mp1 ++ mp2) = msgsize mp1 + msgsize mp2.
Proof.
  induction mp1 as [|b mp1 IH]; [reflexivity|].
  cbn [app]. rewrite !msgsize_cons, IH. lia.
Qed.

Lemma msgdata_length mp : zlen (msgdata mp) = msgsize mp.
Proof.
  induction mp as [|b mp IH]; [reflexivity|].
  unfold msgdata in *. cbn [flat_map]. rewrite zlen_app, msgsize_cons, IH.
  reflexivity.
Qed.

Lemma msgdata_app mp1 mp2 : msgdata (mp1 ++ mp2) = msgdata mp1 ++ msgdata mp2.
Proof. unfold msgdata. apply flat_map_app. Qed.

Lemma skipn_app_le {A} (l1 l2 : list A) n :
  (n <= length l1)%nat -> skipn n (l1 ++ l2) = skipn n l1 ++ l2.
Proof.
  intros H. rewrite skipn_app.
  replace (n - length l1)%nat with 0%nat by lia. reflexivity.
Qed.

(** Seeking stops in the block that holds byte [seek] and keeps the data
    that remains. *)
Lemma copy_seek_spec :
  forall mp seek,
    0 <= seek <= msgsize mp ->
    let (mp', off) := copy_seek mp seek in
    0 <= off /\
    match mp' with [] => off = 0 | b :: _ => off <= MBLKL b end /\
    remaining mp' off = remaining mp seek.
Proof.
  induction mp as [|b mp IH]; intros seek Hs; cbn [copy_seek].
  - cbn [msgsize fold_right] in Hs. assert (seek = 0) by lia. subst.
    repeat split; lia.
  - destruct (seek >? 0) eqn:Hpos.
    + destruct (MBLKL b >? seek) eqn:Hin.
      * apply Z.gtb_lt in Hin. repeat split; lia.
      * rewrite Z.gtb_ltb in Hin, Hpos. apply Z.ltb_ge in Hin.
        rewrite msgsize_cons in Hs. pose proof (MBLKL_nonneg b).
        specialize (IH (seek - MBLKL b) ltac:(lia)).
        destruct (copy_seek mp (seek - MBLKL b)) as [mp' off].
        destruct IH as (H1 & H2 & H3). repeat split; try assumption.
        rewrite H3. unfold remaining, msgdata. cbn [flat_map].
        rewrite skipn_app.
        replace (skipn (Z.to_nat seek) (blk_data b)) with (@nil Z).
        2:{ symmetry. apply skipn_all2. unfold MBLKL, zlen in *. lia. }
        cbn [app]. f_equal. unfold MBLKL, zlen in *. lia.
    + rewrite Z.gtb_ltb in Hpos. apply Z.ltb_ge in Hpos.
      assert (seek = 0) by lia. subst. pose proof (MBLKL_nonneg b).
      repeat split; lia.
Qed.

Lemma bcopy_outside src dst m a :
  a < dst \/ dst + zlen src <= a -> bcopy src dst m a = m a.
Proof.
  intros H. unfold bcopy.
  destruct (dst <=? a) eqn:E1; [|reflexivity].
  destruct (a <? dst + zlen src) eqn:E2; [|reflexivity].
  apply Z.leb_le in E1. apply Z.ltb_lt in E2. lia.
Qed.

Lemma bcopy_inside src dst m j :
  0 <= j < zlen src -> bcopy src dst m (dst + j) = nth (Z.to_nat j) src 0.
Proof.
  intros H. unfold bcopy.
  rewrite (proj2 (Z.leb_le _ _)) by lia.
  rewrite (proj2 (Z.ltb_lt _ _)) by lia.
  cbn [andb]. f_equal. f_equal. lia.
Qed.

(** The copy loop moves [min (len, remaining)] bytes, in order, to
    [buf ...], touches nothing else, reports the end of the message when the
    buffer was not filled, and denies it when data remains. *)
Lemma copy_loop_spec :
  forall mp off buf len copied m,
    0 <= len -> 0 <= off ->
    match mp with [] => off = 0 | b :: _ => off <= MBLKL b end ->
    let rem := msgsize mp - off in
    let n := Z.min len rem in
    match copy_loop mp off buf len copied m with
    | (m', copied', e) =>
      copied' = copied + n /\
      (rem < len -> e = true) /\
      (len < rem -> e = false) /\
      (forall a, a < buf \/ buf + n <= a -> m' a = m a) /\
      (forall j, 0 <= j < n ->
                 m' (buf + j) = nth (Z.to_nat j) (remaining mp off) 0)
    end.
Proof.
  induction mp as [|b mp IH]; intros off buf len copied m Hlen Hoff Hb;
    cbn [copy_loop].
  - subst off. cbn [msgsize fold_right]. cbn zeta.
    rewrite Z.sub_0_r, Z.min_r by lia.
    splits; intros; try reflexivity; try lia.
  - cbn zeta. rewrite msgsize_cons.
    pose proof (MBLKL_nonneg b) as Hbn. pose proof (msgsize_nonneg mp) as Hmn.
    set (chunk := MBLKL b - off).
    set (to_copy := Z.min chunk len).
    set (src := firstn (Z.to_nat to_copy) (skipn (Z.to_nat off) (blk_data b))).
    assert (Hsrc : zlen src = to_copy).
    { subst src. rewrite zlen_firstn; [reflexivity|].
      rewrite zlen_skipn by (fold (MBLKL b); lia). fold (MBLKL b). lia. }
    assert (Hrem : remaining (b :: mp) off =
                   skipn (Z.to_nat off) (blk_data b) ++ msgdata mp).
    { unfold remaining, msgdata. cbn [flat_map].
      apply skipn_app_le. unfold MBLKL, zlen in Hb. lia. }
    assert (Hnth : forall j, 0 <= j < to_copy ->
               nth (Z.to_nat j) src 0 =
               nth (Z.to_nat j) (remaining (b :: mp) off) 0).
    { intros j Hj. rewrite Hrem. unfold src.
      rewrite app_nth1.
      2:{ pose proof (zlen_skipn (blk_data b) off) as Hl.
          fold (MBLKL b) in Hl. specialize (Hl ltac:(lia)).
          unfold zlen in Hl. lia. }
      rewrite nth_firstn.
      rewrite (proj2 (Nat.ltb_lt _ _)) by lia. reflexivity. }
    destruct (chunk =? to_copy) eqn:Hall.
    + apply Z.eqb_eq in Hall.
      assert (Hcl : chunk <= len) by lia.
      destruct (len - to_copy =? 0) eqn:Hfull.
      * apply Z.eqb_eq in Hfull.
        replace (Z.min len (MBLKL b + msgsize mp - off)) with to_copy by lia.
        splits.
        -- lia.
        -- intros. destruct mp; [reflexivity|lia].
        -- intros Hlt. destruct mp as [|b' mp']; [|reflexivity].
           cbn [msgsize fold_right] in Hlt. lia.
        -- intros a Ha. apply bcopy_outside. lia.
        -- intros j Hj. rewrite bcopy_inside by lia. apply Hnth. lia.
      * apply Z.eqb_neq in Hfull.
        specialize (IH 0 (buf + to_copy) (len - to_copy) (copied + to_copy)
                      (bcopy src buf m) ltac:(lia) ltac:(lia)).
        specialize (IH ltac:(destruct mp; [reflexivity|apply MBLKL_nonneg])).
        cbn zeta in IH. rewrite Z.sub_0_r in IH.
        destruct (copy_loop mp 0 (buf + to_copy) (len - to_copy)
                    (copied + to_copy) (bcopy src buf m)) as [[m' c'] e'].
        destruct IH as (Hc & He1 & He2 & Hout & Hin).
        assert (Hn : Z.min len (MBLKL b + msgsize mp - off) =
                     to_copy + Z.min (len - to_copy) (msgsize mp)) by lia.
        rewrite Hn. splits.
        -- lia.
        -- intros. apply He1. lia.
        -- intros. apply He2. lia.
        -- intros a Ha. rewrite Hout by lia. apply bcopy_outside. lia.
        -- intros j Hj.
           destruct (Z.lt_ge_cases j to_copy) as [Hlo|Hhi].
           ++ rewrite Hout by lia. rewrite bcopy_inside by lia.
              apply Hnth. lia.
           ++ replace (buf + j) with (buf + to_copy + (j - to_copy)) by lia.
              rewrite Hin by lia. rewrite Hrem.
              rewrite app_nth2.
              2:{ pose proof (zlen_skipn (blk_data b) off) as Hl.
                  fold (MBLKL b) in Hl. specialize (Hl ltac:(lia)).
                  unfold zlen in Hl. lia. }
              unfold remaining. cbn [Z.to_nat skipn]. f_equal.
              pose proof (zlen_skipn (blk_data b) off) as Hl.
              fold (MBLKL b) in Hl. specialize (Hl ltac:(lia)).
              unfold zlen in Hl. lia.
    + apply Z.eqb_neq in Hall.
      assert (Hcl : len < chunk) by lia.
      replace (Z.min len (MBLKL b + msgsize mp - off)) with to_copy by lia.
      splits.
      * lia.
      * intros. lia.
      * intros. reflexivity.
      * intros a Ha. apply bcopy_outside. lia.
      * intros j Hj. rewrite bcopy_inside by lia. apply Hnth. lia.
Qed.

Lemma remaining_length mp seek :
  0 <= seek <= msgsize mp -> zlen (remaining mp seek) = msgsize mp - seek.
Proof.
  intros H. unfold remaining. rewrite zlen_skipn; rewrite msgdata_length; lia.
Qed.

(** [viona_copy_mblk] in one statement. *)
Lemma viona_copy_mblk_spec mp seek buf len m :
  0 <= len -> 0 <= seek <= msgsize mp ->
  let rem := msgsize mp - seek in
  let n := Z.min len rem in
  match viona_copy_mblk mp seek buf len m with
  | (m', copied, e) =>
    copied = n /\
    (rem < len -> e = true) /\
    (len < rem -> e = false) /\
    (forall a, a < buf \/ buf + n <= a -> m' a = m a) /\
    (forall j, 0 <= j < n ->
               m' (buf + j) = nth (Z.to_nat j) (remaining mp seek) 0)
  end.
Proof.
  intros Hlen Hseek. unfold viona_copy_mblk.
  pose proof (copy_seek_spec mp seek Hseek) as Hs.
  destruct (copy_seek mp seek) as [mp' off].
  destruct Hs as (Hoff & Hb & Hrem).
  pose proof (copy_loop_spec mp' off buf len 0 m Hlen Hoff Hb) as Hl.
  cbn zeta in Hl |- *.
  assert (Hsz : msgsize mp' - off = msgsize mp - seek).
  { assert (Hlen' : zlen (remaining mp' off) = zlen (remaining mp seek))
      by (rewrite Hrem; reflexivity).
    rewrite (remaining_length mp seek) in Hlen' by lia.
    rewrite <- Hlen'. symmetry. apply remaining_length.
    destruct mp' as [|b' mp''].
    - subst off. cbn [msgsize fold_right]. lia.
    - rewrite msgsize_cons. pose proof (msgsize_nonneg mp''). lia. }
  rewrite Hsz in Hl.
  destruct (copy_loop mp' off buf len 0 m) as [[m' c] e].
  destruct Hl as (Hc & He1 & He2 & Hout & Hin).
  rewrite Hrem in Hin. splits; try assumption.
Qed.

(** ** What [vq_popchain] leaves alone *)

Lemma same_refl r : same_but_aidx_stats r r.
Proof. repeat split. Qed.

Lemma same_stat_incr r s : same_but_aidx_stats r (VIONA_RING_STAT_INCR r s).
Proof. repeat split. Qed.

Lemma same_set_cur_aidx r v : same_but_aidx_stats r (set_cur_aidx v r).
Proof. repeat split. Qed.

Lemma same_trans r1 r2 r3 :
  same_but_aidx_stats r1 r2 -> same_but_aidx_stats r2 r3 ->
  same_but_aidx_stats r1 r3.
Proof.
  unfold same_but_aidx_stats. intros H1 H2.
  repeat match goal with H : _ /\ _ |- _ => destruct H end.
  repeat split; congruence.
Qed.

(** The parser writes nothing but [vr_cur_aidx] and the statistics: no used
    entry, no log entry, no flag. *)
Lemma vq_popchain_frame ring m niov :
  same_but_aidx_stats ring (fst (vq_popchain ring m niov)).
Proof.
  unfold vq_popchain. destruct (_ =? 0); [apply same_refl|].
  set (ring1 := if _ >? vr_size ring then _ else ring).
  assert (H1 : same_but_aidx_stats ring ring1).
  { subst ring1. destruct (_ >? _); [apply same_stat_incr|apply same_refl]. }
  destruct (popchain_walk _ _ _ _ _ _); cbn [fst];
    (eapply same_trans; [exact H1|]);
    first [apply same_set_cur_aidx|apply same_stat_incr|apply same_refl].
Qed.

Lemma vq_popchain_log ring m niov ring1 res :
  vq_popchain ring m niov = (ring1, res) ->
  vr_log ring1 = vr_log ring /\ vr_used_idx ring1 = vr_used_idx ring /\
  vr_mask ring1 = vr_mask ring.
Proof.
  intros E. pose proof (vq_popchain_frame ring m niov) as H.
  rewrite E in H. cbn [fst] in H. unfold same_but_aidx_stats in H. tauto.
Qed.

(** ** Receive, plain layout *)

Lemma vq_pushchain_log ring tlen cookie :
  vr_log (vq_pushchain ring tlen cookie) =
  vr_log ring ++
    [EvUsedWrite (Z.land (load_used_idx ring) (vr_mask ring)) cookie tlen;
     EvMembarProducer; EvUsedIdx (u16 (vr_used_idx ring + 1))].
Proof.
  unfold vq_pushchain, used_idx_store, membar_producer, used_store, emit.
  cbn. unfold load_used_idx. rewrite u16_push_idx.
  rewrite <- !app_assoc. reflexivity.
Qed.

Lemma plain_copy_rest_bound mp :
  forall iov m copied e,
    Forall (fun v => 0 <= iov_len v) iov ->
    0 <= copied <= msgsize mp ->
    match plain_copy_rest iov mp m copied e with
    | (_, copied', _) => copied <= copied' <= msgsize mp
    end.
Proof.
  induction iov as [|v iov IH]; intros m copied e Hlen Hc; cbn [plain_copy_rest].
  - lia.
  - destruct e; [lia|].
    inversion Hlen as [|? ? Hv Hrest]; subst.
    pose proof (viona_copy_mblk_spec mp copied (iov_base v) (iov_len v) m Hv Hc) as Hs.
    cbn zeta in Hs.
    destruct (viona_copy_mblk mp copied (iov_base v) (iov_len v) m) as [[m1 c] e1].
    destruct Hs as (Hcp & _).
    specialize (IH m1 (copied + c) e1 Hrest ltac:(lia)).
    destruct (plain_copy_rest iov mp m1 (copied + c) e1) as [[? ?] ?]. lia.
Qed.

(** The plain copy never claims more bytes than the message has. *)
Lemma plain_copied_bound iov mp m :
  Forall (fun v => 0 < iov_len v) iov ->
  0 <= plain_copied iov mp m <= msgsize mp.
Proof.
  intros Hpos. pose proof (msgsize_nonneg mp) as Hm.
  unfold plain_copied. destruct (_ <? _); [lia|].
  unfold plain_copy.
  assert (Hnn : Forall (fun v => 0 <= iov_len v) (tl iov)).
  { destruct iov; [constructor|]. inversion Hpos; subst. cbn [tl].
    eapply Forall_impl; [|eassumption]. cbn. intros; lia. }
  destruct (iov_len (hd iovec0 iov) >? sizeof_virtio_net_hdr) eqn:Hgt.
  - apply Z.gtb_lt in Hgt.
    pose proof (viona_copy_mblk_spec mp 0
                  (iov_base (hd iovec0 iov) + sizeof_virtio_net_hdr)
                  (iov_len (hd iovec0 iov) - sizeof_virtio_net_hdr) m
                  ltac:(lia) ltac:(lia)) as Hs.
    cbn zeta in Hs.
    destruct (viona_copy_mblk mp 0 _ _ m) as [[m1 c] e1].
    destruct Hs as (Hcp & _).
    pose proof (plain_copy_rest_bound mp (tl iov) m1 c e1 Hnn ltac:(lia)) as Hb.
    destruct (plain_copy_rest (tl iov) mp m1 c e1) as [[? ?] ?].
    cbn [fst snd]. lia.
  - pose proof (plain_copy_rest_bound mp (tl iov) m 0 false Hnn ltac:(lia)) as Hb.
    destruct (plain_copy_rest (tl iov) mp m 0 false) as [[? ?] ?].
    cbn [fst snd]. lia.
Qed.

Lemma seg_translated_len ring m v : seg_translated ring m v -> 0 < iov_len v.
Proof. intros (d & _ & _ & Hl & _ & E). rewrite E. exact Hl. Qed.


Lemma pop_result_eq ring m niov res :
  snd (vq_popchain ring m niov) = res ->
  vq_popchain ring m niov = (fst (vq_popchain ring m niov), res).
Proof. intros <-. apply surjective_pairing. Qed.


(** A single direct descriptor at the head of the available ring is popped
    as a chain of one segment. *)
Lemma vq_popchain_single ring m niov gpa n fl nx buf :
  0 < niov ->
  viona_vr_num_avail ring <> 0 ->
  let head := load_avail_ring ring (Z.land (vr_cur_aidx ring) (vr_mask ring)) in
  head < vr_size ring ->
  load_descr ring head =
    {| vd_addr := gpa; vd_len := n; vd_flags := fl; vd_next := nx |} ->
  has_flag fl VRING_DESC_F_INDIRECT = false ->
  has_flag fl VRING_DESC_F_NEXT = false ->
  n <> 0 ->
  viona_gpa2kva ring gpa n = Some buf ->
  exists ring',
    vq_popchain ring m niov =
      (ring', PopChain [{| iov_base := buf; iov_len := n |}] head) /\
    same_but_aidx_stats ring ring' /\
    vr_cur_aidx ring' = u16 (vr_cur_aidx ring + 1).
Proof.
  intros Hniov Havail head Hhead Hd Hind Hnx Hn Hkva.
  unfold vq_popchain. unfold viona_vr_num_avail in Havail.
  apply Z.eqb_neq in Havail. rewrite Havail.
  set (ring1 := if _ >? vr_size ring then _ else ring).
  assert (H1 : same_but_aidx_stats ring ring1 /\
               vr_cur_aidx ring1 = vr_cur_aidx ring).
  { subst ring1. destruct (_ >? _); split;
      first [apply same_stat_incr|apply same_refl|reflexivity]. }
  destruct H1 as [H1 Hca].
  assert (Hh : load_avail_ring ring1 (Z.land (vr_cur_aidx ring) (vr_mask ring1))
               = head).
  { subst ring1 head. destruct (_ >? _); reflexivity. }
  rewrite Hh.
  assert (Hw : popchain_walk (S (Z.to_nat niov)) ring1 m niov head [] =
               WalkDone [{| iov_base := buf; iov_len := n |}]).
  { cbn [popchain_walk]. change (zlen (@nil iovec)) with 0.
    rewrite (proj2 (Z.ltb_lt 0 niov) Hniov).
    assert (Hsz : vr_size ring1 = vr_size ring)
      by (subst ring1; destruct (_ >? _); reflexivity).
    rewrite Hsz.
    assert (Hge : (head >=? vr_size ring) = false).
    { rewrite Z.geb_leb. apply Z.leb_gt. exact Hhead. }
    rewrite Hge.
    assert (Hd1 : load_descr ring1 head = load_descr ring head)
      by (subst ring1; destruct (_ >? _); reflexivity).
    rewrite Hd1, Hd. cbn [vd_flags vd_len vd_addr vd_next].
    rewrite Hind. cbn [negb].
    apply Z.eqb_neq in Hn. rewrite Hn.
    assert (Hk1 : viona_gpa2kva ring1 gpa n = viona_gpa2kva ring gpa n)
      by (subst ring1; destruct (_ >? _); reflexivity).
    rewrite Hk1, Hkva. rewrite Hnx. reflexivity. }
  rewrite Hw. eexists. split; [reflexivity|]. split.
  - eapply same_trans; [exact H1|apply same_set_cur_aidx].
  - cbn. rewrite Hca. reflexivity.
Qed.

(** ** Memory after the stores of the receive path *)

Lemma bzero_outside dst n m a :
  a < dst \/ dst + n <= a -> bzero dst n m a = m a.
Proof.
  intros H. unfold bzero.
  destruct (dst <=? a) eqn:E1; [|reflexivity].
  destruct (a <? dst + n) eqn:E2; [|reflexivity].
  apply Z.leb_le in E1. apply Z.ltb_lt in E2. lia.
Qed.

Lemma bzero_inside dst n m a : dst <= a < dst + n -> bzero dst n m a = 0.
Proof.
  intros H. unfold bzero.
  rewrite (proj2 (Z.leb_le _ _)) by lia.
  rewrite (proj2 (Z.ltb_lt _ _)) by lia. reflexivity.
Qed.

Lemma store8_same a v m : store8 a v m a = u8 v.
Proof. unfold store8. rewrite Z.eqb_refl. reflexivity. Qed.

Lemma store8_other a v m x : x <> a -> store8 a v m x = m x.
Proof. intros H. unfold store8. apply Z.eqb_neq in H. rewrite H. reflexivity. Qed.

Lemma store16_other a v m x : x <> a -> x <> a + 1 -> store16 a v m x = m x.
Proof. intros. unfold store16. rewrite !store8_other by assumption. reflexivity. Qed.

Lemma load16_store16 a v m : load16 (store16 a v m) a = u16 v.
Proof.
  unfold load16, load_le, byte_at, store16.
  rewrite store8_other by lia. rewrite !store8_same.
  pose proof (u16_range v) as Hr. unfold u8.
  change (2 ^ 8) with 256. change (2 ^ 16) with 65536 in Hr.
  rewrite !Zmod_mod. rewrite (Z.mod_small (u16 v / 256)).
  2:{ split; [apply Z.div_pos; lia|]. apply Z.div_lt_upper_bound; lia. }
  pose proof (Z_div_mod_eq_full (u16 v) 256). lia.
Qed.

(** The checksum bits touch at most the flags, the GSO type and the GSO
    size of the header. *)
Lemma rx_hdr_csum_other features mp hdr m x :
  x <> hdr + off_vrh_flags -> x <> hdr + off_vrh_gso_type ->
  x <> hdr + off_vrh_gso_size -> x <> hdr + off_vrh_gso_size + 1 ->
  rx_hdr_csum features mp hdr m x = m x.
Proof.
  intros H0 H1 H2 H3. unfold rx_hdr_csum.
  destruct (negb (Z.land features VIRTIO_NET_F_GUEST_CSUM =? 0)); [|reflexivity].
  destruct (negb (Z.land features VIRTIO_NET_F_GUEST_TSO4 =? 0) && m_hw_lso mp);
    destruct (m_fullcksum_ok mp);
    repeat first [rewrite store8_other by assumption
                 |rewrite store16_other by assumption]; reflexivity.
Qed.

(** The header both receive paths leave behind when it was zero at the
    flags, GSO type and GSO size before the checksum bits were added. *)
Lemma rx_hdr_csum_fields features mp hdr m :
  m (hdr + off_vrh_flags) = 0 -> m (hdr + off_vrh_gso_type) = 0 ->
  m (hdr + off_vrh_gso_size) = 0 -> m (hdr + off_vrh_gso_size + 1) = 0 ->
  let m' := rx_hdr_csum features mp hdr m in
  m' (hdr + off_vrh_flags) =
    (if rx_wants_valid features mp then VIRTIO_NET_HDR_F_DATA_VALID else 0) /\
  m' (hdr + off_vrh_gso_type) =
    (if rx_wants_gso features mp then VIRTIO_NET_HDR_GSO_TCPV4 else 0) /\
  load16 m' (hdr + off_vrh_gso_size) =
    (if rx_wants_gso features mp then u16 (m_lsomss mp) else 0).
Proof.
  intros Hf Hg Hs0 Hs1. cbn zeta.
  unfold rx_hdr_csum, rx_wants_valid, rx_wants_gso.
  unfold off_vrh_flags, off_vrh_gso_type, off_vrh_gso_size in *.
  destruct (negb (Z.land features VIRTIO_NET_F_GUEST_CSUM =? 0)); cbn [andb].
  2:{ splits; try assumption.
      unfold load16, load_le, byte_at.
      replace (hdr + 4 + 1) with (hdr + 4 + 1) by lia.
      rewrite Hs0, Hs1. reflexivity. }
  destruct (negb (Z.land features VIRTIO_NET_F_GUEST_TSO4 =? 0) && m_hw_lso mp);
    destruct (m_fullcksum_ok mp).
  - splits.
    + rewrite store8_same. unfold byte_at.
      rewrite store16_other by lia. rewrite store8_other by lia.
      rewrite Hf. reflexivity.
    + rewrite store8_other by lia. rewrite store16_other by lia.
      rewrite store8_same. unfold byte_at. rewrite Hg. reflexivity.
    + unfold load16, load_le, byte_at.
      rewrite !(store8_other (hdr + 0)) by lia.
      change (load_le ?m ?a 2) with (load16 m a).
      pose proof (load16_store16 (hdr + 4) (m_lsomss mp)
                    (store8 (hdr + 1) (Z.lor (byte_at m (hdr + 1))
                                         VIRTIO_NET_HDR_GSO_TCPV4) m)) as Hl.
      unfold load16, load_le, byte_at in Hl. exact Hl.
  - splits.
    + rewrite store16_other by lia. rewrite store8_other by lia. exact Hf.
    + rewrite store16_other by lia. rewrite store8_same.
      unfold byte_at. rewrite Hg. reflexivity.
    + apply load16_store16.
  - splits.
    + rewrite store8_same. unfold byte_at. rewrite Hf. reflexivity.
    + rewrite store8_other by lia. exact Hg.
    + unfold load16, load_le, byte_at. rewrite !store8_other by lia.
      rewrite Hs0, Hs1. reflexivity.
  - splits; try assumption.
    unfold load16, load_le, byte_at. rewrite Hs0, Hs1. reflexivity.
Qed.

Lemma vq_pushchain_fields ring tlen cookie :
  vr_cur_aidx (vq_pushchain ring tlen cookie) = vr_cur_aidx ring /\
  vr_used_idx (vq_pushchain ring tlen cookie) = u16 (vr_used_idx ring + 1) /\
  vr_avail_flags (vq_pushchain ring tlen cookie) = vr_avail_flags ring /\
  vr_msi_addr (vq_pushchain ring tlen cookie) = vr_msi_addr ring /\
  vr_msi_msg (vq_pushchain ring tlen cookie) = vr_msi_msg ring /\
  vr_intr_enabled (vq_pushchain ring tlen cookie) = vr_intr_enabled ring.
Proof.
  unfold vq_pushchain, used_idx_store, membar_producer, used_store, emit.
  cbn. unfold load_used_idx. rewrite u16_push_idx. repeat split.
Qed.

Lemma intr_unless_masked_log ring :
  vr_log (intr_unless_masked ring) = vr_log ring ++ intr_events ring /\
  vr_cur_aidx (intr_unless_masked ring) = vr_cur_aidx ring /\
  vr_used_idx (intr_unless_masked ring) = vr_used_idx ring.
Proof.
  unfold intr_unless_masked, intr_events, viona_intr_ring.
  destruct (Z.land _ _ =? 0).
  - destruct (negb (vr_msi_addr ring =? 0)); [repeat split|].
    destruct (vr_intr_enabled ring =? 0); cbn; rewrite ?app_nil_r; repeat split.
  - rewrite app_nil_r. repeat split.
Qed.

Lemma intr_unless_masked_state ring :
  vr_used_ring (intr_unless_masked ring) = vr_used_ring ring /\
  vr_intr_enabled (intr_unless_masked ring) =
    (if Z.land (load_avail_flags ring) VRING_AVAIL_F_NO_INTERRUPT =? 0 then
       if negb (vr_msi_addr ring =? 0) then vr_intr_enabled ring
       else if vr_intr_enabled ring =? 0 then 1 else vr_intr_enabled ring
     else vr_intr_enabled ring).
Proof.
  unfold intr_unless_masked, viona_intr_ring.
  destruct (Z.land _ _ =? 0); [|split; reflexivity].
  destruct (negb (vr_msi_addr ring =? 0)); [split; reflexivity|].
  destruct (vr_intr_enabled ring =? 0); split; reflexivity.
Qed.

(** What [viona_intr_ring] signals at the end of a receive, case by case:
    nothing when the guest set NO_INTERRUPT; the MSI of the ring when one is
    configured; otherwise the wake-up of the poller on the 0 -> 1 edge of
    [vr_intr_enabled], and nothing while an earlier wake-up is pending. *)
Lemma intr_events_cases ring :
  (Z.land (load_avail_flags ring) VRING_AVAIL_F_NO_INTERRUPT <> 0 ->
   intr_events ring = []) /\
  (Z.land (load_avail_flags ring) VRING_AVAIL_F_NO_INTERRUPT = 0 ->
   (vr_msi_addr ring <> 0 ->
    intr_events ring = [EvMsi (vr_msi_addr ring) (vr_msi_msg ring)]) /\
   (vr_msi_addr ring = 0 -> vr_intr_enabled ring = 0 ->
    intr_events ring = [EvPollwakeup]) /\
   (vr_msi_addr ring = 0 -> vr_intr_enabled ring <> 0 ->
    intr_events ring = [])).
Proof.
  unfold intr_events. split.
  - intros H. apply Z.eqb_neq in H. rewrite H. reflexivity.
  - intros H. rewrite H. cbn [Z.eqb]. splits.
    + intros Hm. apply Z.eqb_neq in Hm. rewrite Hm. reflexivity.
    + intros -> ->. reflexivity.
    + intros -> Hi. apply Z.eqb_neq in Hi. rewrite Hi. reflexivity.
Qed.

Section PlainSmallFrame.

Variables (env : rx_env) (link : viona_link) (ring : viona_vring) (m : gmem).
Variables (frame : msg) (gpa kva fl nx : Z).

(** MRG_RXBUF is off. *)
Hypothesis Hmrg : Z.land (l_features link) VIRTIO_NET_F_MRG_RXBUF = 0.
(** The guest posted one descriptor of 2048 bytes at head index 0. *)
Hypothesis Havail : viona_vr_num_avail ring = 1.
Hypothesis Hhead :
  load_avail_ring ring (Z.land (vr_cur_aidx ring) (vr_mask ring)) = 0.
Hypothesis Hsize : 0 < vr_size ring.
Hypothesis Hdesc :
  load_descr ring 0 =
    {| vd_addr := gpa; vd_len := 2048; vd_flags := fl; vd_next := nx |}.
Hypothesis Hind : has_flag fl VRING_DESC_F_INDIRECT = false.
Hypothesis Hnext : has_flag fl VRING_DESC_F_NEXT = false.
Hypothesis Hkva : viona_gpa2kva ring gpa 2048 = Some kva.
(** The 42-byte frame reaches the copy as MAC delivered it, and its pad
    can be allocated. *)
Hypothesis Hframes : rx_frames env link [frame] = [frame].
Hypothesis Hemul : rx_emulate env link frame = Some frame.
Hypothesis Hhook : rx_hook env link frame = HookAccept frame.
Hypothesis Hsz : msgsize (m_blocks frame) = 42.
Hypothesis Halloc : rx_allocb env frame = true.

Local Abbreviation padded := (padded_small frame).

Lemma padded_size : msgsize (m_blocks padded) = 60.
Proof.
  unfold padded_small, msg_append. cbn [m_blocks]. rewrite msgsize_app, Hsz.
  reflexivity.
Qed.

Lemma padded_data j :
  0 <= j < 60 ->
  nth (Z.to_nat j) (remaining (m_blocks padded) 0) 0 =
  if j <? 42 then nth (Z.to_nat j) (msgdata (m_blocks frame)) 0 else 0.
Proof.
  intros Hj. unfold remaining, padded, msg_append. cbn [m_blocks Z.to_nat skipn].
  rewrite msgdata_app.
  pose proof (msgdata_length (m_blocks frame)) as Hl. rewrite Hsz in Hl.
  unfold zlen in Hl.
  destruct (j <? 42) eqn:E.
  - apply Z.ltb_lt in E. apply app_nth1. lia.
  - apply Z.ltb_ge in E. rewrite app_nth2 by lia.
    unfold msgdata. cbn [flat_map blk_data]. rewrite app_nil_r.
    apply nth_repeat.
Qed.

(** The plain copy of the padded frame into the 2048-byte buffer. *)
Lemma plain_copy_small m0 :
  match plain_copy [{| iov_base := kva; iov_len := 2048 |}]
          (m_blocks padded) m0 with
  | (m1, copied, _) =>
    copied = 60 /\
    (forall a, a < kva + 10 \/ kva + 70 <= a -> m1 a = m0 a) /\
    (forall j, 0 <= j < 60 ->
       m1 (kva + 10 + j) =
       if j <? 42 then nth (Z.to_nat j) (msgdata (m_blocks frame)) 0 else 0)
  end.
Proof.
  unfold plain_copy. cbn [hd tl iov_len iov_base plain_copy_rest].
  change (2048 >? sizeof_virtio_net_hdr) with true. cbv iota.
  pose proof (viona_copy_mblk_spec (m_blocks padded) 0
                (kva + sizeof_virtio_net_hdr)
                (2048 - sizeof_virtio_net_hdr) m0) as Hs.
  rewrite padded_size in Hs. unfold sizeof_virtio_net_hdr in *.
  specialize (Hs ltac:(lia) ltac:(lia)). cbn zeta in Hs.
  destruct (viona_copy_mblk (m_blocks padded) 0 (kva + 10) (2048 - 10) m0)
    as [[m1 c] e].
  destruct Hs as (Hc & _ & _ & Hout & Hin).
  replace (Z.min (2048 - 10) (60 - 0)) with 60 in * by lia.
  splits.
  - exact Hc.
  - intros a Ha. apply Hout. lia.
  - intros j Hj. rewrite Hin by lia. apply padded_data. lia.
Qed.


End PlainSmallFrame.



(** ** Receive, mergeable layout *)

Lemma same_load ring r :
  same_but_aidx_stats ring r ->
  load_avail_idx r = load_avail_idx ring /\
  (forall i, load_avail_ring r i = load_avail_ring ring i) /\
  (forall i, load_descr r i = load_descr ring i) /\
  (forall gpa n, viona_gpa2kva r gpa n = viona_gpa2kva ring gpa n) /\
  vr_size r = vr_size ring /\ vr_mask r = vr_mask ring.
Proof.
  unfold same_but_aidx_stats. intros H.
  repeat match goal with H : _ /\ _ |- _ => destruct H end.
  unfold load_avail_idx, load_avail_ring, load_descr, viona_gpa2kva.
  splits; intros; congruence.
Qed.

(** Popping the [k]-th posted entry: [r] is the ring after [k] pops. *)
Lemma vq_popchain_next ring r m k gpa n fl nx buf :
  same_but_aidx_stats ring r ->
  vr_cur_aidx r = u16 (vr_cur_aidx ring + k) ->
  u16 (load_avail_idx ring - vr_cur_aidx ring - k) <> 0 ->
  let head := load_avail_ring ring
                (Z.land (u16 (vr_cur_aidx ring + k)) (vr_mask ring)) in
  head < vr_size ring ->
  load_descr ring head =
    {| vd_addr := gpa; vd_len := n; vd_flags := fl; vd_next := nx |} ->
  has_flag fl VRING_DESC_F_INDIRECT = false ->
  has_flag fl VRING_DESC_F_NEXT = false ->
  n <> 0 ->
  viona_gpa2kva ring gpa n = Some buf ->
  exists r',
    vq_popchain r m VTNET_MAXSEGS =
      (r', PopChain [{| iov_base := buf; iov_len := n |}] head) /\
    same_but_aidx_stats ring r' /\
    vr_cur_aidx r' = u16 (vr_cur_aidx ring + (k + 1)).
Proof.
  intros Hsame Hca Havail head Hhead Hd Hind Hnx Hn Hkva.
  destruct (same_load ring r Hsame) as (Hai & Har & Hld & Hgk & Hsz & Hmk).
  destruct (vq_popchain_single r m VTNET_MAXSEGS gpa n fl nx buf)
    as (r' & Hpop & Hs' & Hc'); try assumption; try reflexivity.
  - unfold viona_vr_num_avail. rewrite Hai, Hca, u16_u32, u16_sub_r.
    replace (load_avail_idx ring - (vr_cur_aidx ring + k))
      with (load_avail_idx ring - vr_cur_aidx ring - k) by lia.
    exact Havail.
  - cbn zeta. rewrite Har, Hca, Hmk, Hsz. exact Hhead.
  - rewrite Har, Hca, Hmk, Hld. exact Hd.
  - rewrite Hgk. exact Hkva.
  - exists r'. rewrite Har, Hca, Hmk in Hpop. splits.
    + exact Hpop.
    + eapply same_trans; eassumption.
    + rewrite Hc', Hca, u16_add_l. f_equal. lia.
Qed.

(** A negotiated feature set never carries GUEST_TSO4 without
    GUEST_CSUM. *)
Lemma negotiated_tso4_csum hw val :
  Z.land (viona_set_features hw val) VIRTIO_NET_F_GUEST_TSO4 <> 0 ->
  Z.land (viona_set_features hw val) VIRTIO_NET_F_GUEST_CSUM <> 0.
Proof.
  unfold viona_set_features. cbn zeta.
  set (v0 := Z.land val (Z.lor VIONA_S_HOSTCAPS hw)).
  set (v1 := if Z.land v0 VIRTIO_NET_F_CSUM =? 0 then _ else v0).
  destruct (Z.land v1 VIRTIO_NET_F_GUEST_CSUM =? 0) eqn:E.
  - intros H. exfalso. apply H.
    rewrite <- (Z.land_assoc v1).
    replace (Z.land (Z.lnot VIRTIO_NET_F_GUEST_TSO4) VIRTIO_NET_F_GUEST_TSO4)
      with 0 by reflexivity.
    apply Z.land_0_r.
  - intros _. apply Z.eqb_neq. exact E.
Qed.

Lemma merged_loop_eq room ring m mp msz hdr iov cookie chunk copied end_
    buf_idx uelem :
  merged_loop room ring m mp msz hdr iov cookie chunk copied end_ buf_idx uelem =
  let '(m, chunk, copied, end_) := merged_copy_chain iov mp m chunk copied end_ in
  let uelem := list_set (Z.to_nat buf_idx)
                 {| id := cookie; len := u32 chunk |} uelem in
  if negb end_ then
    match room with
    | O =>
      {| mo_ring := ring; mo_mem := m; mo_uelem := uelem; mo_buf_idx := buf_idx;
         mo_copied := copied; mo_cookie := cookie; mo_err := EOVERFLOW |}
    | S room' =>
      match vq_popchain ring m VTNET_MAXSEGS with
      | (ring, PopChain iov' cookie') =>
        let buf_idx := buf_idx + 1 in
        let m := store16 (hdr + off_vrh_bufs)
                   (load16 m (hdr + off_vrh_bufs) + 1) m in
        if copied <? msz then
          merged_loop room' ring m mp msz hdr iov' cookie' 0 copied false
            buf_idx uelem
        else
          {| mo_ring := ring; mo_mem := m; mo_uelem := uelem;
             mo_buf_idx := buf_idx; mo_copied := copied; mo_cookie := cookie';
             mo_err := EOK |}
      | (ring, _) =>
        {| mo_ring := ring; mo_mem := m; mo_uelem := uelem;
           mo_buf_idx := buf_idx; mo_copied := copied; mo_cookie := cookie;
           mo_err := EMSGSIZE |}
      end
    end
  else
    {| mo_ring := ring; mo_mem := m; mo_uelem := uelem; mo_buf_idx := buf_idx;
       mo_copied := copied; mo_cookie := cookie; mo_err := EOK |}.
Proof. destruct room; reflexivity. Qed.

(** One round of the merge loop that fills the single segment of the
    current chain, finds the frame unfinished and pops the next chain. *)
Lemma merged_step_more room ring ring' m m1 mp msz hdr buf n cookie copied c
    buf_idx uelem iov' cookie' :
  viona_copy_mblk mp copied buf n m = (m1, c, false) ->
  vq_popchain ring m1 VTNET_MAXSEGS = (ring', PopChain iov' cookie') ->
  copied + c < msz ->
  merged_loop (S room) ring m mp msz hdr
    [{| iov_base := buf; iov_len := n |}] cookie 0 copied false buf_idx uelem =
  merged_loop room ring'
    (store16 (hdr + off_vrh_bufs) (load16 m1 (hdr + off_vrh_bufs) + 1) m1)
    mp msz hdr iov' cookie' 0 (copied + c) false (buf_idx + 1)
    (list_set (Z.to_nat buf_idx) {| id := cookie; len := u32 c |} uelem).
Proof.
  intros Hcopy Hpop Hlt. rewrite merged_loop_eq.
  cbn [merged_copy_chain iov_base iov_len]. rewrite Hcopy.
  cbn [negb]. rewrite Hpop. rewrite Z.add_0_l.
  rewrite (proj2 (Z.ltb_lt _ _) Hlt). reflexivity.
Qed.

(** The round that copies the end of the frame. *)
Lemma merged_step_last room ring m m1 mp msz hdr buf n cookie copied c
    buf_idx uelem :
  viona_copy_mblk mp copied buf n m = (m1, c, true) ->
  merged_loop room ring m mp msz hdr
    [{| iov_base := buf; iov_len := n |}] cookie 0 copied false buf_idx uelem =
  {| mo_ring := ring; mo_mem := m1;
     mo_uelem := list_set (Z.to_nat buf_idx)
                   {| id := cookie; len := u32 c |} uelem;
     mo_buf_idx := buf_idx; mo_copied := copied + c; mo_cookie := cookie;
     mo_err := EOK |}.
Proof.
  intros Hcopy. rewrite merged_loop_eq.
  cbn [merged_copy_chain iov_base iov_len]. rewrite Hcopy.
  cbn [negb]. rewrite Z.add_0_l. reflexivity.
Qed.

(** The first round, entered after the first chain's only segment was
    filled behind the header. *)
Lemma merged_step_first room ring ring' m mp msz hdr cookie chunk copied
    uelem iov' cookie' :
  vq_popchain ring m VTNET_MAXSEGS = (ring', PopChain iov' cookie') ->
  copied < msz ->
  merged_loop (S room) ring m mp msz hdr [] cookie chunk copied false 0 uelem =
  merged_loop room ring'
    (store16 (hdr + off_vrh_bufs) (load16 m (hdr + off_vrh_bufs) + 1) m)
    mp msz hdr iov' cookie' 0 copied false 1
    (list_set 0 {| id := cookie; len := u32 chunk |} uelem).
Proof.
  intros Hpop Hlt. rewrite merged_loop_eq.
  cbn [merged_copy_chain negb]. rewrite Hpop.
  rewrite (proj2 (Z.ltb_lt _ _) Hlt). reflexivity.
Qed.

Lemma vq_popchain_posted ring r m k n kva :
  same_but_aidx_stats ring r ->
  vr_cur_aidx r = u16 (vr_cur_aidx ring + k) ->
  u16 (load_avail_idx ring - vr_cur_aidx ring - k) <> 0 ->
  posted_single ring k n kva ->
  n <> 0 ->
  exists r',
    vq_popchain r m VTNET_MAXSEGS =
      (r', PopChain [{| iov_base := kva; iov_len := n |}] (avail_head ring k)) /\
    same_but_aidx_stats ring r' /\
    vr_cur_aidx r' = u16 (vr_cur_aidx ring + (k + 1)).
Proof.
  intros Hs Hc Ha (Hh & gpa & fl & nx & Hd & Hi & Hn & Hk) Hn0.
  eapply vq_popchain_next; eassumption.
Qed.

Lemma viona_copy_mblk_more mp seek buf n m :
  0 <= n -> 0 <= seek -> n < msgsize mp - seek ->
  exists m',
    viona_copy_mblk mp seek buf n m = (m', n, false) /\
    (forall a, a < buf \/ buf + n <= a -> m' a = m a).
Proof.
  intros Hn Hs Hlt.
  pose proof (viona_copy_mblk_spec mp seek buf n m Hn ltac:(lia)) as H.
  cbn zeta in H.
  destruct (viona_copy_mblk mp seek buf n m) as [[m' c] e].
  destruct H as (Hc & _ & He & Hout & _).
  rewrite Z.min_l in * by lia.
  exists m'. rewrite Hc, (He Hlt). split; [reflexivity|exact Hout].
Qed.

Lemma viona_copy_mblk_end mp seek buf n m :
  0 <= seek <= msgsize mp -> msgsize mp - seek < n ->
  exists m',
    viona_copy_mblk mp seek buf n m = (m', msgsize mp - seek, true) /\
    (forall a, a < buf \/ buf + n <= a -> m' a = m a).
Proof.
  intros Hs Hlt.
  pose proof (viona_copy_mblk_spec mp seek buf n m ltac:(lia) Hs) as H.
  cbn zeta in H.
  destruct (viona_copy_mblk mp seek buf n m) as [[m' c] e].
  destruct H as (Hc & He & _ & Hout & _).
  rewrite Z.min_r in * by lia.
  exists m'. rewrite Hc, (He Hlt). split; [reflexivity|].
  intros a Ha. apply Hout. lia.
Qed.

Lemma load16_ext m m' a :
  m' a = m a -> m' (a + 1) = m (a + 1) -> load16 m' a = load16 m a.
Proof.
  intros H0 H1. unfold load16, load_le, byte_at. rewrite H0, H1. reflexivity.
Qed.

(** Stores away from the 12 header bytes keep the header. *)
Lemma mrg_hdr_inv_outside hdr m m' b :
  (forall a, hdr <= a < hdr + 12 -> m' a = m a) ->
  mrg_hdr_inv hdr m b -> mrg_hdr_inv hdr m' b.
Proof.
  unfold mrg_hdr_inv, off_vrh_flags, off_vrh_gso_type, off_vrh_gso_size,
    off_vrh_bufs.
  intros Hsame (H0 & H1 & H4 & H5 & Hb).
  splits; try (rewrite Hsame by lia; assumption).
  rewrite <- Hb. apply load16_ext; apply Hsame; lia.
Qed.

(** [hdr->vrh_bufs++] *)
Lemma mrg_hdr_inv_incr hdr m b :
  0 <= b < 65535 ->
  mrg_hdr_inv hdr m b ->
  mrg_hdr_inv hdr
    (store16 (hdr + off_vrh_bufs) (load16 m (hdr + off_vrh_bufs) + 1) m)
    (b + 1).
Proof.
  unfold mrg_hdr_inv, off_vrh_flags, off_vrh_gso_type, off_vrh_gso_size,
    off_vrh_bufs.
  intros Hb (H0 & H1 & H4 & H5 & Hl).
  splits; try (rewrite store16_other by lia; assumption).
  rewrite load16_store16, Hl. apply u16_small.
  change (2 ^ 16) with 65536. lia.
Qed.

Lemma list_set_length {A} (x : A) :
  forall l i, length (list_set i x l) = length l.
Proof.
  induction l as [|h t IH]; intros [|i]; cbn [list_set length]; try reflexivity.
  rewrite IH. reflexivity.
Qed.

Section MergedTso.

Variables (features : Z) (ring : viona_vring) (m : gmem) (frame : msg).
Variable uelem0 : list used_elem.
Variables kva0 kva1 kva2 kva3 : Z.

(** GUEST_TSO4 is part of a negotiated feature set. *)
Hypothesis Hneg : exists hw val, features = viona_set_features hw val.
Hypothesis Htso : Z.land features VIRTIO_NET_F_GUEST_TSO4 <> 0.
(** Four single-descriptor chains of 1526 bytes are posted. *)
Hypothesis Havail : viona_vr_num_avail ring = 4.
Hypothesis Hp0 : posted_single ring 0 1526 kva0.
Hypothesis Hp1 : posted_single ring 1 1526 kva1.
Hypothesis Hp2 : posted_single ring 2 1526 kva2.
Hypothesis Hp3 : posted_single ring 3 1526 kva3.
(** The later buffers do not overlap the header in the first one. *)
Hypothesis Hdis1 : kva1 + 1526 <= kva0 \/ kva0 + 12 <= kva1.
Hypothesis Hdis2 : kva2 + 1526 <= kva0 \/ kva0 + 12 <= kva2.
Hypothesis Hdis3 : kva3 + 1526 <= kva0 \/ kva0 + 12 <= kva3.
(** The frame has 5000 bytes and LSO metadata with MSS 1448. *)
Hypothesis Hsz : msgsize (m_blocks frame) = 5000.
Hypothesis Hlso : m_hw_lso frame = true.
Hypothesis Hmss : m_lsomss frame = 1448.
(** The stack array has VTNET_MAXSEGS entries. *)
Hypothesis Huelem : zlen uelem0 = VTNET_MAXSEGS.
(** [vr_cur_aidx] is a 16-bit field. *)
Hypothesis Hcur : 0 <= vr_cur_aidx ring < 2 ^ 16.

Lemma avail_left k : 0 <= k < 4 ->
  u16 (load_avail_idx ring - vr_cur_aidx ring - k) <> 0.
Proof.
  intros Hk. unfold viona_vr_num_avail in Havail. rewrite u16_u32 in Havail.
  unfold u16 in *.
  rewrite <- Zminus_mod_idemp_l, Havail.
  change (2 ^ 16) with 65536. rewrite Z.mod_small by lia. lia.
Qed.


End MergedTso.

Lemma four_desc_posted k :
  0 <= k < 4 -> posted_single four_desc_ring k 1526 (20480 + 2048 * k).
Proof.
  intros Hk.
  assert (Hc : k = 0 \/ k = 1 \/ k = 2 \/ k = 3) by lia.
  destruct Hc as [Hc|[Hc|[Hc|Hc]]]; subst k;
    (split; [vm_compute; reflexivity|];
     match goal with
     | |- context [posted_single] => idtac
     | |- exists _ : Z, _ => idtac
     end).
  - exists 16384, VRING_DESC_F_WRITE, 0. splits; vm_compute; reflexivity.
  - exists 18432, VRING_DESC_F_WRITE, 0. splits; vm_compute; reflexivity.
  - exists 20480, VRING_DESC_F_WRITE, 0. splits; vm_compute; reflexivity.
  - exists 22528, VRING_DESC_F_WRITE, 0. splits; vm_compute; reflexivity.
Qed.



(** ** Nested indirect tables *)

(** A walk of an indirect table that comes to an entry with INDIRECT set
    within the segment capacity bails out with [indir_bad_nest]. *)
Lemma popchain_indir_nested ring m vindir nindir niov :
  forall k next fuel iov,
    reaches_nested ring m vindir nindir next k ->
    zlen iov + Z.of_nat k < niov ->
    (k < fuel)%nat ->
    popchain_indir fuel ring m vindir nindir niov next iov =
    WalkBail rs_indir_bad_nest.
Proof.
  induction k as [|k IH]; intros next fuel iov Hr Hroom Hfuel.
  - destruct fuel as [|fuel]; [lia|]. inversion Hr; subst.
    cbn [popchain_indir]. unfold indir_entry in *.
    rewrite H. reflexivity.
  - destruct fuel as [|fuel]; [lia|]. inversion Hr; subst.
    cbn [popchain_indir]. unfold indir_entry in *.
    rewrite H0.
    destruct (vd_len (load_desc m (vindir + sizeof_virtio_desc * next)) =? 0)
      eqn:Hz; [apply Z.eqb_eq in Hz; contradiction|].
    destruct (viona_gpa2kva ring _ _) as [buf|]; [|contradiction].
    rewrite H3. cbn [negb].
    rewrite zlen_app. change (zlen [_]) with 1.
    destruct (zlen iov + 1 >=? niov) eqn:Hcap.
    { rewrite Z.geb_leb in Hcap. apply Z.leb_le in Hcap. lia. }
    destruct (vd_next _ >=? nindir) eqn:Hnx.
    { rewrite Z.geb_leb in Hnx. apply Z.leb_le in Hnx. lia. }
    apply IH; [assumption| |lia].
    rewrite zlen_app. change (zlen [_]) with 1. lia.
Qed.

Lemma reaches_nested_lease ring ring' m vindir nindir next k :
  vr_lease ring' = vr_lease ring ->
  reaches_nested ring m vindir nindir next k ->
  reaches_nested ring' m vindir nindir next k.
Proof.
  intros Hls H. induction H.
  - apply nested_here; assumption.
  - apply nested_later; try assumption.
    unfold viona_gpa2kva in *. rewrite Hls. assumption.
Qed.

(** An indirect walk that ends well went through entries below the table's
    entry count and added one segment per entry. *)
Lemma popchain_indir_path ring m vindir nindir niov :
  forall fuel next iov iov',
    0 <= next < nindir ->
    popchain_indir fuel ring m vindir nindir niov next iov = WalkDone iov' ->
    exists path segs,
      iov' = iov ++ segs /\
      indir_path m vindir nindir next path /\
      map iov_len segs = map (fun k => vd_len (indir_entry m vindir k)) path.
Proof.
  induction fuel as [|fuel IH]; intros next iov iov' Hnext E.
  - discriminate.
  - cbn [popchain_indir] in E. fold (indir_entry m vindir next) in E.
    set (vp := indir_entry m vindir next) in *.
    destruct (has_flag (vd_flags vp) VRING_DESC_F_INDIRECT); [discriminate|].
    destruct (vd_len vp =? 0); [discriminate|].
    destruct (viona_gpa2kva ring (vd_addr vp) (vd_len vp)) as [buf|];
      [|discriminate].
    destruct (has_flag (vd_flags vp) VRING_DESC_F_NEXT) eqn:Hnx; cbn [negb] in E.
    + destruct (zlen _ >=? niov); [discriminate|].
      destruct (vd_next vp >=? nindir) eqn:Hb; [discriminate|].
      rewrite Z.geb_leb in Hb. apply Z.leb_gt in Hb.
      assert (Hn' : 0 <= vd_next vp < nindir).
      { split; [|assumption]. apply load_desc_next_nonneg. }
      destruct (IH _ _ _ Hn' E) as (path & segs & -> & Hp & Hl).
      exists (next :: path), ({| iov_base := buf; iov_len := vd_len vp |} :: segs).
      split; [rewrite <- app_assoc; reflexivity|]. split.
      * apply path_next; assumption.
      * cbn [map iov_len]. f_equal. exact Hl.
    + injection E as <-.
      exists [next], [{| iov_base := buf; iov_len := vd_len vp |}].
      split; [reflexivity|]. split.
      * apply path_last; assumption.
      * reflexivity.
Qed.

(** The events a ring logged are kept by every later action. *)
Lemma log_since_refl r : log_since r r = [].
Proof. unfold log_since. apply skipn_all. Qed.

(** C8.  For every posted chain whose first entry has INDIRECT set, names a
    table that the lease translates and whose length is a positive multiple
    of 16, and whose walk of that table comes, within the segment capacity,
    to an entry that itself has INDIRECT set: the parser returns -1 and
    increments [indir_bad_nest], [cur_aidx] is unchanged, and [viona_tx]
    returns at once, with no frame handed to MAC and no used-ring entry
    pushed.  More generally, whenever processing an INDIRECT descriptor ends
    well, its length is a positive multiple of 16 and the walk went through
    entries of the table below its entry count, every next index it
    followed included. *)
Theorem nested_indirect_rejected (K : sys_headers) (env : tx_env)
    (link : viona_link) (ring : viona_vring) (m : gmem) (vindir : Z) (k : nat) :
  let vdir := load_descr ring (avail_head ring 0) in
  load_avail_idx ring <> u16 (vr_cur_aidx ring) ->
  0 <= vr_cur_aidx ring < 2 ^ 16 ->
  avail_head ring 0 < vr_size ring ->
  has_flag (vd_flags vdir) VRING_DESC_F_INDIRECT = true ->
  Z.land (vd_len vdir) 15 = 0 ->
  0 < vd_len vdir ->
  viona_gpa2kva ring (vd_addr vdir) (vd_len vdir) = Some vindir ->
  reaches_nested ring m vindir (vd_len vdir / 16) 0 k ->
  Z.of_nat k < vr_size ring ->
  (exists ring',
     vq_popchain ring m (vr_size ring) = (ring', PopFail) /\
     pop_retval PopFail = -1 /\
     vr_stats ring' rs_indir_bad_nest = u64 (vr_stats ring rs_indir_bad_nest + 1) /\
     vr_cur_aidx ring' = vr_cur_aidx ring /\
     viona_tx K env link ring m = TxDone ring' /\
     log_since ring ring' = []) /\
  (forall niov d iov iov',
     in_table ring d ->
     has_flag (vd_flags d) VRING_DESC_F_INDIRECT = true ->
     popchain_indirect ring m niov d iov = WalkDone iov' ->
     Z.land (vd_len d) 15 = 0 /\ 0 < vd_len d / 16 /\
     exists tbl path segs,
       viona_gpa2kva ring (vd_addr d) (vd_len d) = Some tbl /\
       indir_path m tbl (vd_len d / 16) 0 path /\
       iov' = iov ++ segs /\
       map iov_len segs = map (fun k => vd_len (indir_entry m tbl k)) path).
Proof.
  intros vdir Havail Hcur Hhead Hind Hlen Hpos Hkva Hreach Hk.
  split.
  - unfold vq_popchain.
    destruct (u16 (u32 (load_avail_idx ring - vr_cur_aidx ring)) =? 0) eqn:Hnd.
    { apply Z.eqb_eq in Hnd. unfold load_avail_idx in *.
      apply ndesc_zero_iff in Hnd. contradiction. }
    set (ring1 := if _ >? vr_size ring then _ else ring).
    assert (Hsame : vr_size ring1 = vr_size ring /\ vr_descr ring1 = vr_descr ring /\
                    vr_lease ring1 = vr_lease ring /\
                    vr_cur_aidx ring1 = vr_cur_aidx ring /\
                    vr_mask ring1 = vr_mask ring /\
                    vr_avail_ring ring1 = vr_avail_ring ring /\
                    vr_log ring1 = vr_log ring /\
                    vr_stats ring1 rs_indir_bad_nest =
                    vr_stats ring rs_indir_bad_nest).
    { subst ring1. destruct (_ >? _); repeat split; reflexivity. }
    destruct Hsame as (Hsz & Hds & Hls & Hca & Hmk & Har & Hlg & Hst).
    assert (Hh : load_avail_ring ring1 (Z.land (vr_cur_aidx ring) (vr_mask ring1)) =
                 avail_head ring 0).
    { unfold avail_head, load_avail_ring. rewrite Har, Hmk.
      rewrite Z.add_0_r, (u16_small (vr_cur_aidx ring)) by exact Hcur.
      reflexivity. }
    rewrite Hh.
    assert (Hw : popchain_walk (S (Z.to_nat (vr_size ring))) ring1 m (vr_size ring)
                   (avail_head ring 0) [] = WalkBail rs_indir_bad_nest).
    { cbn [popchain_walk]. change (zlen (@nil iovec)) with 0.
      assert (Hszpos : 0 < vr_size ring) by lia.
      destruct (0 <? vr_size ring) eqn:E0; [|apply Z.ltb_ge in E0; lia].
      rewrite Hsz.
      destruct (avail_head ring 0 >=? vr_size ring) eqn:E1.
      { rewrite Z.geb_leb in E1. apply Z.leb_le in E1. lia. }
      assert (Hd : load_descr ring1 (avail_head ring 0) = vdir).
      { unfold vdir, load_descr. rewrite Hds. reflexivity. }
      rewrite Hd, Hind. cbn [negb].
      unfold popchain_indirect.
      assert (Hn : 0 < vd_len vdir / 16).
      { apply Z.div_str_pos.
        assert (vd_len vdir mod 16 = 0).
        { rewrite <- (Z.land_ones _ 4) by lia. exact Hlen. }
        pose proof (Z_div_mod_eq_full (vd_len vdir) 16). lia. }
      rewrite Hlen. cbn [Z.eqb negb orb].
      destruct (vd_len vdir / 16 =? 0) eqn:E2; [apply Z.eqb_eq in E2; lia|].
      unfold viona_gpa2kva in *. rewrite Hls, Hkva.
      rewrite (popchain_indir_nested ring1 m vindir (vd_len vdir / 16)
                 (vr_size ring) k 0 (Z.to_nat (vr_size ring)) []).
      - reflexivity.
      - apply reaches_nested_lease with (ring := ring); assumption.
      - change (zlen (@nil iovec)) with 0. lia.
      - lia. }
    rewrite Hw.
    exists (VIONA_RING_STAT_INCR ring1 rs_indir_bad_nest).
    splits.
    + reflexivity.
    + reflexivity.
    + rewrite stat_incr_same, Hst. reflexivity.
    + cbn. exact Hca.
    + unfold viona_tx, vq_popchain. rewrite Hnd. fold ring1.
      rewrite Hh, Hw. reflexivity.
    + apply log_since_app. cbn. rewrite Hlg, app_nil_r. reflexivity.
  - intros niov d iov iov' Htab Hd E. unfold popchain_indirect in E.
    destruct (Z.land (vd_len d) 15 =? 0) eqn:Hl; cbn [negb orb] in E;
      [|discriminate].
    destruct (vd_len d / 16 =? 0) eqn:Hn; [discriminate|].
    destruct (viona_gpa2kva ring (vd_addr d) (vd_len d)) as [tbl|] eqn:Ht;
      [|discriminate].
    apply Z.eqb_eq in Hl. apply Z.eqb_neq in Hn.
    assert (Hdiv : 0 <= vd_len d / 16).
    { destruct Htab as (i & _ & ->). apply Z.div_pos; [apply u32_range|lia]. }
    split; [assumption|]. split; [lia|].
    destruct (popchain_indir_path ring m tbl (vd_len d / 16) niov _ 0 iov iov'
                ltac:(lia) E) as (path & segs & E1 & Hp & Hm).
    exists tbl, path, segs.
    split; [reflexivity|]. split; [exact Hp|]. split; [exact E1|exact Hm].
Qed.

Lemma nested_indirect_rejected_witness :
  let ring := indirect_ring 2 in
  let m := table_mem nested_table in
  let vdir := load_descr ring (avail_head ring 0) in
  load_avail_idx ring <> u16 (vr_cur_aidx ring) /\
  0 <= vr_cur_aidx ring < 2 ^ 16 /\
  avail_head ring 0 < vr_size ring /\
  has_flag (vd_flags vdir) VRING_DESC_F_INDIRECT = true /\
  Z.land (vd_len vdir) 15 = 0 /\
  0 < vd_len vdir /\
  viona_gpa2kva ring (vd_addr vdir) (vd_len vdir) = Some 12288 /\
  reaches_nested ring m 12288 (vd_len vdir / 16) 0 1 /\
  Z.of_nat 1 < vr_size ring /\
  exists ring',
    vq_popchain ring m (vr_size ring) = (ring', PopFail) /\
    vr_stats ring' rs_indir_bad_nest = 1 /\
    vr_cur_aidx ring' = 0 /\
    viona_tx illumos_headers tx_quiet_env (tx_link 0 0) ring m = TxDone ring' /\
    log_since ring ring' = [].
Proof.
  cbn zeta.
  assert (H1 : load_avail_idx (indirect_ring 2) <>
               u16 (vr_cur_aidx (indirect_ring 2)))
    by (vm_compute; discriminate).
  assert (H2 : 0 <= vr_cur_aidx (indirect_ring 2) < 2 ^ 16)
    by (vm_compute; split; [discriminate|reflexivity]).
  assert (H3 : avail_head (indirect_ring 2) 0 < vr_size (indirect_ring 2))
    by (vm_compute; reflexivity).
  assert (H4 : has_flag
                 (vd_flags (load_descr (indirect_ring 2)
                              (avail_head (indirect_ring 2) 0)))
                 VRING_DESC_F_INDIRECT = true)
    by (vm_compute; reflexivity).
  assert (H5 : Z.land (vd_len (load_descr (indirect_ring 2)
                                 (avail_head (indirect_ring 2) 0))) 15 = 0)
    by (vm_compute; reflexivity).
  assert (H6 : 0 < vd_len (load_descr (indirect_ring 2)
                             (avail_head (indirect_ring 2) 0)))
    by (vm_compute; reflexivity).
  assert (H7 : viona_gpa2kva (indirect_ring 2)
                 (vd_addr (load_descr (indirect_ring 2)
                             (avail_head (indirect_ring 2) 0)))
                 (vd_len (load_descr (indirect_ring 2)
                            (avail_head (indirect_ring 2) 0))) = Some 12288)
    by (vm_compute; reflexivity).
  assert (H8 : reaches_nested (indirect_ring 2) (table_mem nested_table) 12288
                 (vd_len (load_descr (indirect_ring 2)
                            (avail_head (indirect_ring 2) 0)) / 16) 0 1).
  { apply nested_later.
    - vm_compute; reflexivity.
    - vm_compute; discriminate.
    - vm_compute; discriminate.
    - vm_compute; reflexivity.
    - vm_compute; reflexivity.
    - apply nested_here. vm_compute; reflexivity. }
  assert (H9 : Z.of_nat 1 < vr_size (indirect_ring 2))
    by (vm_compute; reflexivity).
  splits; try assumption.
  destruct (nested_indirect_rejected illumos_headers tx_quiet_env (tx_link 0 0)
              (indirect_ring 2) (table_mem nested_table) 12288 1
              H1 H2 H3 H4 H5 H6 H7 H8 H9) as [(ring' & Hp & _ & Hs & Hc & Ht & Hl) _].
  exists ring'. splits; assumption.
Defined.

(** The claim as first worded fails when the entry with INDIRECT set is one
    that the walk of the table never comes to: the chain is accepted, its
    60 bytes go to MAC and its completion is pushed. *)
Lemma nested_indirect_unreached_counterexample :
  let ring := indirect_ring 3 in
  let m := table_mem unreached_nest_table in
  let vdir := load_descr ring (avail_head ring 0) in
  has_flag (vd_flags vdir) VRING_DESC_F_INDIRECT = true /\
  viona_gpa2kva ring (vd_addr vdir) (vd_len vdir) = Some 12288 /\
  2 < vd_len vdir / 16 /\
  has_flag (vd_flags (indir_entry m 12288 2)) VRING_DESC_F_INDIRECT = true /\
  snd (vq_popchain ring m (vr_size ring)) =
    PopChain [{| iov_base := 20480; iov_len := 10 |};
              {| iov_base := 24576; iov_len := 60 |}] 0 /\
  pop_retval (snd (vq_popchain ring m (vr_size ring))) = 2 /\
  vr_stats (fst (vq_popchain ring m (vr_size ring))) rs_indir_bad_nest = 0 /\
  vr_cur_aidx (fst (vq_popchain ring m (vr_size ring))) = 1 /\
  vr_log (tx_ring (viona_tx illumos_headers tx_quiet_env (tx_link 0 0) ring m)) =
    [EvUsedWrite 0 0 70; EvMembarProducer; EvUsedIdx 1; EvPollwakeup;
     EvMacTx [{| blk_desb := false; blk_data := repeat 0 60 |}]].
Proof.
  cbn zeta. splits; vm_compute; reflexivity.
Qed.

(** ** Transmit: reclamation descriptors *)

Lemma used_pushes_app l1 l2 :
  used_pushes (l1 ++ l2) = used_pushes l1 ++ used_pushes l2.
Proof.
  induction l1 as [|e l1 IH]; [reflexivity|].
  destruct e; cbn [app used_pushes]; rewrite IH; reflexivity.
Qed.

Lemma mac_frames_app l1 l2 :
  mac_frames (l1 ++ l2) = mac_frames l1 ++ mac_frames l2.
Proof.
  induction l1 as [|e l1 IH]; [reflexivity|].
  destruct e; cbn [app mac_frames]; rewrite IH; reflexivity.
Qed.

Lemma stores_of_app w l1 l2 :
  stores_of w (l1 ++ l2) = stores_of w l1 ++ stores_of w l2.
Proof.
  induction l1 as [|e l1 IH]; [reflexivity|].
  destruct e; cbn [app stores_of]; try assumption.
  destruct what, w; cbn [app]; rewrite IH; reflexivity.
Qed.

Lemma logged_refl r : logged r r [].
Proof. unfold logged. rewrite app_nil_r. reflexivity. Qed.

Lemma logged_trans r1 r2 r3 l1 l2 :
  logged r1 r2 l1 -> logged r2 r3 l2 -> logged r1 r3 (l1 ++ l2).
Proof. unfold logged. intros -> ->. rewrite app_assoc. reflexivity. Qed.

Lemma logged_since r r' l : logged r r' l -> log_since r r' = l.
Proof. apply log_since_app. Qed.

(** [viona_tx_done] publishes one entry, hands nothing to MAC and leaves
    the statistics and the reclamation descriptors alone. *)
Lemma viona_tx_done_spec r tlen cookie :
  vr_txdesb (viona_tx_done r tlen cookie) = vr_txdesb r /\
  vr_stats (viona_tx_done r tlen cookie) = vr_stats r /\
  exists l,
    logged r (viona_tx_done r tlen cookie) l /\
    used_pushes l = [(cookie, tlen)] /\ mac_frames l = [] /\
    forall w, stores_of w l = [].
Proof.
  unfold viona_tx_done.
  set (r1 := vq_pushchain r tlen cookie).
  assert (H1 : vr_txdesb r1 = vr_txdesb r /\ vr_stats r1 = vr_stats r)
    by (split; reflexivity).
  pose proof (vq_pushchain_log r tlen cookie) as Hl. fold r1 in Hl.
  destruct H1 as [Hd Hs]. clearbody r1.
  assert (Hi : vr_txdesb (viona_intr_ring r1) = vr_txdesb r1 /\
               vr_stats (viona_intr_ring r1) = vr_stats r1 /\
               exists l, logged r1 (viona_intr_ring r1) l /\
                         used_pushes l = [] /\ mac_frames l = [] /\
                         forall w, stores_of w l = []).
  { unfold viona_intr_ring.
    destruct (negb (vr_msi_addr r1 =? 0)).
    - repeat split. eexists. split; [reflexivity|]. repeat split.
    - destruct (vr_intr_enabled r1 =? 0).
      + repeat split. eexists. split; [reflexivity|]. repeat split.
      + repeat split. exists []. split; [apply logged_refl|]. repeat split. }
  destruct (Z.land (load_avail_flags r1) VRING_AVAIL_F_NO_INTERRUPT =? 0).
  - destruct Hi as (Hd' & Hs' & l & Hl' & Hp & Hm & Hw).
    split; [congruence|]. split; [congruence|].
    eexists. split; [eapply logged_trans; [exact Hl|exact Hl']|].
    rewrite used_pushes_app, mac_frames_app, Hp, Hm.
    split; [reflexivity|]. split; [reflexivity|].
    intros w. rewrite stores_of_app, Hw. reflexivity.
  - split; [assumption|]. split; [assumption|].
    eexists. split; [exact Hl|]. repeat split.
Qed.

Lemma desb_at_set r c d :
  vr_txdesb r <> None -> desb_at (desb_set c d r) c = d.
Proof.
  unfold desb_at, desb_set. destruct (vr_txdesb r); [|contradiction].
  intros _. cbn. rewrite Z.eqb_refl. reflexivity.
Qed.

Lemma desb_set_some r c d :
  vr_txdesb r <> None -> vr_txdesb (desb_set c d r) <> None.
Proof.
  unfold desb_set. destruct (vr_txdesb r); [|contradiction].
  intros _. cbn. discriminate.
Qed.

Lemma desb_set_quiet r c d :
  vr_log (desb_set c d r) = vr_log r /\ vr_stats (desb_set c d r) = vr_stats r.
Proof. split; reflexivity. Qed.

Lemma same_but_desb_refl c r : same_but_desb c r r.
Proof. repeat split. Qed.

Lemma same_but_desb_trans c r1 r2 r3 :
  same_but_desb c r1 r2 -> same_but_desb c r2 r3 -> same_but_desb c r1 r3.
Proof.
  unfold same_but_desb. intros (A1 & A2 & A3 & A4) (B1 & B2 & B3 & B4).
  repeat split; congruence.
Qed.

Lemma desb_ref_add_held r c n k :
  desb_held r c n ->
  desb_held (desb_ref_add c k r) c (u32 (n + k)) /\
  same_but_desb c r (desb_ref_add c k r).
Proof.
  intros [Hs Hr]. unfold desb_ref_add. split.
  - split; [apply desb_set_some; assumption|].
    rewrite desb_at_set by assumption. cbn. rewrite Hr. reflexivity.
  - unfold same_but_desb. rewrite desb_at_set by assumption.
    repeat split.
Qed.

(** A release that is not the last one only counts down. *)
Lemma release_keep r c n :
  desb_held r c n -> 3 <= n < 2 ^ 32 ->
  desb_held (viona_desb_release r c) c (n - 1) /\
  same_but_desb c r (viona_desb_release r c).
Proof.
  intros [Hs Hr] Hn. unfold viona_desb_release.
  rewrite Hr. rewrite (u32_small (n - 1)) by lia.
  destruct (n - 1 >? 1) eqn:E; [|rewrite Z.gtb_ltb in E; apply Z.ltb_ge in E; lia].
  split.
  - split; [apply desb_set_some; assumption|].
    rewrite desb_at_set by assumption. reflexivity.
  - unfold same_but_desb. rewrite desb_at_set by assumption. repeat split.
Qed.

(** The last release returns the descriptor to the unused state and
    publishes the completion it recorded. *)
Lemma release_last r c :
  desb_held r c 2 ->
  desb_held (viona_desb_release r c) c 0 /\
  vr_stats (viona_desb_release r c) = vr_stats r /\
  exists l,
    logged r (viona_desb_release r c) l /\
    used_pushes l = [(d_cookie (desb_at r c), d_len (desb_at r c))] /\
    mac_frames l = [].
Proof.
  intros [Hs Hr]. unfold viona_desb_release.
  rewrite Hr. change (u32 (2 - 1) >? 1) with false. cbv iota.
  set (r1 := desb_reset c r).
  assert (H1 : desb_held r1 c 0 /\ vr_stats r1 = vr_stats r /\ vr_log r1 = vr_log r).
  { unfold r1, desb_reset. split; [split|split; reflexivity].
    - apply desb_set_some; assumption.
    - rewrite desb_at_set by assumption. reflexivity. }
  destruct H1 as ([Hs1 Hr1] & Hst1 & Hl1).
  destruct (viona_tx_done_spec r1 (d_len (desb_at r c)) (d_cookie (desb_at r c)))
    as (Hd & Hst & l & Hl & Hp & Hm & _).
  set (r2 := viona_tx_done r1 _ _) in *.
  assert (Hheld : desb_held r2 c 0).
  { unfold desb_held, desb_at in *. rewrite Hd. split; assumption. }
  assert (Hlog : logged r r2 l).
  { unfold logged in *. rewrite Hl, Hl1. reflexivity. }
  clearbody r2. clear Hd Hl. clearbody r1.
  assert (Hx : forall v, desb_held (set_xfer_outstanding v r2) c 0)
    by (intros v; exact Hheld).
  destruct (u32 (vr_xfer_outstanding r2 - 1) =? 0).
  - split; [exact (Hx _)|]. split; [cbn; congruence|].
    exists (l ++ [EvCvBroadcast]). split.
    + unfold logged in *. cbn. rewrite Hlog, app_assoc. reflexivity.
    + rewrite used_pushes_app, mac_frames_app, Hp, Hm. split; reflexivity.
  - split; [exact (Hx _)|]. split; [cbn; congruence|].
    exists l. split; [exact Hlog|]. split; assumption.
Qed.

Lemma release_n_keep c :
  forall n r j,
    desb_held r c (Z.of_nat n + j) -> 2 <= j -> Z.of_nat n + j < 2 ^ 32 ->
    desb_held (release_n n r c) c j /\ same_but_desb c r (release_n n r c).
Proof.
  induction n as [|n IH]; intros r j Hh Hj Hb.
  - cbn [release_n]. split; [exact Hh|apply same_but_desb_refl].
  - cbn [release_n].
    destruct (release_keep r c _ Hh ltac:(lia)) as [Hh1 Hs1].
    replace (Z.of_nat (S n) + j - 1) with (Z.of_nat n + j) in Hh1 by lia.
    destruct (IH _ j Hh1 Hj ltac:(lia)) as [Hh2 Hs2].
    split; [exact Hh2|]. eapply same_but_desb_trans; eassumption.
Qed.

Lemma freemsgchain_release_n c :
  forall frame r, freemsgchain r c frame = release_n (desb_blocks frame) r c.
Proof.
  induction frame as [|b frame IH]; intros r; [reflexivity|].
  cbn [freemsgchain]. unfold desb_blocks. cbn [filter].
  destruct (blk_desb b); cbn [length release_n]; apply IH.
Qed.

(** ** Transmit: building the frame *)

Lemma u32_add_l a b : u32 (u32 a + b) = u32 (a + b).
Proof. unfold u32. apply Z.add_mod_idemp_l. lia. Qed.

Lemma u32_add_r a b : u32 (a + u32 b) = u32 (a + b).
Proof. unfold u32. apply Z.add_mod_idemp_r. lia. Qed.

Lemma u32_idem a : u32 (u32 a) = u32 a.
Proof. unfold u32. apply Z.mod_mod. lia. Qed.

Lemma u32_sub_r a b : u32 (a - u32 b) = u32 (a - b).
Proof. unfold u32. apply Zminus_mod_idemp_r. Qed.

Lemma desb_blocks_app f1 f2 :
  desb_blocks (f1 ++ f2) = (desb_blocks f1 + desb_blocks f2)%nat.
Proof. unfold desb_blocks. rewrite filter_app, length_app. reflexivity. Qed.

Lemma desb_blocks_all dp blocks :
  Forall (fun b => blk_desb b = dp) blocks ->
  desb_blocks blocks = if dp then length blocks else O.
Proof.
  induction 1 as [|b blocks Hb _ IH]; [destruct dp; reflexivity|].
  unfold desb_blocks in *. cbn [filter]. rewrite Hb.
  destruct dp; cbn [length]; rewrite IH; reflexivity.
Qed.

(** The length that the drop labels sum up. *)
Lemma drop_len_sum iov :
  forall a,
    fold_left (fun a v => u32 (a + iov_len v)) iov (u32 a) =
    u32 (a + zsum (map iov_len iov)).
Proof.
  induction iov as [|v iov IH]; intros a; cbn [fold_left map zsum fold_right].
  - rewrite Z.add_0_r. reflexivity.
  - rewrite u32_add_l, IH. f_equal. fold (zsum (map iov_len iov)). lia.
Qed.

(** The first loop keeps the kind of the first block, only moves its write
    pointer forward, and accounts in [len] for the bytes it copied: those
    and the bytes left to the second loop make up the segments. *)
Lemma tx_copy_hdrs_spec m :
  forall iov min_copy head len,
    0 <= min_copy < 2 ^ 32 ->
    Forall (fun v => 0 < iov_len v) iov ->
    0 <= hb_wptr head ->
    match tx_copy_hdrs m iov min_copy head len with
    | (head', len', rest, base_off) =>
      hb_desb head' = hb_desb head /\ 0 <= hb_wptr head' /\
      (rest = [] -> base_off = 0) /\
      (length rest <= length iov)%nat /\
      Forall (fun v => 0 < iov_len v) rest /\
      (iov <> [] -> u32 len' = len') /\
      (iov = [] -> len' = len) /\
      u32 (len' + zsum (map iov_len rest) - base_off) =
      u32 (len + zsum (map iov_len iov))
    end.
Proof.
  induction iov as [|v iov IH]; intros min_copy head len Hmc Hpos Hw;
    cbn [tx_copy_hdrs].
  - splits; try tauto; try lia; try (f_equal; lia); try constructor.
  - inversion Hpos as [|? ? Hv Hrest]; subst.
    assert (HX : 0 <= Z.min min_copy (iov_len v) <= min_copy) by lia.
    rewrite (u32_small (Z.min min_copy (iov_len v))) by lia.
    rewrite (u32_small (min_copy - Z.min min_copy (iov_len v))) by lia.
    set (X := Z.min min_copy (iov_len v)) in *.
    cbn [map zsum fold_right]. fold (zsum (map iov_len iov)).
    destruct (min_copy - X =? 0) eqn:E0.
    + apply Z.eqb_eq in E0.
      destruct (iov_len v =? X) eqn:E1.
      * apply Z.eqb_eq in E1.
        assert (Hsum : u32 (u32 (len + X) + zsum (map iov_len iov) - 0) =
                       u32 (len + (iov_len v + zsum (map iov_len iov)))).
        { rewrite Z.sub_0_r, u32_add_l. f_equal. lia. }
        splits; cbn [hb_desb hb_wptr length]; try exact Hsum;
          first [tauto | lia | discriminate | assumption
                | (intros _; apply u32_idem) | (intros; reflexivity)].
      * apply Z.eqb_neq in E1.
        assert (Hsum : u32 (u32 (len + X) +
                            zsum (map iov_len (v :: iov)) - X) =
                       u32 (len + (iov_len v + zsum (map iov_len iov)))).
        { cbn [map zsum fold_right]. fold (zsum (map iov_len iov)).
          replace (u32 (len + X) + (iov_len v + zsum (map iov_len iov)) - X)
            with (u32 (len + X) + (iov_len v + zsum (map iov_len iov) - X)) by lia.
          rewrite u32_add_l. f_equal. lia. }
        splits; cbn [hb_desb hb_wptr length]; try exact Hsum;
          first [tauto | lia | discriminate | assumption
                | (intros _; apply u32_idem) | (intros; reflexivity)
                | (constructor; assumption)].
    + apply Z.eqb_neq in E0.
      assert (EX : X = iov_len v) by lia.
      set (head1 := {| hb_desb := _; hb_buf := _; hb_wptr := _ |}).
      specialize (IH (min_copy - X) head1 (u32 (len + X)) ltac:(lia) Hrest
                     ltac:(cbn; lia)).
      destruct (tx_copy_hdrs m iov (min_copy - X) head1 (u32 (len + X)))
        as [[[head' len'] rest] base_off].
      destruct IH as (H1 & H2 & H3 & H4 & H5 & H6 & H7 & H8).
      splits; try assumption.
      * cbn [length]. lia.
      * intros _. destruct iov as [|v' iov'].
        -- rewrite H7 by reflexivity. apply u32_idem.
        -- apply H6. discriminate.
      * discriminate.
      * rewrite H8, u32_add_l. f_equal. lia.
Qed.

(** The second loop adds one block per segment, each taking one reference
    when the blocks come from [desballoc], and accounts for their bytes. *)
Lemma tx_build_tail_spec env dp m c :
  forall iov base_off k ring tail len nb,
    (dp = true -> desb_held ring c nb /\ 0 <= nb /\
                  nb + Z.of_nat (length iov) < 2 ^ 32) ->
    (iov = [] -> base_off = 0) ->
    u32 len = len ->
    match tx_build_tail env dp m c iov base_off k ring tail len with
    | BuildOk r tail' len' =>
      same_but_desb c ring r /\
      (dp = false -> r = ring) /\
      (exists blocks,
         tail' = tail ++ blocks /\ length blocks = length iov /\
         Forall (fun b => blk_desb b = dp) blocks /\
         (dp = true -> desb_held r c (nb + Z.of_nat (length blocks)))) /\
      len' = u32 (len + zsum (map iov_len iov) - base_off)
    | BuildFail r tail' =>
      same_but_desb c ring r /\
      (dp = false -> r = ring) /\
      exists blocks,
        tail' = tail ++ blocks /\ (length blocks <= length iov)%nat /\
        Forall (fun b => blk_desb b = dp) blocks /\
        (dp = true -> desb_held r c (nb + Z.of_nat (length blocks)))
    end.
Proof.
  induction iov as [|v iov IH]; intros base_off k ring tail len nb Hdp Hb Hlen;
    cbn [tx_build_tail].
  - split; [apply same_but_desb_refl|]. split; [reflexivity|]. split.
    + exists []. rewrite app_nil_r. splits; [reflexivity|reflexivity|constructor|].
      intros E. destruct (Hdp E) as (H & _). cbn [length].
      rewrite Z.add_0_r. exact H.
    + rewrite (Hb eq_refl). cbn [map zsum fold_right].
      rewrite Z.add_0_r, Z.sub_0_r. symmetry. exact Hlen.
  - destruct (tx_alloc env k).
    + set (ring1 := if dp then desb_ref_add c 1 ring else ring).
      assert (H1 : same_but_desb c ring ring1 /\
                   (dp = false -> ring1 = ring) /\
                   (dp = true -> desb_held ring1 c (nb + 1) /\ 0 <= nb + 1 /\
                                 nb + 1 + Z.of_nat (length iov) < 2 ^ 32)).
      { subst ring1. destruct dp.
        - destruct (Hdp eq_refl) as (Hh & Hn & Hbd). cbn [length] in Hbd.
          destruct (desb_ref_add_held ring c nb 1 Hh) as [Hh1 Hs1].
          rewrite u32_small in Hh1 by lia.
          split; [exact Hs1|]. split; [discriminate|]. intros _.
          split; [exact Hh1|]. lia.
        - split; [apply same_but_desb_refl|]. split; [reflexivity|discriminate]. }
      destruct H1 as (Hs1 & Hf1 & Hd1). clearbody ring1.
      specialize (IH 0 (S k) ring1
                     (tail ++ [{| blk_desb := dp;
                                  blk_data := gread m (iov_base v + base_off)
                                                (u32 (iov_len v - base_off)) |}])
                     (u32 (len + u32 (iov_len v - base_off))) (nb + 1) Hd1
                     ltac:(reflexivity) (u32_idem _)).
      destruct (tx_build_tail env dp m c iov 0 (S k) ring1 _ _)
        as [r tail' len'|r tail'].
      * destruct IH as (Hs & Hf & (blocks & Et & El & Hall & Hh) & Elen).
        split; [eapply same_but_desb_trans; eassumption|].
        split; [intros E; rewrite (Hf E); apply Hf1; exact E|].
        split.
        -- eexists (_ :: blocks). splits.
           ++ rewrite Et, <- app_assoc. reflexivity.
           ++ cbn [length]. rewrite El. reflexivity.
           ++ constructor; [reflexivity|exact Hall].
           ++ intros E. specialize (Hh E). cbn [length].
              replace (nb + Z.of_nat (S (length blocks)))
                with (nb + 1 + Z.of_nat (length blocks)) by lia.
              exact Hh.
        -- rewrite Elen. cbn [map zsum fold_right].
           fold (zsum (map iov_len iov)).
           rewrite Z.sub_0_r, u32_add_l.
           replace (len + u32 (iov_len v - base_off) + zsum (map iov_len iov))
             with (u32 (iov_len v - base_off) + (len + zsum (map iov_len iov)))
             by lia.
           rewrite u32_add_l. f_equal. lia.
      * destruct IH as (Hs & Hf & blocks & Et & El & Hall & Hh).
        split; [eapply same_but_desb_trans; eassumption|].
        split; [intros E; rewrite (Hf E); apply Hf1; exact E|].
        eexists (_ :: blocks). splits.
        -- rewrite Et, <- app_assoc. reflexivity.
        -- cbn [length]. lia.
        -- constructor; [reflexivity|exact Hall].
        -- intros E. specialize (Hh E). cbn [length].
           replace (nb + Z.of_nat (S (length blocks)))
             with (nb + 1 + Z.of_nat (length blocks)) by lia.
           exact Hh.
    + split; [apply same_but_desb_refl|]. split; [reflexivity|].
      exists []. rewrite app_nil_r. splits; [reflexivity|cbn; lia|constructor|].
      intros E. destruct (Hdp E) as (H & _). cbn [length].
      rewrite Z.add_0_r. exact H.
Qed.

Lemma tx_claim_spec env ring c :
  match tx_claim env ring c with
  | ClaimBusy => True
  | ClaimNoMem r dp =>
    vr_log r = vr_log ring /\ vr_stats r = vr_stats ring /\
    tx_refs ring r dp c []
  | Claimed r dp head =>
    vr_log r = vr_log ring /\ vr_stats r = vr_stats ring /\
    tx_refs ring r dp c [head_block head] /\
    hb_desb head = dp /\ hb_wptr head = 0
  end.
Proof.
  unfold tx_claim.
  destruct (vr_txdesb ring) as [t|] eqn:Et.
  - destruct (d_ref (desb_at ring c) =? 0) eqn:E0; cbn [negb]; [|exact I].
    assert (Hs : vr_txdesb ring <> None) by congruence.
    set (r1 := desb_set c (with_cookie c (with_ref 1 (desb_at ring c))) ring).
    assert (H1 : desb_held r1 c 1 /\ d_cookie (desb_at r1 c) = c /\
                 vr_log r1 = vr_log ring /\ vr_stats r1 = vr_stats ring).
    { unfold r1. rewrite desb_at_set by assumption.
      split; [split; [apply desb_set_some; assumption|]|];
        repeat split; try reflexivity.
      rewrite desb_at_set by assumption. reflexivity. }
    destruct H1 as (Hh & Hc & Hl & Hst). clearbody r1.
    destruct (tx_alloc env 0).
    + destruct (desb_ref_add_held r1 c 1 1 Hh) as [Hh1 (A1 & A2 & A3 & A4)].
      change (u32 (1 + 1)) with 2 in Hh1.
      split; [congruence|]. split; [congruence|].
      split; [|split; reflexivity].
      unfold tx_refs. split; [exact Hh1|]. congruence.
    + split; [assumption|]. split; [assumption|]. split; assumption.
  - destruct (tx_alloc env 0).
    + split; [reflexivity|]. split; [reflexivity|].
      split; [split; [reflexivity|tauto]|split; reflexivity].
    + split; [reflexivity|]. split; [reflexivity|]. split; [reflexivity|tauto].
Qed.

Lemma pulled_up_blocks :
  forall frame n,
    (n <= desb_blocks frame)%nat ->
    desb_blocks (pulled_up n frame) = (desb_blocks frame - n)%nat.
Proof.
  induction frame as [|b frame IH]; intros n Hn.
  - destruct n; reflexivity.
  - destruct n as [|n]; [cbn [pulled_up]; lia|].
    cbn [pulled_up]. unfold desb_blocks in *. cbn [filter] in *.
    destruct (blk_desb b) eqn:Eb; cbn [filter blk_desb length] in *.
    + rewrite IH by lia. lia.
    + rewrite Eb. cbn [length]. rewrite IH by lia. reflexivity.
Qed.

Lemma pulled_up_frame head tail n :
  pulled_up n (tx_frame head tail) =
  tx_frame {| hb_desb := hb_desb head && (n =? 0)%nat;
              hb_buf := hb_buf head; hb_wptr := hb_wptr head |}
    (tl (pulled_up n (tx_frame head tail))).
Proof.
  unfold tx_frame. destruct n as [|n]; cbn [pulled_up Nat.eqb].
  - rewrite andb_true_r. destruct head; reflexivity.
  - unfold head_block. cbn [blk_desb blk_data hb_desb hb_buf hb_wptr].
    destruct (hb_desb head) eqn:Eh; cbn [tl andb]; reflexivity.
Qed.

Lemma tl_map_flags (f : list mblk) : tl (map blk_desb f) = map blk_desb (tl f).
Proof. destruct f; reflexivity. Qed.

Lemma desb_blocks_frame head tail :
  desb_blocks (tx_frame head tail) =
  ((if hb_desb head then 1 else 0) + desb_blocks tail)%nat.
Proof.
  unfold tx_frame, desb_blocks, head_block. cbn [filter blk_desb].
  destruct (hb_desb head); reflexivity.
Qed.

Lemma with_data_flags :
  forall ds frame, map blk_desb (with_data ds frame) = map blk_desb frame.
Proof.
  induction ds as [|d ds IH]; intros [|b frame]; cbn [with_data map blk_desb];
    try reflexivity.
  rewrite IH. reflexivity.
Qed.

Lemma desb_blocks_flags :
  forall f g, map blk_desb f = map blk_desb g -> desb_blocks f = desb_blocks g.
Proof.
  unfold desb_blocks.
  induction f as [|b f IH]; intros [|b' g] E; cbn [map] in E; try discriminate;
    [reflexivity|].
  injection E as Eb Er. cbn [filter]. rewrite Eb.
  destruct (blk_desb b'); cbn [length]; rewrite (IH g Er); reflexivity.
Qed.

(** Rewriting the bytes of a frame leaves each block the reference it
    holds. *)
Lemma hooked_blocks head tail n ds hb hw :
  desb_blocks
    (tx_frame {| hb_desb := hb_desb head && (n =? 0)%nat;
                 hb_buf := hb; hb_wptr := hw |}
       (tl (with_data ds (pulled_up n (tx_frame head tail))))) =
  desb_blocks (pulled_up n (tx_frame head tail)).
Proof.
  rewrite desb_blocks_frame. cbn [hb_desb].
  assert (Et : desb_blocks (tl (with_data ds (pulled_up n (tx_frame head tail)))) =
               desb_blocks (tl (pulled_up n (tx_frame head tail)))).
  { apply desb_blocks_flags. rewrite <- !tl_map_flags.
    rewrite with_data_flags. reflexivity. }
  rewrite Et.
  rewrite (pulled_up_frame head tail n) at 2.
  rewrite desb_blocks_frame. reflexivity.
Qed.

(** The out-bound hook keeps the count of references in step with the
    blocks of the frame: an accepted frame leaves with its references
    counted as before the call, less the blocks the hook pulled up; a
    rejected one leaves the descriptor with the two references that the
    drop label expects. *)
Lemma tx_hook_spec env link ring0 ring dp c head tail :
  tx_refs ring0 ring dp c (tx_frame head tail) ->
  (dp = true -> (1 <= desb_blocks (tx_frame head tail))%nat) ->
  Z.of_nat (desb_blocks (tx_frame head tail)) + 3 < 2 ^ 32 ->
  match tx_hook env link ring dp c head tail with
  | HookOk r dp' head' tail' =>
    vr_log r = vr_log ring /\ vr_stats r = vr_stats ring /\
    tx_refs ring0 r dp' c (tx_frame head' tail') /\
    (dp' = true -> (1 <= desb_blocks (tx_frame head' tail'))%nat) /\
    (desb_blocks (tx_frame head' tail') <= desb_blocks (tx_frame head tail))%nat /\
    (0 <= hb_wptr head -> 0 <= hb_wptr head')
  | HookDrop r =>
    vr_log r = vr_log ring /\
    (forall s, s <> rs_tx_hookdrop -> vr_stats r s = vr_stats ring s) /\
    (dp = true -> desb_held r c 2) /\
    (dp = false -> d_ref (desb_at ring0 c) = 0 -> d_ref (desb_at r c) = 0)
  end.
Proof.
  intros Hrefs Hone Hbound. unfold tx_hook.
  destruct (l_hook_out link).
  2:{ splits; try reflexivity; try assumption; try lia. }
  set (frame := tx_frame head tail) in *.
  set (B := desb_blocks frame) in *.
  destruct dp.
  - destruct Hrefs as [Hh Hc].
    destruct (desb_ref_add_held ring c _ 1 Hh) as [Hh1 Hs1].
    rewrite u32_small in Hh1 by lia.
    set (r1 := desb_ref_add c 1 ring) in *. clearbody r1.
    destruct (tx_hook_run env frame) as [released rewritten|freed].
    + set (n := Nat.min released B).
      assert (Hn : (n <= B)%nat) by (unfold n; lia).
      destruct (release_n_keep c n r1 (2 + Z.of_nat B - Z.of_nat n)) as [Hh2 Hs2];
        [replace (Z.of_nat n + (2 + Z.of_nat B - Z.of_nat n))
           with (1 + Z.of_nat B + 1) by lia; exact Hh1|lia|lia|].
      set (r2 := release_n n r1 c) in *. clearbody r2.
      destruct (desb_ref_add_held r2 c _ (-1) Hh2) as [Hh3 Hs3].
      rewrite u32_small in Hh3 by lia.
      set (r3 := desb_ref_add c (-1) r2) in *. clearbody r3.
      assert (Hs : same_but_desb c ring r3).
      { eapply same_but_desb_trans; [exact Hs1|].
        eapply same_but_desb_trans; [exact Hs2|exact Hs3]. }
      destruct Hs as (L & S & _ & C).
      destruct Hh3 as [Hsome Href].
      cbv zeta.
      set (head' := {| hb_desb := hb_desb head && (n =? 0)%nat;
                       hb_buf := match rewritten with
                                 | [] => hb_buf head
                                 | d :: _ => bcopy d 0 (hb_buf head)
                                 end;
                       hb_wptr := match rewritten with
                                  | [] => hb_wptr head
                                  | d :: _ => zlen d
                                  end |}).
      set (tail' := tl (with_data rewritten (pulled_up n frame))).
      assert (Hpb : desb_blocks (tx_frame head' tail') = (B - n)%nat).
      { unfold head', tail', frame. rewrite hooked_blocks.
        apply pulled_up_blocks. exact Hn. }
      assert (Hwp : 0 <= hb_wptr head -> 0 <= hb_wptr head').
      { unfold head'. cbn [hb_wptr]. destruct rewritten; [tauto|].
        intros _. apply zlen_nonneg. }
      rewrite Href.
      destruct (2 + Z.of_nat B - Z.of_nat n + -1 =? 1) eqn:E1.
      * apply Z.eqb_eq in E1.
        splits; try reflexivity; try assumption.
        -- unfold tx_refs. split; [rewrite Hpb; lia|].
           intros _. rewrite desb_at_set by assumption. reflexivity.
        -- discriminate.
        -- rewrite Hpb. lia.
      * apply Z.eqb_neq in E1.
        splits; try reflexivity; try assumption.
        -- unfold tx_refs. split; [split; [assumption|]|congruence].
           rewrite Href, Hpb. lia.
        -- intros _. rewrite Hpb. lia.
        -- rewrite Hpb. lia.
    + rewrite freemsgchain_release_n. fold B.
      assert (Hh1' : desb_held (VIONA_RING_STAT_INCR r1 rs_tx_hookdrop) c
                       (Z.of_nat B + 2)).
      { replace (Z.of_nat B + 2) with (1 + Z.of_nat B + 1) by lia. exact Hh1. }
      destruct (release_n_keep c B _ 2 Hh1' ltac:(lia) ltac:(lia)) as [Hh2 Hs2].
      destruct Hs2 as (L & S & _). destruct Hs1 as (L1 & S1 & _).
      splits.
      * rewrite L. cbn. exact L1.
      * intros s Hs. rewrite S. rewrite stat_incr_other by congruence.
        rewrite S1. reflexivity.
      * intros _. exact Hh2.
      * discriminate.
  - destruct Hrefs as [HB Hidle]. fold B in HB.
    destruct (tx_hook_run env frame) as [released rewritten|freed].
    + cbv zeta. rewrite HB, Nat.min_0_r. cbn [release_n].
      set (head' := {| hb_desb := hb_desb head && (0 =? 0)%nat;
                       hb_buf := match rewritten with
                                 | [] => hb_buf head
                                 | d :: _ => bcopy d 0 (hb_buf head)
                                 end;
                       hb_wptr := match rewritten with
                                  | [] => hb_wptr head
                                  | d :: _ => zlen d
                                  end |}).
      set (tail' := tl (with_data rewritten (pulled_up 0 frame))).
      assert (Hpb : desb_blocks (tx_frame head' tail') = O).
      { unfold head', tail', frame. rewrite hooked_blocks.
        rewrite pulled_up_blocks by lia. fold frame. fold B. lia. }
      assert (Hwp : 0 <= hb_wptr head -> 0 <= hb_wptr head').
      { unfold head'. cbn [hb_wptr]. destruct rewritten; [tauto|].
        intros _. apply zlen_nonneg. }
      splits; try reflexivity; try assumption.
      * split; assumption.
      * discriminate.
      * rewrite Hpb. lia.
    + rewrite freemsgchain_release_n. fold B. rewrite HB. cbn [release_n].
      splits.
      * reflexivity.
      * intros s Hs. apply stat_incr_other. congruence.
      * discriminate.
      * intros _. exact Hidle.
Qed.

(** Up to the checksum request, [viona_tx] logs nothing, and whichever way
    it leaves the preparation the reclamation descriptor counts exactly the
    references the next step relies on. *)
Lemma tx_prepare_spec env link ring m iov c :
  iov <> [] ->
  Forall (fun v => 0 < iov_len v) iov ->
  Z.of_nat (length iov) + 3 < 2 ^ 32 ->
  match tx_prepare env link ring m iov c with
  | Prepared r dp head tail len =>
    vr_log r = vr_log ring /\ vr_stats r = vr_stats ring /\
    tx_refs ring r dp c (tx_frame head tail) /\
    (dp = true -> (1 <= desb_blocks (tx_frame head tail))%nat) /\
    (desb_blocks (tx_frame head tail) <= length iov)%nat /\
    0 <= hb_wptr head /\
    len = u32 (zsum (map iov_len iov))
  | PrepDropFail r dp frame =>
    vr_log r = vr_log ring /\ vr_stats r = vr_stats ring /\
    tx_refs ring r dp c frame /\
    (desb_blocks frame <= length iov)%nat
  | PrepDropHook r dp =>
    vr_log r = vr_log ring /\
    (forall s, s <> rs_tx_hookdrop -> vr_stats r s = vr_stats ring s) /\
    (dp = true -> desb_held r c 2) /\
    (dp = false -> d_ref (desb_at ring c) = 0 -> d_ref (desb_at r c) = 0)
  end.
Proof.
  intros Hne Hpos Hbound. unfold tx_prepare.
  destruct iov as [|v0 iov]; [contradiction|]. clear Hne.
  inversion Hpos as [|? ? Hv0 Hrest]; subst.
  cbn [hd tl length] in *.
  assert (Hidle0 : tx_refs ring ring false c []).
  { split; [reflexivity|tauto]. }
  destruct (u32 (iov_len v0) <? sizeof_virtio_net_hdr).
  { splits; try reflexivity; try assumption. cbn. lia. }
  pose proof (tx_claim_spec env ring c) as Hclaim.
  destruct (tx_claim env ring c) as [|r1 dp|r1 dp head0].
  { splits; try reflexivity; try assumption. cbn. lia. }
  { destruct Hclaim as (L & S & R). splits; try assumption. cbn. lia. }
  destruct Hclaim as (L1 & S1 & R1 & Hd0 & Hw0).
  pose proof (tx_copy_hdrs_spec m iov VIONA_MAX_HDRS_LEN head0 (u32 (iov_len v0))
                ltac:(unfold VIONA_MAX_HDRS_LEN; lia) Hrest ltac:(lia)) as Hcopy.
  destruct (tx_copy_hdrs m iov VIONA_MAX_HDRS_LEN head0 (u32 (iov_len v0)))
    as [[[head1 len1] rest] base_off].
  destruct Hcopy as (Hd1 & Hw1 & Hb1 & Hl1 & Hp1 & Hu1 & Hu1' & Hsum1).
  assert (Hlen1 : u32 len1 = len1).
  { destruct iov as [|v1 iov'].
    - rewrite (Hu1' eq_refl). apply u32_idem.
    - apply Hu1. discriminate. }
  assert (Hflag : hb_desb head1 = dp) by congruence.
  pose proof (tx_build_tail_spec env dp m c rest base_off 1 r1 [] len1 2) as Hbuild.
  assert (Hpre : dp = true -> desb_held r1 c 2 /\ 0 <= 2 /\
                               2 + Z.of_nat (length rest) < 2 ^ 32).
  { intros E. rewrite E in *. unfold tx_refs in R1. destruct R1 as [[Hsm Hh] _].
    unfold desb_blocks, head_block in Hh. cbn [filter blk_desb] in Hh.
    rewrite Hd0 in Hh. cbn [length] in Hh.
    split; [split; [exact Hsm|exact Hh]|]. lia. }
  specialize (Hbuild Hpre Hb1 Hlen1).
  assert (Hidle1 : dp = false ->
                   d_ref (desb_at ring c) = 0 -> d_ref (desb_at r1 c) = 0).
  { intros E. rewrite E in *. unfold tx_refs in R1. destruct R1 as [_ H]. exact H. }
  assert (Hck1 : dp = true -> d_cookie (desb_at r1 c) = c).
  { intros E. rewrite E in *. unfold tx_refs in R1. destruct R1 as [_ H]. exact H. }
  assert (Hrefs : forall r tail blocks,
             same_but_desb c r1 r -> (dp = false -> r = r1) ->
             tail = [] ++ blocks ->
             Forall (fun b => blk_desb b = dp) blocks ->
             (dp = true -> desb_held r c (2 + Z.of_nat (length blocks))) ->
             tx_refs ring r dp c (tx_frame head1 tail) /\
             desb_blocks (tx_frame head1 tail) =
             if dp then S (length blocks) else O).
  { intros r tail blocks Hs Hf Et Hall Hh. cbn [app] in Et. subst tail.
    unfold tx_refs.
    rewrite desb_blocks_frame, Hflag, (desb_blocks_all dp blocks Hall).
    destruct dp.
    - split; [|reflexivity]. split.
      + replace (1 + Z.of_nat (1 + length blocks))
          with (2 + Z.of_nat (length blocks)) by lia.
        apply Hh. reflexivity.
      + destruct Hs as (_ & _ & _ & C). rewrite C. apply Hck1. reflexivity.
    - split; [|reflexivity]. split; [reflexivity|].
      rewrite (Hf eq_refl). apply Hidle1. reflexivity. }
  destruct (tx_build_tail env dp m c rest base_off 1 r1 [] len1)
    as [r2 tail len2|r2 tail].
  - destruct Hbuild as (Hs2 & Hf2 & (blocks & Et & El & Hall & Hh2) & Elen).
    destruct (Hrefs r2 tail blocks Hs2 Hf2 Et Hall Hh2) as [Hr2 Hcount].
    assert (Hcnt : (desb_blocks (tx_frame head1 tail) <= S (length iov))%nat).
    { rewrite Hcount. destruct dp; lia. }
    pose proof (tx_hook_spec env link ring r2 dp c head1 tail Hr2) as Hhook.
    specialize (Hhook ltac:(intros E; rewrite Hcount, E; lia) ltac:(lia)).
    destruct Hs2 as (L2 & S2 & _).
    destruct (tx_hook env link r2 dp c head1 tail) as [r3 dp' head' tail'|r3].
    + destruct Hhook as (L3 & S3 & R3 & H1 & Hle & Hw).
      splits; try assumption; try congruence; try lia.
      rewrite Elen, Hsum1. cbn [map zsum fold_right].
      fold (zsum (map iov_len iov)). apply u32_add_l.
    + destruct Hhook as (L3 & S3 & Hd3 & Hi3).
      splits; try assumption; try congruence.
      intros s Hs. rewrite (S3 s Hs). congruence.
  - destruct Hbuild as (Hs2 & Hf2 & blocks & Et & El & Hall & Hh2).
    destruct (Hrefs r2 tail blocks Hs2 Hf2 Et Hall Hh2) as [Hr2 Hcount].
    destruct Hs2 as (L2 & S2 & _).
    splits; try assumption; try congruence.
    rewrite Hcount. destruct dp; lia.
Qed.

(** ** Transmit: the drop labels and the hand-over *)

Lemma desb_at_ext r r' c : vr_txdesb r' = vr_txdesb r -> desb_at r' c = desb_at r c.
Proof. unfold desb_at. intros ->. reflexivity. Qed.

(** The label [drop_hook] publishes the chain with the sum of its segment
    lengths, in the 32 bits of the length field, and returns a descriptor
    it holds to the unused state. *)
Lemma tx_drop_hook_spec ring dp iov c :
  (dp = true -> desb_held ring c 2) ->
  exists r',
    tx_drop_hook ring dp iov c = TxDone r' /\
    vr_stats r' = vr_stats ring /\
    (dp = true -> d_ref (desb_at r' c) = 0) /\
    (dp = false -> desb_at r' c = desb_at ring c) /\
    exists l,
      logged ring r' l /\
      used_pushes l = [(c, u32 (zsum (map iov_len iov)))] /\
      mac_frames l = [] /\ forall w, stores_of w l = [].
Proof.
  intros Hdp. unfold tx_drop_hook. cbv zeta.
  set (total := u32 (zsum (map iov_len iov))).
  assert (Hf : fold_left (fun a v => u32 (a + iov_len v)) iov 0 = total).
  { change 0 with (u32 0) at 1. rewrite drop_len_sum. reflexivity. }
  rewrite Hf. clear Hf.
  destruct dp.
  - destruct (Hdp eq_refl) as [Hs Hr]. rewrite Hr. cbn [Z.eqb Pos.eqb].
    set (r1 := desb_reset c ring).
    assert (H1 : d_ref (desb_at r1 c) = 0 /\ vr_stats r1 = vr_stats ring /\
                 vr_log r1 = vr_log ring).
    { unfold r1, desb_reset. rewrite desb_at_set by assumption.
      repeat split. }
    destruct H1 as (Hr1 & Hs1 & Hl1). clearbody r1.
    destruct (viona_tx_done_spec r1 total c) as (Hd & Hst & l & Hl & Hp & Hm & Hw).
    eexists. split; [reflexivity|].
    split; [congruence|]. split.
    { intros _. rewrite (desb_at_ext r1 _ c Hd). exact Hr1. }
    split; [discriminate|].
    exists l. split; [|repeat split; assumption].
    unfold logged in *. rewrite Hl, Hl1. reflexivity.
  - destruct (viona_tx_done_spec ring total c) as (Hd & Hst & l & Hl & Hp & Hm & Hw).
    eexists. split; [reflexivity|].
    split; [assumption|]. split; [discriminate|].
    split; [intros _; apply desb_at_ext; exact Hd|].
    exists l. repeat split; assumption.
Qed.

(** The label [drop_fail] frees the blocks built so far without the
    reclamation descriptor running its completion, and then does as
    [drop_hook]. *)
Lemma tx_drop_fail_spec ring0 ring dp frame iov c :
  tx_refs ring0 ring dp c frame ->
  Z.of_nat (desb_blocks frame) + 3 < 2 ^ 32 ->
  exists r',
    tx_drop_fail ring dp frame iov c = TxDone r' /\
    vr_stats r' = vr_stats ring /\
    (dp = true -> d_ref (desb_at r' c) = 0) /\
    (dp = false -> d_ref (desb_at ring0 c) = 0 -> d_ref (desb_at r' c) = 0) /\
    exists l,
      logged ring r' l /\
      used_pushes l = [(c, u32 (zsum (map iov_len iov)))] /\
      mac_frames l = [] /\ forall w, stores_of w l = [].
Proof.
  intros Hrefs Hb. unfold tx_drop_fail. rewrite freemsgchain_release_n.
  destruct dp.
  - destruct Hrefs as [Hh Hc].
    destruct (desb_ref_add_held ring c _ 1 Hh) as [Hh1 Hs1].
    rewrite u32_small in Hh1 by lia.
    set (r1 := desb_ref_add c 1 ring) in *. clearbody r1.
    destruct (release_n_keep c (desb_blocks frame) r1 2) as [Hh2 Hs2];
      [replace (Z.of_nat (desb_blocks frame) + 2)
         with (1 + Z.of_nat (desb_blocks frame) + 1) by lia; exact Hh1|lia|lia|].
    set (r2 := release_n (desb_blocks frame) r1 c) in *. clearbody r2.
    destruct (tx_drop_hook_spec r2 true iov c (fun _ => Hh2))
      as (r' & E & Hst & Hd & _ & l & Hl & Hp & Hm & Hw).
    exists r'. split; [exact E|].
    destruct Hs1 as (L1 & S1 & _). destruct Hs2 as (L2 & S2 & _).
    split; [congruence|]. split; [exact Hd|]. split; [discriminate|].
    exists l. split; [|repeat split; assumption].
    unfold logged in *. rewrite Hl, L2, L1. reflexivity.
  - destruct Hrefs as [HB Hidle]. rewrite HB. cbn [release_n].
    destruct (tx_drop_hook_spec ring false iov c ltac:(discriminate))
      as (r' & E & Hst & _ & Hd & l & Hl & Hp & Hm & Hw).
    exists r'. split; [exact E|]. split; [exact Hst|].
    split; [discriminate|].
    split; [intros _ H0; rewrite (Hd eq_refl); apply Hidle; exact H0|].
    exists l. repeat split; assumption.
Qed.

(** [viona_tx_csum] pushes nothing and hands nothing to MAC; it gives its
    consent only to offsets within bounds, counts [fail_hcksum] for offsets
    out of bounds without storing anything, and a store at the offset the
    guest gave lies within the first block. *)
Lemma viona_tx_csum_spec K link ring m hdr hbuf mblkl len :
  let csum_start := vrh_csum_start m hdr in
  let csum_stuff := u32 (vrh_csum_offset m hdr + csum_start) in
  match viona_tx_csum K link ring m hdr hbuf mblkl len with
  | (r, hbuf', ok) =>
    vr_txdesb r = vr_txdesb ring /\
    vr_xfer_outstanding r = vr_xfer_outstanding ring /\
    (ok = true -> csum_out_of_bounds K csum_start csum_stuff len mblkl = false) /\
    (exists l,
       logged ring r l /\ used_pushes l = [] /\ mac_frames l = [] /\
       (forall off, In off (stores_of StCsumField l) ->
                    0 <= off /\ off + 2 <= mblkl) /\
       (ok = false -> stores_of StCsumField l = []) /\
       (csum_out_of_bounds K csum_start csum_stuff len mblkl = true ->
        l = [])) /\
    (csum_out_of_bounds K csum_start csum_stuff len mblkl = true ->
     ok = false /\
     vr_stats r rs_fail_hcksum = u64 (vr_stats ring rs_fail_hcksum + 1))
  end.
Proof.
  intros csum_start csum_stuff. unfold viona_tx_csum.
  fold csum_start. fold csum_stuff.
  destruct (csum_out_of_bounds K csum_start csum_stuff len mblkl) eqn:Eb.
  - splits; try reflexivity; try discriminate.
    + exists []. splits; try reflexivity.
      * unfold logged. cbn. rewrite app_nil_r. reflexivity.
      * intros off [].
    + intros _. split; [reflexivity|apply stat_incr_same].
  - assert (Hin : 0 <= csum_stuff /\ csum_stuff + 2 <= mblkl).
    { unfold csum_out_of_bounds in Eb.
      apply orb_false_iff in Eb. destruct Eb as [_ Eb].
      rewrite Z.gtb_ltb in Eb. apply Z.ltb_ge in Eb.
      split; [apply u32_range|lia]. }
    set (ftype0 := eth_type K hbuf).
    set (vlan := ftype0 =? ETHERTYPE_VLAN K).
    set (eth_len := if vlan then sizeof_ether_vlan_header K
                    else sizeof_ether_header K).
    set (ftype := if vlan then veth_type K hbuf else ftype0).
    set (ipproto := if ftype =? ETHERTYPE_IP K then ipha_protocol K hbuf eth_len
                    else if ftype =? ETHERTYPE_IPV6 K then ip6_nxt K hbuf eth_len
                    else IPPROTO_NONE K).
    set (partial := negb (Z.land (l_cap_csum link) (HCKSUM_INET_PARTIAL K) =? 0)).
    set (l4 := (ipproto =? IPPROTO_TCP K) || (ipproto =? IPPROTO_UDP K)).
    set (lso := partial && negb (Z.land (vrh_gso_type m hdr)
                                   VIRTIO_NET_HDR_GSO_TCPV4 =? 0) &&
                (ftype =? ETHERTYPE_IP K)).
    assert (Hlso : exists r1 hbuf1 l1,
               (if lso then
                  (emit (EvStore16 StIpHdrCksum (off_ipha_hdr_checksum K eth_len))
                     (emit (EvStore16 StPseudoCksum
                              (off_tcph_checksum K hbuf eth_len)) ring),
                   store16 (off_ipha_hdr_checksum K eth_len) 0
                     (store16 (off_tcph_checksum K hbuf eth_len)
                        (pseudo_cksum K hbuf eth_len) hbuf))
                else (ring, hbuf)) = (r1, hbuf1) /\
               vr_txdesb r1 = vr_txdesb ring /\
               vr_xfer_outstanding r1 = vr_xfer_outstanding ring /\
               logged ring r1 l1 /\ used_pushes l1 = [] /\ mac_frames l1 = [] /\
               stores_of StCsumField l1 = []).
    { destruct lso.
      - exists (emit (EvStore16 StIpHdrCksum (off_ipha_hdr_checksum K eth_len))
                  (emit (EvStore16 StPseudoCksum
                           (off_tcph_checksum K hbuf eth_len)) ring)),
               (store16 (off_ipha_hdr_checksum K eth_len) 0
                  (store16 (off_tcph_checksum K hbuf eth_len)
                     (pseudo_cksum K hbuf eth_len) hbuf)),
               [EvStore16 StPseudoCksum (off_tcph_checksum K hbuf eth_len);
                EvStore16 StIpHdrCksum (off_ipha_hdr_checksum K eth_len)].
        split; [reflexivity|].
        splits; try reflexivity.
        unfold logged. cbn. rewrite <- app_assoc. reflexivity.
      - exists ring, hbuf, []. split; [reflexivity|].
        splits; try reflexivity. unfold logged. rewrite app_nil_r. reflexivity. }
    destruct Hlso as (r1 & hbuf1 & l1 & E1 & Hd1 & Hx1 & Hl1 & Hp1 & Hm1 & Hs1).
    rewrite E1. clear E1.
    assert (Hfin : forall (r : viona_vring) (l2 : list event),
               vr_txdesb r = vr_txdesb r1 ->
               vr_xfer_outstanding r = vr_xfer_outstanding r1 ->
               logged r1 r l2 -> used_pushes l2 = [] -> mac_frames l2 = [] ->
               (forall off, In off (stores_of StCsumField l2) ->
                            off = csum_stuff) ->
               forall ok : bool,
               (ok = false -> stores_of StCsumField l2 = []) ->
               vr_txdesb r = vr_txdesb ring /\
               vr_xfer_outstanding r = vr_xfer_outstanding ring /\
               (ok = true -> false = false) /\
               (exists l,
                  logged ring r l /\ used_pushes l = [] /\ mac_frames l = [] /\
                  (forall off, In off (stores_of StCsumField l) ->
                               0 <= off /\ off + 2 <= mblkl) /\
                  (ok = false -> stores_of StCsumField l = []) /\
                  (false = true -> l = [])) /\
               (false = true ->
                ok = false /\
                vr_stats r rs_fail_hcksum = u64 (vr_stats ring rs_fail_hcksum + 1))).
    { intros r l2 Hd Hx Hl Hp Hm Hs ok Hno.
      splits; try congruence; try discriminate.
      exists (l1 ++ l2). splits.
      - eapply logged_trans; eassumption.
      - rewrite used_pushes_app, Hp1, Hp. reflexivity.
      - rewrite mac_frames_app, Hm1, Hm. reflexivity.
      - intros off Hin'. rewrite stores_of_app, Hs1 in Hin'. cbn [app] in Hin'.
        rewrite (Hs off Hin'). exact Hin.
      - intros E. rewrite stores_of_app, Hs1, (Hno E). reflexivity.
      - discriminate. }
    assert (Hq : forall s, logged r1 (VIONA_RING_STAT_INCR r1 s) []).
    { intros s. unfold logged. cbn. rewrite app_nil_r. reflexivity. }
    destruct (partial && l4).
    { eapply Hfin;
        [reflexivity|reflexivity|unfold logged; cbn; reflexivity
        |reflexivity|reflexivity|intros off []|intros; reflexivity]. }
    destruct (ftype =? ETHERTYPE_IP K).
    { destruct (negb (Z.land (l_cap_csum link) (HCKSUM_INET_FULL_V4 K) =? 0) && l4).
      - eapply Hfin;
          [reflexivity|reflexivity
          |unfold logged; cbn; rewrite <- app_assoc; reflexivity
          |reflexivity|reflexivity|intros off [H|[]]; symmetry; exact H
          |discriminate].
      - eapply (Hfin _ []);
          [reflexivity|reflexivity|apply Hq|reflexivity|reflexivity
          |intros off []|intros; reflexivity]. }
    destruct (ftype =? ETHERTYPE_IPV6 K).
    { destruct (negb (Z.land (l_cap_csum link) (HCKSUM_INET_FULL_V6 K) =? 0) && l4).
      - eapply Hfin;
          [reflexivity|reflexivity
          |unfold logged; cbn; rewrite <- app_assoc; reflexivity
          |reflexivity|reflexivity|intros off [H|[]]; symmetry; exact H
          |discriminate].
      - eapply (Hfin _ []);
          [reflexivity|reflexivity|apply Hq|reflexivity|reflexivity
          |intros off []|intros; reflexivity]. }
    eapply (Hfin _ []);
      [reflexivity|reflexivity|apply Hq|reflexivity|reflexivity|intros off []
      |intros; reflexivity].
Qed.

Lemma tx_refs_ext ring0 r r' dp c frame frame' :
  vr_txdesb r' = vr_txdesb r ->
  desb_blocks frame' = desb_blocks frame ->
  tx_refs ring0 r dp c frame -> tx_refs ring0 r' dp c frame'.
Proof.
  intros Hd Hb. unfold tx_refs, desb_held.
  rewrite (desb_at_ext r r' c Hd), Hd, Hb. tauto.
Qed.

(** From the checksum request on, [viona_tx] either hands the frame to
    MAC, publishing its completion at once unless the reclamation
    descriptor holds it back, or drops it and publishes the completion
    itself. *)
Lemma tx_send_spec K link ring0 ring m dp head tail len iov c :
  tx_refs ring0 ring dp c (tx_frame head tail) ->
  (dp = true -> (1 <= desb_blocks (tx_frame head tail))%nat) ->
  Z.of_nat (desb_blocks (tx_frame head tail)) + 3 < 2 ^ 32 ->
  let hdr := iov_base (hd iovec0 iov) in
  let cs := vrh_csum_start m hdr in
  let cf := u32 (vrh_csum_offset m hdr + cs) in
  let plen := u32 (len - iov_len (hd iovec0 iov)) in
  let oob := tx_needs_csum link m hdr &&
             csum_out_of_bounds K cs cf plen (hb_wptr head) in
  exists r' l,
    tx_send K link ring m dp head tail len iov c = TxDone r' /\
    logged ring r' l /\
    (forall off, In off (stores_of StCsumField l) ->
                 0 <= off /\ off + 2 <= hb_wptr head) /\
    ((mac_frames l = [] /\ stores_of StCsumField l = [] /\
      used_pushes l = [(c, u32 (zsum (map iov_len iov)))] /\
      (dp = true -> d_ref (desb_at r' c) = 0) /\
      (dp = false -> d_ref (desb_at ring0 c) = 0 -> d_ref (desb_at r' c) = 0) /\
      (oob = true ->
       vr_stats r' rs_fail_hcksum = u64 (vr_stats ring rs_fail_hcksum + 1)))
     \/
     (exists head',
        mac_frames l = [tx_frame head' tail] /\
        hb_desb head' = hb_desb head /\ hb_wptr head' = hb_wptr head /\
        oob = false /\
        if dp then
          used_pushes l = [] /\
          desb_held r' c (1 + Z.of_nat (desb_blocks (tx_frame head tail))) /\
          d_len (desb_at r' c) = len /\ d_cookie (desb_at r' c) = c
        else used_pushes l = [(c, len)])).
Proof.
  intros Hrefs Hone Hbound hdr cs cf plen oob. unfold tx_send.
  fold hdr. fold plen.
  assert (Hsend : forall (r1 : viona_vring) (hbuf : Z -> Z) (l1 : list event),
             vr_txdesb r1 = vr_txdesb ring ->
             logged ring r1 l1 -> used_pushes l1 = [] -> mac_frames l1 = [] ->
             (forall off, In off (stores_of StCsumField l1) ->
                          0 <= off /\ off + 2 <= hb_wptr head) ->
             oob = false ->
             let head' := {| hb_desb := hb_desb head; hb_buf := hbuf;
                             hb_wptr := hb_wptr head |} in
             let r2 := if dp then
                         set_xfer_outstanding (u32 (vr_xfer_outstanding r1 + 1))
                           (desb_set c (with_len len (desb_at r1 c)) r1)
                       else viona_tx_done r1 len c in
             exists r' l,
               TxDone (emit (EvMacTx (tx_frame head' tail)) r2) = TxDone r' /\
               logged ring r' l /\
               (forall off, In off (stores_of StCsumField l) ->
                            0 <= off /\ off + 2 <= hb_wptr head) /\
               ((mac_frames l = [] /\ stores_of StCsumField l = [] /\
                 used_pushes l = [(c, u32 (zsum (map iov_len iov)))] /\
                 (dp = true -> d_ref (desb_at r' c) = 0) /\
                 (dp = false -> d_ref (desb_at ring0 c) = 0 ->
                  d_ref (desb_at r' c) = 0) /\
                 (oob = true ->
                  vr_stats r' rs_fail_hcksum =
                  u64 (vr_stats ring rs_fail_hcksum + 1)))
                \/
                (exists head'',
                   mac_frames l = [tx_frame head'' tail] /\
                   hb_desb head'' = hb_desb head /\
                   hb_wptr head'' = hb_wptr head /\
                   oob = false /\
                   if dp then
                     used_pushes l = [] /\
                     desb_held r' c
                       (1 + Z.of_nat (desb_blocks (tx_frame head tail))) /\
                     d_len (desb_at r' c) = len /\ d_cookie (desb_at r' c) = c
                   else used_pushes l = [(c, len)]))).
  { intros r1 hbuf l1 Hd Hl Hp Hm Hst Hoob head' r2.
    assert (Hr1 : tx_refs ring0 r1 dp c (tx_frame head tail))
      by (eapply tx_refs_ext; [exact Hd|reflexivity|exact Hrefs]).
    destruct dp.
    - destruct Hr1 as [[Hs Hr] Hc].
      assert (H2 : vr_log r2 = vr_log r1 /\
                   desb_held r2 c (1 + Z.of_nat (desb_blocks (tx_frame head tail))) /\
                   d_len (desb_at r2 c) = len /\ d_cookie (desb_at r2 c) = c).
      { unfold r2. split; [reflexivity|].
        assert (Hat : desb_at (desb_set c (with_len len (desb_at r1 c)) r1) c =
                      with_len len (desb_at r1 c))
          by (apply desb_at_set; exact Hs).
        split; [split|split].
        - apply (desb_set_some r1 c _ Hs).
        - change (d_ref (desb_at (desb_set c (with_len len (desb_at r1 c)) r1) c) =
                  1 + Z.of_nat (desb_blocks (tx_frame head tail))).
          rewrite Hat. exact Hr.
        - change (d_len (desb_at (desb_set c (with_len len (desb_at r1 c)) r1) c) =
                  len).
          rewrite Hat. reflexivity.
        - change (d_cookie (desb_at (desb_set c (with_len len (desb_at r1 c)) r1) c) =
                  c).
          rewrite Hat. exact Hc. }
      destruct H2 as (L2 & Hh2 & Hl2 & Hc2). clearbody r2.
      eexists _, (l1 ++ [EvMacTx (tx_frame head' tail)]).
      split; [reflexivity|]. split.
      { unfold logged in *. cbn. rewrite L2, Hl, app_assoc. reflexivity. }
      split.
      { intros off Hin. rewrite stores_of_app in Hin. cbn in Hin.
        rewrite app_nil_r in Hin. apply Hst. exact Hin. }
      right. exists head'. rewrite mac_frames_app, used_pushes_app, Hm, Hp.
      splits; try reflexivity; try assumption.
    - destruct (viona_tx_done_spec r1 len c) as (Hd2 & Hs2 & l2 & Hl2 & Hp2 & Hm2 & Hw2).
      fold r2 in Hd2, Hs2, Hl2. clearbody r2.
      eexists _, ((l1 ++ l2) ++ [EvMacTx (tx_frame head' tail)]).
      split; [reflexivity|]. split.
      { unfold logged in *. cbn. rewrite Hl2, Hl, !app_assoc. reflexivity. }
      split.
      { intros off Hin. rewrite !stores_of_app, Hw2 in Hin. cbn in Hin.
        rewrite !app_nil_r in Hin. apply Hst. exact Hin. }
      right. exists head'.
      rewrite !mac_frames_app, !used_pushes_app, Hm, Hp, Hm2, Hp2.
      splits; try reflexivity; try assumption. }
  destruct (tx_needs_csum link m hdr) eqn:Eneeds.
  - pose proof (viona_tx_csum_spec K link ring m hdr (hb_buf head) (hb_wptr head) plen)
      as Hcs.
    cbv zeta in Hcs. fold cs in Hcs. fold cf in Hcs.
    destruct (viona_tx_csum K link ring m hdr (hb_buf head) (hb_wptr head) plen)
      as [[r1 hbuf] ok].
    destruct Hcs as (Hd & Hx & Hok & (l1 & Hl & Hp & Hm & Hst & Hno & Hnil) & Hbad).
    destruct ok.
    + apply Hsend with (l1 := l1); try assumption.
      unfold oob. rewrite (Hok eq_refl). reflexivity.
    + set (head' := {| hb_desb := hb_desb head; hb_buf := hbuf;
                       hb_wptr := hb_wptr head |}).
      assert (Hr1 : tx_refs ring0 r1 dp c (tx_frame head' tail)).
      { eapply tx_refs_ext; [exact Hd| |exact Hrefs].
        rewrite !desb_blocks_frame. reflexivity. }
      assert (Hb' : Z.of_nat (desb_blocks (tx_frame head' tail)) + 3 < 2 ^ 32).
      { rewrite desb_blocks_frame in *. exact Hbound. }
      destruct (tx_drop_fail_spec ring0 r1 dp (tx_frame head' tail) iov c Hr1 Hb')
        as (r' & E & Hs' & Hd1 & Hd0 & l2 & Hl2 & Hp2 & Hm2 & Hw2).
      exists r', (l1 ++ l2). split; [exact E|]. split.
      { eapply logged_trans; eassumption. }
      split.
      { intros off Hin. rewrite stores_of_app, Hw2, app_nil_r in Hin.
        apply Hst. exact Hin. }
      left. rewrite mac_frames_app, stores_of_app, used_pushes_app.
      rewrite Hm, Hm2, Hp, Hp2, Hw2, (Hno eq_refl).
      splits; try reflexivity; try assumption.
      intros Eo. unfold oob in Eo. cbn [andb] in Eo.
      destruct (Hbad Eo) as [_ Hstat]. rewrite Hs'. exact Hstat.
  - apply Hsend with (l1 := []); try reflexivity.
    + apply logged_refl.
    + intros off [].
Qed.

Lemma release_n_snoc c :
  forall n r, release_n (S n) r c = viona_desb_release (release_n n r c) c.
Proof.
  induction n as [|n IH]; intros r; [reflexivity|].
  change (release_n (S (S n)) r c) with (release_n (S n) (viona_desb_release r c) c).
  rewrite IH. reflexivity.
Qed.

(** Once MAC has the frame of a chain whose reclamation descriptor counts
    one reference per block from [desballoc] and one more, freeing all but
    one of those blocks publishes nothing, and freeing the last publishes
    the completion that [viona_tx] recorded and returns the descriptor to
    the unused state. *)
Lemma deferred_completion r c n :
  desb_held r c (1 + Z.of_nat (S n)) ->
  Z.of_nat (S n) + 3 < 2 ^ 32 ->
  (forall j, (j <= n)%nat -> vr_log (release_n j r c) = vr_log r) /\
  d_ref (desb_at (release_n (S n) r c) c) = 0 /\
  exists l,
    logged r (release_n (S n) r c) l /\
    used_pushes l = [(d_cookie (desb_at r c), d_len (desb_at r c))] /\
    mac_frames l = [].
Proof.
  intros Hh Hb. split.
  - intros j Hj.
    destruct (release_n_keep c j r (1 + Z.of_nat (S n) - Z.of_nat j)) as [_ Hs];
      [replace (Z.of_nat j + (1 + Z.of_nat (S n) - Z.of_nat j))
         with (1 + Z.of_nat (S n)) by lia; exact Hh|lia|lia|].
    destruct Hs as (L & _). exact L.
  - rewrite release_n_snoc.
    destruct (release_n_keep c n r 2) as [Hh2 Hs];
      [replace (Z.of_nat n + 2) with (1 + Z.of_nat (S n)) by lia; exact Hh
      |lia|lia|].
    destruct Hs as (L & _ & Dl & Dc).
    destruct (release_last _ c Hh2) as ([_ Hr] & _ & l & Hl & Hp & Hm).
    split; [exact Hr|].
    exists l. split; [|split; [|exact Hm]].
    + unfold logged in *. rewrite Hl, L. reflexivity.
    + rewrite Hp, Dl, Dc. reflexivity.
Qed.

Lemma vq_popchain_txdesb ring m niov ring1 res :
  vq_popchain ring m niov = (ring1, res) ->
  vr_txdesb ring1 = vr_txdesb ring /\ vr_log ring1 = vr_log ring.
Proof.
  intros E. pose proof (vq_popchain_frame ring m niov) as H.
  rewrite E in H. cbn [fst] in H. unfold same_but_aidx_stats in H. tauto.
Qed.

Lemma popped_chain_facts ring m ring1 iov cookie :
  0 < vr_size ring <= VRING_MAX_LEN ->
  vq_popchain ring m (vr_size ring) = (ring1, PopChain iov cookie) ->
  iov <> [] /\ Forall (fun v => 0 < iov_len v) iov /\
  Z.of_nat (length iov) + 3 < 2 ^ 32.
Proof.
  intros Hsz Hpop.
  destruct (vq_popchain_chain ring m (vr_size ring) ring1 iov cookie
              ltac:(lia) Hpop) as [Hl Hsegs].
  unfold zlen in Hl. unfold VRING_MAX_LEN in Hsz.
  split; [intros ->; cbn in Hl; lia|]. split; [|lia].
  eapply Forall_impl; [|exact Hsegs]. intros v. apply seg_translated_len.
Qed.

(** What [viona_tx] adds to the log for a chain it pops: one completion,
    at once or by the last release of the frame handed to MAC. *)
Lemma tx_completion_logged (K : sys_headers) (env : tx_env) (link : viona_link)
    (ring ring1 : viona_vring) (m : gmem) (iov : list iovec) (cookie : Z) :
  0 < vr_size ring <= VRING_MAX_LEN ->
  vq_popchain ring m (vr_size ring) = (ring1, PopChain iov cookie) ->
  let total := u32 (zsum (map iov_len iov)) in
  exists ring',
    viona_tx K env link ring m = TxDone ring' /\
    (zsum (map iov_len iov) < 2 ^ 32 -> total = zsum (map iov_len iov)) /\
    match mac_frames (log_since ring ring') with
    | [] =>
      used_pushes (log_since ring ring') = [(cookie, total)] /\
      (d_ref (desb_at ring cookie) = 0 -> d_ref (desb_at ring' cookie) = 0)
    | [frame] =>
      match desb_blocks frame with
      | O => used_pushes (log_since ring ring') = [(cookie, total)]
      | S n =>
        used_pushes (log_since ring ring') = [] /\
        (forall j, (j <= n)%nat ->
                   used_pushes (log_since ring (release_n j ring' cookie)) = []) /\
        used_pushes (log_since ring (mac_free ring' cookie frame)) =
          [(cookie, total)] /\
        d_ref (desb_at (mac_free ring' cookie frame) cookie) = 0
      end
    | _ => False
    end.
Proof.
  intros Hsz Hpop total.
  destruct (popped_chain_facts ring m ring1 iov cookie Hsz Hpop)
    as (Hne & Hpos & Hbound).
  destruct (vq_popchain_txdesb ring m _ ring1 _ Hpop) as [Hd1 Hl1].
  assert (Htot : zsum (map iov_len iov) < 2 ^ 32 -> total = zsum (map iov_len iov)).
  { intros Hlt. apply u32_small. split; [|exact Hlt].
    clear -Hpos. induction Hpos; cbn [map zsum fold_right]; [lia|].
    fold (zsum (map iov_len l)). lia. }
  unfold viona_tx. rewrite Hpop.
  pose proof (tx_prepare_spec env link ring1 m iov cookie Hne Hpos Hbound) as Hprep.
  destruct (tx_prepare env link ring1 m iov cookie)
    as [r dp head tail len|r dp frame|r dp].
  - destruct Hprep as (L & S & Hrefs & Hone & Hcnt & Hw & Elen).
    destruct (tx_send_spec K link ring1 r m dp head tail len iov cookie
                Hrefs Hone ltac:(lia))
      as (r' & l & E & Hl & _ & [Hdrop|Hsent]).
    + destruct Hdrop as (Hm & _ & Hp & Hdt & Hdf & _).
      exists r'. split; [exact E|]. split; [exact Htot|].
      assert (Hlog : log_since ring r' = l).
      { apply log_since_app. unfold logged in Hl. congruence. }
      rewrite Hlog, Hm. split; [exact Hp|].
      intros H0. destruct dp; [apply Hdt; reflexivity|].
      apply Hdf; [reflexivity|].
      rewrite (desb_at_ext ring ring1 cookie Hd1). exact H0.
    + destruct Hsent as (head' & Hm & Hfl & Hwp & _ & Hdp).
      exists r'. split; [exact E|]. split; [exact Htot|].
      assert (Hlog : logged ring r' l).
      { unfold logged in *. congruence. }
      rewrite (logged_since _ _ _ Hlog), Hm.
      assert (Hcount : desb_blocks (tx_frame head' tail) =
                       desb_blocks (tx_frame head tail)).
      { rewrite !desb_blocks_frame, Hfl. reflexivity. }
      rewrite Hcount.
      destruct dp.
      * destruct Hdp as (Hp & Hh & Hdl & Hdc).
        specialize (Hone eq_refl).
        destruct (desb_blocks (tx_frame head tail)) as [|n] eqn:EB; [lia|].
        destruct (deferred_completion r' cookie n Hh ltac:(lia))
          as (Hkeep & Hzero & l2 & Hl2 & Hp2 & Hm2).
        split; [exact Hp|]. split.
        { intros j Hj.
          rewrite (logged_since ring (release_n j r' cookie) l); [exact Hp|].
          unfold logged in *. rewrite (Hkeep j Hj). exact Hlog. }
        unfold mac_free. rewrite freemsgchain_release_n, Hcount.
        split; [|exact Hzero].
        rewrite (logged_since ring _ (l ++ l2)).
        -- rewrite used_pushes_app, Hp, Hp2, Hdl, Hdc, Elen. reflexivity.
        -- eapply logged_trans; eassumption.
      * destruct Hrefs as [HB _]. rewrite HB.
        rewrite Hdp, Elen. reflexivity.
  - destruct Hprep as (L & S & Hrefs & Hcnt).
    destruct (tx_drop_fail_spec ring1 r dp frame iov cookie Hrefs ltac:(lia))
      as (r' & E & _ & Hdt & Hdf & l & Hl & Hp & Hm & _).
    exists r'. split; [exact E|]. split; [exact Htot|].
    assert (Hlog : log_since ring r' = l).
    { apply log_since_app. unfold logged in Hl. congruence. }
    rewrite Hlog, Hm. split; [exact Hp|].
    intros H0. destruct dp; [apply Hdt; reflexivity|].
    apply Hdf; [reflexivity|].
    rewrite (desb_at_ext ring ring1 cookie Hd1). exact H0.
  - destruct Hprep as (L & S & Hdt & Hdf).
    destruct (tx_drop_hook_spec r dp iov cookie Hdt)
      as (r' & E & _ & Hz & Hsame & l & Hl & Hp & Hm & _).
    exists r'. split; [exact E|]. split; [exact Htot|].
    assert (Hlog : log_since ring r' = l).
    { apply log_since_app. unfold logged in Hl. congruence. }
    rewrite Hlog, Hm. split; [exact Hp|].
    intros H0. destruct dp; [apply Hz; reflexivity|].
    rewrite (Hsame eq_refl). apply Hdf; [reflexivity|].
    rewrite (desb_at_ext ring ring1 cookie Hd1). exact H0.
Qed.

(** ** Transmit: the used ring follows the log *)

Lemma used_tracks_quiet r r' :
  vr_mask r' = vr_mask r -> vr_log r' = vr_log r -> used_of r' = used_of r ->
  used_tracks r r'.
Proof.
  intros Hm Hl Hu. split; [exact Hm|]. exists [].
  split; [unfold logged; rewrite app_nil_r; exact Hl | exact Hu].
Qed.

Lemma used_tracks_refl r : used_tracks r r.
Proof. apply used_tracks_quiet; reflexivity. Qed.

Lemma used_tracks_trans r1 r2 r3 :
  used_tracks r1 r2 -> used_tracks r2 r3 -> used_tracks r1 r3.
Proof.
  intros (Hm1 & l1 & Hl1 & Hu1) (Hm2 & l2 & Hl2 & Hu2).
  split; [congruence|]. exists (l1 ++ l2).
  split; [eapply logged_trans; eassumption|].
  rewrite used_pushes_app, fold_left_app, <- Hu1, <- Hm1. exact Hu2.
Qed.

Lemma used_tracks_emit e r : used_pushes [e] = [] -> used_tracks r (emit e r).
Proof.
  intros He. split; [reflexivity|]. exists [e].
  split; [reflexivity|]. rewrite He. reflexivity.
Qed.

Lemma used_tracks_desb_set c d r : used_tracks r (desb_set c d r).
Proof. apply used_tracks_quiet; reflexivity. Qed.

Lemma used_tracks_stat r s : used_tracks r (VIONA_RING_STAT_INCR r s).
Proof. apply used_tracks_quiet; reflexivity. Qed.

Lemma used_tracks_xfer v r : used_tracks r (set_xfer_outstanding v r).
Proof. apply used_tracks_quiet; reflexivity. Qed.

Lemma used_tracks_pushchain r tlen cookie :
  used_tracks r (vq_pushchain r tlen cookie).
Proof.
  split; [reflexivity|].
  exists [EvUsedWrite (Z.land (load_used_idx r) (vr_mask r)) cookie tlen;
          EvMembarProducer; EvUsedIdx (u16 (vr_used_idx r + 1))].
  split; [apply vq_pushchain_log|].
  cbn [used_pushes fold_left]. unfold push_used, used_of. cbn [fst snd].
  destruct (vq_pushchain_fields r tlen cookie) as (_ & Hi & _).
  rewrite Hi. reflexivity.
Qed.

Lemma used_tracks_intr r : used_tracks r (viona_intr_ring r).
Proof.
  unfold viona_intr_ring.
  destruct (negb (vr_msi_addr r =? 0)); [apply used_tracks_emit; reflexivity|].
  destruct (vr_intr_enabled r =? 0); [|apply used_tracks_refl].
  eapply used_tracks_trans; [|apply used_tracks_emit; reflexivity].
  apply used_tracks_quiet; reflexivity.
Qed.

Lemma used_tracks_tx_done r tlen cookie :
  used_tracks r (viona_tx_done r tlen cookie).
Proof.
  unfold viona_tx_done.
  destruct (Z.land _ _ =? 0).
  - eapply used_tracks_trans; [apply used_tracks_pushchain | apply used_tracks_intr].
  - apply used_tracks_pushchain.
Qed.

Lemma used_tracks_release r c : used_tracks r (viona_desb_release r c).
Proof.
  unfold viona_desb_release.
  destruct (u32 (d_ref (desb_at r c) - 1) >? 1); [apply used_tracks_desb_set|].
  set (r1 := viona_tx_done _ _ _).
  assert (H1 : used_tracks r r1).
  { eapply used_tracks_trans; [|apply used_tracks_tx_done].
    apply used_tracks_desb_set. }
  assert (H2 : used_tracks r
                 (set_xfer_outstanding (u32 (vr_xfer_outstanding r1 - 1)) r1)).
  { eapply used_tracks_trans; [exact H1 | apply used_tracks_xfer]. }
  destruct (u32 (vr_xfer_outstanding r1 - 1) =? 0); [|exact H2].
  eapply used_tracks_trans; [exact H2 | apply used_tracks_emit; reflexivity].
Qed.

Lemma used_tracks_release_n c : forall n r, used_tracks r (release_n n r c).
Proof.
  induction n as [|n IH]; intros r; cbn [release_n]; [apply used_tracks_refl|].
  eapply used_tracks_trans; [apply used_tracks_release | apply IH].
Qed.

Lemma used_tracks_freemsgchain c frame r :
  used_tracks r (freemsgchain r c frame).
Proof. rewrite freemsgchain_release_n. apply used_tracks_release_n. Qed.

Lemma used_tracks_drop_hook r dp iov c :
  used_tracks r (tx_ring (tx_drop_hook r dp iov c)).
Proof.
  unfold tx_drop_hook. destruct dp.
  - destruct (d_ref (desb_at r c) =? 2); cbn [tx_ring]; [|apply used_tracks_refl].
    eapply used_tracks_trans; [|apply used_tracks_tx_done].
    apply used_tracks_desb_set.
  - cbn [tx_ring]. apply used_tracks_tx_done.
Qed.

Lemma used_tracks_drop_fail r dp frame iov c :
  used_tracks r (tx_ring (tx_drop_fail r dp frame iov c)).
Proof.
  unfold tx_drop_fail.
  eapply used_tracks_trans; [|apply used_tracks_drop_hook].
  eapply used_tracks_trans; [|apply used_tracks_freemsgchain].
  destruct dp; [apply used_tracks_desb_set | apply used_tracks_refl].
Qed.

Lemma used_tracks_csum K link r m hdr hbuf mblkl len :
  used_tracks r (fst (fst (viona_tx_csum K link r m hdr hbuf mblkl len))).
Proof.
  pose proof (viona_tx_csum_spec K link r m hdr hbuf mblkl len) as H.
  cbv zeta in H.
  assert (Hq : vr_mask (fst (fst (viona_tx_csum K link r m hdr hbuf mblkl len))) =
               vr_mask r /\
               used_of (fst (fst (viona_tx_csum K link r m hdr hbuf mblkl len))) =
               used_of r).
  { unfold viona_tx_csum.
    destruct (csum_out_of_bounds _ _ _ _ _); [split; reflexivity|].
    cbv zeta.
    match goal with
    | |- context [let '(_, _) := (if ?c then _ else _) in _] => destruct c
    end;
    repeat match goal with
    | |- context [if ?c then _ else _] => destruct c
    end; cbn [fst]; split; reflexivity. }
  destruct (viona_tx_csum K link r m hdr hbuf mblkl len) as [[r1 hbuf1] ok].
  cbn [fst] in *. destruct Hq as [Hm Hu].
  destruct H as (_ & _ & _ & (l & Hl & Hp & _) & _).
  split; [exact Hm|]. exists l. split; [exact Hl|]. rewrite Hp. exact Hu.
Qed.

Lemma used_tracks_send K link r m dp head tail len iov c :
  used_tracks r (tx_ring (tx_send K link r m dp head tail len iov c)).
Proof.
  unfold tx_send. cbv zeta.
  destruct (tx_needs_csum link m (iov_base (hd iovec0 iov))).
  - pose proof (used_tracks_csum K link r m (iov_base (hd iovec0 iov))
                  (hb_buf head) (hb_wptr head)
                  (u32 (len - iov_len (hd iovec0 iov)))) as Hc.
    destruct (viona_tx_csum _ _ _ _ _ _ _ _) as [[r1 hbuf] ok]. cbn [fst] in Hc.
    destruct ok.
    + cbn [tx_ring]. eapply used_tracks_trans; [exact Hc|].
      eapply used_tracks_trans; [|apply used_tracks_emit; reflexivity].
      destruct dp; [|apply used_tracks_tx_done].
      eapply used_tracks_trans; [apply used_tracks_desb_set | apply used_tracks_xfer].
    + eapply used_tracks_trans; [exact Hc | apply used_tracks_drop_fail].
  - cbn [tx_ring]. eapply used_tracks_trans; [|apply used_tracks_emit; reflexivity].
    destruct dp; [|apply used_tracks_tx_done].
    eapply used_tracks_trans; [apply used_tracks_desb_set | apply used_tracks_xfer].
Qed.

Lemma used_tracks_build env dp m c :
  forall iov base_off k r tail len,
    match tx_build_tail env dp m c iov base_off k r tail len with
    | BuildOk r' _ _ => used_tracks r r'
    | BuildFail r' _ => used_tracks r r'
    end.
Proof.
  induction iov as [|v rest IH]; intros base_off k r tail len;
    cbn [tx_build_tail]; [apply used_tracks_refl|].
  destruct (tx_alloc env k); [|apply used_tracks_refl].
  match goal with
  | |- match tx_build_tail _ _ _ _ _ ?b ?k' ?r' ?t ?l with _ => _ end =>
    specialize (IH b k' r' t l);
    destruct (tx_build_tail env dp m c rest b k' r' t l);
    (eapply used_tracks_trans; [|exact IH]);
    destruct dp; first [apply used_tracks_desb_set | apply used_tracks_refl]
  end.
Qed.

Lemma used_tracks_hook env link r dp c head tail :
  match tx_hook env link r dp c head tail with
  | HookOk r' _ _ _ => used_tracks r r'
  | HookDrop r' => used_tracks r r'
  end.
Proof.
  unfold tx_hook. destruct (l_hook_out link); [|apply used_tracks_refl].
  cbv zeta.
  set (r1 := if dp then desb_ref_add c 1 r else r).
  assert (H1 : used_tracks r r1).
  { subst r1. destruct dp; [apply used_tracks_desb_set | apply used_tracks_refl]. }
  destruct (tx_hook_run env (tx_frame head tail)) as [released rewritten | freed].
  - set (r2 := release_n _ r1 c).
    assert (H2 : used_tracks r r2).
    { eapply used_tracks_trans; [exact H1 | apply used_tracks_release_n]. }
    destruct dp; [|exact H2].
    assert (H3 : used_tracks r (desb_ref_add c (-1) r2)).
    { eapply used_tracks_trans; [exact H2 | apply used_tracks_desb_set]. }
    destruct (d_ref (desb_at (desb_ref_add c (-1) r2) c) =? 1); [|exact H3].
    eapply used_tracks_trans; [exact H3 | apply used_tracks_desb_set].
  - eapply used_tracks_trans; [exact H1|].
    eapply used_tracks_trans; [apply used_tracks_stat | apply used_tracks_freemsgchain].
Qed.

Lemma used_tracks_claim env r c :
  match tx_claim env r c with
  | ClaimBusy => True
  | ClaimNoMem r' _ => used_tracks r r'
  | Claimed r' _ _ => used_tracks r r'
  end.
Proof.
  unfold tx_claim. destruct (vr_txdesb r) eqn:E.
  - destruct (negb (d_ref (desb_at r c) =? 0)); [exact I|].
    cbv zeta. destruct (tx_alloc env 0).
    + eapply used_tracks_trans; apply used_tracks_desb_set.
    + apply used_tracks_desb_set.
  - destruct (tx_alloc env 0); apply used_tracks_refl.
Qed.

Lemma used_tracks_prepare env link r m iov c :
  match tx_prepare env link r m iov c with
  | Prepared r' _ _ _ _ => used_tracks r r'
  | PrepDropFail r' _ _ => used_tracks r r'
  | PrepDropHook r' _ => used_tracks r r'
  end.
Proof.
  unfold tx_prepare. cbv zeta.
  destruct (u32 (iov_len (hd iovec0 iov)) <? sizeof_virtio_net_hdr);
    [apply used_tracks_refl|].
  pose proof (used_tracks_claim env r c) as Hc.
  destruct (tx_claim env r c) as [|r1 dp|r1 dp head];
    [apply used_tracks_refl | exact Hc |].
  destruct (tx_copy_hdrs m (tl iov) VIONA_MAX_HDRS_LEN head _)
    as [[[head1 len1] rest] base_off].
  pose proof (used_tracks_build env dp m c rest base_off 1 r1 [] len1) as Hb.
  destruct (tx_build_tail env dp m c rest base_off 1 r1 [] len1)
    as [r2 tail len2 | r2 tail].
  - pose proof (used_tracks_hook env link r2 dp c head1 tail) as Hh.
    destruct (tx_hook env link r2 dp c head1 tail) as [r3 dp3 h3 t3 | r3];
      (eapply used_tracks_trans; [exact Hc|]);
      (eapply used_tracks_trans; [exact Hb | exact Hh]).
  - eapply used_tracks_trans; [exact Hc | exact Hb].
Qed.

(** Through a whole call of [viona_tx] the used ring follows the log. *)
Lemma viona_tx_tracks K env link ring m :
  used_tracks ring (tx_ring (viona_tx K env link ring m)).
Proof.
  unfold viona_tx.
  pose proof (vq_popchain_frame ring m (vr_size ring)) as Hf.
  destruct (vq_popchain ring m (vr_size ring)) as [r1 res]. cbn [fst] in Hf.
  assert (H1 : used_tracks ring r1).
  { unfold same_but_aidx_stats in Hf.
    apply used_tracks_quiet; [tauto|tauto|].
    unfold used_of. f_equal; tauto. }
  destruct res as [|iov cookie|]; cbn [tx_ring].
  - eapply used_tracks_trans; [exact H1 | apply used_tracks_stat].
  - eapply used_tracks_trans; [exact H1|].
    pose proof (used_tracks_prepare env link r1 m iov cookie) as Hp.
    destruct (tx_prepare env link r1 m iov cookie)
      as [r' dp head tail len|r' dp frame|r' dp];
      (eapply used_tracks_trans; [exact Hp|]).
    + apply used_tracks_send.
    + apply used_tracks_drop_fail.
    + apply used_tracks_drop_hook.
  - exact H1.
Qed.

(** A ring that followed a log with one completion holds it; one that
    followed a log without holds the used ring it had. *)
Lemma tracks_completed r r' c n :
  used_tracks r r' -> used_pushes (log_since r r') = [(c, n)] ->
  completed r r' c n.
Proof.
  intros (Hm & l & Hl & Hu) Hp. rewrite (logged_since _ _ _ Hl) in Hp.
  rewrite Hp in Hu. cbn [fold_left] in Hu. unfold push_used, used_of in Hu.
  cbn [fst snd] in Hu. injection Hu as Hi Hr.
  unfold completed. cbv zeta. rewrite Hr, Hi. unfold load_used_idx. splits.
  - rewrite Z.eqb_refl. reflexivity.
  - intros s Hs. apply Z.eqb_neq in Hs. rewrite Hs. reflexivity.
  - reflexivity.
Qed.

Lemma tracks_untouched r r' :
  used_tracks r r' -> used_pushes (log_since r r') = [] ->
  used_untouched r r'.
Proof.
  intros (Hm & l & Hl & Hu) Hp. rewrite (logged_since _ _ _ Hl) in Hp.
  rewrite Hp in Hu. cbn [fold_left] in Hu. unfold used_of in Hu.
  injection Hu as Hi Hr. split; assumption.
Qed.

(** C3.  For every chain that [viona_tx] pops, exactly one completion is
    published, for the chain's cookie, whichever way the frame goes: at
    once when the frame is dropped (header too short, slot in use,
    allocation failure, checksum failure, hook rejection) or was copied, and
    by the last [viona_desb_release], not by an earlier one, when blocks of
    the frame handed to MAC came from [desballoc].  Published means stored:
    the used-ring slot that the used index selected holds the cookie and
    the length, no other slot changed and the used index moved on by one;
    until the last release the used ring and its index are as they were.  A
    dropped chain leaves a reclamation descriptor that was unused before the
    call unused ([d_ref] 0), and the length published is the sum of the
    lengths of the chain's segments in the 32 bits of the length field,
    that is the sum itself when it is below 2^32. *)
Theorem tx_one_completion (K : sys_headers) (env : tx_env) (link : viona_link)
    (ring ring1 : viona_vring) (m : gmem) (iov : list iovec) (cookie : Z) :
  0 < vr_size ring <= VRING_MAX_LEN ->
  vq_popchain ring m (vr_size ring) = (ring1, PopChain iov cookie) ->
  let total := u32 (zsum (map iov_len iov)) in
  exists ring',
    viona_tx K env link ring m = TxDone ring' /\
    (zsum (map iov_len iov) < 2 ^ 32 -> total = zsum (map iov_len iov)) /\
    match mac_frames (log_since ring ring') with
    | [] =>
      used_pushes (log_since ring ring') = [(cookie, total)] /\
      completed ring ring' cookie total /\
      (d_ref (desb_at ring cookie) = 0 -> d_ref (desb_at ring' cookie) = 0)
    | [frame] =>
      match desb_blocks frame with
      | O =>
        used_pushes (log_since ring ring') = [(cookie, total)] /\
        completed ring ring' cookie total
      | S n =>
        used_pushes (log_since ring ring') = [] /\
        used_untouched ring ring' /\
        (forall j, (j <= n)%nat ->
           used_pushes (log_since ring (release_n j ring' cookie)) = [] /\
           used_untouched ring (release_n j ring' cookie)) /\
        used_pushes (log_since ring (mac_free ring' cookie frame)) =
          [(cookie, total)] /\
        completed ring (mac_free ring' cookie frame) cookie total /\
        d_ref (desb_at (mac_free ring' cookie frame) cookie) = 0
      end
    | _ => False
    end.
Proof.
  intros Hsz Hpop total.
  destruct (tx_completion_logged K env link ring ring1 m iov cookie Hsz Hpop)
    as (ring' & E & Htot & Hcases).
  fold total in Htot, Hcases.
  exists ring'. split; [exact E|]. split; [exact Htot|].
  assert (Ht : used_tracks ring ring').
  { pose proof (viona_tx_tracks K env link ring m) as H.
    rewrite E in H. exact H. }
  destruct (mac_frames (log_since ring ring')) as [|frame [|f2 rest]];
    [| |exact Hcases].
  - destruct Hcases as [Hp Hd].
    split; [exact Hp|]. split; [|exact Hd].
    apply tracks_completed; assumption.
  - destruct (desb_blocks frame) as [|n].
    + split; [exact Hcases|]. apply tracks_completed; assumption.
    + destruct Hcases as (Hp & Hkeep & Hlast & Hzero).
      split; [exact Hp|].
      split; [apply tracks_untouched; assumption|].
      split.
      { intros j Hj. split; [exact (Hkeep j Hj)|].
        apply tracks_untouched; [|exact (Hkeep j Hj)].
        eapply used_tracks_trans; [exact Ht | apply used_tracks_release_n]. }
      split; [exact Hlast|]. split; [|exact Hzero].
      apply tracks_completed; [|exact Hlast].
      eapply used_tracks_trans; [exact Ht|].
      unfold mac_free. apply used_tracks_freemsgchain.
Qed.

Lemma tx_one_completion_witness :
  let ring1 := fst (vq_popchain two_desc_ring zero_mem (vr_size two_desc_ring)) in
  let iov := [{| iov_base := 4096; iov_len := 64 |};
              {| iov_base := 4352; iov_len := 64 |}] in
  0 < vr_size two_desc_ring <= VRING_MAX_LEN /\
  vq_popchain two_desc_ring zero_mem (vr_size two_desc_ring) =
    (ring1, PopChain iov 0) /\
  exists ring',
    viona_tx illumos_headers tx_quiet_env (tx_link 0 0) two_desc_ring zero_mem =
      TxDone ring' /\
    u32 (zsum (map iov_len iov)) = 128 /\
    vr_used_ring ring' 0 = {| vu_idx := 0; vu_tlen := 128 |} /\
    vr_used_idx ring' = 1.
Proof.
  cbn zeta.
  assert (Hsz : 0 < vr_size two_desc_ring <= VRING_MAX_LEN)
    by (vm_compute; split; [reflexivity|discriminate]).
  assert (Hpop : vq_popchain two_desc_ring zero_mem (vr_size two_desc_ring) =
                 (fst (vq_popchain two_desc_ring zero_mem (vr_size two_desc_ring)),
                  PopChain [{| iov_base := 4096; iov_len := 64 |};
                            {| iov_base := 4352; iov_len := 64 |}] 0))
    by (apply pop_result_eq; vm_compute; reflexivity).
  split; [exact Hsz|]. split; [exact Hpop|].
  destruct (tx_one_completion illumos_headers tx_quiet_env (tx_link 0 0)
              two_desc_ring _ zero_mem _ 0 Hsz Hpop) as (ring' & E & _ & Hc).
  exists ring'. split; [exact E|]. split; [reflexivity|].
  assert (Hr : tx_ring (viona_tx illumos_headers tx_quiet_env (tx_link 0 0)
                          two_desc_ring zero_mem) = ring')
    by (rewrite E; reflexivity).
  rewrite <- Hr. split; vm_compute; reflexivity.
Defined.

(** The claim as first worded fails when the lengths of the segments add
    up to 2^32 or more: the chain of a 10-byte header and twice 2 GiB,
    dropped for want of memory, is published with length 10, not with the
    sum 4294967306. *)
Lemma tx_completion_length_counterexample :
  let iov := [{| iov_base := 20480; iov_len := 10 |};
              {| iov_base := 4096; iov_len := 2147483648 |};
              {| iov_base := 4096; iov_len := 2147483648 |}] in
  let ring' := tx_ring (viona_tx illumos_headers tx_nomem_env (tx_link 0 0)
                          huge_chain_ring zero_mem) in
  snd (vq_popchain huge_chain_ring zero_mem (vr_size huge_chain_ring)) =
    PopChain iov 0 /\
  zsum (map iov_len iov) = 4294967306 /\
  mac_frames (vr_log ring') = [] /\
  used_pushes (vr_log ring') = [(0, 10)].
Proof.
  cbn zeta. splits; vm_compute; reflexivity.
Qed.

(** ** Transmit: checksum bounds *)

Lemma vq_popchain_chain_stats ring m niov ring1 iov cookie s :
  vq_popchain ring m niov = (ring1, PopChain iov cookie) ->
  s <> rs_ndesc_too_high ->
  vr_stats ring1 s = vr_stats ring s.
Proof.
  unfold vq_popchain. intros E Hs.
  destruct (u16 (u32 (load_avail_idx ring - vr_cur_aidx ring)) =? 0);
    [discriminate|].
  set (r1 := if _ >? vr_size ring then _ else ring) in E.
  assert (H1 : vr_stats r1 s = vr_stats ring s).
  { subst r1. destruct (_ >? _); [|reflexivity].
    apply stat_incr_other. congruence. }
  destruct (popchain_walk _ _ _ _ _ _); try discriminate.
  injection E as <- _ _. cbn. exact H1.
Qed.

Lemma head_block_MBLKL head :
  0 <= hb_wptr head -> MBLKL (head_block head) = hb_wptr head.
Proof.
  intros H. unfold MBLKL, head_block, gread, zlen. cbn [blk_data].
  rewrite length_map, length_seq. lia.
Qed.

Lemma payload_len v iov :
  u32 (u32 (zsum (map iov_len (v :: iov))) - iov_len v) =
  u32 (zsum (map iov_len iov)).
Proof.
  cbn [map zsum fold_right]. fold (zsum (map iov_len iov)).
  unfold u32. rewrite Zminus_mod_idemp_l. f_equal. lia.
Qed.

Lemma csum_in_bounds K cs cf len mblkl :
  csum_out_of_bounds K cs cf len mblkl = false ->
  sizeof_ether_header K <= cs < len /\ cf + 2 <= mblkl.
Proof.
  unfold csum_out_of_bounds. intros H.
  apply orb_false_iff in H. destruct H as [H H4].
  apply orb_false_iff in H. destruct H as [H H3].
  apply orb_false_iff in H. destruct H as [H1 H2].
  rewrite Z.geb_leb in H1. apply Z.leb_gt in H1.
  apply Z.ltb_ge in H2.
  rewrite Z.gtb_ltb in H4. apply Z.ltb_ge in H4. lia.
Qed.

(** C7.  For every chain that [viona_tx] pops while
    [VIRTIO_NET_F_CSUM] is negotiated and the header has NEEDS_CSUM set:
    a frame is handed to MAC only if [csum_start] lies in
    [[eth_len, len)], [eth_len] being the size of the untagged Ethernet
    header and [len] the length of the packet after the virtio-net header,
    and [csum_stuff + 2] does not exceed the length of the first block;
    when the frame reaches the checksum request with a bound violated,
    [fail_hcksum] is incremented, nothing is handed to MAC and the
    completion is still published; and a 16-bit store at the offset
    [csum_stuff] that the guest gave is only made within the first block
    of the frame that MAC is handed. *)
Theorem tx_csum_bounds (K : sys_headers) (env : tx_env) (link : viona_link)
    (ring ring1 : viona_vring) (m : gmem) (iov : list iovec) (cookie : Z) :
  0 < vr_size ring <= VRING_MAX_LEN ->
  vq_popchain ring m (vr_size ring) = (ring1, PopChain iov cookie) ->
  tx_needs_csum link m (iov_base (hd iovec0 iov)) = true ->
  let hdr := iov_base (hd iovec0 iov) in
  let csum_start := vrh_csum_start m hdr in
  let csum_stuff := u32 (vrh_csum_offset m hdr + csum_start) in
  let len := u32 (zsum (map iov_len (tl iov))) in
  exists ring',
    viona_tx K env link ring m = TxDone ring' /\
    (forall frame,
       In frame (mac_frames (log_since ring ring')) ->
       sizeof_ether_header K <= csum_start < len /\
       csum_stuff + 2 <= first_MBLKL frame) /\
    (forall r dp head tail len0,
       tx_prepare env link ring1 m iov cookie = Prepared r dp head tail len0 ->
       csum_out_of_bounds K csum_start csum_stuff len (hb_wptr head) = true ->
       vr_stats ring' rs_fail_hcksum = u64 (vr_stats ring rs_fail_hcksum + 1) /\
       mac_frames (log_since ring ring') = [] /\
       used_pushes (log_since ring ring') =
         [(cookie, u32 (zsum (map iov_len iov)))]) /\
    (forall off,
       In off (stores_of StCsumField (log_since ring ring')) ->
       exists frame,
         mac_frames (log_since ring ring') = [frame] /\
         0 <= off /\ off + 2 <= first_MBLKL frame).
Proof.
  intros Hsz Hpop Hneeds hdr csum_start csum_stuff len.
  destruct (popped_chain_facts ring m ring1 iov cookie Hsz Hpop)
    as (Hne & Hpos & Hbound).
  destruct (vq_popchain_txdesb ring m _ ring1 _ Hpop) as [Hd1 Hl1].
  unfold viona_tx. rewrite Hpop.
  pose proof (tx_prepare_spec env link ring1 m iov cookie Hne Hpos Hbound) as Hprep.
  destruct (tx_prepare env link ring1 m iov cookie)
    as [r dp head tail len0|r dp frame|r dp].
  - destruct Hprep as (L & S & Hrefs & Hone & Hcnt & Hw & Elen).
    pose proof (tx_send_spec K link ring1 r m dp head tail len0 iov cookie
                  Hrefs Hone ltac:(lia)) as Hsend.
    cbv zeta in Hsend.
    destruct Hsend as (r' & l & E & Hl & Hst & Hcases).
    assert (Hlog : log_since ring r' = l).
    { apply log_since_app. unfold logged in Hl. congruence. }
    assert (Eplen : u32 (len0 - iov_len (hd iovec0 iov)) = len).
    { rewrite Elen. destruct iov as [|v0 iov']; [contradiction|].
      cbn [hd tl]. apply payload_len. }
    rewrite Eplen, Hneeds in Hcases.
    cbn [andb] in Hcases. fold hdr in Hcases.
    fold csum_start in Hcases. fold csum_stuff in Hcases.
    exists r'. split; [exact E|]. rewrite Hlog.
    destruct Hcases as [Hdrop|Hsent].
    + destruct Hdrop as (Hm & Hno & Hp & _ & _ & Hstat).
      rewrite Hm, Hno. splits.
      * intros frame [].
      * intros r0 dp0 head0 tail0 len1 E0 Hoob. injection E0 as <- <- <- <- <-.
        rewrite (Hstat Hoob), S.
        rewrite (vq_popchain_chain_stats _ _ _ _ _ _ rs_fail_hcksum Hpop)
          by discriminate.
        splits; [reflexivity|reflexivity|exact Hp].
      * intros off [].
    + destruct Hsent as (head' & Hm & Hfl & Hwp & Hoob & _).
      destruct (csum_in_bounds K _ _ _ _ Hoob) as [Hb1 Hb2].
      assert (HM : first_MBLKL (tx_frame head' tail) = hb_wptr head).
      { cbn [first_MBLKL tx_frame]. rewrite head_block_MBLKL; lia. }
      rewrite Hm. splits.
      * intros frame [<-|[]]. rewrite HM. split; assumption.
      * intros r0 dp0 head0 tail0 len1 E0 Hoob'. injection E0 as <- <- <- <- <-.
        congruence.
      * intros off Hin. exists (tx_frame head' tail).
        split; [reflexivity|]. rewrite HM. apply Hst. exact Hin.
  - destruct Hprep as (L & S & Hrefs & Hcnt).
    destruct (tx_drop_fail_spec ring1 r dp frame iov cookie Hrefs ltac:(lia))
      as (r' & E & _ & _ & _ & l & Hl & Hp & Hm & Hw).
    exists r'. split; [exact E|].
    assert (Hlog : log_since ring r' = l).
    { apply log_since_app. unfold logged in Hl. congruence. }
    rewrite Hlog, Hm, Hw. splits.
    + intros f [].
    + intros; discriminate.
    + intros off [].
  - destruct Hprep as (L & S & Hdt & Hdf).
    destruct (tx_drop_hook_spec r dp iov cookie Hdt)
      as (r' & E & _ & _ & _ & l & Hl & Hp & Hm & Hw).
    exists r'. split; [exact E|].
    assert (Hlog : log_since ring r' = l).
    { apply log_since_app. unfold logged in Hl. congruence. }
    rewrite Hlog, Hm, Hw. splits.
    + intros f [].
    + intros; discriminate.
    + intros off [].
Qed.

Lemma tx_csum_bounds_witness :
  let ring := hdr_payload_ring 36 in
  let m := tx_mem lso_hdr short_tcp_frame in
  let link := tx_link VIRTIO_NET_F_CSUM 1 in
  let ring1 := fst (vq_popchain ring m (vr_size ring)) in
  let iov := [{| iov_base := 20480; iov_len := 10 |};
              {| iov_base := 24576; iov_len := 36 |}] in
  0 < vr_size ring <= VRING_MAX_LEN /\
  vq_popchain ring m (vr_size ring) = (ring1, PopChain iov 0) /\
  tx_needs_csum link m (iov_base (hd iovec0 iov)) = true /\
  exists ring',
    viona_tx illumos_headers tx_quiet_env link ring m = TxDone ring'.
Proof.
  cbn zeta.
  assert (Hsz : 0 < vr_size (hdr_payload_ring 36) <= VRING_MAX_LEN)
    by (vm_compute; split; [reflexivity|discriminate]).
  assert (Hpop : vq_popchain (hdr_payload_ring 36) (tx_mem lso_hdr short_tcp_frame)
                   (vr_size (hdr_payload_ring 36)) =
                 (fst (vq_popchain (hdr_payload_ring 36)
                         (tx_mem lso_hdr short_tcp_frame)
                         (vr_size (hdr_payload_ring 36))),
                  PopChain [{| iov_base := 20480; iov_len := 10 |};
                            {| iov_base := 24576; iov_len := 36 |}] 0))
    by (apply pop_result_eq; vm_compute; reflexivity).
  assert (Hneeds : tx_needs_csum (tx_link VIRTIO_NET_F_CSUM 1)
                     (tx_mem lso_hdr short_tcp_frame)
                     (iov_base (hd iovec0
                                  [{| iov_base := 20480; iov_len := 10 |};
                                   {| iov_base := 24576; iov_len := 36 |}])) = true)
    by (vm_compute; reflexivity).
  split; [exact Hsz|]. split; [exact Hpop|]. split; [exact Hneeds|].
  destruct (tx_csum_bounds illumos_headers tx_quiet_env
              (tx_link VIRTIO_NET_F_CSUM 1) (hdr_payload_ring 36) _
              (tx_mem lso_hdr short_tcp_frame) _ 0 Hsz Hpop Hneeds)
    as (ring' & E & _).
  exists ring'. exact E.
Defined.

(** The claim as first worded fails for the stores of the segmentation
    case: for a TCP frame of 36 bytes whose IP header claims 60 bytes, the
    offsets the guest gave are within bounds and the frame goes to MAC,
    its first block 36 bytes long, after the pseudo-header checksum was
    stored at offset 90 of that block's buffer. *)
Lemma tx_csum_lso_store_counterexample :
  let ring := hdr_payload_ring 36 in
  let m := tx_mem lso_hdr short_tcp_frame in
  let link := tx_link VIRTIO_NET_F_CSUM 1 in
  let log := vr_log (tx_ring (viona_tx illumos_headers tx_quiet_env link ring m)) in
  snd (vq_popchain ring m (vr_size ring)) =
    PopChain [{| iov_base := 20480; iov_len := 10 |};
              {| iov_base := 24576; iov_len := 36 |}] 0 /\
  tx_needs_csum link m 20480 = true /\
  map first_MBLKL (mac_frames log) = [36] /\
  stores_of StPseudoCksum log = [90] /\
  36 < 90 + 2.
Proof.
  cbn zeta. splits; vm_compute; reflexivity.
Qed.

(** * Further properties of the driver *)

(** ** The parser and the available ring *)

Lemma popchain_walk_head fuel ring m niov next iov :
  popchain_walk fuel ring m niov next [] = WalkDone iov ->
  next < vr_size ring.
Proof.
  destruct fuel as [|fuel]; [discriminate|].
  cbn [popchain_walk]. destruct (_ <? niov); [|discriminate].
  destruct (next >=? vr_size ring) eqn:E; [discriminate|].
  intros _. rewrite Z.geb_leb in E. apply Z.leb_gt in E. exact E.
Qed.

(** X1.  The cookie that [vq_popchain] hands out with a chain is the head
    index the guest placed in the available ring, and it is below the ring
    size: it is a valid index into the descriptor table and into the
    ring-sized arrays that the transmit path indexes with it. *)
Theorem vq_popchain_cookie_in_ring (ring ring1 : viona_vring) (m : gmem)
    (niov : Z) (iov : list iovec) (cookie : Z) :
  vq_popchain ring m niov = (ring1, PopChain iov cookie) ->
  cookie = load_avail_ring ring (Z.land (vr_cur_aidx ring) (vr_mask ring)) /\
  0 <= cookie < vr_size ring.
Proof.
  unfold vq_popchain.
  destruct (u16 (u32 (load_avail_idx ring - vr_cur_aidx ring)) =? 0);
    [discriminate|].
  set (r1 := if _ >? vr_size ring then _ else ring).
  assert (Hsame : vr_size r1 = vr_size ring /\ vr_mask r1 = vr_mask ring /\
                  vr_avail_ring r1 = vr_avail_ring ring).
  { subst r1. destruct (_ >? _); repeat split. }
  destruct Hsame as (Hsz & Hmk & Har).
  set (head := load_avail_ring r1 _).
  destruct (popchain_walk (S (Z.to_nat niov)) r1 m niov head []) as [iov'| |s|]
    eqn:Ew; try discriminate.
  intros E. injection E as _ _ <-.
  pose proof (popchain_walk_head _ _ _ _ _ _ Ew) as Hlt.
  split.
  - unfold head, load_avail_ring. rewrite Har, Hmk. reflexivity.
  - split; [apply u16_range|]. rewrite <- Hsz. exact Hlt.
Qed.

Lemma vq_popchain_cookie_in_ring_witness :
  vq_popchain two_desc_ring zero_mem 4 =
    (fst (vq_popchain two_desc_ring zero_mem 4),
     PopChain [{| iov_base := 4096; iov_len := 64 |};
               {| iov_base := 4352; iov_len := 64 |}] 0) /\
  0 <= 0 < vr_size two_desc_ring.
Proof.
  assert (Hpop : vq_popchain two_desc_ring zero_mem 4 =
                 (fst (vq_popchain two_desc_ring zero_mem 4),
                  PopChain [{| iov_base := 4096; iov_len := 64 |};
                            {| iov_base := 4352; iov_len := 64 |}] 0))
    by (apply pop_result_eq; vm_compute; reflexivity).
  split; [exact Hpop|].
  apply (vq_popchain_cookie_in_ring two_desc_ring _ zero_mem 4 _ 0 Hpop).
Defined.

Lemma popchain_indir_lease ring ring' m vindir nindir niov :
  vr_lease ring' = vr_lease ring ->
  forall fuel next iov,
    popchain_indir fuel ring' m vindir nindir niov next iov =
    popchain_indir fuel ring m vindir nindir niov next iov.
Proof.
  intros Hl. induction fuel as [|fuel IH]; intros next iov; [reflexivity|].
  cbn [popchain_indir]. unfold viona_gpa2kva. rewrite Hl.
  destruct (has_flag _ VRING_DESC_F_INDIRECT); [reflexivity|].
  destruct (vd_len _ =? 0); [reflexivity|].
  destruct (vr_lease ring _ _); [|reflexivity].
  destruct (negb _); [reflexivity|].
  destruct (_ >=? niov); [reflexivity|].
  destruct (_ >=? nindir); [reflexivity|]. apply IH.
Qed.

(** The walk reads the ring's size, descriptor table and lease, nothing
    else. *)
Lemma popchain_walk_ext ring ring' m niov :
  vr_size ring' = vr_size ring -> vr_descr ring' = vr_descr ring ->
  vr_lease ring' = vr_lease ring ->
  forall fuel next iov,
    popchain_walk fuel ring' m niov next iov =
    popchain_walk fuel ring m niov next iov.
Proof.
  intros Hs Hd Hl. induction fuel as [|fuel IH]; intros next iov; [reflexivity|].
  cbn [popchain_walk]. rewrite Hs.
  destruct (zlen iov <? niov); [|reflexivity].
  destruct (next >=? vr_size ring); [reflexivity|].
  assert (Ed : load_descr ring' next = load_descr ring next)
    by (unfold load_descr; rewrite Hd; reflexivity).
  rewrite Ed.
  assert (Ei : popchain_indirect ring' m niov (load_descr ring next) iov =
               popchain_indirect ring m niov (load_descr ring next) iov).
  { unfold popchain_indirect, viona_gpa2kva. rewrite Hl.
    destruct (_ || _); [reflexivity|].
    destruct (vr_lease ring _ _); [|reflexivity].
    apply popchain_indir_lease. exact Hl. }
  rewrite Ei. unfold viona_gpa2kva. rewrite Hl.
  destruct (negb (has_flag _ VRING_DESC_F_INDIRECT)).
  - destruct (vd_len _ =? 0); [reflexivity|].
    destruct (vr_lease ring _ _); [|reflexivity].
    destruct (negb _); [reflexivity|]. apply IH.
  - destruct (popchain_indirect ring m niov (load_descr ring next) iov);
      try reflexivity.
    destruct (negb _); [reflexivity|]. apply IH.
Qed.

(** The ring as the walk sees it: [vq_popchain] counts an available
    count above the ring size and goes on. *)
Lemma vq_popchain_fails_with ring m niov s :
  let ndesc := u16 (u32 (load_avail_idx ring - vr_cur_aidx ring)) in
  let r1 := if ndesc >? vr_size ring
            then VIONA_RING_STAT_INCR ring rs_ndesc_too_high else ring in
  let head := load_avail_ring ring (Z.land (vr_cur_aidx ring) (vr_mask ring)) in
  ndesc <> 0 ->
  (popchain_walk (S (Z.to_nat niov)) ring m niov head [] = WalkLoopy /\
   s = rs_too_many_desc) \/
  popchain_walk (S (Z.to_nat niov)) ring m niov head [] = WalkBail s ->
  vq_popchain ring m niov = (VIONA_RING_STAT_INCR r1 s, PopFail).
Proof.
  intros ndesc r1 head Hnd Hw. unfold vq_popchain. fold ndesc.
  destruct (ndesc =? 0) eqn:E0; [apply Z.eqb_eq in E0; contradiction|].
  fold r1.
  assert (Hr1 : vr_size r1 = vr_size ring /\ vr_descr r1 = vr_descr ring /\
                vr_lease r1 = vr_lease ring /\
                load_avail_ring r1 (Z.land (vr_cur_aidx ring) (vr_mask r1)) = head).
  { subst r1. destruct (_ >? _); repeat split. }
  destruct Hr1 as (Hsz & Hds & Hls & Hh). rewrite Hh.
  rewrite (popchain_walk_ext ring r1 m niov Hsz Hds Hls).
  destruct Hw as [[-> ->]| ->]; reflexivity.
Qed.

(** X2.  A chain that the parser rejects is not consumed: after a call
    that returned -1 the available count is what it was and not zero, and
    the next call over the same guest memory returns -1 again, counting the
    same statistic once more and leaving [cur_aidx] where it was. *)
Theorem vq_popchain_failure_repeats (ring ring1 : viona_vring) (m : gmem)
    (niov : Z) :
  vq_popchain ring m niov = (ring1, PopFail) ->
  viona_vr_num_avail ring1 = viona_vr_num_avail ring /\
  viona_vr_num_avail ring <> 0 /\
  exists s ring2,
    In s popchain_errors /\
    vr_stats ring1 s = u64 (vr_stats ring s + 1) /\
    vq_popchain ring1 m niov = (ring2, PopFail) /\
    vr_stats ring2 s = u64 (vr_stats ring1 s + 1) /\
    vr_cur_aidx ring2 = vr_cur_aidx ring.
Proof.
  intros Hpop.
  set (head := load_avail_ring ring (Z.land (vr_cur_aidx ring) (vr_mask ring))).
  set (w := popchain_walk (S (Z.to_nat niov)) ring m niov head []).
  pose proof (popchain_walk_total ring m niov head ltac:(apply u16_range)) as Htot.
  pose proof (popchain_walk_ok ring m niov (S (Z.to_nat niov)) head []
                ltac:(apply u16_range)) as Hok.
  change (zlen (@nil iovec)) with 0 in Hok.
  specialize (Hok ltac:(lia) ltac:(constructor)).
  fold w in Htot, Hok.
  assert (Hnd : viona_vr_num_avail ring <> 0).
  { intros E. unfold viona_vr_num_avail in E. unfold vq_popchain in Hpop.
    rewrite E in Hpop. discriminate. }
  assert (Hcase : exists s, In s popchain_errors /\
                    ((w = WalkLoopy /\ s = rs_too_many_desc) \/ w = WalkBail s)).
  { destruct w as [iov| |s|] eqn:Ew.
    - exfalso. revert Hpop. unfold vq_popchain.
      destruct (_ =? 0); [discriminate|].
      set (r1 := if _ >? vr_size ring then _ else ring).
      assert (Hr1 : vr_size r1 = vr_size ring /\ vr_descr r1 = vr_descr ring /\
                    vr_lease r1 = vr_lease ring /\
                    load_avail_ring r1 (Z.land (vr_cur_aidx ring) (vr_mask r1)) =
                    head).
      { subst r1. destruct (_ >? _); repeat split. }
      destruct Hr1 as (Hsz & Hds & Hls & Hh). rewrite Hh.
      rewrite (popchain_walk_ext ring r1 m niov Hsz Hds Hls).
      fold w. rewrite Ew. discriminate.
    - exists rs_too_many_desc. split; [simpl; tauto|]. left. split; reflexivity.
    - exists s. split; [exact Hok|]. right. reflexivity.
    - contradiction. }
  destruct Hcase as (s & Hin & Hw).
  assert (Hns : rs_ndesc_too_high <> s)
    by (apply popchain_errors_not_too_high; exact Hin).
  pose proof (vq_popchain_fails_with ring m niov s Hnd Hw) as E1.
  cbv zeta in E1. rewrite Hpop in E1. injection E1 as E1.
  set (r1 := if _ >? vr_size ring then _ else ring) in E1.
  assert (Hr1 : vr_avail_idx r1 = vr_avail_idx ring /\
                vr_cur_aidx r1 = vr_cur_aidx ring /\
                vr_mask r1 = vr_mask ring /\
                vr_avail_ring r1 = vr_avail_ring ring /\
                vr_size r1 = vr_size ring /\ vr_descr r1 = vr_descr ring /\
                vr_lease r1 = vr_lease ring /\
                vr_stats r1 s = vr_stats ring s).
  { subst r1. destruct (_ >? _); splits; try reflexivity.
    apply stat_incr_other. exact Hns. }
  destruct Hr1 as (Hai & Hca & Hmk & Har & Hsz & Hds & Hls & Hst).
  assert (Hring1 : vr_avail_idx ring1 = vr_avail_idx ring /\
                   vr_cur_aidx ring1 = vr_cur_aidx ring /\
                   vr_mask ring1 = vr_mask ring /\
                   vr_avail_ring ring1 = vr_avail_ring ring /\
                   vr_size ring1 = vr_size ring /\
                   vr_descr ring1 = vr_descr ring /\
                   vr_lease ring1 = vr_lease ring).
  { rewrite E1. cbn. splits; assumption. }
  destruct Hring1 as (Hai1 & Hca1 & Hmk1 & Har1 & Hsz1 & Hds1 & Hls1).
  assert (Hna : viona_vr_num_avail ring1 = viona_vr_num_avail ring).
  { unfold viona_vr_num_avail, load_avail_idx. rewrite Hai1, Hca1. reflexivity. }
  split; [exact Hna|]. split; [exact Hnd|].
  assert (Hw1 : (popchain_walk (S (Z.to_nat niov)) ring1 m niov
                   (load_avail_ring ring1
                      (Z.land (vr_cur_aidx ring1) (vr_mask ring1))) [] =
                 WalkLoopy /\ s = rs_too_many_desc) \/
                popchain_walk (S (Z.to_nat niov)) ring1 m niov
                  (load_avail_ring ring1
                     (Z.land (vr_cur_aidx ring1) (vr_mask ring1))) [] =
                WalkBail s).
  { rewrite (popchain_walk_ext ring ring1 m niov Hsz1 Hds1 Hls1).
    unfold load_avail_ring. rewrite Har1, Hca1, Hmk1. exact Hw. }
  assert (Hnd1 : viona_vr_num_avail ring1 <> 0) by (rewrite Hna; exact Hnd).
  pose proof (vq_popchain_fails_with ring1 m niov s Hnd1 Hw1) as E2.
  cbv zeta in E2.
  set (r2 := if _ >? vr_size ring1 then _ else ring1) in E2.
  assert (Hr2 : vr_cur_aidx r2 = vr_cur_aidx ring1 /\
                vr_stats r2 s = vr_stats ring1 s).
  { subst r2.
    destruct (u16 (u32 (load_avail_idx ring1 - vr_cur_aidx ring1)) >?
              vr_size ring1); split; try reflexivity.
    apply stat_incr_other. exact Hns. }
  destruct Hr2 as (Hca2 & Hst2).
  exists s, (VIONA_RING_STAT_INCR r2 s). splits.
  - exact Hin.
  - rewrite E1, stat_incr_same, Hst. reflexivity.
  - exact E2.
  - rewrite stat_incr_same, Hst2. reflexivity.
  - cbn. rewrite Hca2. exact Hca1.
Qed.

Lemma vq_popchain_failure_repeats_witness :
  vq_popchain (indirect_ring 2) (table_mem nested_table) 4 =
    (fst (vq_popchain (indirect_ring 2) (table_mem nested_table) 4), PopFail) /\
  viona_vr_num_avail (indirect_ring 2) <> 0.
Proof.
  assert (Hpop : vq_popchain (indirect_ring 2) (table_mem nested_table) 4 =
                 (fst (vq_popchain (indirect_ring 2) (table_mem nested_table) 4),
                  PopFail))
    by (apply pop_result_eq; vm_compute; reflexivity).
  split; [exact Hpop|].
  destruct (vq_popchain_failure_repeats _ _ _ _ Hpop) as (_ & H & _).
  exact H.
Defined.

(** X3.  [vq_popchain] returns 0 exactly when [viona_vr_num_avail] is 0,
    and a call that hands out a chain lowers the available count by exactly
    one, whatever the number of descriptors in the chain. *)
Theorem vq_popchain_consumes_one (ring : viona_vring) (m : gmem) (niov : Z) :
  (snd (vq_popchain ring m niov) = PopEmpty <-> viona_vr_num_avail ring = 0) /\
  (forall ring1 iov cookie,
     vq_popchain ring m niov = (ring1, PopChain iov cookie) ->
     viona_vr_num_avail ring1 = viona_vr_num_avail ring - 1).
Proof.
  split.
  - unfold vq_popchain, viona_vr_num_avail.
    destruct (u16 (u32 (load_avail_idx ring - vr_cur_aidx ring)) =? 0) eqn:E.
    + apply Z.eqb_eq in E. split; [intros _; exact E|reflexivity].
    + apply Z.eqb_neq in E.
      split; [|intros E'; contradiction].
      destruct (popchain_walk _ _ _ _ _ _); cbn [snd]; discriminate.
  - intros ring1 iov cookie Hpop.
    assert (Hnz : viona_vr_num_avail ring <> 0).
    { intros E. unfold viona_vr_num_avail in E. unfold vq_popchain in Hpop.
      rewrite E in Hpop. discriminate. }
    pose proof (vq_popchain_frame ring m niov) as Hf.
    rewrite Hpop in Hf. cbn [fst] in Hf.
    assert (Hai : vr_avail_idx ring1 = vr_avail_idx ring)
      by (unfold same_but_aidx_stats in Hf; tauto).
    assert (Hca : vr_cur_aidx ring1 = u16 (vr_cur_aidx ring + 1)).
    { revert Hpop. unfold vq_popchain.
      destruct (_ =? 0); [discriminate|].
      set (r1 := if _ >? vr_size ring then _ else ring).
      assert (H1 : vr_cur_aidx r1 = vr_cur_aidx ring)
        by (subst r1; destruct (_ >? vr_size ring); reflexivity).
      destruct (popchain_walk _ _ _ _ _ _); try discriminate.
      intros E. injection E as <- _ _. cbn. rewrite H1. reflexivity. }
    unfold viona_vr_num_avail in *. unfold load_avail_idx in *.
    rewrite Hai, Hca. rewrite !u16_u32 in *. rewrite u16_sub_r.
    set (a := u16 (vr_avail_idx ring)) in *. set (c := vr_cur_aidx ring) in *.
    pose proof (u16_range (a - c)) as Hr.
    replace (a - (c + 1)) with (a - c - 1) by lia.
    rewrite <- (u16_small (u16 (a - c) - 1)) by lia.
    unfold u16. rewrite Zminus_mod_idemp_l. reflexivity.
Qed.

(** X4.  [vq_popchain] only reads the rings: whatever it returns, the used
    ring and its index, the log of stores and interrupts, the interrupt
    state, the lease, the reclamation descriptors and the guest-written
    parts of the ring are as before; only [cur_aidx] and the statistics can
    differ. *)
Theorem vq_popchain_only_reads (ring : viona_vring) (m : gmem) (niov : Z) :
  same_but_aidx_stats ring (fst (vq_popchain ring m niov)).
Proof.
  unfold vq_popchain. destruct (_ =? 0); [apply same_refl|].
  set (ring1 := if _ >? vr_size ring then _ else ring).
  assert (H1 : same_but_aidx_stats ring ring1).
  { subst ring1. destruct (_ >? _); [apply same_stat_incr|apply same_refl]. }
  destruct (popchain_walk _ _ _ _ _ _); cbn [fst];
    (eapply same_trans; [exact H1|]);
    first [apply same_set_cur_aidx|apply same_stat_incr|apply same_refl].
Qed.

(** ** The used ring *)

(** X5.  [vq_pushchain] stores the cookie and the length in the used-ring
    slot that the used index selects under the ring mask, leaves every
    other slot as it was, advances the used index by one, and changes
    nothing else of the ring. *)
Theorem vq_pushchain_publishes (ring : viona_vring) (tlen cookie : Z) :
  let slot := Z.land (load_used_idx ring) (vr_mask ring) in
  let ring' := vq_pushchain ring tlen cookie in
  vr_used_ring ring' slot = {| vu_idx := cookie; vu_tlen := tlen |} /\
  (forall i, i <> slot -> vr_used_ring ring' i = vr_used_ring ring i) /\
  vr_used_idx ring' = u16 (vr_used_idx ring + 1) /\
  same_but_used ring ring'.
Proof.
  cbv zeta. unfold vq_pushchain, used_idx_store, membar_producer, used_store, emit.
  cbn. splits.
  - rewrite Z.eqb_refl. reflexivity.
  - intros i Hi. destruct (i =? _) eqn:E; [apply Z.eqb_eq in E; contradiction|].
    reflexivity.
  - unfold load_used_idx. apply u16_push_idx.
  - repeat split.
Qed.

(** ** Copying a frame into guest buffers *)

Lemma msgsize_zero_blocks mp :
  Forall (fun b => 0 < MBLKL b) mp -> msgsize mp = 0 -> mp = [].
Proof.
  intros Hall Hz. destruct mp as [|b mp]; [reflexivity|].
  inversion Hall; subst. rewrite msgsize_cons in Hz.
  pose proof (msgsize_nonneg mp). lia.
Qed.

(** A copy that takes exactly the bytes that are left of a message without
    empty blocks ends behind its last block. *)
Lemma copy_loop_end_exact :
  forall mp off buf len copied m,
    0 <= off ->
    match mp with [] => off = 0 | b :: _ => off < MBLKL b end ->
    Forall (fun b => 0 < MBLKL b) mp ->
    len = msgsize mp - off ->
    snd (copy_loop mp off buf len copied m) = true.
Proof.
  induction mp as [|b mp IH]; intros off buf len copied m Hoff Hin Hall Hlen;
    cbn [copy_loop]; [reflexivity|].
  inversion Hall as [|? ? Hb Hrest]; subst.
  rewrite msgsize_cons. pose proof (msgsize_nonneg mp) as Hmn.
  cbv zeta.
  replace (Z.min (MBLKL b - off) (MBLKL b + msgsize mp - off))
    with (MBLKL b - off) by lia.
  rewrite Z.eqb_refl.
  replace (MBLKL b + msgsize mp - off - (MBLKL b - off)) with (msgsize mp) by lia.
  destruct (msgsize mp =? 0) eqn:E.
  - apply Z.eqb_eq in E. rewrite (msgsize_zero_blocks mp Hrest E). reflexivity.
  - apply IH; try assumption; try lia.
    destruct mp as [|b' mp']; [reflexivity|]. inversion Hrest; assumption.
Qed.

Lemma copy_seek_inside :
  forall mp seek,
    0 <= seek <= msgsize mp ->
    Forall (fun b => 0 < MBLKL b) mp ->
    0 <= snd (copy_seek mp seek) /\
    match fst (copy_seek mp seek) with
    | [] => snd (copy_seek mp seek) = 0
    | b :: _ => snd (copy_seek mp seek) < MBLKL b
    end /\
    Forall (fun b => 0 < MBLKL b) (fst (copy_seek mp seek)) /\
    msgsize (fst (copy_seek mp seek)) - snd (copy_seek mp seek) =
      msgsize mp - seek.
Proof.
  induction mp as [|b mp IH]; intros seek Hs Hall; cbn [copy_seek].
  - cbn [msgsize fold_right fst snd] in *. splits; try reflexivity; try lia.
    constructor.
  - inversion Hall as [|? ? Hb Hrest]; subst. rewrite msgsize_cons in Hs.
    destruct (seek >? 0) eqn:Hpos.
    + destruct (MBLKL b >? seek) eqn:Hin.
      * apply Z.gtb_lt in Hin. cbn [fst snd]. splits; try assumption; lia.
      * rewrite Z.gtb_ltb in Hin, Hpos. apply Z.ltb_ge in Hin.
        destruct (IH (seek - MBLKL b) ltac:(lia) Hrest) as (H1 & H2 & H3 & H4).
        splits; try assumption. rewrite H4, msgsize_cons. lia.
    + rewrite Z.gtb_ltb in Hpos. apply Z.ltb_ge in Hpos.
      cbn [fst snd]. splits; try assumption; try lia.
Qed.

(** X6.  [viona_copy_mblk] copies the bytes of the message from offset
    [seek] on into the buffer, as many as fit or as are left, whichever is
    less; it reports that count and writes nowhere outside the bytes it
    copied.  The end flag tells whether the loop ran off the chain of
    blocks: it is set when the buffer was not filled, clear when bytes are
    left over, and, when the bytes left just fill the buffer, set for a
    message none of whose blocks is empty.  (With an empty block trailing,
    the flag is clear although every byte was copied: see
    [viona_copy_mblk_trailing_empty].) *)
Theorem viona_copy_mblk_exact (mp : list mblk) (seek buf len : Z) (m : gmem) :
  0 <= len -> 0 <= seek <= msgsize mp ->
  let n := Z.min len (msgsize mp - seek) in
  match viona_copy_mblk mp seek buf len m with
  | (m', copied, e) =>
    copied = n /\
    (msgsize mp - seek < len -> e = true) /\
    (len < msgsize mp - seek -> e = false) /\
    (len = msgsize mp - seek -> Forall (fun b => 0 < MBLKL b) mp -> e = true) /\
    (forall a, a < buf \/ buf + n <= a -> m' a = m a) /\
    (forall j, 0 <= j < n ->
               m' (buf + j) = nth (Z.to_nat (seek + j)) (msgdata mp) 0)
  end.
Proof.
  intros Hlen Hseek n.
  pose proof (viona_copy_mblk_spec mp seek buf len m Hlen Hseek) as H.
  cbv zeta in H.
  assert (Hexact : len = msgsize mp - seek ->
                   Forall (fun b => 0 < MBLKL b) mp ->
                   snd (viona_copy_mblk mp seek buf len m) = true).
  { intros He Hall. unfold viona_copy_mblk.
    destruct (copy_seek_inside mp seek Hseek Hall) as (H1 & H2 & H3 & H4).
    destruct (copy_seek mp seek) as [mp' off]. cbn [fst snd] in *.
    apply copy_loop_end_exact; try assumption. lia. }
  destruct (viona_copy_mblk mp seek buf len m) as [[m' copied] e].
  cbn [snd] in Hexact.
  destruct H as (H1 & H2 & H3 & H4 & H5).
  splits; try assumption.
  intros j Hj. rewrite (H5 j Hj). unfold remaining.
  rewrite nth_skipn. f_equal. lia.
Qed.

Lemma viona_copy_mblk_exact_witness :
  0 <= 3 /\ 0 <= 2 <= msgsize [{| blk_desb := false; blk_data := [1; 2; 3] |};
                              {| blk_desb := false; blk_data := [4; 5] |}] /\
  match viona_copy_mblk [{| blk_desb := false; blk_data := [1; 2; 3] |};
                         {| blk_desb := false; blk_data := [4; 5] |}]
          2 100 3 zero_mem with
  | (m', copied, e) =>
    copied = Z.min 3 (5 - 2) /\ e = true /\ m' 100 = 3 /\ m' 102 = 5
  end.
Proof.
  assert (H1 : 0 <= 3) by lia.
  assert (H2 : 0 <= 2 <= msgsize [{| blk_desb := false; blk_data := [1; 2; 3] |};
                                  {| blk_desb := false; blk_data := [4; 5] |}])
    by (vm_compute; split; discriminate).
  split; [exact H1|]. split; [exact H2|].
  pose proof (viona_copy_mblk_exact _ 2 100 3 zero_mem H1 H2) as H.
  cbv zeta in H.
  destruct (viona_copy_mblk _ 2 100 3 zero_mem) as [[m' copied] e].
  destruct H as (Hc & _ & _ & He & _ & Hin).
  split; [exact Hc|]. split; [|split].
  - apply He; [reflexivity|]. repeat constructor.
  - apply (Hin 0). vm_compute. split; [discriminate|reflexivity].
  - apply (Hin 2). vm_compute. split; [discriminate|reflexivity].
Defined.

(** With an empty block at the end of the message, a copy of all the bytes
    there are into a buffer that they just fill does not report the end: the
    loop stopped on the full buffer with the empty block still ahead. *)
Example viona_copy_mblk_trailing_empty :
  let mp := [{| blk_desb := false; blk_data := [1; 2; 3] |};
             {| blk_desb := false; blk_data := [] |}] in
  msgsize mp = 3 /\
  snd (fst (viona_copy_mblk mp 0 100 3 zero_mem)) = 3 /\
  snd (viona_copy_mblk mp 0 100 3 zero_mem) = false.
Proof. cbv zeta. splits; vm_compute; reflexivity. Qed.

(** ** Receive *)

Lemma vq_popchain_no_chain ring m niov :
  (forall iov cookie, snd (vq_popchain ring m niov) <> PopChain iov cookie) ->
  vr_cur_aidx (fst (vq_popchain ring m niov)) = vr_cur_aidx ring.
Proof.
  unfold vq_popchain. destruct (_ =? 0); [reflexivity|].
  set (r1 := if _ >? vr_size ring then _ else ring).
  assert (H1 : vr_cur_aidx r1 = vr_cur_aidx ring)
    by (subst r1; destruct (_ >? vr_size ring); reflexivity).
  destruct (popchain_walk _ _ _ _ _ _) as [iov| |s|]; cbn [fst snd]; intros H;
    try exact H1.
  exfalso. exact (H _ _ eq_refl).
Qed.

(** X7.  Whenever the parser hands out no chain, because the available ring
    is empty or because the chain at its head is malformed, both receive
    paths return [ENOSPC] without touching guest memory, the used ring or
    [cur_aidx], and without logging anything; the mergeable path counts
    [no_space], the plain one counts nothing of its own. *)
Theorem recv_without_buffers (features : Z) (ring : viona_vring) (m : gmem)
    (mp : msg) (msz : Z) (uelem0 : list used_elem) :
  (forall iov cookie,
     snd (vq_popchain ring m VTNET_MAXSEGS) <> PopChain iov cookie) ->
  let ring1 := fst (vq_popchain ring m VTNET_MAXSEGS) in
  viona_recv_plain features ring m mp msz = (ring1, m, ENOSPC) /\
  viona_recv_merged features ring m mp msz uelem0 =
    (VIONA_RING_STAT_INCR ring1 rs_no_space, m, ENOSPC) /\
  vr_log ring1 = vr_log ring /\
  vr_used_idx ring1 = vr_used_idx ring /\
  vr_used_ring ring1 = vr_used_ring ring /\
  vr_cur_aidx ring1 = vr_cur_aidx ring.
Proof.
  intros Hno ring1.
  pose proof (vq_popchain_no_chain ring m VTNET_MAXSEGS Hno) as Hca.
  pose proof (vq_popchain_frame ring m VTNET_MAXSEGS) as Hf.
  fold ring1 in Hca, Hf.
  unfold viona_recv_plain, viona_recv_merged.
  destruct (vq_popchain ring m VTNET_MAXSEGS) as [r res] eqn:E.
  cbn [fst snd] in *. subst ring1.
  destruct res as [|iov cookie|];
    [|exfalso; apply (Hno iov cookie); reflexivity|];
    (splits; [reflexivity|reflexivity| | | |exact Hca];
     unfold same_but_aidx_stats in Hf; tauto).
Qed.

Lemma recv_without_buffers_witness :
  (forall iov cookie,
     snd (vq_popchain reset_ring zero_mem VTNET_MAXSEGS) <> PopChain iov cookie) /\
  viona_recv_plain 0 reset_ring zero_mem (plain_msg 60 7) 60 =
    (fst (vq_popchain reset_ring zero_mem VTNET_MAXSEGS), zero_mem, ENOSPC).
Proof.
  assert (H : forall iov cookie,
             snd (vq_popchain reset_ring zero_mem VTNET_MAXSEGS) <>
             PopChain iov cookie)
    by (intros iov cookie; vm_compute; discriminate).
  split; [exact H|].
  apply (recv_without_buffers 0 reset_ring zero_mem (plain_msg 60 7) 60 [] H).
Defined.

Lemma rx_loop_counts env link :
  forall frames ring m nrx ndrop,
    let o := rx_loop env link frames ring m nrx ndrop in
    nrx <= ro_nrx o /\ ndrop <= ro_ndrop o /\
    ro_nrx o + ro_ndrop o <= nrx + ndrop + zlen frames /\
    (Forall (fun mp => rx_emulate env link mp <> None) frames ->
     ro_nrx o + ro_ndrop o = nrx + ndrop + zlen frames).
Proof.
  induction frames as [|mp next IH]; intros ring m nrx ndrop; cbn [rx_loop].
  - cbn. change (zlen (@nil msg)) with 0. splits; try lia; intros _; lia.
  - assert (Hz : zlen (mp :: next) = 1 + zlen next).
    { unfold zlen. cbn [length]. lia. }
    pose proof (zlen_nonneg next) as Hnn.
    rewrite Hz.
    assert (Hstep : forall r' m' nrx' ndrop',
               nrx' + ndrop' = nrx + ndrop + 1 -> nrx <= nrx' -> ndrop <= ndrop' ->
               let o := rx_loop env link next r' m' nrx' ndrop' in
               nrx <= ro_nrx o /\ ndrop <= ro_ndrop o /\
               ro_nrx o + ro_ndrop o <= nrx + ndrop + (1 + zlen next) /\
               (Forall (fun mp => rx_emulate env link mp <> None) next ->
                ro_nrx o + ro_ndrop o = nrx + ndrop + (1 + zlen next))).
    { intros r' m' nrx' ndrop' Hs H1 H2.
      specialize (IH r' m' nrx' ndrop'). cbv zeta in IH |- *.
      destruct IH as (A & B & C & D). splits; try lia.
      intros Hall. specialize (D Hall). lia. }
    destruct (rx_emulate env link mp) as [mp'|] eqn:Ee.
    + assert (Hfin : forall P : Prop,
                 (Forall (fun mp => rx_emulate env link mp <> None) next -> P) ->
                 Forall (fun mp => rx_emulate env link mp <> None) (mp :: next) -> P).
      { intros P HP Hall. inversion Hall; subst. apply HP. assumption. }
      destruct (rx_hook env link mp') as [mp''|remains].
      * destruct (rx_pad env ring mp'' (msgsize (m_blocks mp')))
          as [[[r1 mp3] size]|].
        -- destruct (if negb (Z.land (l_features link) VIRTIO_NET_F_MRG_RXBUF =? 0)
                     then viona_recv_merged (l_features link) r1 m mp3 size
                            (rx_stack_uelem env)
                     else viona_recv_plain (l_features link) r1 m mp3 size)
             as [[r2 m2] err].
           destruct err;
             try (destruct (Hstep r2 m2 nrx (ndrop + 1) ltac:(lia) ltac:(lia)
                              ltac:(lia)) as (A & B & C & D);
                  splits; try assumption; apply Hfin; exact D).
           ++ destruct (Hstep r2 m2 (nrx + 1) ndrop ltac:(lia) ltac:(lia)
                          ltac:(lia)) as (A & B & C & D).
              splits; try assumption. apply Hfin; exact D.
           ++ cbn [ro_nrx ro_ndrop]. splits; try lia; intros _; lia.
        -- destruct (Hstep ring m nrx (ndrop + 1) ltac:(lia) ltac:(lia)
                       ltac:(lia)) as (A & B & C & D).
           splits; try assumption. apply Hfin; exact D.
      * destruct (Hstep (VIONA_RING_STAT_INCR ring rs_rx_hookdrop) m nrx
                    (ndrop + 1) ltac:(lia) ltac:(lia) ltac:(lia))
          as (A & B & C & D).
        splits; try assumption. apply Hfin; exact D.
    + specialize (IH ring m nrx ndrop). cbv zeta in IH |- *.
      destruct IH as (A & B & C & D). splits; try lia.
      intros Hall. inversion Hall; subst. contradiction.
Qed.

(** X8.  [viona_rx_common] accounts for the frames of a batch: the count
    of frames delivered and the count of frames dropped add up to at most
    the number of frames that the loop is given (after software LSO when
    the guest did not negotiate [GUEST_TSO4]), and to exactly that number
    when checksum emulation consumes none of them; this includes the frames
    left unprocessed after the ring ran out of buffers. *)
Theorem viona_rx_common_accounts (env : rx_env) (link : viona_link)
    (ring : viona_vring) (m : gmem) (frames : list msg) :
  let o := viona_rx_common env link ring m frames in
  let given := rx_frames env link frames in
  0 <= ro_nrx o /\ 0 <= ro_ndrop o /\
  ro_nrx o + ro_ndrop o <= zlen given /\
  (Forall (fun mp => rx_emulate env link mp <> None) given ->
   ro_nrx o + ro_ndrop o = zlen given).
Proof.
  cbv zeta. unfold viona_rx_common. cbn [ro_nrx ro_ndrop].
  pose proof (rx_loop_counts env link (rx_frames env link frames) ring m 0 0) as H.
  cbv zeta in H. destruct H as (A & B & C & D).
  splits; try lia. intros Hall. specialize (D Hall). lia.
Qed.

(** ** Feature negotiation *)

Lemma land_lnot_same a b : Z.land (Z.land a (Z.lnot b)) b = 0.
Proof.
  rewrite <- Z.land_assoc, (Z.land_comm (Z.lnot b)), Z.land_lnot_diag.
  apply Z.land_0_r.
Qed.

Lemma land_keep a b c : Z.land a c = 0 -> Z.land (Z.land a b) c = 0.
Proof.
  intros H. rewrite <- Z.land_assoc, (Z.land_comm b), Z.land_assoc, H.
  apply Z.land_0_l.
Qed.

Lemma land_idem_sub a b : Z.land (Z.land a b) b = Z.land a b.
Proof. rewrite <- Z.land_assoc, Z.land_diag. reflexivity. Qed.

Lemma land_lnot_absent a b : Z.land a b = 0 -> Z.land a (Z.lnot b) = a.
Proof.
  intros H. apply Z.bits_inj'. intros n Hn.
  rewrite Z.land_spec, Z.lnot_spec by exact Hn.
  assert (Hb : Z.testbit (Z.land a b) n = false) by (rewrite H; apply Z.bits_0).
  rewrite Z.land_spec in Hb.
  destruct (Z.testbit a n), (Z.testbit b n); try reflexivity; discriminate.
Qed.

(** X9.  The features that [VNA_IOC_SET_FEATURES] stores are among those
    requested and among those offered (the host capabilities and the
    hardware features); HOST_TSO4 is only ever stored together with CSUM
    and GUEST_TSO4 only together with GUEST_CSUM; and storing the stored
    value again changes nothing. *)
Theorem viona_set_features_sound (features_hw val : Z) :
  let f := viona_set_features features_hw val in
  Z.land f (Z.lnot val) = 0 /\
  Z.land f (Z.lnot (Z.lor VIONA_S_HOSTCAPS features_hw)) = 0 /\
  (Z.land f VIRTIO_NET_F_HOST_TSO4 <> 0 -> Z.land f VIRTIO_NET_F_CSUM <> 0) /\
  (Z.land f VIRTIO_NET_F_GUEST_TSO4 <> 0 ->
   Z.land f VIRTIO_NET_F_GUEST_CSUM <> 0) /\
  viona_set_features features_hw f = f.
Proof.
  cbv zeta. unfold viona_set_features. cbv zeta.
  set (off := Z.lor VIONA_S_HOSTCAPS features_hw).
  set (v0 := Z.land val off).
  set (v1 := if Z.land v0 VIRTIO_NET_F_CSUM =? 0
             then Z.land v0 (Z.lnot VIRTIO_NET_F_HOST_TSO4) else v0).
  set (v2 := if Z.land v1 VIRTIO_NET_F_GUEST_CSUM =? 0
             then Z.land v1 (Z.lnot VIRTIO_NET_F_GUEST_TSO4) else v1).
  assert (Hsub : forall x, Z.land v0 x = 0 -> Z.land v2 x = 0).
  { intros x Hx.
    assert (H1 : Z.land v1 x = 0).
    { unfold v1. destruct (Z.land v0 VIRTIO_NET_F_CSUM =? 0); [|exact Hx].
      rewrite <- Z.land_assoc, (Z.land_comm (Z.lnot _)), Z.land_assoc, Hx.
      apply Z.land_0_l. }
    unfold v2. destruct (Z.land v1 VIRTIO_NET_F_GUEST_CSUM =? 0); [|exact H1].
    rewrite <- Z.land_assoc, (Z.land_comm (Z.lnot _)), Z.land_assoc, H1.
    apply Z.land_0_l. }
  assert (Hhost : Z.land v2 VIRTIO_NET_F_HOST_TSO4 <> 0 ->
                  Z.land v2 VIRTIO_NET_F_CSUM <> 0).
  { intros H.
    assert (H1 : Z.land v1 VIRTIO_NET_F_HOST_TSO4 <> 0).
    { intros E. apply H. unfold v2.
      destruct (Z.land v1 VIRTIO_NET_F_GUEST_CSUM =? 0); [|exact E].
      apply land_keep. exact E. }
    assert (H0 : Z.land v0 VIRTIO_NET_F_CSUM <> 0).
    { intros E. apply H1. unfold v1. rewrite E. cbn [Z.eqb].
      apply land_lnot_same. }
    assert (E1 : v1 = v0).
    { unfold v1. apply Z.eqb_neq in H0. rewrite H0. reflexivity. }
    unfold v2. rewrite E1.
    destruct (Z.land v0 VIRTIO_NET_F_GUEST_CSUM =? 0); [|exact H0].
    rewrite <- Z.land_assoc.
    replace (Z.land (Z.lnot VIRTIO_NET_F_GUEST_TSO4) VIRTIO_NET_F_CSUM)
      with VIRTIO_NET_F_CSUM by reflexivity.
    exact H0. }
  assert (Hguest : Z.land v2 VIRTIO_NET_F_GUEST_TSO4 <> 0 ->
                   Z.land v2 VIRTIO_NET_F_GUEST_CSUM <> 0).
  { unfold v2. destruct (Z.land v1 VIRTIO_NET_F_GUEST_CSUM =? 0) eqn:E.
    - intros H. exfalso. apply H. apply land_lnot_same.
    - intros _. apply Z.eqb_neq. exact E. }
  splits.
  - apply Hsub. unfold v0.
    rewrite <- Z.land_assoc, (Z.land_comm off), Z.land_assoc, Z.land_lnot_diag.
    apply Z.land_0_l.
  - apply Hsub. unfold v0.
    rewrite <- Z.land_assoc, Z.land_lnot_diag. apply Z.land_0_r.
  - exact Hhost.
  - exact Hguest.
  - assert (E0 : Z.land v2 off = v2).
    { assert (H : Z.land v2 (Z.lnot off) = 0).
      { apply Hsub. unfold v0.
        rewrite <- Z.land_assoc, Z.land_lnot_diag. apply Z.land_0_r. }
      apply Z.bits_inj'. intros n Hn. rewrite Z.land_spec.
      assert (Hb : Z.testbit (Z.land v2 (Z.lnot off)) n = false)
        by (rewrite H; apply Z.bits_0).
      rewrite Z.land_spec, Z.lnot_spec in Hb by exact Hn.
      destruct (Z.testbit v2 n), (Z.testbit off n); try reflexivity; discriminate. }
    rewrite E0.
    assert (E1 : (if Z.land v2 VIRTIO_NET_F_CSUM =? 0
                  then Z.land v2 (Z.lnot VIRTIO_NET_F_HOST_TSO4) else v2) = v2).
    { destruct (Z.land v2 VIRTIO_NET_F_CSUM =? 0) eqn:E; [|reflexivity].
      apply land_lnot_absent.
      destruct (Z.eq_dec (Z.land v2 VIRTIO_NET_F_HOST_TSO4) 0) as [H|H];
        [exact H|].
      apply Hhost in H. apply Z.eqb_eq in E. contradiction. }
    rewrite E1.
    destruct (Z.land v2 VIRTIO_NET_F_GUEST_CSUM =? 0) eqn:E; [|reflexivity].
    apply land_lnot_absent.
    destruct (Z.eq_dec (Z.land v2 VIRTIO_NET_F_GUEST_TSO4) 0) as [H|H];
      [exact H|].
    apply Hguest in H. apply Z.eqb_eq in E. contradiction.
Qed.

(** ** Interrupts: polling and MSI *)

Lemma set_vring_same idx r l : l_vrings (set_vring idx r l) idx = r.
Proof. cbn. now rewrite Z.eqb_refl. Qed.

Lemma set_vring_other idx r l j :
  j <> idx -> l_vrings (set_vring idx r l) j = l_vrings l j.
Proof. intros H. cbn. destruct (j =? idx) eqn:E; [lia | reflexivity]. Qed.

Lemma intr_poll_status link ok :
  viona_ioc_intr_poll link ok =
  (if ok then IOC_OK else IOC_EFAULT,
   [vr_intr_enabled (l_vrings link 0); vr_intr_enabled (l_vrings link 1)],
   if ok
   then Some ((if vr_intr_enabled (l_vrings link 0) =? 0 then 0 else 1) +
              (if vr_intr_enabled (l_vrings link 1) =? 0 then 0 else 1))
   else None).
Proof.
  unfold viona_ioc_intr_poll.
  change (Z.to_nat VIONA_VQ_MAX) with 2%nat. cbn [intr_poll_loop].
  change (0 + 1) with 1.
  destruct (vr_intr_enabled (l_vrings link 0) =? 0),
           (vr_intr_enabled (l_vrings link 1) =? 0), ok; reflexivity.
Qed.

(** X10. Without an MSI the ring's interrupt is edge-triggered through the
    poll interface: after [viona_intr_ring] the ring is pending, a second
    [viona_intr_ring] changes nothing and wakes nobody, [viona_ioc_intr_poll]
    reports the ring with a non-zero status word and counts it, and only
    after [viona_ioc_ring_intr_clear], which touches no other ring, does the
    next interrupt wake the poller again. *)
Theorem intr_pending_until_cleared link idx :
  0 <= idx < VIONA_VQ_MAX ->
  vr_msi_addr (l_vrings link idx) = 0 ->
  let link1 := set_vring idx (viona_intr_ring (l_vrings link idx)) link in
  let r1 := l_vrings link1 idx in
  let link2 := fst (viona_ioc_ring_intr_clear link1 idx) in
  let r2 := l_vrings link2 idx in
  vr_intr_enabled r1 <> 0 /\
  viona_intr_ring r1 = r1 /\
  (exists status cnt,
     viona_ioc_intr_poll link1 true = (IOC_OK, status, Some cnt) /\
     nth (Z.to_nat idx) status 0 = vr_intr_enabled r1 /\
     1 <= cnt <= VIONA_VQ_MAX) /\
  snd (viona_ioc_ring_intr_clear link1 idx) = IOC_OK /\
  (forall j, j <> idx -> l_vrings link2 j = l_vrings link1 j) /\
  vr_intr_enabled r2 = 0 /\
  vr_log r2 = vr_log r1 /\
  vr_log (viona_intr_ring r2) = vr_log r1 ++ [EvPollwakeup] /\
  (exists status cnt,
     viona_ioc_intr_poll link2 true = (IOC_OK, status, Some cnt) /\
     nth (Z.to_nat idx) status 0 = 0 /\ 0 <= cnt < VIONA_VQ_MAX).
Proof.
  intros Hidx Hmsi link1 r1 link2 r2.
  assert (Hr1 : r1 = viona_intr_ring (l_vrings link idx))
    by (unfold r1, link1; apply set_vring_same).
  assert (Hmsi1 : vr_msi_addr r1 = 0).
  { rewrite Hr1. unfold viona_intr_ring. rewrite Hmsi. cbn.
    destruct (vr_intr_enabled (l_vrings link idx) =? 0); cbn; exact Hmsi. }
  assert (Hen1 : vr_intr_enabled r1 <> 0).
  { rewrite Hr1. unfold viona_intr_ring. rewrite Hmsi. cbn.
    destruct (vr_intr_enabled (l_vrings link idx) =? 0) eqn:E; cbn; lia. }
  assert (Hclr : viona_ioc_ring_intr_clear link1 idx =
                 (set_vring idx (set_intr_enabled 0 r1) link1, IOC_OK)).
  { unfold viona_ioc_ring_intr_clear.
    destruct (idx >=? VIONA_VQ_MAX) eqn:E; [lia | reflexivity]. }
  assert (Hr2 : r2 = set_intr_enabled 0 r1).
  { unfold r2, link2. rewrite Hclr. cbn [fst]. apply set_vring_same. }
  assert (Hcases : idx = 0 \/ idx = 1) by (unfold VIONA_VQ_MAX in Hidx; lia).
  split; [exact Hen1|].
  split.
  { unfold viona_intr_ring. rewrite Hmsi1.
    change (negb (0 =? 0)) with false. cbv iota.
    destruct (vr_intr_enabled r1 =? 0) eqn:E; [lia | reflexivity]. }
  split.
  { rewrite intr_poll_status. do 2 eexists. split; [reflexivity|].
    fold r1. unfold VIONA_VQ_MAX.
    destruct Hcases as [-> | ->]; cbn [nth Z.to_nat Pos.to_nat Pos.iter_op Nat.add];
      fold r1; (split; [reflexivity|]).
    - destruct (vr_intr_enabled r1 =? 0) eqn:E; [lia|].
      destruct (vr_intr_enabled (l_vrings link1 1) =? 0); lia.
    - destruct (vr_intr_enabled r1 =? 0) eqn:E; [lia|].
      destruct (vr_intr_enabled (l_vrings link1 0) =? 0); lia. }
  split; [rewrite Hclr; reflexivity|].
  split.
  { intros j Hj. unfold link2. rewrite Hclr. cbn [fst].
    now apply set_vring_other. }
  split; [rewrite Hr2; reflexivity|].
  split; [rewrite Hr2; reflexivity|].
  split.
  { rewrite Hr2. unfold viona_intr_ring.
    change (vr_msi_addr (set_intr_enabled 0 r1)) with (vr_msi_addr r1).
    rewrite Hmsi1. reflexivity. }
  rewrite intr_poll_status. do 2 eexists. split; [reflexivity|].
  fold r2. unfold VIONA_VQ_MAX.
  assert (Hen2 : vr_intr_enabled r2 = 0) by (rewrite Hr2; reflexivity).
  destruct Hcases as [-> | ->]; cbn [nth Z.to_nat Pos.to_nat Pos.iter_op Nat.add];
    fold r2; rewrite Hen2; (split; [reflexivity|]);
    change (0 =? 0) with true; cbv iota.
  - destruct (vr_intr_enabled (l_vrings link2 1) =? 0); lia.
  - destruct (vr_intr_enabled (l_vrings link2 0) =? 0); lia.
Qed.

Lemma intr_pending_until_cleared_witness :
  vr_log (viona_intr_ring
            (l_vrings (fst (viona_ioc_ring_intr_clear
                              (set_vring 0 (viona_intr_ring (l_vrings (tx_link 0 0) 0))
                                 (tx_link 0 0)) 0)) 0)) =
  vr_log (l_vrings (set_vring 0 (viona_intr_ring (l_vrings (tx_link 0 0) 0))
                      (tx_link 0 0)) 0) ++ [EvPollwakeup].
Proof.
  refine (proj1 (proj2 (proj2 (proj2 (proj2 (proj2 (proj2 (proj2
    (intr_pending_until_cleared (tx_link 0 0) 0 _ _)))))))));
    [unfold VIONA_VQ_MAX; lia | reflexivity].
Defined.

Lemma intr_ring_msi_iter ring n :
  vr_msi_addr ring <> 0 ->
  let ring' := Nat.iter n viona_intr_ring ring in
  vr_log ring' = vr_log ring ++ repeat (EvMsi (vr_msi_addr ring) (vr_msi_msg ring)) n /\
  vr_intr_enabled ring' = vr_intr_enabled ring /\
  vr_msi_addr ring' = vr_msi_addr ring /\
  vr_msi_msg ring' = vr_msi_msg ring.
Proof.
  intros Hmsi. induction n as [|n IH].
  - cbn. now rewrite app_nil_r.
  - cbv zeta in IH |- *. rewrite Nat.iter_succ.
    destruct IH as (Hlog & Hen & Ha & Hm).
    set (r := Nat.iter n viona_intr_ring ring) in *.
    unfold viona_intr_ring. rewrite Ha.
    destruct (vr_msi_addr ring =? 0) eqn:E; [lia|]. cbn [negb].
    unfold emit. cbn [vr_log vr_intr_enabled vr_msi_addr vr_msi_msg set_log].
    rewrite Hlog, Hm. repeat split; try assumption.
    rewrite <- app_assoc. f_equal.
    change [EvMsi (vr_msi_addr ring) (vr_msi_msg ring)]
      with (repeat (EvMsi (vr_msi_addr ring) (vr_msi_msg ring)) 1).
    rewrite <- repeat_app. f_equal. lia.
Qed.

(** X11. [viona_ioc_ring_set_msi] rejects a failed copy-in with EFAULT and a
    ring index of [VIONA_VQ_MAX] or more with EINVAL, leaving the link as it
    was.  Once it stored a non-zero address on a ring, each of any number
    of [viona_intr_ring] calls on that ring sends one MSI with the stored
    address and message, and none of them marks the ring pending for the
    poll interface; the other rings keep their settings. *)
Theorem set_msi_bypasses_poll link vrm n :
  0 <= rm_index vrm ->
  viona_ioc_ring_set_msi link None = (link, IOC_EFAULT) /\
  (VIONA_VQ_MAX <= rm_index vrm ->
   viona_ioc_ring_set_msi link (Some vrm) = (link, IOC_EINVAL)) /\
  (rm_index vrm < VIONA_VQ_MAX -> rm_addr vrm <> 0 ->
   let link' := fst (viona_ioc_ring_set_msi link (Some vrm)) in
   let ring := l_vrings link (rm_index vrm) in
   let ring' := Nat.iter n viona_intr_ring (l_vrings link' (rm_index vrm)) in
   snd (viona_ioc_ring_set_msi link (Some vrm)) = IOC_OK /\
   (forall j, j <> rm_index vrm -> l_vrings link' j = l_vrings link j) /\
   vr_log ring' = vr_log ring ++ repeat (EvMsi (rm_addr vrm) (rm_msg vrm)) n /\
   vr_intr_enabled ring' = vr_intr_enabled ring).
Proof.
  intros Hidx. split; [reflexivity|]. split.
  - intros Hbig. unfold viona_ioc_ring_set_msi.
    destruct (rm_index vrm >=? VIONA_VQ_MAX) eqn:E; [reflexivity | lia].
  - intros Hsmall Haddr. cbv zeta.
    unfold viona_ioc_ring_set_msi.
    destruct (rm_index vrm >=? VIONA_VQ_MAX) eqn:E; [lia|].
    cbn [fst snd]. split; [reflexivity|]. split.
    { intros j Hj. now apply set_vring_other. }
    rewrite set_vring_same.
    pose proof (intr_ring_msi_iter
                  (set_msi (rm_addr vrm) (rm_msg vrm) (l_vrings link (rm_index vrm)))
                  n Haddr) as H.
    cbv zeta in H. destruct H as (Hlog & Hen & _). split; assumption.
Qed.

Lemma set_msi_bypasses_poll_witness :
  vr_log (Nat.iter 3 viona_intr_ring
            (l_vrings (fst (viona_ioc_ring_set_msi (tx_link 0 0)
                              (Some {| rm_index := 1; rm_addr := 4276092928;
                                       rm_msg := 33 |}))) 1)) =
  vr_log (l_vrings (tx_link 0 0) 1) ++ repeat (EvMsi 4276092928 33) 3.
Proof.
  refine (proj1 (proj2 (proj2 (proj2 (proj2
    (set_msi_bypasses_poll (tx_link 0 0)
       {| rm_index := 1; rm_addr := 4276092928; rm_msg := 33 |} 3 _)) _ _))));
    cbn; unfold VIONA_VQ_MAX; lia.
Defined.

(** ** The notify port *)

(** X12. After [viona_ioc_set_notify_ioport] the link listens on the new
    port exactly when the port is not zero and the hypervisor accepted the
    hook; a hook that was in place is removed first, also when the new one
    fails, so that the old port is then rejected by [viona_notify_wcb].
    No ring is touched, and the error returned is the hypervisor's. *)
Theorem set_notify_ioport_replaces link ioport hook_err :
  let '(link', err, calls) := viona_ioc_set_notify_ioport link ioport hook_err in
  l_notify_ioport link' =
    (if negb (ioport =? 0) && (hook_err =? 0) then ioport else 0) /\
  err = (if ioport =? 0 then 0 else hook_err) /\
  calls = (if l_notify_ioport link =? 0 then []
           else [IoportUnhook (l_notify_ioport link)]) ++
          (if ioport =? 0 then [] else [IoportHook ioport]) /\
  l_vrings link' = l_vrings link /\
  l_features link' = l_features link /\
  (forall port sz val, port <> 0 -> port <> l_notify_ioport link' ->
     viona_notify_wcb link' port sz val = (link', EINVAL)) /\
  (ioport <> 0 -> hook_err = 0 -> forall val,
     viona_notify_wcb link' ioport 2 val = viona_ioc_ring_kick link' (u16 val)).
Proof.
  unfold viona_ioc_set_notify_ioport.
  assert (Hwcb : forall l port sz val, port <> l_notify_ioport l ->
            viona_notify_wcb l port sz val = (l, EINVAL)).
  { intros l port sz val Hne. unfold viona_notify_wcb.
    destruct (port =? l_notify_ioport l) eqn:E; [lia | reflexivity]. }
  assert (Hkick : forall l val,
            viona_notify_wcb l (l_notify_ioport l) 2 val =
            viona_ioc_ring_kick l (u16 val)).
  { intros l val. unfold viona_notify_wcb. now rewrite Z.eqb_refl. }
  destruct (l_notify_ioport link =? 0) eqn:Eold;
    destruct (ioport =? 0) eqn:Enew;
    destruct (hook_err =? 0) eqn:Eh; cbn [negb andb app];
    repeat split; try reflexivity; try lia;
    try (intros port sz val Hp Hne; apply Hwcb; exact Hne);
    try (intros Hn He val; lia);
    try (intros _ _ val;
         exact (Hkick (set_notify_ioport ioport link) val));
    try (intros _ _ val;
         exact (Hkick (set_notify_ioport ioport (set_notify_ioport 0 link)) val));
    try (cbn; lia).
Qed.

(** ** The MAC receive callbacks *)

Lemma mcast_loop_spec mc :
  forall frames ring,
    mcast_loop mc ring frames =
    (Nat.iter
       (length (filter (fun mp => match mcast_check mc mp with
                                  | None => true | Some _ => false end) frames))
       (fun r => VIONA_RING_STAT_INCR r rs_rx_mcast_check) ring,
     filter (fun mp => match mcast_check mc mp with
                       | Some true => true | _ => false end) frames).
Proof.
  induction frames as [|mp next IH]; intros ring; cbn [mcast_loop filter].
  - reflexivity.
  - destruct (mcast_check mc mp) as [[|]|].
    + rewrite IH. reflexivity.
    + apply IH.
    + rewrite IH. cbn [length]. rewrite Nat.iter_succ_r. reflexivity.
Qed.

Lemma stat_incr_iter_same s n :
  forall ring,
    same_but_aidx_stats ring
      (Nat.iter n (fun r => VIONA_RING_STAT_INCR r s) ring) /\
    vr_cur_aidx (Nat.iter n (fun r => VIONA_RING_STAT_INCR r s) ring) =
      vr_cur_aidx ring /\
    (forall s', s' <> s ->
       vr_stats (Nat.iter n (fun r => VIONA_RING_STAT_INCR r s) ring) s' =
       vr_stats ring s').
Proof.
  induction n as [|n IH]; intros ring.
  - cbn. split; [apply same_refl|]. split; reflexivity.
  - rewrite Nat.iter_succ. destruct (IH ring) as (Hs & Hc & Ho).
    split; [|split].
    + eapply same_trans; [exact Hs | apply same_stat_incr].
    + cbn. exact Hc.
    + intros s' Hne. rewrite stat_incr_other by congruence. now apply Ho.
Qed.

(** X13. Both MAC callbacks drop everything, changing neither ring nor guest
    memory, while the ring is not running or renews its lease.  On an open
    ring [viona_rx_mcast] hands to [viona_rx_common] exactly the frames whose
    destination MAC reports as multicast (at the first look or after the
    pull-up), in their order, and nothing at all when there is none; each
    frame whose header could not be read is counted once in
    [rx_mcast_check] and dropped, and this counting changes no other field
    of the ring. *)
Theorem viona_rx_mcast_filters mc env link ring m frames :
  let multicast :=
    filter (fun mp => match mcast_check mc mp with
                      | Some true => true | _ => false end) frames in
  let unreadable :=
    filter (fun mp => match mcast_check mc mp with
                      | None => true | Some _ => false end) frames in
  let counted :=
    Nat.iter (length unreadable)
      (fun r => VIONA_RING_STAT_INCR r rs_rx_mcast_check) ring in
  (rx_ring_closed ring = true <->
   vr_state ring <> VRS_RUN \/ Z.land (vr_state_flags ring) VRSF_RENEW <> 0) /\
  (rx_ring_closed ring = true ->
   viona_rx_mcast mc env link ring m frames = (ring, m) /\
   viona_rx_classified env link ring m frames = (ring, m)) /\
  (rx_ring_closed ring = false ->
   viona_rx_mcast mc env link ring m frames =
     match multicast with
     | [] => (counted, m)
     | _ => (ro_ring (viona_rx_common env link counted m multicast),
             ro_mem (viona_rx_common env link counted m multicast))
     end) /\
  same_but_aidx_stats ring counted /\
  vr_cur_aidx counted = vr_cur_aidx ring /\
  (forall s, s <> rs_rx_mcast_check -> vr_stats counted s = vr_stats ring s).
Proof.
  cbv zeta. split; [|split; [|split]].
  - unfold rx_ring_closed.
    destruct (vr_state ring);
      try (split; [intros _; left; discriminate | reflexivity]).
    destruct (Z.land (vr_state_flags ring) VRSF_RENEW =? 0) eqn:E; cbn [negb].
    + split; [discriminate|]. intros [H | H]; [congruence | lia].
    + split; [|reflexivity]. intros _. right. lia.
  - intros Hc. unfold viona_rx_mcast, viona_rx_classified. rewrite Hc.
    split; reflexivity.
  - intros Hc. unfold viona_rx_mcast. rewrite Hc, mcast_loop_spec.
    destruct (filter _ frames); reflexivity.
  - apply stat_incr_iter_same.
Qed.

(** ** The transmit path as a whole *)

Lemma same_queue_refl r : same_queue r r.
Proof. unfold same_queue. repeat split. Qed.

Lemma same_queue_trans r1 r2 r3 :
  same_queue r1 r2 -> same_queue r2 r3 -> same_queue r1 r3.
Proof.
  unfold same_queue. intros H1 H2.
  repeat match goal with H : _ /\ _ |- _ => destruct H end.
  repeat split; congruence.
Qed.

Lemma same_queue_desb_set c d r : same_queue r (desb_set c d r).
Proof. unfold same_queue. repeat split. Qed.

Lemma same_queue_stat r s : same_queue r (VIONA_RING_STAT_INCR r s).
Proof. unfold same_queue. repeat split. Qed.

Lemma same_queue_emit e r : same_queue r (emit e r).
Proof. unfold same_queue. repeat split. Qed.

Lemma same_queue_xfer v r : same_queue r (set_xfer_outstanding v r).
Proof. unfold same_queue. repeat split. Qed.

Lemma same_queue_intr r : same_queue r (viona_intr_ring r).
Proof.
  unfold viona_intr_ring.
  destruct (negb (vr_msi_addr r =? 0)); [apply same_queue_emit|].
  destruct (vr_intr_enabled r =? 0); [|apply same_queue_refl].
  unfold same_queue. repeat split.
Qed.

Lemma same_queue_pushchain r len cookie : same_queue r (vq_pushchain r len cookie).
Proof. unfold same_queue. repeat split. Qed.

Lemma same_queue_tx_done r len cookie : same_queue r (viona_tx_done r len cookie).
Proof.
  unfold viona_tx_done.
  destruct (Z.land _ _ =? 0).
  - eapply same_queue_trans; [apply same_queue_pushchain | apply same_queue_intr].
  - apply same_queue_pushchain.
Qed.

Lemma same_queue_release r c : same_queue r (viona_desb_release r c).
Proof.
  unfold viona_desb_release.
  destruct (u32 (d_ref (desb_at r c) - 1) >? 1); [apply same_queue_desb_set|].
  set (r1 := viona_tx_done _ _ _).
  assert (H1 : same_queue r r1).
  { eapply same_queue_trans; [|apply same_queue_tx_done].
    apply same_queue_desb_set. }
  assert (H2 : same_queue r (set_xfer_outstanding (u32 (vr_xfer_outstanding r1 - 1)) r1)).
  { eapply same_queue_trans; [exact H1 | apply same_queue_xfer]. }
  destruct (u32 (vr_xfer_outstanding r1 - 1) =? 0); [|exact H2].
  eapply same_queue_trans; [exact H2 | apply same_queue_emit].
Qed.

Lemma same_queue_release_n c : forall n r, same_queue r (release_n n r c).
Proof.
  induction n as [|n IH]; intros r; cbn [release_n]; [apply same_queue_refl|].
  eapply same_queue_trans; [apply same_queue_release | apply IH].
Qed.

Lemma same_queue_freemsgchain c :
  forall frame r, same_queue r (freemsgchain r c frame).
Proof.
  induction frame as [|b rest IH]; intros r; cbn [freemsgchain];
    [apply same_queue_refl|].
  destruct (blk_desb b); [|apply IH].
  eapply same_queue_trans; [apply same_queue_release | apply IH].
Qed.

Lemma same_queue_drop_hook r dp iov c :
  same_queue r (tx_ring (tx_drop_hook r dp iov c)).
Proof.
  unfold tx_drop_hook. destruct dp.
  - destruct (d_ref (desb_at r c) =? 2); cbn [tx_ring]; [|apply same_queue_refl].
    eapply same_queue_trans; [|apply same_queue_tx_done].
    apply same_queue_desb_set.
  - cbn [tx_ring]. apply same_queue_tx_done.
Qed.

Lemma same_queue_drop_fail r dp frame iov c :
  same_queue r (tx_ring (tx_drop_fail r dp frame iov c)).
Proof.
  unfold tx_drop_fail.
  eapply same_queue_trans; [|apply same_queue_drop_hook].
  eapply same_queue_trans; [|apply same_queue_freemsgchain].
  destruct dp; [apply same_queue_desb_set | apply same_queue_refl].
Qed.

Lemma same_queue_csum K link r m hdr hbuf mblkl len :
  same_queue r (fst (fst (viona_tx_csum K link r m hdr hbuf mblkl len))).
Proof.
  unfold viona_tx_csum.
  destruct (csum_out_of_bounds _ _ _ _ _); [apply same_queue_stat|].
  cbv zeta.
  match goal with
  | |- context [let '(_, _) := (if ?c then _ else _) in _] => destruct c
  end;
  repeat match goal with
  | |- context [if ?c then _ else _] => destruct c
  end; cbn [fst];
  unfold same_queue; repeat split.
Qed.

Lemma same_queue_send K link r m dp head tail len iov c :
  same_queue r (tx_ring (tx_send K link r m dp head tail len iov c)).
Proof.
  unfold tx_send. cbv zeta.
  destruct (tx_needs_csum link m (iov_base (hd iovec0 iov))).
  - pose proof (same_queue_csum K link r m (iov_base (hd iovec0 iov))
                  (hb_buf head) (hb_wptr head)
                  (u32 (len - iov_len (hd iovec0 iov)))) as Hc.
    destruct (viona_tx_csum _ _ _ _ _ _ _ _) as [[r1 hbuf] ok]. cbn [fst] in Hc.
    destruct ok.
    + cbn [tx_ring]. eapply same_queue_trans; [exact Hc|].
      eapply same_queue_trans; [|apply same_queue_emit].
      destruct dp; [|apply same_queue_tx_done].
      eapply same_queue_trans; [apply same_queue_desb_set | apply same_queue_xfer].
    + eapply same_queue_trans; [exact Hc | apply same_queue_drop_fail].
  - cbn [tx_ring]. eapply same_queue_trans; [|apply same_queue_emit].
    destruct dp; [|apply same_queue_tx_done].
    eapply same_queue_trans; [apply same_queue_desb_set | apply same_queue_xfer].
Qed.

Lemma same_queue_build env dp m c :
  forall iov base_off k r tail len,
    match tx_build_tail env dp m c iov base_off k r tail len with
    | BuildOk r' _ _ => same_queue r r'
    | BuildFail r' _ => same_queue r r'
    end.
Proof.
  induction iov as [|v rest IH]; intros base_off k r tail len;
    cbn [tx_build_tail]; [apply same_queue_refl|].
  destruct (tx_alloc env k); [|apply same_queue_refl].
  match goal with
  | |- match tx_build_tail _ _ _ _ _ ?b ?k' ?r' ?t ?l with _ => _ end =>
    specialize (IH b k' r' t l);
    destruct (tx_build_tail env dp m c rest b k' r' t l);
    (eapply same_queue_trans; [|exact IH]);
    destruct dp; first [apply same_queue_desb_set | apply same_queue_refl]
  end.
Qed.

Lemma same_queue_hook env link r dp c head tail :
  match tx_hook env link r dp c head tail with
  | HookOk r' _ _ _ => same_queue r r'
  | HookDrop r' => same_queue r r'
  end.
Proof.
  unfold tx_hook. destruct (l_hook_out link); [|apply same_queue_refl].
  cbv zeta.
  set (r1 := if dp then desb_ref_add c 1 r else r).
  assert (H1 : same_queue r r1).
  { subst r1. destruct dp; [apply same_queue_desb_set | apply same_queue_refl]. }
  destruct (tx_hook_run env (tx_frame head tail)) as [released rewritten | freed].
  - set (r2 := release_n _ r1 c).
    assert (H2 : same_queue r r2).
    { eapply same_queue_trans; [exact H1 | apply same_queue_release_n]. }
    destruct dp; [|exact H2].
    assert (H3 : same_queue r (desb_ref_add c (-1) r2)).
    { eapply same_queue_trans; [exact H2 | apply same_queue_desb_set]. }
    destruct (d_ref (desb_at (desb_ref_add c (-1) r2) c) =? 1); [|exact H3].
    eapply same_queue_trans; [exact H3 | apply same_queue_desb_set].
  - eapply same_queue_trans; [exact H1|].
    eapply same_queue_trans; [apply same_queue_stat | apply same_queue_freemsgchain].
Qed.

Lemma same_queue_claim env r c :
  match tx_claim env r c with
  | ClaimBusy => True
  | ClaimNoMem r' _ => same_queue r r'
  | Claimed r' _ _ => same_queue r r'
  end.
Proof.
  unfold tx_claim. destruct (vr_txdesb r) eqn:E.
  - destruct (negb (d_ref (desb_at r c) =? 0)); [exact I|].
    cbv zeta. destruct (tx_alloc env 0).
    + eapply same_queue_trans; apply same_queue_desb_set.
    + apply same_queue_desb_set.
  - destruct (tx_alloc env 0); apply same_queue_refl.
Qed.

Lemma same_queue_prepare env link r m iov c :
  match tx_prepare env link r m iov c with
  | Prepared r' _ _ _ _ => same_queue r r'
  | PrepDropFail r' _ _ => same_queue r r'
  | PrepDropHook r' _ => same_queue r r'
  end.
Proof.
  unfold tx_prepare. cbv zeta.
  destruct (u32 (iov_len (hd iovec0 iov)) <? sizeof_virtio_net_hdr);
    [apply same_queue_refl|].
  pose proof (same_queue_claim env r c) as Hc.
  destruct (tx_claim env r c) as [|r1 dp|r1 dp head];
    [apply same_queue_refl | exact Hc |].
  destruct (tx_copy_hdrs m (tl iov) VIONA_MAX_HDRS_LEN head _)
    as [[[head1 len1] rest] base_off].
  pose proof (same_queue_build env dp m c rest base_off 1 r1 [] len1) as Hb.
  destruct (tx_build_tail env dp m c rest base_off 1 r1 [] len1)
    as [r2 tail len2 | r2 tail].
  - pose proof (same_queue_hook env link r2 dp c head1 tail) as Hh.
    destruct (tx_hook env link r2 dp c head1 tail) as [r3 dp3 h3 t3 | r3];
      (eapply same_queue_trans; [exact Hc|]);
      (eapply same_queue_trans; [exact Hb | exact Hh]).
  - eapply same_queue_trans; [exact Hc | exact Hb].
Qed.

(** After the pop, [viona_tx] changes nothing of what it only reads. *)
Lemma same_queue_tx_after_pop K env link r m iov c :
  same_queue r
    (tx_ring match tx_prepare env link r m iov c with
             | Prepared r' dp head tail len =>
               tx_send K link r' m dp head tail len iov c
             | PrepDropFail r' dp frame => tx_drop_fail r' dp frame iov c
             | PrepDropHook r' dp => tx_drop_hook r' dp iov c
             end).
Proof.
  pose proof (same_queue_prepare env link r m iov c) as Hp.
  destruct (tx_prepare env link r m iov c) as [r' dp head tail len|r' dp frame|r' dp];
    (eapply same_queue_trans; [exact Hp|]).
  - apply same_queue_send.
  - apply same_queue_drop_fail.
  - apply same_queue_drop_hook.
Qed.

Lemma same_queue_but_aidx_trans r1 r2 r3 :
  same_queue_but_aidx r1 r2 -> same_queue_but_aidx r2 r3 ->
  same_queue_but_aidx r1 r3.
Proof.
  unfold same_queue_but_aidx, same_queue. cbn. intros H1 H2.
  repeat match goal with H : _ /\ _ |- _ => destruct H end.
  repeat split; congruence.
Qed.

Lemma same_queue_weaken r r' : same_queue r r' -> same_queue_but_aidx r r'.
Proof.
  unfold same_queue_but_aidx, same_queue. cbn. intros H.
  repeat match goal with H : _ /\ _ |- _ => destruct H end.
  repeat split; congruence.
Qed.

Lemma same_aidx_stats_queue r r' :
  same_but_aidx_stats r r' -> same_queue_but_aidx r r'.
Proof.
  unfold same_but_aidx_stats, same_queue_but_aidx, same_queue. cbn. intros H.
  repeat match goal with H : _ /\ _ |- _ => destruct H end.
  repeat split; congruence.
Qed.

(** What a call of [vq_popchain] does to the position in the available
    ring. *)
Lemma popchain_position ring m niov :
  match snd (vq_popchain ring m niov) with
  | PopEmpty =>
    fst (vq_popchain ring m niov) = ring /\ viona_vr_num_avail ring = 0
  | PopFail =>
    vr_cur_aidx (fst (vq_popchain ring m niov)) = vr_cur_aidx ring /\
    viona_vr_num_avail ring <> 0
  | PopChain _ _ =>
    vr_cur_aidx (fst (vq_popchain ring m niov)) = u16 (vr_cur_aidx ring + 1) /\
    viona_vr_num_avail ring <> 0
  end.
Proof.
  unfold vq_popchain, viona_vr_num_avail.
  destruct (u16 (u32 (load_avail_idx ring - vr_cur_aidx ring)) =? 0) eqn:E.
  - apply Z.eqb_eq in E. cbn [fst snd]. split; [reflexivity | exact E].
  - apply Z.eqb_neq in E.
    set (r1 := if _ >? vr_size ring then _ else ring).
    assert (H1 : vr_cur_aidx r1 = vr_cur_aidx ring)
      by (subst r1; destruct (_ >? vr_size ring); reflexivity).
    destruct (popchain_walk _ _ _ _ _ _); cbn [fst snd]; (split; [|exact E]);
      cbn; rewrite ?H1; reflexivity.
Qed.

Lemma num_avail_step r r' :
  vr_avail_idx r' = vr_avail_idx r ->
  vr_cur_aidx r' = u16 (vr_cur_aidx r + 1) ->
  viona_vr_num_avail r <> 0 ->
  viona_vr_num_avail r' = viona_vr_num_avail r - 1.
Proof.
  intros Hai Hca Hnz.
  unfold viona_vr_num_avail in *. unfold load_avail_idx in *.
  rewrite Hai, Hca. rewrite !u16_u32 in *. rewrite u16_sub_r.
  set (a := u16 (vr_avail_idx r)) in *. set (c := vr_cur_aidx r) in *.
  pose proof (u16_range (a - c)) as Hr.
  replace (a - (c + 1)) with (a - c - 1) by lia.
  rewrite <- (u16_small (u16 (a - c) - 1)) by lia.
  unfold u16. rewrite Zminus_mod_idemp_l. reflexivity.
Qed.

Lemma num_avail_same r r' :
  vr_avail_idx r' = vr_avail_idx r -> vr_cur_aidx r' = vr_cur_aidx r ->
  viona_vr_num_avail r' = viona_vr_num_avail r.
Proof.
  intros Hai Hca. unfold viona_vr_num_avail, load_avail_idx.
  now rewrite Hai, Hca.
Qed.

(** One call of [viona_tx]: the queue but for the position, and what became
    of the position. *)
Lemma viona_tx_position K env link ring m :
  let r' := tx_ring (viona_tx K env link ring m) in
  same_queue_but_aidx ring r' /\
  ((vr_cur_aidx r' = vr_cur_aidx ring /\
    vr_log r' = vr_log ring /\ vr_used_idx r' = vr_used_idx ring /\
    vr_used_ring r' = vr_used_ring ring /\ vr_txdesb r' = vr_txdesb ring /\
    vr_xfer_outstanding r' = vr_xfer_outstanding ring /\
    vr_intr_enabled r' = vr_intr_enabled ring /\
    viona_vr_num_avail r' = viona_vr_num_avail ring) \/
   (viona_vr_num_avail ring <> 0 /\
    vr_cur_aidx r' = u16 (vr_cur_aidx ring + 1) /\
    viona_vr_num_avail r' = viona_vr_num_avail ring - 1)).
Proof.
  cbv zeta. unfold viona_tx.
  pose proof (popchain_position ring m (vr_size ring)) as Hpos.
  pose proof (vq_popchain_frame ring m (vr_size ring)) as Hf.
  destruct (vq_popchain ring m (vr_size ring)) as [r1 res].
  cbn [fst snd] in Hpos, Hf.
  pose proof (same_aidx_stats_queue _ _ Hf) as Hq.
  assert (Hfields : vr_avail_idx r1 = vr_avail_idx ring /\
                    vr_log r1 = vr_log ring /\ vr_used_idx r1 = vr_used_idx ring /\
                    vr_used_ring r1 = vr_used_ring ring /\
                    vr_txdesb r1 = vr_txdesb ring /\
                    vr_xfer_outstanding r1 = vr_xfer_outstanding ring /\
                    vr_intr_enabled r1 = vr_intr_enabled ring)
    by (unfold same_but_aidx_stats in Hf; tauto).
  destruct Hfields as (Hai & Hlog & Hui & Hur & Htd & Hxo & Hie).
  destruct res as [|iov cookie|]; cbn [tx_ring];
    [ | | destruct Hpos as (Hca & Hnz); split; [exact Hq|];
          left; repeat split; try assumption; now apply num_avail_same ].
  - destruct Hpos as (-> & Hz). split.
    + apply same_queue_weaken, same_queue_stat.
    + left. repeat split.
  - destruct Hpos as (Hca & Hnz).
    pose proof (same_queue_tx_after_pop K env link r1 m iov cookie) as Ha.
    set (r' := tx_ring _) in *.
    split.
    + eapply same_queue_but_aidx_trans; [exact Hq|].
      apply same_queue_weaken. exact Ha.
    + right. split; [exact Hnz|].
      assert (Hca' : vr_cur_aidx r' = u16 (vr_cur_aidx ring + 1)).
      { unfold same_queue in Ha. rewrite <- Hca. tauto. }
      split; [exact Hca'|].
      apply num_avail_step; [|exact Hca'|exact Hnz].
      unfold same_queue in Ha. rewrite <- Hai. tauto.
Qed.

(** X14. One call of [viona_tx] takes at most one chain off the available
    ring, whatever the guest posted and whatever lies outside the driver.
    It changes nothing of the ring's state, lease, interrupt configuration,
    geometry or of the guest's side of the queue.  Either the position in
    the available ring advanced by one (modulo 2^16) and the available count
    dropped by exactly one, or the position is where it was and then the
    guest sees nothing of the call: no used entry, no interrupt (the log is
    unchanged), no reclamation descriptor touched. *)
Theorem viona_tx_takes_one K env link ring m :
  let r' := tx_ring (viona_tx K env link ring m) in
  (vr_state r' = vr_state ring /\ vr_state_flags r' = vr_state_flags ring /\
   vr_lease r' = vr_lease ring /\
   vr_msi_addr r' = vr_msi_addr ring /\ vr_msi_msg r' = vr_msi_msg ring /\
   vr_size r' = vr_size ring /\ vr_mask r' = vr_mask ring /\
   vr_descr r' = vr_descr ring /\ vr_avail_flags r' = vr_avail_flags ring /\
   vr_avail_idx r' = vr_avail_idx ring /\
   vr_avail_ring r' = vr_avail_ring ring /\
   vr_used_flags r' = vr_used_flags ring) /\
  ((vr_cur_aidx r' = vr_cur_aidx ring /\
    vr_log r' = vr_log ring /\ vr_used_idx r' = vr_used_idx ring /\
    vr_used_ring r' = vr_used_ring ring /\ vr_txdesb r' = vr_txdesb ring /\
    vr_xfer_outstanding r' = vr_xfer_outstanding ring /\
    vr_intr_enabled r' = vr_intr_enabled ring /\
    viona_vr_num_avail r' = viona_vr_num_avail ring) \/
   (viona_vr_num_avail ring <> 0 /\
    vr_cur_aidx r' = u16 (vr_cur_aidx ring + 1) /\
    viona_vr_num_avail r' = viona_vr_num_avail ring - 1)).
Proof.
  cbv zeta. destruct (viona_tx_position K env link ring m) as (Hq & Hp).
  split; [|exact Hp].
  unfold same_queue_but_aidx, same_queue in Hq. cbn in Hq. tauto.
Qed.

(** ** The burst of the transmit worker *)

Lemma tx_burst_loop_spec K envs link m sz :
  0 <= sz -> sz + 1 < 2 ^ 32 ->
  forall fuel ring k,
    vr_size ring = sz -> 0 <= k <= sz ->
    (Z.to_nat (sz - k) < fuel)%nat ->
    exists res ntx,
      tx_burst_loop fuel K envs link ring m k = Some (res, ntx) /\
      k <= ntx <= sz + 1 /\
      same_queue_but_aidx ring (tx_ring res) /\
      match res with
      | TxDone r' =>
        (viona_vr_num_avail r' = 0 \/ ntx = sz + 1) /\
        0 <= viona_vr_num_avail ring - viona_vr_num_avail r' <= ntx - k
      | TxPanic _ => True
      end.
Proof.
  intros Hsz0 Hsz1.
  induction fuel as [|fuel IH]; intros ring k Hsz Hk Hfuel; [lia|].
  cbn [tx_burst_loop].
  destruct (viona_vr_num_avail ring =? 0) eqn:E0.
  { apply Z.eqb_eq in E0. exists (TxDone ring), k.
    split; [reflexivity|]. split; [lia|]. cbn [tx_ring].
    split; [apply same_queue_weaken, same_queue_refl|].
    split; [left; exact E0 | lia]. }
  apply Z.eqb_neq in E0.
  destruct (viona_tx_position K (envs k) link ring m) as (Hq & Hp).
  destruct (viona_tx K (envs k) link ring m) as [r|r]; cbn [tx_ring] in Hq, Hp.
  2:{ exists (TxPanic r), k. split; [reflexivity|]. split; [lia|].
      split; [exact Hq | exact I]. }
  assert (Hsz' : vr_size r = sz).
  { unfold same_queue_but_aidx, same_queue in Hq. cbn in Hq.
    rewrite <- Hsz. tauto. }
  assert (Hstep : 0 <= viona_vr_num_avail ring - viona_vr_num_avail r <= 1).
  { destruct Hp as [Hp | Hp]; [|lia].
    assert (viona_vr_num_avail r = viona_vr_num_avail ring) by tauto. lia. }
  rewrite Hsz'.
  assert (Hu : u32 (k + 1) = k + 1) by (apply u32_small; lia).
  destruct (k >=? sz) eqn:Ek.
  - exists (TxDone r), (u32 (k + 1)). split; [reflexivity|]. rewrite Hu.
    split; [lia|]. split; [exact Hq|]. split; [right; lia | lia].
  - rewrite Hu.
    destruct (IH r (k + 1) Hsz' ltac:(lia) ltac:(lia))
      as (res & ntx & Hrun & Hntx & Hq' & Hres).
    exists res, ntx. split; [exact Hrun|]. split; [lia|].
    split; [eapply same_queue_but_aidx_trans; [exact Hq | exact Hq']|].
    destruct res as [r'|r']; [|exact I].
    destruct Hres as (Hend & Hcnt). split; [exact Hend | lia].
Qed.

Lemma no_notify_cleared x :
  Z.land (u16 (Z.land x (Z.lnot VRING_USED_F_NO_NOTIFY))) VRING_USED_F_NO_NOTIFY = 0.
Proof.
  unfold u16, VRING_USED_F_NO_NOTIFY.
  apply Z.bits_inj'. intros n Hn.
  rewrite Z.land_spec, Z.bits_0.
  destruct (Z.eq_dec n 0) as [-> | Hne].
  - rewrite Z.mod_pow2_bits_low by lia.
    rewrite Z.land_spec, Z.lnot_spec by lia. cbn.
    now rewrite Bool.andb_false_r.
  - replace (Z.testbit 1 n) with false; [apply Bool.andb_false_r|].
    symmetry. apply (Z.bits_above_log2 1 n); cbn; lia.
Qed.

(** X15. A burst of the transmit worker always ends: given one more round
    than the ring has entries, the loop returns after at most [vr_size + 1]
    calls of [viona_tx].  When it returns normally, either the available
    ring is empty or the full [vr_size + 1] calls were made; the chains
    taken off the available ring are at most the calls made; the bit
    [VRING_USED_F_NO_NOTIFY] is clear again; and the burst changed nothing
    of the ring's state, lease, geometry or of the guest's side of the
    queue. *)
Theorem tx_burst_bounded K envs link ring m fuel :
  0 <= vr_size ring <= 65535 ->
  (Z.to_nat (vr_size ring) < fuel)%nat ->
  exists res ntx,
    tx_burst fuel K envs link ring m = Some (res, ntx) /\
    0 <= ntx <= vr_size ring + 1 /\
    match res with
    | TxDone r' =>
      (viona_vr_num_avail r' = 0 \/ ntx = vr_size ring + 1) /\
      0 <= viona_vr_num_avail ring - viona_vr_num_avail r' <= ntx /\
      Z.land (vr_used_flags r') VRING_USED_F_NO_NOTIFY = 0 /\
      vr_state r' = vr_state ring /\ vr_state_flags r' = vr_state_flags ring /\
      vr_lease r' = vr_lease ring /\
      vr_size r' = vr_size ring /\ vr_mask r' = vr_mask ring /\
      vr_descr r' = vr_descr ring /\ vr_avail_idx r' = vr_avail_idx ring /\
      vr_avail_ring r' = vr_avail_ring ring
    | TxPanic _ => True
    end.
Proof.
  intros Hsz Hfuel. unfold tx_burst.
  set (r0 := set_used_flags _ ring).
  destruct (tx_burst_loop_spec K envs link m (vr_size ring)
              ltac:(lia) ltac:(lia) fuel r0 0 eq_refl ltac:(lia)
              ltac:(rewrite Z.sub_0_r; exact Hfuel))
    as (res & ntx & Hrun & Hntx & Hq & Hres).
  rewrite Hrun.
  destruct res as [r'|r'].
  - eexists _, ntx. split; [reflexivity|]. split; [lia|].
    destruct Hres as (Hend & Hcnt). cbn [tx_ring] in Hq.
    unfold same_queue_but_aidx, same_queue in Hq. cbn in Hq.
    split; [|split; [|split; [apply no_notify_cleared|]]].
    + destruct Hend as [Hend | Hend]; [left | right; exact Hend].
      exact Hend.
    + change (viona_vr_num_avail r0) with (viona_vr_num_avail ring) in Hcnt.
      change (viona_vr_num_avail (set_used_flags
                (u16 (Z.land (vr_used_flags r') (Z.lnot VRING_USED_F_NO_NOTIFY)))
                r')) with (viona_vr_num_avail r').
      lia.
    + cbn. tauto.
  - exists (TxPanic r'), ntx. split; [reflexivity|]. split; [lia | exact I].
Qed.

Lemma tx_burst_bounded_witness :
  exists res ntx,
    tx_burst 5 illumos_headers (fun _ => tx_quiet_env) (tx_link 0 0)
      (hdr_payload_ring 64) (tx_mem [] []) = Some (res, ntx) /\
    0 <= ntx <= 5.
Proof.
  destruct (tx_burst_bounded illumos_headers (fun _ => tx_quiet_env)
              (tx_link 0 0) (hdr_payload_ring 64) (tx_mem [] []) 5)
    as (res & ntx & Hrun & Hntx & _).
  - change (vr_size (hdr_payload_ring 64)) with 4. lia.
  - change (vr_size (hdr_payload_ring 64)) with 4. lia.
  - exists res, ntx. split; [exact Hrun|].
    change (vr_size (hdr_payload_ring 64)) with 4 in Hntx. lia.
Defined.

(** Why a call of [vq_popchain] failed. *)
Lemma popchain_fail_cause ring m niov r1 :
  vq_popchain ring m niov = (r1, PopFail) ->
  viona_vr_num_avail ring <> 0 /\
  exists s,
    In s popchain_errors /\
    ((popchain_walk (S (Z.to_nat niov)) ring m niov
        (load_avail_ring ring (Z.land (vr_cur_aidx ring) (vr_mask ring))) [] =
      WalkLoopy /\ s = rs_too_many_desc) \/
     popchain_walk (S (Z.to_nat niov)) ring m niov
       (load_avail_ring ring (Z.land (vr_cur_aidx ring) (vr_mask ring))) [] =
     WalkBail s).
Proof.
  intros Hpop.
  set (head := load_avail_ring ring (Z.land (vr_cur_aidx ring) (vr_mask ring))).
  set (w := popchain_walk (S (Z.to_nat niov)) ring m niov head []).
  pose proof (popchain_walk_total ring m niov head ltac:(apply u16_range)) as Htot.
  pose proof (popchain_walk_ok ring m niov (S (Z.to_nat niov)) head []
                ltac:(apply u16_range)) as Hok.
  change (zlen (@nil iovec)) with 0 in Hok.
  specialize (Hok ltac:(lia) ltac:(constructor)).
  fold w in Htot, Hok.
  split.
  { intros E. unfold viona_vr_num_avail in E. unfold vq_popchain in Hpop.
    rewrite E in Hpop. discriminate. }
  destruct w as [iov| |s|] eqn:Ew.
  - exfalso. revert Hpop. unfold vq_popchain.
    destruct (_ =? 0); [discriminate|].
    set (r := if _ >? vr_size ring then _ else ring).
    assert (Hr : vr_size r = vr_size ring /\ vr_descr r = vr_descr ring /\
                 vr_lease r = vr_lease ring /\
                 load_avail_ring r (Z.land (vr_cur_aidx ring) (vr_mask r)) =
                 head).
    { subst r. destruct (_ >? _); repeat split. }
    destruct Hr as (Hsz & Hds & Hls & Hh). rewrite Hh.
    rewrite (popchain_walk_ext ring r m niov Hsz Hds Hls).
    fold w. rewrite Ew. discriminate.
  - exists rs_too_many_desc. split; [simpl; tauto|]. left. split; reflexivity.
  - exists s. split; [exact Hok|]. right. reflexivity.
  - contradiction.
Qed.

(** A ring that agrees with [ring] on what the parser reads fails the same
    way. *)
Lemma popchain_fails_on ring ring' m niov s :
  vr_size ring' = vr_size ring -> vr_descr ring' = vr_descr ring ->
  vr_lease ring' = vr_lease ring -> vr_avail_idx ring' = vr_avail_idx ring ->
  vr_avail_ring ring' = vr_avail_ring ring -> vr_mask ring' = vr_mask ring ->
  vr_cur_aidx ring' = vr_cur_aidx ring ->
  viona_vr_num_avail ring <> 0 ->
  (popchain_walk (S (Z.to_nat niov)) ring m niov
     (load_avail_ring ring (Z.land (vr_cur_aidx ring) (vr_mask ring))) [] =
   WalkLoopy /\ s = rs_too_many_desc) \/
  popchain_walk (S (Z.to_nat niov)) ring m niov
    (load_avail_ring ring (Z.land (vr_cur_aidx ring) (vr_mask ring))) [] =
  WalkBail s ->
  vq_popchain ring' m niov =
  (VIONA_RING_STAT_INCR
     (if u16 (u32 (load_avail_idx ring' - vr_cur_aidx ring')) >? vr_size ring'
      then VIONA_RING_STAT_INCR ring' rs_ndesc_too_high else ring') s,
   PopFail).
Proof.
  intros Hsz Hds Hls Hai Har Hmk Hca Hnz Hw.
  apply (vq_popchain_fails_with ring' m niov s).
  - change (viona_vr_num_avail ring' <> 0).
    rewrite (num_avail_same ring ring' Hai Hca). exact Hnz.
  - rewrite (popchain_walk_ext ring ring' m niov Hsz Hds Hls).
    unfold load_avail_ring in *. rewrite Har, Hca, Hmk. exact Hw.
Qed.

Lemma u64_add_l a b : u64 (u64 a + b) = u64 (a + b).
Proof. unfold u64. apply Zplus_mod_idemp_l. Qed.

Lemma tx_burst_loop_stall K envs link m ring s :
  0 <= vr_size ring -> vr_size ring + 1 < 2 ^ 32 ->
  In s popchain_errors ->
  viona_vr_num_avail ring <> 0 ->
  (popchain_walk (S (Z.to_nat (vr_size ring))) ring m (vr_size ring)
     (load_avail_ring ring (Z.land (vr_cur_aidx ring) (vr_mask ring))) [] =
   WalkLoopy /\ s = rs_too_many_desc) \/
  popchain_walk (S (Z.to_nat (vr_size ring))) ring m (vr_size ring)
    (load_avail_ring ring (Z.land (vr_cur_aidx ring) (vr_mask ring))) [] =
  WalkBail s ->
  forall fuel rk k,
    same_but_aidx_stats ring rk -> vr_cur_aidx rk = vr_cur_aidx ring ->
    0 <= k <= vr_size ring ->
    (Z.to_nat (vr_size ring - k) < fuel)%nat ->
    exists r',
      tx_burst_loop fuel K envs link rk m k =
        Some (TxDone r', vr_size ring + 1) /\
      same_but_aidx_stats ring r' /\ vr_cur_aidx r' = vr_cur_aidx ring /\
      vr_stats r' s = u64 (vr_stats rk s + (vr_size ring + 1 - k)).
Proof.
  intros Hsz0 Hsz1 Hin Hnz Hw.
  assert (Hns : rs_ndesc_too_high <> s)
    by (apply popchain_errors_not_too_high; exact Hin).
  induction fuel as [|fuel IH]; intros rk k Hsame Hca Hk Hfuel; [lia|].
  assert (Hf : vr_size rk = vr_size ring /\ vr_descr rk = vr_descr ring /\
               vr_lease rk = vr_lease ring /\
               vr_avail_idx rk = vr_avail_idx ring /\
               vr_avail_ring rk = vr_avail_ring ring /\
               vr_mask rk = vr_mask ring)
    by (unfold same_but_aidx_stats in Hsame; tauto).
  destruct Hf as (Hsz & Hds & Hls & Hai & Har & Hmk).
  cbn [tx_burst_loop].
  rewrite (num_avail_same ring rk Hai Hca).
  destruct (viona_vr_num_avail ring =? 0) eqn:E0;
    [apply Z.eqb_eq in E0; contradiction|].
  unfold viona_tx. rewrite Hsz.
  rewrite (popchain_fails_on ring rk m (vr_size ring) s
             Hsz Hds Hls Hai Har Hmk Hca Hnz Hw).
  set (r1 := if _ >? vr_size rk then _ else rk).
  assert (H1 : same_but_aidx_stats rk r1 /\ vr_cur_aidx r1 = vr_cur_aidx rk /\
               vr_stats r1 s = vr_stats rk s).
  { subst r1.
    destruct (u16 (u32 (load_avail_idx rk - vr_cur_aidx rk)) >? vr_size rk).
    - split; [apply same_stat_incr|]. split; [reflexivity|].
      apply stat_incr_other. exact Hns.
    - split; [apply same_refl|]. split; reflexivity. }
  destruct H1 as (Hs1 & Hc1 & Hst1).
  set (r2 := VIONA_RING_STAT_INCR r1 s).
  assert (Hs2 : same_but_aidx_stats ring r2).
  { eapply same_trans; [exact Hsame|].
    eapply same_trans; [exact Hs1 | apply same_stat_incr]. }
  assert (Hc2 : vr_cur_aidx r2 = vr_cur_aidx ring)
    by (subst r2; cbn; congruence).
  assert (Hst2 : vr_stats r2 s = u64 (vr_stats rk s + 1))
    by (subst r2; rewrite stat_incr_same, Hst1; reflexivity).
  assert (Hsz2 : vr_size r2 = vr_size ring)
    by (unfold same_but_aidx_stats in Hs2; tauto).
  rewrite Hsz2.
  assert (Hu : u32 (k + 1) = k + 1) by (apply u32_small; lia).
  rewrite Hu.
  destruct (k >=? vr_size ring) eqn:Ek.
  - assert (k = vr_size ring) by lia. subst k.
    exists r2. split; [reflexivity|]. split; [exact Hs2|].
    split; [exact Hc2|]. rewrite Hst2. f_equal. lia.
  - destruct (IH r2 (k + 1) Hs2 Hc2 ltac:(lia) ltac:(lia))
      as (r' & Hrun & Hs' & Hc' & Hst').
    exists r'. split; [exact Hrun|]. split; [exact Hs'|]. split; [exact Hc'|].
    rewrite Hst', Hst2, u64_add_l. f_equal. lia.
Qed.

(** X16. A malformed chain at the head of the available ring stalls the
    transmit queue: when [vq_popchain] rejects the head chain, a burst of the
    worker calls [viona_tx] the full [vr_size + 1] times, each call counts
    the same error statistic, and at the end the position in the available
    ring, the available count, the used ring and the log are what they were:
    nothing was consumed and nothing was reported to the guest. *)
Theorem tx_burst_stalls K envs link ring m fuel r1 :
  0 <= vr_size ring <= 65535 ->
  (Z.to_nat (vr_size ring) < fuel)%nat ->
  vq_popchain ring m (vr_size ring) = (r1, PopFail) ->
  exists r' s,
    tx_burst fuel K envs link ring m = Some (TxDone r', vr_size ring + 1) /\
    In s popchain_errors /\
    vr_stats r' s = u64 (vr_stats ring s + (vr_size ring + 1)) /\
    vr_cur_aidx r' = vr_cur_aidx ring /\
    viona_vr_num_avail r' = viona_vr_num_avail ring /\
    viona_vr_num_avail r' <> 0 /\
    vr_used_idx r' = vr_used_idx ring /\ vr_used_ring r' = vr_used_ring ring /\
    vr_log r' = vr_log ring /\ vr_txdesb r' = vr_txdesb ring.
Proof.
  intros Hsz Hfuel Hpop.
  destruct (popchain_fail_cause ring m (vr_size ring) r1 Hpop)
    as (Hnz & s & Hin & Hw).
  unfold tx_burst.
  set (r0 := set_used_flags _ ring).
  destruct (tx_burst_loop_stall K envs link m r0 s
              ltac:(cbn; lia) ltac:(cbn; lia) Hin Hnz
              ltac:(rewrite (popchain_walk_ext ring r0 m (vr_size ring)
                               eq_refl eq_refl eq_refl);
                    exact Hw)
              fuel r0 0 (same_refl r0) eq_refl ltac:(cbn; lia)
              ltac:(change (vr_size r0) with (vr_size ring);
                    rewrite Z.sub_0_r; exact Hfuel))
    as (r' & Hrun & Hs' & Hc' & Hst').
  change (vr_size r0) with (vr_size ring) in Hrun, Hst'.
  rewrite Hrun.
  eexists _, s. split; [reflexivity|]. split; [exact Hin|].
  unfold same_but_aidx_stats in Hs'. cbn in Hs', Hc', Hst'.
  assert (Hna : viona_vr_num_avail r' = viona_vr_num_avail ring).
  { apply num_avail_same; [tauto | exact Hc']. }
  change (viona_vr_num_avail (set_used_flags
            (u16 (Z.land (vr_used_flags r') (Z.lnot VRING_USED_F_NO_NOTIFY)))
            r')) with (viona_vr_num_avail r').
  rewrite Hna. cbn.
  repeat split; try tauto.
  rewrite Hst'. f_equal. lia.
Qed.

Lemma tx_burst_stalls_witness :
  exists r' s,
    tx_burst 5 illumos_headers (fun _ => tx_quiet_env) (tx_link 0 0)
      (indirect_ring 2) (table_mem nested_table) = Some (TxDone r', 5) /\
    In s popchain_errors /\
    viona_vr_num_avail r' = viona_vr_num_avail (indirect_ring 2).
Proof.
  assert (Hpop : vq_popchain (indirect_ring 2) (table_mem nested_table)
                   (vr_size (indirect_ring 2)) =
                 (fst (vq_popchain (indirect_ring 2) (table_mem nested_table)
                         (vr_size (indirect_ring 2))), PopFail))
    by (apply pop_result_eq; vm_compute; reflexivity).
  destruct (tx_burst_stalls illumos_headers (fun _ => tx_quiet_env)
              (tx_link 0 0) (indirect_ring 2) (table_mem nested_table) 5 _
              ltac:(change (vr_size (indirect_ring 2)) with 4; lia)
              ltac:(change (vr_size (indirect_ring 2)) with 4; lia) Hpop)
    as (r' & s & Hrun & Hin & _ & _ & Hna & _).
  exists r', s. split; [exact Hrun|]. split; [exact Hin | exact Hna].
Defined.

(** ** Interrupts of a receive batch *)

Lemma interrupts_app l1 l2 : interrupts (l1 ++ l2) = interrupts l1 ++ interrupts l2.
Proof. apply filter_app. Qed.

Lemma no_interrupt_refl r : no_interrupt r r.
Proof.
  split; [|repeat split]. exists []. now rewrite app_nil_r.
Qed.

Lemma no_interrupt_trans r1 r2 r3 :
  no_interrupt r1 r2 -> no_interrupt r2 r3 -> no_interrupt r1 r3.
Proof.
  intros ((l1 & E1 & Q1) & A1 & B1 & C1 & D1) ((l2 & E2 & Q2) & A2 & B2 & C2 & D2).
  split; [|repeat split; congruence].
  exists (l1 ++ l2). split.
  - rewrite E2, E1, app_assoc. reflexivity.
  - rewrite interrupts_app, Q1, Q2. reflexivity.
Qed.

Lemma no_interrupt_same r r' : same_but_aidx_stats r r' -> no_interrupt r r'.
Proof.
  unfold same_but_aidx_stats. intros H.
  split; [|repeat split; tauto].
  exists []. rewrite app_nil_r. split; [tauto | reflexivity].
Qed.

Lemma no_interrupt_stat r s : no_interrupt r (VIONA_RING_STAT_INCR r s).
Proof. apply no_interrupt_same, same_stat_incr. Qed.

Lemma no_interrupt_emit e r : is_intr e = false -> no_interrupt r (emit e r).
Proof.
  intros He. split; [|repeat split].
  exists [e]. split; [reflexivity|]. unfold interrupts. cbn. now rewrite He.
Qed.

Lemma no_interrupt_used_store slot idx tlen r :
  no_interrupt r (used_store slot idx tlen r).
Proof.
  split; [|repeat split].
  exists [EvUsedWrite slot idx tlen]. split; reflexivity.
Qed.

Lemma no_interrupt_used_idx v r : no_interrupt r (used_idx_store v r).
Proof.
  split; [|repeat split]. exists [EvUsedIdx (u16 v)]. split; reflexivity.
Qed.

Lemma no_interrupt_publish v r :
  no_interrupt r (used_idx_store v (membar_producer r)).
Proof.
  eapply no_interrupt_trans; [|apply no_interrupt_used_idx].
  apply no_interrupt_emit. reflexivity.
Qed.

Lemma no_interrupt_pushchain r len cookie : no_interrupt r (vq_pushchain r len cookie).
Proof.
  unfold vq_pushchain. cbv zeta.
  eapply no_interrupt_trans; [apply no_interrupt_used_store|].
  apply no_interrupt_publish.
Qed.

Lemma no_interrupt_mrgrx_loop uidx elem :
  forall n i r, no_interrupt r (mrgrx_loop n i uidx elem r).
Proof.
  induction n as [|n IH]; intros i r; cbn [mrgrx_loop];
    [apply no_interrupt_refl|].
  eapply no_interrupt_trans; [apply no_interrupt_used_store | apply IH].
Qed.

Lemma no_interrupt_pushchain_mrgrx r n elem :
  no_interrupt r (vq_pushchain_mrgrx r n elem).
Proof.
  unfold vq_pushchain_mrgrx. cbv zeta. destruct (n =? 1).
  - eapply no_interrupt_trans; [apply no_interrupt_used_store|].
    apply no_interrupt_publish.
  - eapply no_interrupt_trans; [apply no_interrupt_mrgrx_loop|].
    apply no_interrupt_publish.
Qed.

Lemma no_interrupt_popchain r m niov : no_interrupt r (fst (vq_popchain r m niov)).
Proof. apply no_interrupt_same, vq_popchain_frame. Qed.

Lemma no_interrupt_bad_frame r copied cookie :
  no_interrupt r (plain_bad_frame r copied cookie).
Proof.
  unfold plain_bad_frame. cbv zeta.
  eapply no_interrupt_trans; [apply no_interrupt_stat | apply no_interrupt_pushchain].
Qed.

Lemma no_interrupt_recv_plain features r m mp msz :
  no_interrupt r (fst (fst (viona_recv_plain features r m mp msz))).
Proof.
  unfold viona_recv_plain. cbv zeta.
  pose proof (no_interrupt_popchain r m VTNET_MAXSEGS) as Hp.
  destruct (vq_popchain r m VTNET_MAXSEGS) as [r1 [|iov cookie|]];
    cbn [fst] in Hp |- *; try exact Hp.
  destruct (iov_len (hd iovec0 iov) <? sizeof_virtio_net_hdr).
  { cbn [fst]. eapply no_interrupt_trans; [exact Hp|].
    apply no_interrupt_bad_frame. }
  destruct (plain_copy iov (m_blocks mp) m) as [[m1 copied] e].
  destruct (negb (copied =? msz)); cbn [fst];
    (eapply no_interrupt_trans; [exact Hp|]).
  - eapply no_interrupt_trans; [apply no_interrupt_stat|].
    apply no_interrupt_bad_frame.
  - apply no_interrupt_pushchain.
Qed.

Lemma no_interrupt_merged_loop mp msz hdr :
  forall room r m iov cookie chunk copied e buf_idx uelem,
    no_interrupt r
      (mo_ring (merged_loop room r m mp msz hdr iov cookie chunk copied e
                  buf_idx uelem)).
Proof.
  induction room as [|room IH]; intros r m iov cookie chunk copied e buf_idx uelem;
    cbn [merged_loop];
    destruct (merged_copy_chain iov mp m chunk copied e) as [[[m1 ch] cp] e1];
    destruct (negb e1); cbn [mo_ring]; try apply no_interrupt_refl.
  pose proof (no_interrupt_popchain r m1 VTNET_MAXSEGS) as Hp.
  destruct (vq_popchain r m1 VTNET_MAXSEGS) as [r1 [|iov' cookie'|]];
    cbn [fst] in Hp; cbn [mo_ring]; try exact Hp.
  destruct (cp <? msz); cbn [mo_ring]; [|exact Hp].
  eapply no_interrupt_trans; [exact Hp | apply IH].
Qed.

Lemma no_interrupt_merged_done r err buf_idx uelem :
  no_interrupt r (merged_done r err buf_idx uelem).
Proof.
  unfold merged_done. cbv zeta.
  eapply no_interrupt_trans; [|apply no_interrupt_pushchain_mrgrx].
  destruct err; first [apply no_interrupt_refl | apply no_interrupt_stat].
Qed.

Lemma no_interrupt_recv_merged features r m mp msz uelem0 :
  no_interrupt r (fst (fst (viona_recv_merged features r m mp msz uelem0))).
Proof.
  unfold viona_recv_merged. cbv zeta.
  pose proof (no_interrupt_popchain r m VTNET_MAXSEGS) as Hp.
  destruct (vq_popchain r m VTNET_MAXSEGS) as [r1 [|iov cookie|]];
    cbn [fst] in Hp |- *;
    try (eapply no_interrupt_trans; [exact Hp | apply no_interrupt_stat]).
  destruct (iov_len (hd iovec0 iov) <? sizeof_virtio_net_mrgrxhdr).
  { cbn [fst]. eapply no_interrupt_trans; [exact Hp|].
    apply no_interrupt_merged_done. }
  destruct (iov_len (hd iovec0 iov) >? sizeof_virtio_net_mrgrxhdr);
    [destruct (viona_copy_mblk _ _ _ _ _) as [[m1 c] e]|];
    (match goal with
     | |- context [merged_loop ?a ?b ?c ?d ?e0 ?f ?g ?h ?i ?j ?k ?l ?n] =>
       pose proof (no_interrupt_merged_loop d e0 f a b c g h i j k l n) as Hl;
       set (o := merged_loop a b c d e0 f g h i j k l n) in *
     end);
    (assert (Hr : forall re,
               re = match mo_err o with
                    | EOK => if negb (mo_copied o =? msz)
                             then (VIONA_RING_STAT_INCR (mo_ring o) rs_too_short,
                                   EINVAL)
                             else (mo_ring o, EOK)
                    | e' => (mo_ring o, e')
                    end ->
               no_interrupt r1 (fst re));
     [ intros re ->; destruct (mo_err o); cbn [fst]; try exact Hl;
       destruct (negb (mo_copied o =? msz)); cbn [fst]; [|exact Hl];
       eapply no_interrupt_trans; [exact Hl | apply no_interrupt_stat]
     | specialize (Hr _ eq_refl);
       destruct (match mo_err o with EOK => _ | _ => _ end) as [r2 err];
       cbn [fst] in Hr |- *;
       eapply no_interrupt_trans; [exact Hp|];
       eapply no_interrupt_trans; [exact Hr | apply no_interrupt_merged_done] ]).
Qed.

Lemma no_interrupt_rx_loop env link :
  forall frames r m nrx ndrop,
    no_interrupt r (ro_ring (rx_loop env link frames r m nrx ndrop)).
Proof.
  induction frames as [|mp next IH]; intros r m nrx ndrop; cbn [rx_loop];
    [apply no_interrupt_refl|].
  cbv zeta.
  destruct (rx_emulate env link mp) as [mp1|]; [|apply IH].
  destruct (rx_hook env link mp1) as [mp2|].
  2:{ eapply no_interrupt_trans; [apply no_interrupt_stat | apply IH]. }
  assert (Hpad : match rx_pad env r mp2 (msgsize (m_blocks mp1)) with
                 | Some (r', _, _) => no_interrupt r r'
                 | None => True
                 end).
  { unfold rx_pad. destruct (_ =? NEED_VLAN_PAD_SIZE); [apply no_interrupt_refl|].
    destruct (_ <? MIN_BUF_SIZE); [|apply no_interrupt_refl].
    destruct (rx_allocb env mp2); [apply no_interrupt_stat | exact I]. }
  destruct (rx_pad env r mp2 (msgsize (m_blocks mp1))) as [[[r1 mp3] size]|];
    [|apply IH].
  assert (Hrecv : no_interrupt r1
            (fst (fst (if negb (Z.land (l_features link) VIRTIO_NET_F_MRG_RXBUF =? 0)
                       then viona_recv_merged (l_features link) r1 m mp3 size
                              (rx_stack_uelem env)
                       else viona_recv_plain (l_features link) r1 m mp3 size)))).
  { destruct (negb _); [apply no_interrupt_recv_merged | apply no_interrupt_recv_plain]. }
  destruct (if negb _ then _ else _) as [[r2 m2] err]. cbn [fst] in Hrecv.
  assert (H2 : no_interrupt r r2)
    by (eapply no_interrupt_trans; [exact Hpad | exact Hrecv]).
  destruct err; cbn [ro_ring]; try exact H2;
    (eapply no_interrupt_trans; [exact H2 | apply IH]).
Qed.


(** ** The bytes handed to MAC *)

Lemma u8_idem x : u8 (u8 x) = u8 x.
Proof. unfold u8. apply Z.mod_mod. lia. Qed.

Lemma gread_length m b n : length (gread m b n) = Z.to_nat n.
Proof. unfold gread. now rewrite length_map, length_seq. Qed.

Lemma gread_nth m b n j :
  0 <= j < n -> nth (Z.to_nat j) (gread m b n) 0 = byte_at m (b + j).
Proof.
  intros Hj. unfold gread.
  rewrite (nth_indep _ 0 (byte_at m (b + Z.of_nat 0)))
    by (rewrite length_map, length_seq; lia).
  rewrite (map_nth (fun i => byte_at m (b + Z.of_nat i))).
  rewrite seq_nth by lia. f_equal. lia.
Qed.

Lemma gread_ext m1 m2 b1 b2 n :
  (forall j, 0 <= j < n -> byte_at m1 (b1 + j) = byte_at m2 (b2 + j)) ->
  gread m1 b1 n = gread m2 b2 n.
Proof.
  intros H. unfold gread. apply map_ext_in. intros i Hi.
  apply in_seq in Hi. apply H. lia.
Qed.

Lemma seq_from n : forall a, seq a n = map (Nat.add a) (seq 0 n).
Proof.
  induction n as [|n IH]; intros a; [reflexivity|].
  cbn [seq map]. rewrite Nat.add_0_r. f_equal.
  rewrite <- (seq_shift n 0), map_map, (IH (S a)).
  apply map_ext. intros i. lia.
Qed.

Lemma gread_app m b n1 n2 :
  0 <= n1 -> 0 <= n2 ->
  gread m b (n1 + n2) = gread m b n1 ++ gread m (b + n1) n2.
Proof.
  intros H1 H2. unfold gread.
  rewrite Z2Nat.inj_add by lia. rewrite seq_app, map_app. f_equal.
  cbn [Nat.add]. rewrite (seq_from (Z.to_nat n2) (Z.to_nat n1)).
  rewrite map_map. apply map_ext. intros i. f_equal. lia.
Qed.

Lemma gread_bcopy m b n w buf :
  0 <= w -> 0 <= n ->
  gread (bcopy (gread m b n) w buf) 0 (w + n) = gread buf 0 w ++ gread m b n.
Proof.
  intros Hw Hn. rewrite gread_app by assumption.
  assert (Hlen : zlen (gread m b n) = n)
    by (unfold zlen; rewrite gread_length; lia).
  f_equal.
  - apply gread_ext. intros j Hj. unfold byte_at.
    rewrite bcopy_outside by lia. reflexivity.
  - apply gread_ext. intros j Hj. unfold byte_at at 1.
    rewrite Z.add_0_l, bcopy_inside by lia.
    rewrite gread_nth by lia. unfold byte_at. apply u8_idem.
Qed.

Lemma rest_data_0 m rest : rest_data m rest 0 = flat_map (seg_data m) rest.
Proof.
  destruct rest as [|v r]; [reflexivity|].
  cbn [rest_data flat_map]. unfold seg_data at 2.
  now rewrite Z.add_0_r, Z.sub_0_r.
Qed.

Lemma tx_copy_hdrs_data m :
  forall iov min_copy head len,
    0 <= min_copy < 2 ^ 32 ->
    Forall (fun v => 0 < iov_len v) iov ->
    0 <= hb_wptr head ->
    match tx_copy_hdrs m iov min_copy head len with
    | (head', _, rest, base_off) =>
      gread (hb_buf head') 0 (hb_wptr head') ++ rest_data m rest base_off =
      gread (hb_buf head) 0 (hb_wptr head) ++ flat_map (seg_data m) iov /\
      (rest <> [] -> 0 <= base_off < iov_len (hd iovec0 rest)) /\
      (forall P : iovec -> Prop, Forall P iov -> Forall P rest)
    end.
Proof.
  induction iov as [|v rest IH]; intros min_copy head len Hmin Hpos Hw;
    cbn [tx_copy_hdrs].
  - split; [reflexivity|]. split; [intros H; contradiction | auto].
  - inversion Hpos as [|? ? Hv Hrest]; subst.
    set (t := Z.min min_copy (iov_len v)).
    assert (Ht : 0 <= t <= min_copy /\ t <= iov_len v) by (subst t; lia).
    assert (Eu : u32 t = t) by (apply u32_small; lia).
    cbv zeta. fold t. rewrite Eu.
    assert (Em : u32 (min_copy - t) = min_copy - t) by (apply u32_small; lia).
    rewrite Em.
    assert (Hhead : gread (bcopy (gread m (iov_base v) t) (hb_wptr head)
                             (hb_buf head)) 0 (hb_wptr head + t) =
                    gread (hb_buf head) 0 (hb_wptr head) ++ gread m (iov_base v) t)
      by (apply gread_bcopy; lia).
    destruct (min_copy - t =? 0) eqn:E0.
    + destruct (iov_len v =? t) eqn:E1.
      * apply Z.eqb_eq in E1. cbn [hb_buf hb_wptr].
        rewrite Hhead, rest_data_0, <- app_assoc. cbn [flat_map].
        unfold seg_data at 2. rewrite E1. split; [reflexivity|].
        split; [|intros P HP; inversion HP; assumption].
        intros Hne. destruct rest as [|v' r]; [contradiction|].
        inversion Hrest; subst. cbn [hd]. lia.
      * apply Z.eqb_neq in E1. cbn [hb_buf hb_wptr rest_data hd].
        rewrite Hhead, <- app_assoc. cbn [flat_map].
        split; [|split; [intros _; lia | auto]].
        f_equal. rewrite app_assoc. f_equal. unfold seg_data.
        rewrite <- gread_app by lia. f_equal. lia.
    + apply Z.eqb_neq in E0.
      assert (Et : t = iov_len v) by (subst t; lia).
      match goal with
      | |- match tx_copy_hdrs m rest ?mc ?h ?l with _ => _ end =>
        specialize (IH mc h l ltac:(lia) Hrest ltac:(cbn; lia));
        destruct (tx_copy_hdrs m rest mc h l) as [[[head' len'] rest'] bo]
      end.
      destruct IH as (IH1 & IH2 & IH3).
      split; [|split; [exact IH2 | intros P HP; inversion HP; auto]].
      rewrite IH1. cbn [hb_buf hb_wptr flat_map].
      rewrite Hhead, <- app_assoc. unfold seg_data at 3. rewrite Et.
      reflexivity.
Qed.

Lemma tx_build_tail_data env dp m c :
  forall iov base_off k ring tail len,
    (iov <> [] -> 0 <= base_off < iov_len (hd iovec0 iov)) ->
    Forall (fun v => 0 < iov_len v < 2 ^ 32) iov ->
    match tx_build_tail env dp m c iov base_off k ring tail len with
    | BuildOk _ tail' _ => msgdata tail' = msgdata tail ++ rest_data m iov base_off
    | BuildFail _ _ => True
    end.
Proof.
  induction iov as [|v rest IH]; intros base_off k ring tail len Hbo Hpos;
    cbn [tx_build_tail].
  - cbn [rest_data]. now rewrite app_nil_r.
  - inversion Hpos as [|? ? Hv Hrest]; subst.
    specialize (Hbo ltac:(discriminate)). cbn [hd] in Hbo.
    destruct (tx_alloc env k); [|exact I].
    cbv zeta.
    assert (Eu : u32 (iov_len v - base_off) = iov_len v - base_off)
      by (apply u32_small; lia).
    rewrite Eu.
    match goal with
    | |- match tx_build_tail _ _ _ _ _ ?b ?k' ?r' ?t ?l with _ => _ end =>
      specialize (IH b k' r' t l);
      destruct (tx_build_tail env dp m c rest b k' r' t l); [|exact I]
    end.
    rewrite IH; [|intros Hne; destruct rest as [|v' r]; [contradiction|];
                  inversion Hrest; subst; cbn [hd]; lia | exact Hrest].
    rewrite msgdata_app, rest_data_0, <- app_assoc. f_equal.
    cbn [rest_data]. f_equal. unfold msgdata. cbn [flat_map blk_data].
    apply app_nil_r.
Qed.

Lemma pulled_up_data :
  forall frame n, msgdata (pulled_up n frame) = msgdata frame.
Proof.
  induction frame as [|b rest IH]; intros n; destruct n as [|n];
    cbn [pulled_up]; try reflexivity.
  destruct (blk_desb b); unfold msgdata in *; cbn [flat_map blk_data];
    f_equal; apply IH.
Qed.

Lemma tx_hook_data env link ring dp c head tail :
  l_hook_out link = false \/ hook_keeps_bytes env ->
  match tx_hook env link ring dp c head tail with
  | HookOk _ _ head' tail' =>
    msgdata (tx_frame head' tail') = msgdata (tx_frame head tail)
  | HookDrop _ => True
  end.
Proof.
  intros Hkeep. unfold tx_hook.
  destruct (l_hook_out link) eqn:Eh; [|reflexivity].
  destruct Hkeep as [Hk|Hk]; [discriminate|].
  cbv zeta.
  destruct (tx_hook_run env (tx_frame head tail)) as [n ds|] eqn:Ev; [|exact I].
  rewrite (Hk _ _ _ Ev). cbn [with_data].
  set (k := Nat.min n (desb_blocks (tx_frame head tail))).
  assert (H : msgdata (tx_frame
                {| hb_desb := hb_desb head && (k =? 0)%nat;
                   hb_buf := hb_buf head; hb_wptr := hb_wptr head |}
                (tl (pulled_up k (tx_frame head tail)))) =
              msgdata (tx_frame head tail)).
  { rewrite <- pulled_up_frame. apply pulled_up_data. }
  destruct dp; [|exact H].
  destruct (d_ref _ =? 1); exact H.
Qed.

Lemma tx_prepare_data env link ring m iov c :
  l_hook_out link = false \/ hook_keeps_bytes env ->
  Forall (fun v => 0 < iov_len v < 2 ^ 32) iov ->
  match tx_prepare env link ring m iov c with
  | Prepared _ _ head tail _ => msgdata (tx_frame head tail) = tx_payload m iov
  | _ => True
  end.
Proof.
  intros Hkeep Hpos. unfold tx_prepare. cbv zeta.
  destruct (u32 (iov_len (hd iovec0 iov)) <? sizeof_virtio_net_hdr); [exact I|].
  pose proof (tx_claim_spec env ring c) as Hc.
  destruct (tx_claim env ring c) as [|r1 dp|r1 dp head]; try exact I.
  destruct Hc as (_ & _ & _ & _ & Hw0).
  assert (Htl : Forall (fun v => 0 < iov_len v < 2 ^ 32) (tl iov))
    by (destruct iov; [constructor | inversion Hpos; assumption]).
  assert (Htl' : Forall (fun v => 0 < iov_len v) (tl iov))
    by (eapply Forall_impl; [|exact Htl]; cbn; intros; lia).
  pose proof (tx_copy_hdrs_data m (tl iov) VIONA_MAX_HDRS_LEN head
                (u32 (iov_len (hd iovec0 iov)))
                ltac:(unfold VIONA_MAX_HDRS_LEN; lia) Htl' ltac:(lia)) as Hh.
  destruct (tx_copy_hdrs m (tl iov) VIONA_MAX_HDRS_LEN head _)
    as [[[head1 len1] rest] base_off].
  destruct Hh as (Hdata & Hbo & Hsuf).
  pose proof (Hsuf _ Htl) as Hrest.
  pose proof (tx_build_tail_data env dp m c rest base_off 1 r1 [] len1 Hbo Hrest)
    as Hb.
  destruct (tx_build_tail env dp m c rest base_off 1 r1 [] len1)
    as [r2 tail len2 | r2 tail]; [|exact I].
  pose proof (tx_hook_data env link r2 dp c head1 tail Hkeep) as Hk.
  destruct (tx_hook env link r2 dp c head1 tail) as [r3 dp3 h3 t3 | r3]; [|exact I].
  rewrite Hk.
  change (msgdata (tx_frame head1 tail))
    with (gread (hb_buf head1) 0 (hb_wptr head1) ++ msgdata tail).
  rewrite Hb. change (msgdata []) with (@nil Z). cbn [app].
  rewrite Hdata, Hw0. reflexivity.
Qed.

Lemma load_le_lt m n : forall a, load_le m a n < 256 ^ Z.of_nat n.
Proof.
  induction n as [|n IH]; intros a; cbn [load_le]; [cbn; lia|].
  specialize (IH (a + 1)). pose proof (u8_range (m a)) as Hb.
  unfold byte_at. rewrite Nat2Z.inj_succ, Z.pow_succ_r by lia.
  change (2 ^ 8) with 256 in Hb. lia.
Qed.

Lemma seg_translated_bound ring m v :
  seg_translated ring m v -> 0 < iov_len v < 2 ^ 32.
Proof.
  intros (d & Hd & _ & Hl & _ & E). rewrite E. split; [exact Hl|].
  destruct Hd as [(i & _ & ->) | (t & vindir & k & _ & _ & _ & _ & _ & _ & ->)].
  - apply u32_range.
  - apply (load_le_lt m 4).
Qed.

Lemma tx_send_plain K link r m dp head tail len iov c :
  tx_needs_csum link m (iov_base (hd iovec0 iov)) = false ->
  exists r' l,
    tx_send K link r m dp head tail len iov c = TxDone r' /\
    logged r r' l /\ mac_frames l = [tx_frame head tail].
Proof.
  intros Hn. unfold tx_send. cbv zeta. rewrite Hn.
  destruct dp.
  - eexists _, [EvMacTx (tx_frame head tail)].
    split; [reflexivity|]. split; reflexivity.
  - destruct (viona_tx_done_spec r len c) as (_ & _ & l0 & Hl0 & _ & Hm0 & _).
    eexists _, (l0 ++ [EvMacTx (tx_frame head tail)]).
    split; [reflexivity|]. split.
    + unfold logged in *. cbn. rewrite Hl0, app_assoc. reflexivity.
    + rewrite mac_frames_app, Hm0. reflexivity.
Qed.

(** X18. What MAC is handed is what the guest posted, on a link whose
    frames no hook consumer rewrites: one with no out-bound subscriber
    ([l_hook_out] clear), or whose subscribers leave the bytes of the
    frames they accept alone.  For every chain that [viona_tx] pops there and
    whose header does not ask for checksum offload, the call returns and
    hands MAC at most one frame; the bytes of that frame, block after
    block, are the bytes of the chain's segments after the virtio-net
    header, in order and complete, whether they were copied into the header
    block, copied into fresh blocks or lent by reference, and whatever such
    a hook pulled up.  Nothing is said of a link whose hook rewrites or
    replaces the message: there MAC is handed what the hook left. *)
Theorem viona_tx_sends_payload (K : sys_headers) (env : tx_env)
    (link : viona_link) (ring ring1 : viona_vring) (m : gmem)
    (iov : list iovec) (cookie : Z) :
  0 < vr_size ring <= VRING_MAX_LEN ->
  vq_popchain ring m (vr_size ring) = (ring1, PopChain iov cookie) ->
  tx_needs_csum link m (iov_base (hd iovec0 iov)) = false ->
  l_hook_out link = false \/ hook_keeps_bytes env ->
  exists ring',
    viona_tx K env link ring m = TxDone ring' /\
    (mac_frames (log_since ring ring') = [] \/
     exists frame,
       mac_frames (log_since ring ring') = [frame] /\
       msgdata frame = tx_payload m iov /\
       msgsize frame = zlen (tx_payload m iov)).
Proof.
  intros Hsz Hpop Hn Hkeep.
  destruct (popped_chain_facts ring m ring1 iov cookie Hsz Hpop)
    as (Hne & Hpos & Hbound).
  destruct (vq_popchain_txdesb ring m _ ring1 _ Hpop) as [Hd1 Hl1].
  destruct (vq_popchain_chain ring m (vr_size ring) ring1 iov cookie
              (proj1 Hsz) Hpop)
    as (_ & Hsegs).
  assert (Hlens : Forall (fun v => 0 < iov_len v < 2 ^ 32) iov).
  { eapply Forall_impl; [|exact Hsegs]. apply seg_translated_bound. }
  unfold viona_tx. rewrite Hpop.
  pose proof (tx_prepare_spec env link ring1 m iov cookie Hne Hpos Hbound) as Hprep.
  pose proof (tx_prepare_data env link ring1 m iov cookie Hkeep Hlens) as Hdata.
  destruct (tx_prepare env link ring1 m iov cookie)
    as [r dp head tail len|r dp frame|r dp].
  - destruct Hprep as (L & _).
    destruct (tx_send_plain K link r m dp head tail len iov cookie Hn)
      as (r' & l & E & Hl & Hm).
    exists r'. split; [exact E|]. right. exists (tx_frame head tail).
    assert (Hlog : logged ring r' l) by (unfold logged in *; congruence).
    rewrite (logged_since _ _ _ Hlog). split; [exact Hm|].
    split; [exact Hdata|]. rewrite <- Hdata. symmetry. apply msgdata_length.
  - destruct Hprep as (L & S & Hrefs & Hcnt).
    destruct (tx_drop_fail_spec ring1 r dp frame iov cookie Hrefs ltac:(lia))
      as (r' & E & _ & _ & _ & l & Hl & _ & Hm & _).
    exists r'. split; [exact E|]. left.
    assert (Hlog : logged ring r' l) by (unfold logged in *; congruence).
    rewrite (logged_since _ _ _ Hlog). exact Hm.
  - destruct Hprep as (L & S & Hdt & Hdf).
    destruct (tx_drop_hook_spec r dp iov cookie Hdt)
      as (r' & E & _ & _ & _ & l & Hl & _ & Hm & _).
    exists r'. split; [exact E|]. left.
    assert (Hlog : logged ring r' l) by (unfold logged in *; congruence).
    rewrite (logged_since _ _ _ Hlog). exact Hm.
Qed.

Lemma viona_tx_sends_payload_witness :
  let ring := hdr_payload_ring 3 in
  let m := tx_mem [] [7; 8; 9] in
  let iov := [{| iov_base := 20480; iov_len := 10 |};
              {| iov_base := 24576; iov_len := 3 |}] in
  0 < vr_size ring <= VRING_MAX_LEN /\
  vq_popchain ring m (vr_size ring) =
    (fst (vq_popchain ring m (vr_size ring)), PopChain iov 0) /\
  tx_needs_csum (tx_link 0 0) m (iov_base (hd iovec0 iov)) = false /\
  (l_hook_out (tx_link 0 0) = false \/ hook_keeps_bytes tx_quiet_env) /\
  tx_payload m iov = [7; 8; 9] /\
  exists ring',
    viona_tx illumos_headers tx_quiet_env (tx_link 0 0) ring m = TxDone ring' /\
    (mac_frames (log_since ring ring') = [] \/
     exists frame,
       mac_frames (log_since ring ring') = [frame] /\
       msgdata frame = tx_payload m iov /\
       msgsize frame = zlen (tx_payload m iov)).
Proof.
  cbn zeta.
  assert (Hsz : 0 < vr_size (hdr_payload_ring 3) <= VRING_MAX_LEN)
    by (vm_compute; split; [reflexivity|discriminate]).
  assert (Hpop : vq_popchain (hdr_payload_ring 3) (tx_mem [] [7; 8; 9])
                   (vr_size (hdr_payload_ring 3)) =
                 (fst (vq_popchain (hdr_payload_ring 3) (tx_mem [] [7; 8; 9])
                         (vr_size (hdr_payload_ring 3))),
                  PopChain [{| iov_base := 20480; iov_len := 10 |};
                            {| iov_base := 24576; iov_len := 3 |}] 0))
    by (apply pop_result_eq; vm_compute; reflexivity).
  assert (Hn : tx_needs_csum (tx_link 0 0) (tx_mem [] [7; 8; 9])
                 (iov_base (hd iovec0
                              [{| iov_base := 20480; iov_len := 10 |};
                               {| iov_base := 24576; iov_len := 3 |}])) = false)
    by (vm_compute; reflexivity).
  split; [exact Hsz|]. split; [exact Hpop|]. split; [exact Hn|].
  split; [left; reflexivity|].
  split; [vm_compute; reflexivity|].
  exact (viona_tx_sends_payload illumos_headers tx_quiet_env (tx_link 0 0)
           (hdr_payload_ring 3) _ (tx_mem [] [7; 8; 9]) _ 0 Hsz Hpop Hn
           (or_introl eq_refl)).
Defined.

(** ** Ring set-up *)

Lemma P2ROUNDUP_spec x :
  0 <= x -> x + VRING_ALIGN <= 2 ^ 64 ->
  P2ROUNDUP x VRING_ALIGN mod VRING_ALIGN = 0 /\
  x <= P2ROUNDUP x VRING_ALIGN < x + VRING_ALIGN.
Proof.
  unfold P2ROUNDUP, VRING_ALIGN. intros H0 H1.
  pose proof (Z.div_mod (x + 4096 - 1) 4096 ltac:(lia)) as Hd.
  pose proof (Z.mod_pos_bound (x + 4096 - 1) 4096 ltac:(lia)) as Hm.
  assert (Hr : x <= (x + 4096 - 1) / 4096 * 4096 < x + 4096) by lia.
  unfold u64. rewrite (Z.mod_small _ (2 ^ 64)) by lia.
  split; [apply Z_mod_mult | exact Hr].
Qed.

Lemma map_spec m vs :
  same_control (vs_ring vs) (vs_ring (fst (viona_ring_map m vs))) /\
  vr_lease (vs_ring (fst (viona_ring_map m vs))) = vr_lease (vs_ring vs) /\
  vs_leased (fst (viona_ring_map m vs)) = vs_leased vs /\
  vs_pa (fst (viona_ring_map m vs)) = vs_pa vs /\
  vs_txiov (fst (viona_ring_map m vs)) = vs_txiov vs /\
  vs_worker (fst (viona_ring_map m vs)) = vs_worker vs /\
  (if snd (viona_ring_map m vs)
   then vs_map (fst (viona_ring_map m vs)) <> None
   else vs_map (fst (viona_ring_map m vs)) = None /\
        vs_ring (fst (viona_ring_map m vs)) = vs_ring vs).
Proof.
  unfold viona_ring_map. cbv zeta.
  destruct (viona_gpa2kva _ _ _); [|cbn; unfold same_control; repeat split].
  destruct (viona_gpa2kva _ _ _); [|cbn; unfold same_control; repeat split].
  destruct (viona_gpa2kva _ _ _); cbn; unfold same_control; repeat split.
  discriminate.
Qed.

Lemma drop_spec vs :
  same_control (vs_ring vs) (vs_ring (viona_ring_lease_drop vs)) /\
  vs_leased (viona_ring_lease_drop vs) = false /\
  vs_pa (viona_ring_lease_drop vs) = vs_pa vs /\
  vs_txiov (viona_ring_lease_drop vs) = vs_txiov vs /\
  vs_worker (viona_ring_lease_drop vs) = vs_worker vs /\
  (vs_map vs = None \/ vs_leased vs = true ->
   vs_map (viona_ring_lease_drop vs) = None).
Proof.
  unfold viona_ring_lease_drop. destruct (vs_leased vs) eqn:E; cbn;
    unfold same_control; repeat split; try assumption.
  intros [H | H]; [exact H | discriminate].
Qed.

Lemma same_control_refl r : same_control r r.
Proof. unfold same_control. repeat split. Qed.

Lemma same_control_trans r1 r2 r3 :
  same_control r1 r2 -> same_control r2 r3 -> same_control r1 r3.
Proof.
  unfold same_control. intros H1 H2.
  repeat match goal with H : _ /\ _ |- _ => destruct H end.
  repeat split; congruence.
Qed.

Lemma renew_spec sign m vs :
  same_control (vs_ring vs) (vs_ring (fst (viona_ring_lease_renew sign m vs))) /\
  vs_leased (fst (viona_ring_lease_renew sign m vs)) =
    snd (viona_ring_lease_renew sign m vs) /\
  vs_pa (fst (viona_ring_lease_renew sign m vs)) = vs_pa vs /\
  vs_txiov (fst (viona_ring_lease_renew sign m vs)) = vs_txiov vs /\
  vs_worker (fst (viona_ring_lease_renew sign m vs)) = vs_worker vs /\
  (snd (viona_ring_lease_renew sign m vs) = false ->
   vs_map vs = None \/ vs_leased vs = true ->
   vs_map (fst (viona_ring_lease_renew sign m vs)) = None) /\
  (sign = None -> snd (viona_ring_lease_renew sign m vs) = false).
Proof.
  unfold viona_ring_lease_renew. cbv zeta.
  destruct (drop_spec vs) as (Hc & Hl & Hp & Ht & Hw & Hm).
  set (vs1 := viona_ring_lease_drop vs) in *.
  destruct sign as [lease|].
  2:{ cbn. split; [exact Hc|]. repeat split; try assumption.
      intros _ H. exact (Hm H). }
  change (vs_leased (set_lease (Some lease) vs1)) with true. cbv iota.
  set (vs2 := set_lease (Some lease) vs1).
  assert (H2 : same_control (vs_ring vs) (vs_ring vs2) /\ vs_pa vs2 = vs_pa vs /\
               vs_txiov vs2 = vs_txiov vs /\ vs_worker vs2 = vs_worker vs /\
               vs_leased vs2 = true).
  { subst vs2. cbn. split; [exact Hc|]. repeat split; assumption. }
  destruct H2 as (Hc2 & Hp2 & Ht2 & Hw2 & Hl2).
  destruct (negb (vs_pa vs2 =? 0) && negb (vr_size (vs_ring vs2) =? 0)).
  2:{ cbn [fst snd]. rewrite Hl2. split; [exact Hc2|].
      repeat split; try assumption; intros; discriminate. }
  destruct (map_spec m vs2) as (Hc3 & _ & Hl3 & Hp3 & Ht3 & Hw3 & Hm3).
  destruct (viona_ring_map m vs2) as [vs3 ok]. cbn [fst snd] in *.
  destruct ok; cbn [fst snd].
  - rewrite Hl3, Hl2.
    split; [eapply same_control_trans; eassumption|].
    repeat split; try congruence; intros; discriminate.
  - destruct (drop_spec vs3) as (Hc4 & Hl4 & Hp4 & Ht4 & Hw4 & Hm4).
    split; [eapply same_control_trans; [|exact Hc4];
            eapply same_control_trans; eassumption|].
    repeat split; try congruence;
      try (intros _ _; apply Hm4; left; tauto); intros; discriminate.
Qed.

Ltac map_fails :=
  cbn [fst snd vs_map viona_ring_unmap with_map];
  split;
  [ split;
    [ intros H; discriminate H
    | intros (H1 & H2 & H3); exfalso;
      first [apply H1; reflexivity | apply H2; reflexivity
            | apply H3; reflexivity] ]
  | split; [intros _; reflexivity | intros mp H; discriminate H] ].

(** X19. The three regions [viona_ring_map] asks the lease to translate lie
    one after the other in guest-physical memory: the descriptor table of
    16 bytes an entry at [vr_pa], the available ring of [2 * size + 6] bytes
    right behind it, and the used ring of [8 * size + 6] bytes at the next
    4096-byte boundary, less than 4096 bytes further.  The call succeeds
    exactly when all three translate; when it fails nothing stays mapped.
    Every pointer it derives stays inside the region it was derived from:
    the entries of the available and of the used ring and the two event
    words end exactly where the translated regions end. *)
Theorem viona_ring_map_layout m vs :
  let ring := vs_ring vs in
  let q := vr_size ring in
  let pa := vs_pa vs in
  let avail_pa := pa + 16 * q in
  let avail_end := avail_pa + (2 * q + 6) in
  let used_pa := P2ROUNDUP avail_end VRING_ALIGN in
  0 < q <= VRING_MAX_LEN -> 0 <= pa ->
  pa + 26 * q + 12 + VRING_ALIGN <= 2 ^ 64 ->
  (used_pa mod VRING_ALIGN = 0 /\ avail_end <= used_pa < avail_end + VRING_ALIGN) /\
  (snd (viona_ring_map m vs) = true <->
   viona_gpa2kva ring pa (16 * q) <> None /\
   viona_gpa2kva ring avail_pa (2 * q + 6) <> None /\
   viona_gpa2kva ring used_pa (8 * q + 6) <> None) /\
  (snd (viona_ring_map m vs) = false ->
   vs_map (fst (viona_ring_map m vs)) = None) /\
  (forall mp, snd (viona_ring_map m vs) = true ->
     vs_map (fst (viona_ring_map m vs)) = Some mp ->
     viona_gpa2kva ring pa (16 * q) = Some (map_descr mp) /\
     viona_gpa2kva ring avail_pa (2 * q + 6) = Some (map_avail_flags mp) /\
     viona_gpa2kva ring used_pa (8 * q + 6) = Some (map_used_flags mp) /\
     map_avail_idx mp = map_avail_flags mp + 2 /\
     (forall i, 0 <= i < q ->
        map_avail_flags mp + 4 <= map_avail_ring mp + 2 * i /\
        map_avail_ring mp + 2 * i + 2 <= map_avail_used_event mp) /\
     map_avail_used_event mp + 2 = map_avail_flags mp + (2 * q + 6) /\
     map_used_idx mp = map_used_flags mp + 2 /\
     (forall i, 0 <= i < q ->
        map_used_flags mp + 4 <= map_used_ring mp + 8 * i /\
        map_used_ring mp + 8 * i + 8 <= map_used_avail_event mp) /\
     map_used_avail_event mp + 2 = map_used_flags mp + (8 * q + 6)).
Proof.
  intros ring q pa avail_pa avail_end used_pa Hq Hpa Hfit.
  unfold VRING_MAX_LEN in Hq. unfold VRING_ALIGN in Hfit.
  assert (Hround : used_pa mod VRING_ALIGN = 0 /\
                   avail_end <= used_pa < avail_end + VRING_ALIGN).
  { apply (P2ROUNDUP_spec avail_end); unfold VRING_ALIGN;
      subst avail_end avail_pa; lia. }
  split; [exact Hround|].
  unfold viona_ring_map. cbv zeta. fold ring. fold q. fold pa.
  assert (Eq : u16 q = q) by (apply u16_small; lia).
  rewrite Eq. unfold sizeof_virtio_desc, sizeof_virtio_used.
  replace (q * 16) with (16 * q) by lia.
  assert (E1 : u64 (pa + 16 * q) = avail_pa)
    by (apply Z.mod_small; subst avail_pa; lia).
  rewrite E1.
  replace ((q + 3) * 2) with (2 * q + 6) by lia.
  assert (E2 : u64 (avail_pa + (2 * q + 6)) = avail_end)
    by (apply Z.mod_small; subst avail_end avail_pa; lia).
  rewrite E2. fold used_pa.
  replace (q * 8 + 2 * 3) with (8 * q + 6) by lia.
  destruct (viona_gpa2kva ring pa (16 * q)) as [d|];
    [|map_fails].
  destruct (viona_gpa2kva ring avail_pa (2 * q + 6)) as [af|];
    [|map_fails].
  destruct (viona_gpa2kva ring used_pa (8 * q + 6)) as [uf|];
    [|map_fails].
  cbn [fst snd vs_map with_ring with_map].
  split; [split; [intros _; repeat split; discriminate | reflexivity]|].
  split; [discriminate|].
  remember (2 * q) as q2 eqn:Eq2. remember (8 * q) as q8 eqn:Eq8.
  intros mp _ E. injection E as <-.
  cbn [map_descr map_avail_flags map_avail_idx map_avail_ring
       map_avail_used_event map_used_flags map_used_idx map_used_ring
       map_used_avail_event].
  repeat split; intros; try reflexivity; lia.
Qed.

Lemma viona_ring_map_layout_witness :
  snd (viona_ring_map zero_mem (setup_of two_desc_ring true 8192)) = true /\
  P2ROUNDUP (8192 + 16 * 4 + (2 * 4 + 6)) VRING_ALIGN = 12288.
Proof.
  pose proof (viona_ring_map_layout zero_mem (setup_of two_desc_ring true 8192))
    as H.
  cbv zeta in H.
  change (vr_size (vs_ring (setup_of two_desc_ring true 8192))) with 4 in H.
  change (vs_pa (setup_of two_desc_ring true 8192)) with 8192 in H.
  specialize (H ltac:(unfold VRING_MAX_LEN; lia) ltac:(lia)
                ltac:(unfold VRING_ALIGN; lia)).
  destruct H as (_ & (_ & Hok) & _).
  split; [|vm_compute; reflexivity].
  apply Hok. repeat split; vm_compute; discriminate.
Defined.

Lemma ffs_pos_pow2 p :
  1 <= ffs_pos p /\
  (2 ^ (ffs_pos p - 1) = Z.pos p <-> exists k, 0 <= k /\ Z.pos p = 2 ^ k).
Proof.
  induction p as [p IH|p IH|]; cbn [ffs_pos].
  - split; [lia|]. change (2 ^ (1 - 1)) with 1. split; [lia|].
    intros (k & Hk & E). exfalso.
    destruct (Z.eq_dec k 0) as [-> | Hne]; [cbn in E; lia|].
    replace k with (Z.succ (k - 1)) in E by lia.
    rewrite Z.pow_succ_r in E by lia. lia.
  - destruct IH as (H1 & IH). split; [lia|].
    replace (1 + ffs_pos p - 1) with (Z.succ (ffs_pos p - 1)) by lia.
    rewrite Z.pow_succ_r by lia.
    change (Z.pos p~0) with (2 * Z.pos p). split.
    + intros E. assert (E' : 2 ^ (ffs_pos p - 1) = Z.pos p) by lia.
      apply IH in E'. destruct E' as (k & Hk & Ek).
      exists (Z.succ k). split; [lia|]. rewrite Z.pow_succ_r by lia. lia.
    + intros (k & Hk & E).
      destruct (Z.eq_dec k 0) as [-> | Hne]; [cbn in E; lia|].
      replace k with (Z.succ (k - 1)) in E by lia.
      rewrite Z.pow_succ_r in E by lia.
      assert (E' : 2 ^ (ffs_pos p - 1) = Z.pos p);
        [apply IH; exists (k - 1); split; lia | lia].
  - split; [lia|]. change (2 ^ (1 - 1)) with 1. split; [|reflexivity].
    intros _. exists 0. split; [lia | reflexivity].
Qed.

(** The test on the ring size in [viona_ioc_ring_init] lets through the
    powers of two from 1 to 32768 and nothing else. *)
Lemma ring_size_check q :
  0 <= q ->
  ((q =? 0) || (q >? VRING_MAX_LEN) || negb (Z.shiftl 1 (ffs q - 1) =? q) = false
   <-> exists k, 0 <= k <= 15 /\ q = 2 ^ k).
Proof.
  intros Hq. unfold VRING_MAX_LEN.
  rewrite !Bool.orb_false_iff, Bool.negb_false_iff, !Z.eqb_neq, Z.eqb_eq.
  split.
  - intros ((H0 & Hmax) & Hs).
    assert (Hle : q <= 32768).
    { destruct (q >? 32768) eqn:E; [discriminate | lia]. }
    destruct q as [|p|p]; try lia. cbn [ffs] in Hs.
    destruct (ffs_pos_pow2 p) as (H1 & Hp).
    rewrite Z.shiftl_mul_pow2, Z.mul_1_l in Hs by lia.
    apply Hp in Hs. destruct Hs as (k & Hk & E).
    exists k. split; [|exact E]. split; [lia|].
    destruct (Z_le_gt_dec k 15) as [Hk15 | Hk16]; [exact Hk15|]. exfalso.
    assert (2 ^ 16 <= 2 ^ k) by (apply Z.pow_le_mono_r; lia).
    change (2 ^ 16) with 65536 in *. lia.
  - intros (k & Hk & ->).
    assert (Hpos : 0 < 2 ^ k) by (apply Z.pow_pos_nonneg; lia).
    assert (Hle : 2 ^ k <= 2 ^ 15) by (apply Z.pow_le_mono_r; lia).
    change (2 ^ 15) with 32768 in Hle.
    split; [split; [lia|]|].
    + destruct (2 ^ k >? 32768) eqn:E; [lia | reflexivity].
    + destruct (2 ^ k) as [|p|p] eqn:E; try lia. cbn [ffs].
      destruct (ffs_pos_pow2 p) as (H1 & Hp).
      rewrite Z.shiftl_mul_pow2, Z.mul_1_l by lia.
      apply Hp. exists k. split; [lia | congruence].
Qed.

Lemma mask_is_mod k i :
  0 <= k -> Z.land i (2 ^ k - 1) = i mod 2 ^ k.
Proof.
  intros Hk. rewrite <- Z.land_ones by lia. f_equal.
  rewrite Z.ones_equiv. lia.
Qed.

(** X20. [viona_ioc_ring_init] validates before it touches anything: a
    failed copy-in gives EFAULT, a ring index of [VIONA_VQ_MAX] or more or a
    size that is not a power of two between 1 and 32768 gives EINVAL, and a
    ring that is not in RESET gives EBUSY; in each case every ring of the
    link is left exactly as it was. *)
Theorem ring_init_validates env rings kri :
  viona_ioc_ring_init env rings None = RingInit rings IOC_EFAULT /\
  (VIONA_VQ_MAX <= ri_index kri ->
   viona_ioc_ring_init env rings (Some kri) = RingInit rings IOC_EINVAL) /\
  ((forall k, 0 <= k <= 15 -> u16 (ri_qsize kri) <> 2 ^ k) ->
   viona_ioc_ring_init env rings (Some kri) = RingInit rings IOC_EINVAL) /\
  (ri_index kri < VIONA_VQ_MAX ->
   (exists k, 0 <= k <= 15 /\ u16 (ri_qsize kri) = 2 ^ k) ->
   vr_state (vs_ring (rings (ri_index kri))) <> VRS_RESET ->
   viona_ioc_ring_init env rings (Some kri) = RingInit rings IOC_EBUSY).
Proof.
  split; [reflexivity|]. unfold viona_ioc_ring_init.
  pose proof (ring_size_check (u16 (ri_qsize kri))
                (proj1 (u16_range (ri_qsize kri)))) as Hchk.
  split; [|split].
  - intros Hidx.
    destruct (ri_index kri >=? VIONA_VQ_MAX) eqn:E; [reflexivity | lia].
  - intros Hbad.
    destruct (ri_index kri >=? VIONA_VQ_MAX); [reflexivity|].
    cbv zeta.
    destruct ((u16 (ri_qsize kri) =? 0) || (u16 (ri_qsize kri) >? VRING_MAX_LEN)
              || negb (Z.shiftl 1 (ffs (u16 (ri_qsize kri)) - 1) =?
                       u16 (ri_qsize kri))) eqn:E; [reflexivity|].
    exfalso. destruct (proj1 Hchk eq_refl) as (k & Hk & E').
    exact (Hbad k Hk E').
  - intros Hidx Hsz Hst.
    destruct (ri_index kri >=? VIONA_VQ_MAX) eqn:E; [lia|].
    cbv zeta. apply (proj2 Hchk) in Hsz. rewrite Hsz.
    destruct (vr_state (vs_ring (rings (ri_index kri)))); try reflexivity.
    contradiction.
Qed.

(** X21. When [viona_ioc_ring_init] returns 0 the ring it set up is ready
    for its worker: it is in SETUP with the lease held, the three regions
    mapped at the address the caller gave and the worker created; its size
    is the power of two requested and its mask is the size less one, so
    that masking an index is reduction modulo the size; the position in the
    available ring, the MSI configuration and all statistics are zero; a TX
    ring without forced copying has a reclamation descriptor with no
    reference for every entry; the waiters on the ring were woken; and no
    other ring of the link changed. *)
Theorem ring_init_ready env rings kri :
  init_err (viona_ioc_ring_init env rings (Some kri)) = Some IOC_OK ->
  let idx := ri_index kri in
  let vs := init_rings rings (viona_ioc_ring_init env rings (Some kri)) idx in
  let r := vs_ring vs in
  idx < VIONA_VQ_MAX /\
  vr_state (vs_ring (rings idx)) = VRS_RESET /\
  vr_state r = VRS_SETUP /\
  (exists k, 0 <= k <= 15 /\ vr_size r = 2 ^ k) /\
  vr_size r = u16 (ri_qsize kri) /\
  vr_mask r = vr_size r - 1 /\
  (forall i, Z.land i (vr_mask r) = i mod vr_size r) /\
  vr_cur_aidx r = 0 /\ vr_msi_addr r = 0 /\ vr_msi_msg r = 0 /\
  (forall s, vr_stats r s = 0) /\
  vs_leased vs = true /\ vs_map vs <> None /\ vs_pa vs = ri_qaddr kri /\
  vs_worker vs = true /\
  (idx = VIONA_VQ_TX -> ie_force_tx_copy env = false ->
   vr_txdesb r <> None /\ forall c, d_ref (desb_at r c) = 0) /\
  vr_log r = vr_log (vs_ring (rings idx)) ++ [EvCvBroadcast] /\
  (forall j, j <> idx ->
     init_rings rings (viona_ioc_ring_init env rings (Some kri)) j = rings j).
Proof.
  intros Hok. cbv zeta.
  pose proof (ring_size_check (u16 (ri_qsize kri))
                (proj1 (u16_range (ri_qsize kri)))) as Hchk.
  revert Hok. unfold viona_ioc_ring_init.
  destruct (ri_index kri >=? VIONA_VQ_MAX) eqn:Eidx; [discriminate|].
  cbv zeta.
  destruct ((u16 (ri_qsize kri) =? 0) || (u16 (ri_qsize kri) >? VRING_MAX_LEN)
            || negb (Z.shiftl 1 (ffs (u16 (ri_qsize kri)) - 1) =?
                     u16 (ri_qsize kri))) eqn:Esz; [discriminate|].
  destruct (proj1 Hchk eq_refl) as (k & Hk & Eq). clear Hchk.
  set (idx := ri_index kri). set (q := u16 (ri_qsize kri)) in *.
  destruct (vr_state (vs_ring (rings idx))) eqn:Est; try discriminate.
  destruct (negb (vr_state_flags (vs_ring (rings idx)) =? 0)); [discriminate|].
  destruct (renew_spec (ie_sign env) (ie_mem env) (set_lease None (rings idx)))
    as (Hc1 & Hl1 & _).
  destruct (viona_ring_lease_renew (ie_sign env) (ie_mem env)
              (set_lease None (rings idx))) as [vs1 ok1].
  cbn [fst snd] in Hc1, Hl1.
  destruct ok1; cbn [negb]; [|discriminate].
  match goal with
  | |- context [viona_ring_map ?m ?v] =>
    destruct (map_spec m v) as (Hc3 & _ & Hl3 & Hp3 & _ & _ & Hm3);
    destruct (viona_ring_map m v) as [vs3 ok3]
  end.
  cbn [fst snd] in Hc3, Hl3, Hp3, Hm3.
  destruct ok3; cbn [negb]; [|discriminate].
  destruct (ie_worker env); cbn [negb]; [|discriminate].
  intros _. cbn [init_rings]. unfold set_setup. rewrite Z.eqb_refl.
  unfold same_control in Hc1, Hc3. cbn in Hc1, Hc3, Hl3, Hp3.
  assert (Hmask : u16 (q - 1) = q - 1).
  { apply u16_small. pose proof (u16_range (ri_qsize kri)). fold q in H.
    assert (0 < 2 ^ k) by (apply Z.pow_pos_nonneg; lia). lia. }
  split; [lia|]. split; [reflexivity|].
  assert (Hsz3 : vr_size (vs_ring vs3) = q) by tauto.
  assert (Hmk3 : vr_mask (vs_ring vs3) = q - 1) by (rewrite <- Hmask; tauto).
  assert (Hlog3 : vr_log (vs_ring vs3) = vr_log (vs_ring (rings idx))).
  { destruct Hc3 as (_ & _ & _ & _ & _ & _ & _ & _ & _ & _ & _ & ->).
    tauto. }
  destruct (idx =? VIONA_VQ_TX) eqn:Etx;
    destruct (ie_force_tx_copy env) eqn:Efc; cbn [andb negb];
    cbn -[Z.eqb Z.modulo Z.land Z.pow];
    rewrite ?Hsz3, ?Hmk3, ?Hlog3, ?Hl3, ?Hp3;
    (split; [reflexivity|]);
    (split; [exists k; split; [exact Hk | exact Eq]|]);
    (split; [reflexivity|]);
    (split; [reflexivity|]);
    (split; [intros i; rewrite Eq; apply mask_is_mod; lia|]);
    do 8 (split; [first [reflexivity | assumption | congruence]|]);
    (split; [intros E1 E2;
             first [ discriminate E2
                   | apply Z.eqb_neq in Etx; contradiction
                   | split; [discriminate | reflexivity] ]|]);
    (split; [reflexivity|]);
    (intros j Hj; destruct (j =? idx) eqn:Ej;
     [apply Z.eqb_eq in Ej; contradiction | reflexivity]).
Qed.

Lemma ring_init_ready_witness :
  init_err (viona_ioc_ring_init init_env fresh_rings (Some tx_init_256)) =
    Some IOC_OK /\
  vr_size (vs_ring (init_rings fresh_rings
                      (viona_ioc_ring_init init_env fresh_rings
                         (Some tx_init_256)) 1)) = 256.
Proof.
  assert (H : init_err (viona_ioc_ring_init init_env fresh_rings
                          (Some tx_init_256)) = Some IOC_OK)
    by (vm_compute; reflexivity).
  split; [exact H|].
  destruct (ring_init_ready init_env fresh_rings tx_init_256 H)
    as (_ & _ & _ & _ & Hs & _).
  exact Hs.
Defined.

Lemma fail_spec vs :
  vr_state (vs_ring (ring_init_fail vs)) = vr_state (vs_ring vs) /\
  vr_state_flags (vs_ring (ring_init_fail vs)) = vr_state_flags (vs_ring vs) /\
  vr_log (vs_ring (ring_init_fail vs)) = vr_log (vs_ring vs) /\
  vr_size (vs_ring (ring_init_fail vs)) = 0 /\
  vr_mask (vs_ring (ring_init_fail vs)) = 0 /\
  vs_leased (ring_init_fail vs) = false /\
  vr_txdesb (vs_ring (ring_init_fail vs)) = None /\
  vs_txiov (ring_init_fail vs) = false /\
  vs_worker (ring_init_fail vs) = vs_worker vs /\
  (vs_map vs = None \/ vs_leased vs = true -> vs_map (ring_init_fail vs) = None).
Proof.
  unfold ring_init_fail. cbv zeta.
  destruct (drop_spec vs) as (Hc & Hl & Hp & Ht & Hw & Hm).
  unfold same_control in Hc. cbn.
  repeat split; try tauto.
Qed.

Lemma fail_map vs :
  vs_map (ring_init_fail vs) = if vs_leased vs then None else vs_map vs.
Proof.
  unfold ring_init_fail, viona_ring_lease_drop.
  destruct (vs_leased vs); reflexivity.
Qed.

(** What a refused renewal leaves of the pointers of a ring that held no
    lease: nothing when the lease itself was granted (the regions did not
    map), and what was there when it was refused. *)
Lemma renew_map sign m vs :
  vs_leased vs = false ->
  snd (viona_ring_lease_renew sign m vs) = false ->
  (sign <> None -> vs_map (fst (viona_ring_lease_renew sign m vs)) = None) /\
  (sign = None -> vs_map (fst (viona_ring_lease_renew sign m vs)) = vs_map vs).
Proof.
  intros Hl. unfold viona_ring_lease_renew. cbv zeta.
  assert (Hd : viona_ring_lease_drop vs = vs)
    by (unfold viona_ring_lease_drop; rewrite Hl; reflexivity).
  rewrite Hd.
  destruct sign as [lease|].
  2:{ cbn. intros _. split; [intros H; contradiction | reflexivity]. }
  change (vs_leased (set_lease (Some lease) vs)) with true. cbv iota.
  set (vs2 := set_lease (Some lease) vs).
  destruct (negb (vs_pa vs2 =? 0) && negb (vr_size (vs_ring vs2) =? 0)).
  2:{ cbn [fst snd]. intros E. discriminate E. }
  destruct (map_spec m vs2) as (_ & _ & Hl3 & _ & _ & _ & Hm3).
  destruct (viona_ring_map m vs2) as [vs3 ok]. cbn [fst snd] in *.
  destruct ok; cbn [fst snd].
  - rewrite Hl3. intros E. discriminate E.
  - intros _. split; [|intros E; discriminate E].
    intros _. unfold viona_ring_lease_drop. rewrite Hl3.
    change (vs_leased vs2) with true. reflexivity.
Qed.

(** X22. A set-up that fails after its request passed validation (an index
    below [VIONA_VQ_MAX], a size that is a power of two up to 32768, the
    ring in RESET) leaves the ring as a ring in RESET should be: whether the
    lease was refused, the regions did not map or the worker could not be
    created, [viona_ioc_ring_init] returns EBUSY, EINVAL or ENOMEM with the
    ring still in RESET, its size and mask zero, no lease held, no
    reclamation descriptors and no TX segment array, and nothing added to
    its log.  The pointers into guest memory are cleared whenever the lease
    was granted; when it was refused the label [fail] finds no lease to
    drop and leaves them as they were on entry.  No other ring of the link
    changes. *)
Theorem ring_init_failure_clean env rings kri err :
  init_err (viona_ioc_ring_init env rings (Some kri)) = Some err ->
  err <> IOC_OK ->
  ri_index kri < VIONA_VQ_MAX ->
  (exists k, 0 <= k <= 15 /\ u16 (ri_qsize kri) = 2 ^ k) ->
  vr_state (vs_ring (rings (ri_index kri))) = VRS_RESET ->
  let rings' := init_rings rings (viona_ioc_ring_init env rings (Some kri)) in
  let idx := ri_index kri in
  (forall j, j <> idx -> rings' j = rings j) /\
  vr_state (vs_ring (rings' idx)) = VRS_RESET /\
  vr_size (vs_ring (rings' idx)) = 0 /\
  vr_mask (vs_ring (rings' idx)) = 0 /\
  vs_leased (rings' idx) = false /\
  vr_txdesb (vs_ring (rings' idx)) = None /\
  vs_txiov (rings' idx) = false /\
  vs_worker (rings' idx) = vs_worker (rings idx) /\
  (ie_sign env <> None -> vs_map (rings' idx) = None) /\
  (ie_sign env = None -> vs_map (rings' idx) = vs_map (rings idx)) /\
  vr_log (vs_ring (rings' idx)) = vr_log (vs_ring (rings idx)) /\
  (err = IOC_EBUSY \/ err = IOC_EINVAL \/ err = IOC_ENOMEM) /\
  (err = IOC_ENOMEM -> ie_worker env = false) /\
  (ie_sign env = None -> err = IOC_EBUSY).
Proof.
  intros Herr Hne Hidx Hsz Hst. cbv zeta. revert Herr.
  pose proof (ring_size_check (u16 (ri_qsize kri))
                (proj1 (u16_range (ri_qsize kri)))) as Hchk.
  apply (proj2 Hchk) in Hsz. clear Hchk.
  unfold viona_ioc_ring_init.
  destruct (ri_index kri >=? VIONA_VQ_MAX) eqn:Eidx; [lia|].
  cbv zeta. rewrite Hsz.
  set (idx := ri_index kri) in *. set (q := u16 (ri_qsize kri)) in *.
  rewrite Hst.
  destruct (negb (vr_state_flags (vs_ring (rings idx)) =? 0)); [discriminate|].
  assert (Hother : forall vs j, j <> idx -> set_setup idx vs rings j = rings j).
  { intros vs j Hj. unfold set_setup.
    destruct (j =? idx) eqn:Ej; [apply Z.eqb_eq in Ej; contradiction | reflexivity]. }
  assert (Hsame : forall vs, set_setup idx vs rings idx = vs).
  { intros vs. unfold set_setup. now rewrite Z.eqb_refl. }
  destruct (renew_spec (ie_sign env) (ie_mem env) (set_lease None (rings idx)))
    as (Hc1 & Hl1 & _ & _ & Hw1 & _ & Hs1).
  pose proof (renew_map (ie_sign env) (ie_mem env) (set_lease None (rings idx))
                eq_refl) as Hmap1.
  destruct (viona_ring_lease_renew (ie_sign env) (ie_mem env)
              (set_lease None (rings idx))) as [vs1 ok1].
  cbn [fst snd] in Hc1, Hl1, Hw1, Hs1, Hmap1.
  unfold same_control in Hc1. cbn in Hc1, Hw1.
  destruct ok1; cbn [negb].
  2:{ intros E. injection E as <-. cbn [init_rings].
      split; [intros j Hj; apply Hother; exact Hj|]. rewrite Hsame.
      destruct (fail_spec vs1) as (F1 & F2 & F3 & F4 & F5 & F6 & F7 & F8 & F9 & _).
      destruct (Hmap1 eq_refl) as (Hgranted & Hrefused).
      pose proof (fail_map vs1) as Fm. rewrite Hl1 in Fm.
      repeat match goal with H : _ /\ _ |- _ => destruct H end.
      splits; try assumption; try congruence;
        first [ intros Hs; rewrite Fm; apply Hgranted; exact Hs
              | intros Hs; rewrite Fm; apply Hrefused; exact Hs
              | left; reflexivity ]. }
  clear Hmap1.
  assert (Hsign : ie_sign env <> None)
    by (intros E; specialize (Hs1 E); discriminate Hs1).
  match goal with
  | |- context [viona_ring_map ?m ?v] =>
    destruct (map_spec m v) as (Hc3 & _ & Hl3 & _ & _ & Hw3 & Hm3);
    destruct (viona_ring_map m v) as [vs3 ok3]
  end.
  cbn [fst snd] in Hc3, Hl3, Hw3, Hm3.
  unfold same_control in Hc3. cbn in Hc3, Hl3, Hw3.
  destruct ok3; cbn [negb].
  2:{ intros E. injection E as <-. cbn [init_rings].
      split; [intros j Hj; apply Hother; exact Hj|]. rewrite Hsame.
      destruct (fail_spec vs3) as (F1 & F2 & F3 & F4 & F5 & F6 & F7 & F8 & F9 & _).
      pose proof (fail_map vs3) as Fm.
      destruct Hm3 as (Hm3 & Hr3).
      repeat match goal with H : _ /\ _ |- _ => destruct H end.
      splits; try assumption; try congruence;
        first [ intros _; rewrite Fm, Hm3; destruct (vs_leased vs3); reflexivity
              | right; left; reflexivity ]. }
  destruct (ie_worker env) eqn:Ework; cbn [negb].
  { intros E. injection E as <-. contradiction. }
  intros E. injection E as <-. cbn [init_rings].
  split; [intros j Hj; apply Hother; exact Hj|]. rewrite Hsame.
  match goal with
  | |- context [ring_init_fail ?v] =>
    destruct (fail_spec v) as (F1 & F2 & F3 & F4 & F5 & F6 & F7 & F8 & F9 & _);
    pose proof (fail_map v) as Fm;
    set (vf := ring_init_fail v) in *
  end.
  assert (Hleased : vs_map vf = None).
  { rewrite Fm.
    destruct (idx =? VIONA_VQ_TX); destruct (ie_force_tx_copy env);
      cbn; rewrite Hl3, Hl1; reflexivity. }
  assert (Hf : vr_state (vs_ring vf) = VRS_RESET /\
               vs_worker vf = vs_worker (rings idx) /\
               vr_log (vs_ring vf) = vr_log (vs_ring (rings idx))).
  { rewrite F1, F3, F9.
    repeat match goal with H : _ /\ _ |- _ => destruct H end.
    destruct (idx =? VIONA_VQ_TX); destruct (ie_force_tx_copy env);
      cbn; repeat split; congruence. }
  destruct Hf as (Hf1 & Hf2 & Hf3).
  splits; try assumption; try congruence;
    first [ intros _; exact Hleased | right; right; reflexivity ].
Qed.

Lemma ring_init_failure_clean_witness :
  (init_err (viona_ioc_ring_init init_env_no_worker fresh_rings
               (Some tx_init_256)) = Some IOC_ENOMEM /\
   ri_index tx_init_256 < VIONA_VQ_MAX /\
   u16 (ri_qsize tx_init_256) = 2 ^ 8 /\
   vr_state (vs_ring (fresh_rings (ri_index tx_init_256))) = VRS_RESET) /\
  vs_leased (init_rings fresh_rings
               (viona_ioc_ring_init init_env_no_worker fresh_rings
                  (Some tx_init_256)) 1) = false /\
  vs_map (init_rings fresh_rings
            (viona_ioc_ring_init init_env_no_worker fresh_rings
               (Some tx_init_256)) 1) = None.
Proof.
  assert (H : init_err (viona_ioc_ring_init init_env_no_worker fresh_rings
                          (Some tx_init_256)) = Some IOC_ENOMEM)
    by (vm_compute; reflexivity).
  assert (Hi : ri_index tx_init_256 < VIONA_VQ_MAX) by reflexivity.
  assert (Hq : u16 (ri_qsize tx_init_256) = 2 ^ 8) by reflexivity.
  assert (Hs : vr_state (vs_ring (fresh_rings (ri_index tx_init_256))) = VRS_RESET)
    by reflexivity.
  assert (Hk : exists k, 0 <= k <= 15 /\ u16 (ri_qsize tx_init_256) = 2 ^ k)
    by (exists 8; split; [lia | exact Hq]).
  split; [splits; assumption|].
  destruct (ring_init_failure_clean init_env_no_worker fresh_rings tx_init_256
              IOC_ENOMEM H ltac:(discriminate) Hi Hk Hs)
    as (_ & _ & _ & _ & Hl & _ & _ & _ & Hm & _).
  split; [exact Hl|]. apply Hm. discriminate.
Defined.

(** ** Buffers taken and buffers returned *)

Lemma u16_sub_l x y : u16 (u16 x - y) = u16 (x - y).
Proof. unfold u16. rewrite Zminus_mod_idemp_l. reflexivity. Qed.

Lemma in_flight_same r r' :
  vr_cur_aidx r' = vr_cur_aidx r -> vr_used_idx r' = vr_used_idx r ->
  in_flight r' = in_flight r.
Proof. unfold in_flight. now intros -> ->. Qed.

Lemma in_flight_stat r s : in_flight (VIONA_RING_STAT_INCR r s) = in_flight r.
Proof. reflexivity. Qed.

(** After a pop that handed out a chain, [k] further pops and [k + 1]
    pushes restore the count. *)
Lemma in_flight_returned r r' k :
  u16 (vr_cur_aidx r' - k) = u16 (vr_cur_aidx r + 1) ->
  vr_used_idx r' = u16 (vr_used_idx r + (k + 1)) ->
  in_flight r' = in_flight r.
Proof.
  unfold in_flight. intros Hc Hu. rewrite Hu, u16_sub_r.
  replace (vr_cur_aidx r' - (vr_used_idx r + (k + 1)))
    with (vr_cur_aidx r' - k - (vr_used_idx r + 1)) by lia.
  rewrite <- u16_sub_l, Hc, u16_sub_l. f_equal. lia.
Qed.

Lemma popchain_indices ring m niov :
  vr_used_idx (fst (vq_popchain ring m niov)) = vr_used_idx ring /\
  match snd (vq_popchain ring m niov) with
  | PopChain _ _ =>
    vr_cur_aidx (fst (vq_popchain ring m niov)) = u16 (vr_cur_aidx ring + 1)
  | _ => vr_cur_aidx (fst (vq_popchain ring m niov)) = vr_cur_aidx ring
  end.
Proof.
  pose proof (vq_popchain_frame ring m niov) as Hf.
  pose proof (popchain_position ring m niov) as Hp.
  split; [unfold same_but_aidx_stats in Hf; tauto|].
  destruct (snd (vq_popchain ring m niov)); try tauto.
  destruct Hp as (-> & _). reflexivity.
Qed.

Lemma in_flight_recv_plain features r m mp msz :
  in_flight (fst (fst (viona_recv_plain features r m mp msz))) = in_flight r.
Proof.
  unfold viona_recv_plain. cbv zeta.
  destruct (popchain_indices r m VTNET_MAXSEGS) as (Hu & Hc).
  destruct (vq_popchain r m VTNET_MAXSEGS) as [r1 [|iov cookie|]];
    cbn [fst snd] in Hu, Hc |- *;
    try (apply in_flight_same; assumption).
  assert (Hpush : forall r2 len,
            vr_cur_aidx r2 = vr_cur_aidx r1 -> vr_used_idx r2 = vr_used_idx r1 ->
            in_flight (vq_pushchain r2 len cookie) = in_flight r).
  { intros r2 len H1 H2.
    destruct (vq_pushchain_fields r2 len cookie) as (Pc & Pu & _).
    apply (in_flight_returned r _ 0).
    - rewrite Pc, H1, Hc, Z.sub_0_r. apply u16_idem.
    - rewrite Pu, H2, Hu. reflexivity. }
  destruct (iov_len (hd iovec0 iov) <? sizeof_virtio_net_hdr).
  { cbn [fst]. unfold plain_bad_frame. cbv zeta. apply Hpush; reflexivity. }
  destruct (plain_copy iov (m_blocks mp) m) as [[m1 copied] e].
  destruct (negb (copied =? msz)); cbn [fst].
  - unfold plain_bad_frame. cbv zeta. apply Hpush; reflexivity.
  - apply Hpush; reflexivity.
Qed.

Lemma merged_loop_indices mp msz hdr :
  forall room r m iov cookie chunk copied e buf_idx uelem,
    let o := merged_loop room r m mp msz hdr iov cookie chunk copied e
               buf_idx uelem in
    u16 (vr_cur_aidx (mo_ring o) - mo_buf_idx o) = u16 (vr_cur_aidx r - buf_idx) /\
    vr_used_idx (mo_ring o) = vr_used_idx r.
Proof.
  induction room as [|room IH]; intros r m iov cookie chunk copied e buf_idx uelem;
    cbv zeta; cbn [merged_loop];
    destruct (merged_copy_chain iov mp m chunk copied e) as [[[m1 ch] cp] e1];
    destruct (negb e1); cbn [mo_ring mo_buf_idx]; try (split; reflexivity).
  destruct (popchain_indices r m1 VTNET_MAXSEGS) as (Hu & Hc).
  destruct (vq_popchain r m1 VTNET_MAXSEGS) as [r1 [|iov' cookie'|]];
    cbn [fst snd] in Hu, Hc; cbn [mo_ring mo_buf_idx];
    try (rewrite Hc, Hu; split; reflexivity).
  assert (Hstep : u16 (vr_cur_aidx r1 - (buf_idx + 1)) =
                  u16 (vr_cur_aidx r - buf_idx)).
  { rewrite Hc, u16_sub_l. f_equal. lia. }
  destruct (cp <? msz); cbn [mo_ring mo_buf_idx].
  - match goal with
    | |- context [merged_loop room ?a ?b mp msz hdr ?c ?d ?f ?g ?h ?i ?j] =>
      destruct (IH a b c d f g h i j) as (I1 & I2)
    end.
    cbv zeta in I1, I2. rewrite I1, I2, Hstep, Hu. split; reflexivity.
  - rewrite Hstep, Hu. split; reflexivity.
Qed.

Lemma mrgrx_loop_indices uidx elem :
  forall n i r,
    vr_cur_aidx (mrgrx_loop n i uidx elem r) = vr_cur_aidx r /\
    vr_used_idx (mrgrx_loop n i uidx elem r) = vr_used_idx r.
Proof.
  induction n as [|n IH]; intros i r; cbn [mrgrx_loop]; [split; reflexivity|].
  cbv zeta.
  match goal with
  | |- context [mrgrx_loop n ?a uidx elem ?b] => destruct (IH a b) as (I1 & I2)
  end.
  rewrite I1, I2. split; reflexivity.
Qed.

Lemma merged_done_indices r err buf_idx uelem :
  vr_cur_aidx (merged_done r err buf_idx uelem) = vr_cur_aidx r /\
  vr_used_idx (merged_done r err buf_idx uelem) =
    u16 (vr_used_idx r + (buf_idx + 1)).
Proof.
  unfold merged_done. cbv zeta.
  set (r1 := match err with EOK => r | _ => _ end).
  assert (H1 : vr_cur_aidx r1 = vr_cur_aidx r /\ vr_used_idx r1 = vr_used_idx r)
    by (subst r1; destruct err; split; reflexivity).
  destruct H1 as (Hc & Hu). rewrite <- Hc, <- Hu.
  unfold vq_pushchain_mrgrx. cbv zeta.
  destruct (buf_idx + 1 =? 1) eqn:E1.
  - apply Z.eqb_eq in E1. rewrite E1. cbn.
    split; [reflexivity|]. unfold load_used_idx. apply u16_push_idx.
  - destruct (mrgrx_loop_indices (load_used_idx r1) uelem
                (Z.to_nat (u32 (buf_idx + 1))) 0 r1) as (I1 & I2).
    cbn. rewrite I1. split; [reflexivity|].
    unfold load_used_idx. apply u16_push_idx.
Qed.

Lemma in_flight_recv_merged features r m mp msz uelem0 :
  in_flight (fst (fst (viona_recv_merged features r m mp msz uelem0))) =
  in_flight r.
Proof.
  unfold viona_recv_merged. cbv zeta.
  destruct (popchain_indices r m VTNET_MAXSEGS) as (Hu & Hc).
  destruct (vq_popchain r m VTNET_MAXSEGS) as [r1 [|iov cookie|]];
    cbn [fst snd] in Hu, Hc |- *;
    try (rewrite in_flight_stat; apply in_flight_same; assumption).
  destruct (iov_len (hd iovec0 iov) <? sizeof_virtio_net_mrgrxhdr).
  { cbn [fst].
    destruct (merged_done_indices r1 EINVAL 0
                (list_set 0 {| id := cookie;
                               len := u32 (iov_len (hd iovec0 iov)) |} uelem0))
      as (Dc & Du).
    apply (in_flight_returned r _ 0).
    - rewrite Dc, Hc, Z.sub_0_r. apply u16_idem.
    - rewrite Du, Hu. reflexivity. }
  destruct (iov_len (hd iovec0 iov) >? sizeof_virtio_net_mrgrxhdr);
    [destruct (viona_copy_mblk _ _ _ _ _) as [[m1 c] e]|];
    (match goal with
     | |- context [merged_loop ?a ?b ?c ?d ?e0 ?f ?g ?h ?i ?j ?k ?l ?n] =>
       destruct (merged_loop_indices d e0 f a b c g h i j k l n) as (Lc & Lu);
       cbv zeta in Lc, Lu;
       set (o := merged_loop a b c d e0 f g h i j k l n) in *
     end);
    (assert (Hr : forall re,
               re = match mo_err o with
                    | EOK => if negb (mo_copied o =? msz)
                             then (VIONA_RING_STAT_INCR (mo_ring o) rs_too_short,
                                   EINVAL)
                             else (mo_ring o, EOK)
                    | e' => (mo_ring o, e')
                    end ->
               vr_cur_aidx (fst re) = vr_cur_aidx (mo_ring o) /\
               vr_used_idx (fst re) = vr_used_idx (mo_ring o));
     [ intros re ->; destruct (mo_err o); cbn [fst]; try (split; reflexivity);
       destruct (negb (mo_copied o =? msz)); split; reflexivity
     | specialize (Hr _ eq_refl);
       destruct (match mo_err o with EOK => _ | _ => _ end) as [r2 err];
       cbn [fst] in Hr |- *; destruct Hr as (Rc & Ru);
       match goal with
       | |- in_flight (merged_done r2 err ?b ?u) = _ =>
         destruct (merged_done_indices r2 err b u) as (Dc & Du)
       end;
       apply (in_flight_returned r _ (mo_buf_idx o));
       [ rewrite Dc, Rc, Lc, Hc, Z.sub_0_r; apply u16_idem
       | rewrite Du, Ru, Lu, Hu; reflexivity ] ]).
Qed.

Lemma in_flight_rx_loop env link :
  forall frames r m nrx ndrop,
    in_flight (ro_ring (rx_loop env link frames r m nrx ndrop)) = in_flight r.
Proof.
  induction frames as [|mp next IH]; intros r m nrx ndrop; cbn [rx_loop];
    [reflexivity|].
  cbv zeta.
  destruct (rx_emulate env link mp) as [mp1|]; [|apply IH].
  destruct (rx_hook env link mp1) as [mp2|].
  2:{ rewrite IH. apply in_flight_stat. }
  assert (Hpad : match rx_pad env r mp2 (msgsize (m_blocks mp1)) with
                 | Some (r', _, _) => in_flight r' = in_flight r
                 | None => True
                 end).
  { unfold rx_pad. destruct (_ =? NEED_VLAN_PAD_SIZE); [reflexivity|].
    destruct (_ <? MIN_BUF_SIZE); [|reflexivity].
    destruct (rx_allocb env mp2); [apply in_flight_stat | exact I]. }
  destruct (rx_pad env r mp2 (msgsize (m_blocks mp1))) as [[[r1 mp3] size]|];
    [|apply IH].
  assert (Hrecv : in_flight
            (fst (fst (if negb (Z.land (l_features link) VIRTIO_NET_F_MRG_RXBUF =? 0)
                       then viona_recv_merged (l_features link) r1 m mp3 size
                              (rx_stack_uelem env)
                       else viona_recv_plain (l_features link) r1 m mp3 size))) =
            in_flight r1).
  { destruct (negb _); [apply in_flight_recv_merged | apply in_flight_recv_plain]. }
  destruct (if negb _ then _ else _) as [[r2 m2] err]. cbn [fst] in Hrecv.
  assert (H2 : in_flight r2 = in_flight r) by congruence.
  destruct err; cbn [ro_ring]; try exact H2; rewrite IH; exact H2.
Qed.


(** The one buffer of [one_desc_ring] is all that its parser can hand out,
    and it lies off the rings. *)
Lemma one_desc_chains_off n :
  0 < n <= 2048 -> chains_off_rings four_entry_map (one_desc_ring n).
Proof.
  intros Hn r m niov r' iov cookie Hd Hl Hs Hniov Hpop.
  destruct (vq_popchain_chain r m niov r' iov cookie Hniov Hpop) as [_ Hsegs].
  eapply Forall_impl; [|exact Hsegs].
  intros v (d & Hin & _ & _ & Hkva & Hvl).
  assert (Htab : forall t, in_table r t ->
            t = {| vd_addr := 16384; vd_len := n;
                   vd_flags := VRING_DESC_F_WRITE; vd_next := 0 |}).
  { intros t (i & _ & ->). unfold load_descr. rewrite Hd.
    cbn [one_desc_ring mk_ring vr_descr vd_addr vd_len vd_flags vd_next].
    rewrite (u32_small n) by lia. reflexivity. }
  destruct Hin as [Hin | (t & vindir & k & Ht & Hti & _)].
  - rewrite (Htab d Hin) in Hkva, Hvl. cbn [vd_addr vd_len] in Hkva, Hvl.
    unfold viona_gpa2kva in Hkva. rewrite Hl in Hkva.
    cbn [one_desc_ring mk_ring vr_lease] in Hkva. unfold flat_lease in Hkva.
    assert (Ein : (0 <=? 16384) && (16384 + n <=? 16777216) = true).
    { cbn [Z.leb Z.compare andb]. apply Z.leb_le. lia. }
    rewrite Ein in Hkva. injection Hkva as <-. rewrite Hvl.
    unfold off_rings, apart, four_entry_map, sizeof_virtio_desc,
      sizeof_virtio_used.
    cbn [one_desc_ring mk_ring vr_size map_descr map_avail_flags map_used_flags].
    rewrite !Bool.andb_true_iff, !Bool.orb_true_iff, !Z.leb_le. lia.
  - rewrite (Htab t Ht) in Hti. discriminate Hti.
Qed.


(** The entry that [viona_recv_merged] does not assign.  A frame of 1514
    bytes fills the first posted buffer of 1526 bytes behind its 12-byte
    header; an empty block trails, so the copy does not report the end, a
    second chain is popped and counted in the header, and the loop leaves
    with every byte copied.  Two entries are published: the first names
    chain 0 with 1526 bytes, the second is what the array held on entry,
    here id 77 and length 99, and chain 1 is named by none. *)
Example recv_merged_unassigned_entry :
  let res := viona_recv_merged VIRTIO_NET_F_MRG_RXBUF four_desc_ring zero_mem
               trailing_empty_1514 1514
               (repeat {| id := 77; len := 99 |} 32) in
  let ring' := fst (fst res) in
  msgsize (m_blocks trailing_empty_1514) = 1514 /\
  snd res = EOK /\
  vr_cur_aidx ring' = 2 /\ vr_used_idx ring' = 2 /\
  load16 (snd (fst res)) (20480 + off_vrh_bufs) = 2 /\
  vr_used_ring ring' 0 = {| vu_idx := 0; vu_tlen := 1526 |} /\
  vr_used_ring ring' 1 = {| vu_idx := 77; vu_tlen := 99 |}.
Proof. cbv zeta. splits; vm_compute; reflexivity. Qed.


(** ** Transmit buffers and [vr_xfer_outstanding] *)

Lemma u16_sub_u32 a b : u16 (a - u32 b) = u16 (a - b).
Proof.
  unfold u16, u32.
  rewrite (Z.mod_eq b (2 ^ 32)) by lia.
  replace (a - (b - 2 ^ 32 * (b / 2 ^ 32)))
    with (a - b + (2 ^ 16 * (b / 2 ^ 32)) * 2 ^ 16)
    by (change (2 ^ 32) with (2 ^ 16 * 2 ^ 16); lia).
  apply Z.mod_add. lia.
Qed.

Lemma accounted_fields r r' :
  vr_cur_aidx r' = vr_cur_aidx r -> vr_used_idx r' = vr_used_idx r ->
  vr_xfer_outstanding r' = vr_xfer_outstanding r ->
  accounted 0 r r'.
Proof.
  unfold accounted, tx_unaccounted. intros -> -> ->.
  rewrite Z.add_0_r. symmetry. apply u16_idem.
Qed.

Lemma accounted_refl r : accounted 0 r r.
Proof. now apply accounted_fields. Qed.

Lemma accounted_trans d1 d2 r1 r2 r3 :
  accounted d1 r1 r2 -> accounted d2 r2 r3 -> accounted (d1 + d2) r1 r3.
Proof.
  unfold accounted. intros H1 H2. rewrite H2, H1, u16_add_l. f_equal. lia.
Qed.

Lemma accounted_0 r1 r2 r3 :
  accounted 0 r1 r2 -> accounted 0 r2 r3 -> accounted 0 r1 r3.
Proof. intros H1 H2. exact (accounted_trans 0 0 _ _ _ H1 H2). Qed.

Lemma accounted_desb_set c d r : accounted 0 r (desb_set c d r).
Proof. now apply accounted_fields. Qed.

Lemma accounted_stat r s : accounted 0 r (VIONA_RING_STAT_INCR r s).
Proof. now apply accounted_fields. Qed.

Lemma accounted_emit e r : accounted 0 r (emit e r).
Proof. now apply accounted_fields. Qed.

Lemma intr_ring_fields r :
  vr_cur_aidx (viona_intr_ring r) = vr_cur_aidx r /\
  vr_used_idx (viona_intr_ring r) = vr_used_idx r /\
  vr_xfer_outstanding (viona_intr_ring r) = vr_xfer_outstanding r.
Proof.
  unfold viona_intr_ring.
  destruct (negb (vr_msi_addr r =? 0)); [repeat split|].
  destruct (vr_intr_enabled r =? 0); repeat split.
Qed.

Lemma tx_done_fields r len c :
  vr_cur_aidx (viona_tx_done r len c) = vr_cur_aidx r /\
  vr_used_idx (viona_tx_done r len c) = u16 (vr_used_idx r + 1) /\
  vr_xfer_outstanding (viona_tx_done r len c) = vr_xfer_outstanding r.
Proof.
  unfold viona_tx_done.
  assert (Hp : vr_cur_aidx (vq_pushchain r len c) = vr_cur_aidx r /\
               vr_used_idx (vq_pushchain r len c) = u16 (vr_used_idx r + 1) /\
               vr_xfer_outstanding (vq_pushchain r len c) = vr_xfer_outstanding r).
  { destruct (vq_pushchain_fields r len c) as (Pc & Pu & _).
    split; [exact Pc|]. split; [exact Pu | reflexivity]. }
  set (p := vq_pushchain r len c) in *. clearbody p.
  destruct (Z.land (load_avail_flags p) VRING_AVAIL_F_NO_INTERRUPT =? 0);
    [|exact Hp].
  destruct (intr_ring_fields p) as (Ic & Iu & Io).
  rewrite Ic, Iu, Io. exact Hp.
Qed.

Lemma accounted_tx_done r len c : accounted (-1) r (viona_tx_done r len c).
Proof.
  destruct (tx_done_fields r len c) as (Hc & Hu & Ho).
  unfold accounted, tx_unaccounted. rewrite Hc, Hu, Ho, u16_add_l.
  replace (vr_cur_aidx r - u16 (vr_used_idx r + 1) - vr_xfer_outstanding r)
    with (vr_cur_aidx r - vr_xfer_outstanding r - u16 (vr_used_idx r + 1)) by lia.
  rewrite u16_sub_r. f_equal. lia.
Qed.

Lemma accounted_release r c : accounted 0 r (viona_desb_release r c).
Proof.
  unfold viona_desb_release. cbv zeta.
  destruct (u32 (d_ref (desb_at r c) - 1) >? 1); [apply accounted_desb_set|].
  set (r1 := desb_reset c r).
  destruct (tx_done_fields r1 (d_len (desb_at r c)) (d_cookie (desb_at r c)))
    as (Hc & Hu & Ho).
  set (r2 := viona_tx_done r1 _ _) in *.
  assert (H : accounted 0 r
                (set_xfer_outstanding (u32 (vr_xfer_outstanding r2 - 1)) r2)).
  { unfold accounted, tx_unaccounted. cbn. rewrite Hc, Hu, Ho. cbn.
    rewrite Z.add_0_r, u16_idem, u16_sub_u32.
    replace (vr_cur_aidx r - u16 (vr_used_idx r + 1) - (vr_xfer_outstanding r - 1))
      with (vr_cur_aidx r - (vr_xfer_outstanding r - 1) - u16 (vr_used_idx r + 1))
      by lia.
    rewrite u16_sub_r. f_equal. lia. }
  destruct (u32 (vr_xfer_outstanding r2 - 1) =? 0); [|exact H].
  eapply accounted_0; [exact H | apply accounted_emit].
Qed.

Lemma accounted_release_n c : forall n r, accounted 0 r (release_n n r c).
Proof.
  induction n as [|n IH]; intros r; cbn [release_n]; [apply accounted_refl|].
  eapply accounted_0; [apply accounted_release | apply IH].
Qed.

Lemma accounted_freemsgchain c :
  forall frame r, accounted 0 r (freemsgchain r c frame).
Proof.
  induction frame as [|b rest IH]; intros r; cbn [freemsgchain];
    [apply accounted_refl|].
  destruct (blk_desb b); [|apply IH].
  eapply accounted_0; [apply accounted_release | apply IH].
Qed.

Lemma accounted_drop_hook r dp iov c :
  match tx_drop_hook r dp iov c with
  | TxDone r' => accounted (-1) r r'
  | TxPanic r' => accounted 0 r r'
  end.
Proof.
  unfold tx_drop_hook. cbv zeta. destruct dp.
  - destruct (d_ref (desb_at r c) =? 2); [|apply accounted_refl].
    eapply (accounted_trans 0 (-1)); [apply accounted_desb_set|].
    apply accounted_tx_done.
  - apply accounted_tx_done.
Qed.

Lemma accounted_drop_fail r dp frame iov c :
  match tx_drop_fail r dp frame iov c with
  | TxDone r' => accounted (-1) r r'
  | TxPanic r' => accounted 0 r r'
  end.
Proof.
  unfold tx_drop_fail. cbv zeta.
  set (r1 := freemsgchain _ c frame).
  assert (H1 : accounted 0 r r1).
  { subst r1. eapply accounted_0; [|apply accounted_freemsgchain].
    destruct dp; [apply accounted_desb_set | apply accounted_refl]. }
  pose proof (accounted_drop_hook r1 dp iov c) as H2.
  destruct (tx_drop_hook r1 dp iov c) as [r'|r'].
  - exact (accounted_trans 0 (-1) _ _ _ H1 H2).
  - exact (accounted_0 _ _ _ H1 H2).
Qed.

Lemma accounted_csum K link r m hdr hbuf mblkl len :
  accounted 0 r (fst (fst (viona_tx_csum K link r m hdr hbuf mblkl len))).
Proof.
  apply accounted_fields; unfold viona_tx_csum;
    (destruct (csum_out_of_bounds _ _ _ _ _); [reflexivity|]);
    cbv zeta;
    match goal with
    | |- context [let '(_, _) := (if ?c then _ else _) in _] => destruct c
    end;
    repeat match goal with
    | |- context [if ?c then _ else _] => destruct c
    end; reflexivity.
Qed.

Lemma accounted_send K link r m dp head tail len iov c :
  match tx_send K link r m dp head tail len iov c with
  | TxDone r' => accounted (-1) r r'
  | TxPanic r' => accounted 0 r r'
  end.
Proof.
  unfold tx_send. cbv zeta.
  assert (Hgo : forall r1 f, accounted 0 r r1 ->
            accounted (-1) r
              (emit (EvMacTx f)
                 (if dp
                  then set_xfer_outstanding (u32 (vr_xfer_outstanding r1 + 1))
                         (desb_set c (with_len len (desb_at r1 c)) r1)
                  else viona_tx_done r1 len c))).
  { intros r1 f H1.
    eapply (accounted_trans (-1) 0); [|apply accounted_emit].
    destruct dp;
      [|eapply (accounted_trans 0 (-1)); [exact H1 | apply accounted_tx_done]].
    eapply (accounted_trans 0 (-1)); [exact H1|].
    unfold accounted, tx_unaccounted. cbn.
    rewrite u16_add_l, u16_sub_u32. f_equal. lia. }
  destruct (tx_needs_csum link m (iov_base (hd iovec0 iov))).
  - pose proof (accounted_csum K link r m (iov_base (hd iovec0 iov))
                  (hb_buf head) (hb_wptr head)
                  (u32 (len - iov_len (hd iovec0 iov)))) as Hc.
    destruct (viona_tx_csum _ _ _ _ _ _ _ _) as [[r1 hbuf] ok]. cbn [fst] in Hc.
    destruct ok; [apply Hgo; exact Hc|].
    match goal with
    | |- match tx_drop_fail r1 dp ?f iov c with _ => _ end =>
      pose proof (accounted_drop_fail r1 dp f iov c) as Hd;
      destruct (tx_drop_fail r1 dp f iov c) as [r'|r']
    end.
    + exact (accounted_trans 0 (-1) _ _ _ Hc Hd).
    + exact (accounted_0 _ _ _ Hc Hd).
  - apply Hgo. apply accounted_refl.
Qed.

Lemma accounted_build env dp m c :
  forall iov base_off k r tail len,
    match tx_build_tail env dp m c iov base_off k r tail len with
    | BuildOk r' _ _ => accounted 0 r r'
    | BuildFail r' _ => accounted 0 r r'
    end.
Proof.
  induction iov as [|v rest IH]; intros base_off k r tail len;
    cbn [tx_build_tail]; [apply accounted_refl|].
  destruct (tx_alloc env k); [|apply accounted_refl].
  match goal with
  | |- match tx_build_tail _ _ _ _ _ ?b ?k' ?r' ?t ?l with _ => _ end =>
    specialize (IH b k' r' t l);
    destruct (tx_build_tail env dp m c rest b k' r' t l);
    (eapply accounted_0; [|exact IH]);
    destruct dp; first [apply accounted_desb_set | apply accounted_refl]
  end.
Qed.

Lemma accounted_hook env link r dp c head tail :
  match tx_hook env link r dp c head tail with
  | HookOk r' _ _ _ => accounted 0 r r'
  | HookDrop r' => accounted 0 r r'
  end.
Proof.
  unfold tx_hook. destruct (l_hook_out link); [|apply accounted_refl].
  cbv zeta.
  set (r1 := if dp then desb_ref_add c 1 r else r).
  assert (H1 : accounted 0 r r1).
  { subst r1. destruct dp; [apply accounted_desb_set | apply accounted_refl]. }
  destruct (tx_hook_run env (tx_frame head tail)) as [released rewritten | freed].
  - set (r2 := release_n _ r1 c).
    assert (H2 : accounted 0 r r2).
    { eapply accounted_0; [exact H1 | apply accounted_release_n]. }
    destruct dp; [|exact H2].
    assert (H3 : accounted 0 r (desb_ref_add c (-1) r2)).
    { eapply accounted_0; [exact H2 | apply accounted_desb_set]. }
    destruct (d_ref (desb_at (desb_ref_add c (-1) r2) c) =? 1); [|exact H3].
    eapply accounted_0; [exact H3 | apply accounted_desb_set].
  - eapply accounted_0; [exact H1|].
    eapply accounted_0; [apply accounted_stat | apply accounted_freemsgchain].
Qed.

Lemma accounted_claim env r c :
  match tx_claim env r c with
  | ClaimBusy => True
  | ClaimNoMem r' _ => accounted 0 r r'
  | Claimed r' _ _ => accounted 0 r r'
  end.
Proof.
  unfold tx_claim. destruct (vr_txdesb r) eqn:E.
  - destruct (negb (d_ref (desb_at r c) =? 0)); [exact I|].
    cbv zeta. destruct (tx_alloc env 0).
    + eapply accounted_0; apply accounted_desb_set.
    + apply accounted_desb_set.
  - destruct (tx_alloc env 0); apply accounted_refl.
Qed.

Lemma accounted_prepare env link r m iov c :
  match tx_prepare env link r m iov c with
  | Prepared r' _ _ _ _ => accounted 0 r r'
  | PrepDropFail r' _ _ => accounted 0 r r'
  | PrepDropHook r' _ => accounted 0 r r'
  end.
Proof.
  unfold tx_prepare. cbv zeta.
  destruct (u32 (iov_len (hd iovec0 iov)) <? sizeof_virtio_net_hdr);
    [apply accounted_refl|].
  pose proof (accounted_claim env r c) as Hc.
  destruct (tx_claim env r c) as [|r1 dp|r1 dp head];
    [apply accounted_refl | exact Hc |].
  destruct (tx_copy_hdrs m (tl iov) VIONA_MAX_HDRS_LEN head _)
    as [[[head1 len1] rest] base_off].
  pose proof (accounted_build env dp m c rest base_off 1 r1 [] len1) as Hb.
  destruct (tx_build_tail env dp m c rest base_off 1 r1 [] len1)
    as [r2 tail len2 | r2 tail].
  - pose proof (accounted_hook env link r2 dp c head1 tail) as Hh.
    destruct (tx_hook env link r2 dp c head1 tail) as [r3 dp3 h3 t3 | r3];
      (eapply accounted_0; [exact Hc|]);
      (eapply accounted_0; [exact Hb | exact Hh]).
  - eapply accounted_0; [exact Hc | exact Hb].
Qed.

Lemma accounted_tx K env link ring m :
  match viona_tx K env link ring m with
  | TxDone r' => accounted 0 ring r'
  | TxPanic r' => accounted 1 ring r'
  end.
Proof.
  unfold viona_tx.
  destruct (popchain_indices ring m (vr_size ring)) as (Hu & Hc).
  pose proof (vq_popchain_frame ring m (vr_size ring)) as Hf.
  destruct (vq_popchain ring m (vr_size ring)) as [r1 [|iov cookie|]];
    cbn [fst snd] in Hu, Hc, Hf.
  - eapply accounted_0; [|apply accounted_stat].
    apply accounted_fields; try assumption.
    unfold same_but_aidx_stats in Hf; tauto.
  - assert (Hpop : accounted 1 ring r1).
    { unfold accounted, tx_unaccounted. rewrite Hc, Hu, u16_add_l.
      assert (Ho : vr_xfer_outstanding r1 = vr_xfer_outstanding ring)
        by (unfold same_but_aidx_stats in Hf; tauto).
      rewrite Ho.
      replace (u16 (vr_cur_aidx ring + 1) - vr_used_idx ring -
               vr_xfer_outstanding ring)
        with (u16 (vr_cur_aidx ring + 1) -
              (vr_used_idx ring + vr_xfer_outstanding ring)) by lia.
      rewrite u16_sub_l. f_equal. lia. }
    pose proof (accounted_prepare env link r1 m iov cookie) as Hp.
    destruct (tx_prepare env link r1 m iov cookie)
      as [r dp head tail len|r dp frame|r dp].
    + pose proof (accounted_send K link r m dp head tail len iov cookie) as Hs.
      destruct (tx_send K link r m dp head tail len iov cookie) as [r'|r'].
      * exact (accounted_trans 1 (-1) _ _ _ Hpop
                 (accounted_trans 0 (-1) _ _ _ Hp Hs)).
      * exact (accounted_trans 1 0 _ _ _ Hpop (accounted_0 _ _ _ Hp Hs)).
    + pose proof (accounted_drop_fail r dp frame iov cookie) as Hs.
      destruct (tx_drop_fail r dp frame iov cookie) as [r'|r'].
      * exact (accounted_trans 1 (-1) _ _ _ Hpop
                 (accounted_trans 0 (-1) _ _ _ Hp Hs)).
      * exact (accounted_trans 1 0 _ _ _ Hpop (accounted_0 _ _ _ Hp Hs)).
    + pose proof (accounted_drop_hook r dp iov cookie) as Hs.
      destruct (tx_drop_hook r dp iov cookie) as [r'|r'].
      * exact (accounted_trans 1 (-1) _ _ _ Hpop
                 (accounted_trans 0 (-1) _ _ _ Hp Hs)).
      * exact (accounted_trans 1 0 _ _ _ Hpop (accounted_0 _ _ _ Hp Hs)).
  - apply accounted_fields; try assumption.
    unfold same_but_aidx_stats in Hf; tauto.
Qed.

(** X24. [vr_xfer_outstanding] counts exactly the transmit buffers that
    were taken and not yet returned: the position in the available ring
    less the used index less [vr_xfer_outstanding] (modulo 2^16) is the
    same after every call of [viona_tx] that returns as before it, whichever
    path the frame took, and it is the same after every
    [viona_desb_release] and after MAC freed a frame, whether that release
    published the completion or not. *)
Theorem tx_outstanding_accounts K env link ring m c frame :
  match viona_tx K env link ring m with
  | TxDone r' => tx_unaccounted r' = tx_unaccounted ring
  | TxPanic _ => True
  end /\
  tx_unaccounted (viona_desb_release ring c) = tx_unaccounted ring /\
  tx_unaccounted (mac_free ring c frame) = tx_unaccounted ring.
Proof.
  assert (H0 : forall r r', accounted 0 r r' ->
                 tx_unaccounted r' = tx_unaccounted r).
  { unfold accounted, tx_unaccounted. intros r r' ->.
    rewrite Z.add_0_r. apply u16_idem. }
  split; [|split].
  - pose proof (accounted_tx K env link ring m) as H.
    destruct (viona_tx K env link ring m); [apply H0; exact H | exact I].
  - apply H0, accounted_release.
  - apply H0. unfold mac_free. apply accounted_freemsgchain.
Qed.

(** ** Offloads offered and offloads negotiated *)

Lemma set_features_sub features_hw val x :
  Z.land (Z.lor VIONA_S_HOSTCAPS features_hw) x = 0 ->
  Z.land (viona_set_features features_hw val) x = 0.
Proof.
  intros Hx. unfold viona_set_features. cbv zeta.
  set (v0 := Z.land val (Z.lor VIONA_S_HOSTCAPS features_hw)).
  assert (H0 : Z.land v0 x = 0).
  { unfold v0. rewrite <- Z.land_assoc, Hx. apply Z.land_0_r. }
  set (v1 := if Z.land v0 VIRTIO_NET_F_CSUM =? 0 then _ else v0).
  assert (H1 : Z.land v1 x = 0).
  { unfold v1. destruct (Z.land v0 VIRTIO_NET_F_CSUM =? 0); [|exact H0].
    rewrite <- Z.land_assoc, (Z.land_comm (Z.lnot _)), Z.land_assoc, H0.
    apply Z.land_0_l. }
  destruct (Z.land v1 VIRTIO_NET_F_GUEST_CSUM =? 0); [|exact H1].
  rewrite <- Z.land_assoc, (Z.land_comm (Z.lnot _)), Z.land_assoc, H1.
  apply Z.land_0_l.
Qed.

Lemma set_features_tso_needs_csum features_hw val :
  Z.land (viona_set_features features_hw val) VIRTIO_NET_F_HOST_TSO4 <> 0 ->
  Z.land (viona_set_features features_hw val) VIRTIO_NET_F_CSUM <> 0.
Proof.
  unfold viona_set_features. cbv zeta.
  set (v0 := Z.land val (Z.lor VIONA_S_HOSTCAPS features_hw)).
  destruct (Z.land v0 VIRTIO_NET_F_CSUM =? 0) eqn:E0.
  - intros H. exfalso. apply H.
    destruct (Z.land (Z.land v0 (Z.lnot VIRTIO_NET_F_HOST_TSO4))
                VIRTIO_NET_F_GUEST_CSUM =? 0).
    + apply land_keep. apply land_lnot_same.
    + apply land_lnot_same.
  - apply Z.eqb_neq in E0. intros _.
    destruct (Z.land v0 VIRTIO_NET_F_GUEST_CSUM =? 0); [|exact E0].
    rewrite <- Z.land_assoc.
    replace (Z.land (Z.lnot VIRTIO_NET_F_GUEST_TSO4) VIRTIO_NET_F_CSUM)
      with VIRTIO_NET_F_CSUM by reflexivity.
    exact E0.
Qed.

(** X25. The driver never negotiates a transmit offload the NIC cannot do.
    Whatever the guest requests in [VNA_IOC_SET_FEATURES] on a link whose
    hardware features [viona_get_mac_capab] established, CSUM is negotiated
    only if MAC reported a checksum capability with one of the flags of
    interest, which is then the capability [viona_tx_csum] consults, and
    HOST_TSO4 only if CSUM is negotiated as well and MAC reported basic
    TCP/IPv4 LSO for packets of at least [IP_MAXPACKET] bytes. *)
Theorem offloads_backed_by_mac K lso_tcp_ipv4 ip_maxpacket mac cap0 val :
  let hw := fst (viona_get_mac_capab K lso_tcp_ipv4 ip_maxpacket mac cap0) in
  let cap_csum := snd (viona_get_mac_capab K lso_tcp_ipv4 ip_maxpacket mac cap0) in
  let f := viona_set_features hw val in
  (Z.land f VIRTIO_NET_F_CSUM <> 0 ->
   Z.land val VIRTIO_NET_F_CSUM <> 0 /\
   cap_hcksum mac = Some cap_csum /\
   Z.land cap_csum (VIONA_CAP_HCKSUM_INTEREST K) <> 0) /\
  (Z.land f VIRTIO_NET_F_HOST_TSO4 <> 0 ->
   Z.land f VIRTIO_NET_F_CSUM <> 0 /\
   exists lso_flags lso_max,
     cap_lso mac = Some (lso_flags, lso_max) /\
     Z.land lso_flags lso_tcp_ipv4 <> 0 /\ ip_maxpacket <= lso_max).
Proof.
  cbv zeta.
  assert (Hval : forall x, Z.land val x = 0 ->
            forall hw, Z.land (viona_set_features hw val) x = 0).
  { intros x Hx hw. unfold viona_set_features. cbv zeta.
    set (v0 := Z.land val (Z.lor VIONA_S_HOSTCAPS hw)).
    assert (H0 : Z.land v0 x = 0).
    { unfold v0. rewrite <- Z.land_assoc, (Z.land_comm (Z.lor _ _)),
        Z.land_assoc, Hx. apply Z.land_0_l. }
    set (v1 := if Z.land v0 VIRTIO_NET_F_CSUM =? 0 then _ else v0).
    assert (H1 : Z.land v1 x = 0).
    { unfold v1. destruct (Z.land v0 VIRTIO_NET_F_CSUM =? 0); [|exact H0].
      rewrite <- Z.land_assoc, (Z.land_comm (Z.lnot _)), Z.land_assoc, H0.
      apply Z.land_0_l. }
    destruct (Z.land v1 VIRTIO_NET_F_GUEST_CSUM =? 0); [|exact H1].
    rewrite <- Z.land_assoc, (Z.land_comm (Z.lnot _)), Z.land_assoc, H1.
    apply Z.land_0_l. }
  unfold viona_get_mac_capab. cbv zeta.
  destruct (cap_hcksum mac) as [cap|] eqn:Ecap.
  2:{ cbn [fst snd].
      change (negb (Z.land 0 VIRTIO_NET_F_CSUM =? 0)) with false. cbv iota.
      split; intros H; exfalso; apply H; apply set_features_sub; reflexivity. }
  destruct (negb (Z.land cap (VIONA_CAP_HCKSUM_INTEREST K) =? 0)) eqn:Eint.
  2:{ change (negb (Z.land 0 VIRTIO_NET_F_CSUM =? 0)) with false. cbv iota.
      cbn [fst snd].
      split; intros H; exfalso; apply H; apply set_features_sub; reflexivity. }
  apply Bool.negb_true_iff, Z.eqb_neq in Eint.
  change (negb (Z.land (Z.lor 0 VIRTIO_NET_F_CSUM) VIRTIO_NET_F_CSUM =? 0))
    with true. cbv iota.
  assert (Hcsum : forall hw,
            Z.land (viona_set_features hw val) VIRTIO_NET_F_CSUM <> 0 ->
            Z.land val VIRTIO_NET_F_CSUM <> 0).
  { intros hw H E. apply H. apply Hval. exact E. }
  destruct (cap_lso mac) as [[lso_flags lso_max]|] eqn:Elso.
  2:{ cbn [fst snd]. split.
      - intros H. split; [exact (Hcsum _ H)|]. split; [reflexivity | exact Eint].
      - intros H. exfalso. apply H. apply set_features_sub. reflexivity. }
  destruct (negb (Z.land lso_flags lso_tcp_ipv4 =? 0) &&
            (lso_max >=? ip_maxpacket)) eqn:Eok; cbn [fst snd].
  - apply Bool.andb_true_iff in Eok. destruct Eok as (E1 & E2).
    apply Bool.negb_true_iff, Z.eqb_neq in E1.
    split.
    + intros H. split; [exact (Hcsum _ H)|]. split; [reflexivity | exact Eint].
    + intros H. split; [apply set_features_tso_needs_csum; exact H|].
      exists lso_flags, lso_max. split; [reflexivity|]. split; [exact E1 | lia].
  - split.
    + intros H. split; [exact (Hcsum _ H)|]. split; [reflexivity | exact Eint].
    + intros H. exfalso. apply H. apply set_features_sub. reflexivity.
Qed.
